(** * ido-static-recomp: the analysis passes of [rrecomp.cpp]

    A shallow embedding of the instruction vector, the symbol resolver
    ([r_pass1] with [r_link_with_lui] and [r_link_with_jalr]), the CFG
    builder ([r_add_edge], [r_pass3]), the two liveness passes ([r_pass4],
    [r_pass5]), the signature inferrer ([r_pass6]) and the liveness
    annotation of the lowerer ([r_dump_instr]), with the properties the
    specification states about them. *)

From stdpp Require Import base numbers option list strings gmap.
From Stdlib Require Import ZArith Lia Ascii.

Local Open Scope Z_scope.

(** ** Machine integers

    [uint32_t] values are integers in [0, 2^32); an arithmetic result is
    brought back into range with [u32] wherever the C code computes in
    32 bits. [uint64_t] register masks are integers in [0, 2^64). *)

Definition u32 (x : Z) : Z := x `mod` 2 ^ 32.

(** ** Outcomes of a pass

    A pass either runs to its end, or the process ends early: [exit] after a
    diagnostic on stderr, a failed [assert] / [abort()], or an access outside
    a [std::vector] (undefined behaviour, about which nothing is claimed). *)

Inductive Outcome (A : Type) : Type :=
| Ok (a : A)
| Exit (status : Z) (diagnostic : string)
| Abort (what : string)
| Undefined.

Arguments Ok {A} a.
Arguments Exit {A} status diagnostic.
Arguments Abort {A} what.
Arguments Undefined {A}.

#[global] Instance Outcome_ret : MRet Outcome := λ A a, Ok a.
#[global] Instance Outcome_bind : MBind Outcome := λ A B f m,
  match m with
  | Ok a => f a
  | Exit s d => Exit s d
  | Abort w => Abort w
  | Undefined => Undefined
  end.

Definition EXIT_FAILURE : Z := 1.

(** [v[k]] on a [std::vector]: defined only inside the vector. *)
Definition vec_get {A} (v : list A) (k : Z) : Outcome A :=
  if decide (0 ≤ k) then
    match v !! Z.to_nat k with
    | Some a => Ok a
    | None => Undefined
    end
  else Undefined.

(** [v.size()] *)
Definition vec_size {A} (v : list A) : Z := Z.of_nat (length v).

(** [v[k] = f (v[k])]. *)
Definition vec_upd {A} (v : list A) (k : Z) (f : A → A) : Outcome (list A) :=
  a ← vec_get v k; Ok (<[Z.to_nat k := f a]> v).

(** ** Registers ([RabbitizerRegister_GprO32]) *)

Definition RABBITIZER_REG_GPR_O32_zero : Z := 0.
Definition RABBITIZER_REG_GPR_O32_at : Z := 1.
Definition RABBITIZER_REG_GPR_O32_v0 : Z := 2.
Definition RABBITIZER_REG_GPR_O32_v1 : Z := 3.
Definition RABBITIZER_REG_GPR_O32_a0 : Z := 4.
Definition RABBITIZER_REG_GPR_O32_a1 : Z := 5.
Definition RABBITIZER_REG_GPR_O32_a2 : Z := 6.
Definition RABBITIZER_REG_GPR_O32_a3 : Z := 7.
Definition RABBITIZER_REG_GPR_O32_t0 : Z := 8.
Definition RABBITIZER_REG_GPR_O32_t1 : Z := 9.
Definition RABBITIZER_REG_GPR_O32_t2 : Z := 10.
Definition RABBITIZER_REG_GPR_O32_t3 : Z := 11.
Definition RABBITIZER_REG_GPR_O32_t4 : Z := 12.
Definition RABBITIZER_REG_GPR_O32_t5 : Z := 13.
Definition RABBITIZER_REG_GPR_O32_t6 : Z := 14.
Definition RABBITIZER_REG_GPR_O32_t7 : Z := 15.
Definition RABBITIZER_REG_GPR_O32_t8 : Z := 24.
Definition RABBITIZER_REG_GPR_O32_t9 : Z := 25.
Definition RABBITIZER_REG_GPR_O32_gp : Z := 28.
Definition RABBITIZER_REG_GPR_O32_sp : Z := 29.
Definition RABBITIZER_REG_GPR_O32_ra : Z := 31.
Definition RABBITIZER_REG_GPR_O32_hi : Z := RABBITIZER_REG_GPR_O32_ra + 1.
Definition RABBITIZER_REG_GPR_O32_lo : Z := RABBITIZER_REG_GPR_O32_ra + 2.

(** ** Instructions

    The decoder library (rabbitizer) is an external collaborator. An
    instruction carries its word, its address, its opcode id, and the id of
    the descriptor-table entry its [descriptor] pointer refers to: the
    resolver rewrites the two separately. *)

Inductive RabbitizerInstrId : Set :=
| RABBITIZER_INSTR_ID_cpu_add | RABBITIZER_INSTR_ID_cpu_add_d
| RABBITIZER_INSTR_ID_cpu_add_s | RABBITIZER_INSTR_ID_cpu_addi
| RABBITIZER_INSTR_ID_cpu_addiu | RABBITIZER_INSTR_ID_cpu_addu
| RABBITIZER_INSTR_ID_cpu_and | RABBITIZER_INSTR_ID_cpu_andi
| RABBITIZER_INSTR_ID_cpu_b | RABBITIZER_INSTR_ID_cpu_bc1f
| RABBITIZER_INSTR_ID_cpu_bc1fl | RABBITIZER_INSTR_ID_cpu_bc1t
| RABBITIZER_INSTR_ID_cpu_bc1tl | RABBITIZER_INSTR_ID_cpu_beq
| RABBITIZER_INSTR_ID_cpu_beql | RABBITIZER_INSTR_ID_cpu_beqz
| RABBITIZER_INSTR_ID_cpu_bgez | RABBITIZER_INSTR_ID_cpu_bgezal
| RABBITIZER_INSTR_ID_cpu_bgezl | RABBITIZER_INSTR_ID_cpu_bgtz
| RABBITIZER_INSTR_ID_cpu_bgtzl | RABBITIZER_INSTR_ID_cpu_blez
| RABBITIZER_INSTR_ID_cpu_blezl | RABBITIZER_INSTR_ID_cpu_bltz
| RABBITIZER_INSTR_ID_cpu_bltzl | RABBITIZER_INSTR_ID_cpu_bne
| RABBITIZER_INSTR_ID_cpu_bnel | RABBITIZER_INSTR_ID_cpu_bnez
| RABBITIZER_INSTR_ID_cpu_cfc1 | RABBITIZER_INSTR_ID_cpu_ctc1
| RABBITIZER_INSTR_ID_cpu_div | RABBITIZER_INSTR_ID_cpu_div_d
| RABBITIZER_INSTR_ID_cpu_div_s | RABBITIZER_INSTR_ID_cpu_divu
| RABBITIZER_INSTR_ID_cpu_j | RABBITIZER_INSTR_ID_cpu_jal
| RABBITIZER_INSTR_ID_cpu_jalr | RABBITIZER_INSTR_ID_cpu_jr
| RABBITIZER_INSTR_ID_cpu_lb | RABBITIZER_INSTR_ID_cpu_lbu
| RABBITIZER_INSTR_ID_cpu_ld | RABBITIZER_INSTR_ID_cpu_ldc1
| RABBITIZER_INSTR_ID_cpu_ldl | RABBITIZER_INSTR_ID_cpu_ldr
| RABBITIZER_INSTR_ID_cpu_lh | RABBITIZER_INSTR_ID_cpu_lhu
| RABBITIZER_INSTR_ID_cpu_lui | RABBITIZER_INSTR_ID_cpu_lw
| RABBITIZER_INSTR_ID_cpu_lwc1 | RABBITIZER_INSTR_ID_cpu_lwc2
| RABBITIZER_INSTR_ID_cpu_lwl | RABBITIZER_INSTR_ID_cpu_lwu
| RABBITIZER_INSTR_ID_cpu_mfc1 | RABBITIZER_INSTR_ID_cpu_mfhi
| RABBITIZER_INSTR_ID_cpu_mflo | RABBITIZER_INSTR_ID_cpu_move
| RABBITIZER_INSTR_ID_cpu_mtc1 | RABBITIZER_INSTR_ID_cpu_mult
| RABBITIZER_INSTR_ID_cpu_multu | RABBITIZER_INSTR_ID_cpu_neg_d
| RABBITIZER_INSTR_ID_cpu_neg_s | RABBITIZER_INSTR_ID_cpu_negu
| RABBITIZER_INSTR_ID_cpu_nop | RABBITIZER_INSTR_ID_cpu_nor
| RABBITIZER_INSTR_ID_cpu_not | RABBITIZER_INSTR_ID_cpu_or
| RABBITIZER_INSTR_ID_cpu_ori | RABBITIZER_INSTR_ID_cpu_sb
| RABBITIZER_INSTR_ID_cpu_sd | RABBITIZER_INSTR_ID_cpu_sdc1
| RABBITIZER_INSTR_ID_cpu_sh | RABBITIZER_INSTR_ID_cpu_sll
| RABBITIZER_INSTR_ID_cpu_sllv | RABBITIZER_INSTR_ID_cpu_slt
| RABBITIZER_INSTR_ID_cpu_slti | RABBITIZER_INSTR_ID_cpu_sltiu
| RABBITIZER_INSTR_ID_cpu_sltu | RABBITIZER_INSTR_ID_cpu_sra
| RABBITIZER_INSTR_ID_cpu_srav | RABBITIZER_INSTR_ID_cpu_srl
| RABBITIZER_INSTR_ID_cpu_srlv | RABBITIZER_INSTR_ID_cpu_sub
| RABBITIZER_INSTR_ID_cpu_subu | RABBITIZER_INSTR_ID_cpu_sw
| RABBITIZER_INSTR_ID_cpu_swc1 | RABBITIZER_INSTR_ID_cpu_swc2
| RABBITIZER_INSTR_ID_cpu_swl | RABBITIZER_INSTR_ID_cpu_teq
| RABBITIZER_INSTR_ID_cpu_tge | RABBITIZER_INSTR_ID_cpu_tgeu
| RABBITIZER_INSTR_ID_cpu_tlt | RABBITIZER_INSTR_ID_cpu_tne
| RABBITIZER_INSTR_ID_cpu_xor | RABBITIZER_INSTR_ID_cpu_xori
| RABBITIZER_INSTR_ID_cpu_other (id : Z).

(** The position of an id in the enumeration (with the number of an id
    that is not named here), and the id at a position. *)
Definition instr_id_tag (id : RabbitizerInstrId) : Z * Z :=
  match id with
  | RABBITIZER_INSTR_ID_cpu_add => (0, 0)
  | RABBITIZER_INSTR_ID_cpu_add_d => (1, 0)
  | RABBITIZER_INSTR_ID_cpu_add_s => (2, 0)
  | RABBITIZER_INSTR_ID_cpu_addi => (3, 0)
  | RABBITIZER_INSTR_ID_cpu_addiu => (4, 0)
  | RABBITIZER_INSTR_ID_cpu_addu => (5, 0)
  | RABBITIZER_INSTR_ID_cpu_and => (6, 0)
  | RABBITIZER_INSTR_ID_cpu_andi => (7, 0)
  | RABBITIZER_INSTR_ID_cpu_b => (8, 0)
  | RABBITIZER_INSTR_ID_cpu_bc1f => (9, 0)
  | RABBITIZER_INSTR_ID_cpu_bc1fl => (10, 0)
  | RABBITIZER_INSTR_ID_cpu_bc1t => (11, 0)
  | RABBITIZER_INSTR_ID_cpu_bc1tl => (12, 0)
  | RABBITIZER_INSTR_ID_cpu_beq => (13, 0)
  | RABBITIZER_INSTR_ID_cpu_beql => (14, 0)
  | RABBITIZER_INSTR_ID_cpu_beqz => (15, 0)
  | RABBITIZER_INSTR_ID_cpu_bgez => (16, 0)
  | RABBITIZER_INSTR_ID_cpu_bgezal => (17, 0)
  | RABBITIZER_INSTR_ID_cpu_bgezl => (18, 0)
  | RABBITIZER_INSTR_ID_cpu_bgtz => (19, 0)
  | RABBITIZER_INSTR_ID_cpu_bgtzl => (20, 0)
  | RABBITIZER_INSTR_ID_cpu_blez => (21, 0)
  | RABBITIZER_INSTR_ID_cpu_blezl => (22, 0)
  | RABBITIZER_INSTR_ID_cpu_bltz => (23, 0)
  | RABBITIZER_INSTR_ID_cpu_bltzl => (24, 0)
  | RABBITIZER_INSTR_ID_cpu_bne => (25, 0)
  | RABBITIZER_INSTR_ID_cpu_bnel => (26, 0)
  | RABBITIZER_INSTR_ID_cpu_bnez => (27, 0)
  | RABBITIZER_INSTR_ID_cpu_cfc1 => (28, 0)
  | RABBITIZER_INSTR_ID_cpu_ctc1 => (29, 0)
  | RABBITIZER_INSTR_ID_cpu_div => (30, 0)
  | RABBITIZER_INSTR_ID_cpu_div_d => (31, 0)
  | RABBITIZER_INSTR_ID_cpu_div_s => (32, 0)
  | RABBITIZER_INSTR_ID_cpu_divu => (33, 0)
  | RABBITIZER_INSTR_ID_cpu_j => (34, 0)
  | RABBITIZER_INSTR_ID_cpu_jal => (35, 0)
  | RABBITIZER_INSTR_ID_cpu_jalr => (36, 0)
  | RABBITIZER_INSTR_ID_cpu_jr => (37, 0)
  | RABBITIZER_INSTR_ID_cpu_lb => (38, 0)
  | RABBITIZER_INSTR_ID_cpu_lbu => (39, 0)
  | RABBITIZER_INSTR_ID_cpu_ld => (40, 0)
  | RABBITIZER_INSTR_ID_cpu_ldc1 => (41, 0)
  | RABBITIZER_INSTR_ID_cpu_ldl => (42, 0)
  | RABBITIZER_INSTR_ID_cpu_ldr => (43, 0)
  | RABBITIZER_INSTR_ID_cpu_lh => (44, 0)
  | RABBITIZER_INSTR_ID_cpu_lhu => (45, 0)
  | RABBITIZER_INSTR_ID_cpu_lui => (46, 0)
  | RABBITIZER_INSTR_ID_cpu_lw => (47, 0)
  | RABBITIZER_INSTR_ID_cpu_lwc1 => (48, 0)
  | RABBITIZER_INSTR_ID_cpu_lwc2 => (49, 0)
  | RABBITIZER_INSTR_ID_cpu_lwl => (50, 0)
  | RABBITIZER_INSTR_ID_cpu_lwu => (51, 0)
  | RABBITIZER_INSTR_ID_cpu_mfc1 => (52, 0)
  | RABBITIZER_INSTR_ID_cpu_mfhi => (53, 0)
  | RABBITIZER_INSTR_ID_cpu_mflo => (54, 0)
  | RABBITIZER_INSTR_ID_cpu_move => (55, 0)
  | RABBITIZER_INSTR_ID_cpu_mtc1 => (56, 0)
  | RABBITIZER_INSTR_ID_cpu_mult => (57, 0)
  | RABBITIZER_INSTR_ID_cpu_multu => (58, 0)
  | RABBITIZER_INSTR_ID_cpu_neg_d => (59, 0)
  | RABBITIZER_INSTR_ID_cpu_neg_s => (60, 0)
  | RABBITIZER_INSTR_ID_cpu_negu => (61, 0)
  | RABBITIZER_INSTR_ID_cpu_nop => (62, 0)
  | RABBITIZER_INSTR_ID_cpu_nor => (63, 0)
  | RABBITIZER_INSTR_ID_cpu_not => (64, 0)
  | RABBITIZER_INSTR_ID_cpu_or => (65, 0)
  | RABBITIZER_INSTR_ID_cpu_ori => (66, 0)
  | RABBITIZER_INSTR_ID_cpu_sb => (67, 0)
  | RABBITIZER_INSTR_ID_cpu_sd => (68, 0)
  | RABBITIZER_INSTR_ID_cpu_sdc1 => (69, 0)
  | RABBITIZER_INSTR_ID_cpu_sh => (70, 0)
  | RABBITIZER_INSTR_ID_cpu_sll => (71, 0)
  | RABBITIZER_INSTR_ID_cpu_sllv => (72, 0)
  | RABBITIZER_INSTR_ID_cpu_slt => (73, 0)
  | RABBITIZER_INSTR_ID_cpu_slti => (74, 0)
  | RABBITIZER_INSTR_ID_cpu_sltiu => (75, 0)
  | RABBITIZER_INSTR_ID_cpu_sltu => (76, 0)
  | RABBITIZER_INSTR_ID_cpu_sra => (77, 0)
  | RABBITIZER_INSTR_ID_cpu_srav => (78, 0)
  | RABBITIZER_INSTR_ID_cpu_srl => (79, 0)
  | RABBITIZER_INSTR_ID_cpu_srlv => (80, 0)
  | RABBITIZER_INSTR_ID_cpu_sub => (81, 0)
  | RABBITIZER_INSTR_ID_cpu_subu => (82, 0)
  | RABBITIZER_INSTR_ID_cpu_sw => (83, 0)
  | RABBITIZER_INSTR_ID_cpu_swc1 => (84, 0)
  | RABBITIZER_INSTR_ID_cpu_swc2 => (85, 0)
  | RABBITIZER_INSTR_ID_cpu_swl => (86, 0)
  | RABBITIZER_INSTR_ID_cpu_teq => (87, 0)
  | RABBITIZER_INSTR_ID_cpu_tge => (88, 0)
  | RABBITIZER_INSTR_ID_cpu_tgeu => (89, 0)
  | RABBITIZER_INSTR_ID_cpu_tlt => (90, 0)
  | RABBITIZER_INSTR_ID_cpu_tne => (91, 0)
  | RABBITIZER_INSTR_ID_cpu_xor => (92, 0)
  | RABBITIZER_INSTR_ID_cpu_xori => (93, 0)
  | RABBITIZER_INSTR_ID_cpu_other n => (94, n)
  end.

Definition instr_id_of_tag (t : Z * Z) : RabbitizerInstrId :=
  match fst t with
  | 0 => RABBITIZER_INSTR_ID_cpu_add
  | 1 => RABBITIZER_INSTR_ID_cpu_add_d
  | 2 => RABBITIZER_INSTR_ID_cpu_add_s
  | 3 => RABBITIZER_INSTR_ID_cpu_addi
  | 4 => RABBITIZER_INSTR_ID_cpu_addiu
  | 5 => RABBITIZER_INSTR_ID_cpu_addu
  | 6 => RABBITIZER_INSTR_ID_cpu_and
  | 7 => RABBITIZER_INSTR_ID_cpu_andi
  | 8 => RABBITIZER_INSTR_ID_cpu_b
  | 9 => RABBITIZER_INSTR_ID_cpu_bc1f
  | 10 => RABBITIZER_INSTR_ID_cpu_bc1fl
  | 11 => RABBITIZER_INSTR_ID_cpu_bc1t
  | 12 => RABBITIZER_INSTR_ID_cpu_bc1tl
  | 13 => RABBITIZER_INSTR_ID_cpu_beq
  | 14 => RABBITIZER_INSTR_ID_cpu_beql
  | 15 => RABBITIZER_INSTR_ID_cpu_beqz
  | 16 => RABBITIZER_INSTR_ID_cpu_bgez
  | 17 => RABBITIZER_INSTR_ID_cpu_bgezal
  | 18 => RABBITIZER_INSTR_ID_cpu_bgezl
  | 19 => RABBITIZER_INSTR_ID_cpu_bgtz
  | 20 => RABBITIZER_INSTR_ID_cpu_bgtzl
  | 21 => RABBITIZER_INSTR_ID_cpu_blez
  | 22 => RABBITIZER_INSTR_ID_cpu_blezl
  | 23 => RABBITIZER_INSTR_ID_cpu_bltz
  | 24 => RABBITIZER_INSTR_ID_cpu_bltzl
  | 25 => RABBITIZER_INSTR_ID_cpu_bne
  | 26 => RABBITIZER_INSTR_ID_cpu_bnel
  | 27 => RABBITIZER_INSTR_ID_cpu_bnez
  | 28 => RABBITIZER_INSTR_ID_cpu_cfc1
  | 29 => RABBITIZER_INSTR_ID_cpu_ctc1
  | 30 => RABBITIZER_INSTR_ID_cpu_div
  | 31 => RABBITIZER_INSTR_ID_cpu_div_d
  | 32 => RABBITIZER_INSTR_ID_cpu_div_s
  | 33 => RABBITIZER_INSTR_ID_cpu_divu
  | 34 => RABBITIZER_INSTR_ID_cpu_j
  | 35 => RABBITIZER_INSTR_ID_cpu_jal
  | 36 => RABBITIZER_INSTR_ID_cpu_jalr
  | 37 => RABBITIZER_INSTR_ID_cpu_jr
  | 38 => RABBITIZER_INSTR_ID_cpu_lb
  | 39 => RABBITIZER_INSTR_ID_cpu_lbu
  | 40 => RABBITIZER_INSTR_ID_cpu_ld
  | 41 => RABBITIZER_INSTR_ID_cpu_ldc1
  | 42 => RABBITIZER_INSTR_ID_cpu_ldl
  | 43 => RABBITIZER_INSTR_ID_cpu_ldr
  | 44 => RABBITIZER_INSTR_ID_cpu_lh
  | 45 => RABBITIZER_INSTR_ID_cpu_lhu
  | 46 => RABBITIZER_INSTR_ID_cpu_lui
  | 47 => RABBITIZER_INSTR_ID_cpu_lw
  | 48 => RABBITIZER_INSTR_ID_cpu_lwc1
  | 49 => RABBITIZER_INSTR_ID_cpu_lwc2
  | 50 => RABBITIZER_INSTR_ID_cpu_lwl
  | 51 => RABBITIZER_INSTR_ID_cpu_lwu
  | 52 => RABBITIZER_INSTR_ID_cpu_mfc1
  | 53 => RABBITIZER_INSTR_ID_cpu_mfhi
  | 54 => RABBITIZER_INSTR_ID_cpu_mflo
  | 55 => RABBITIZER_INSTR_ID_cpu_move
  | 56 => RABBITIZER_INSTR_ID_cpu_mtc1
  | 57 => RABBITIZER_INSTR_ID_cpu_mult
  | 58 => RABBITIZER_INSTR_ID_cpu_multu
  | 59 => RABBITIZER_INSTR_ID_cpu_neg_d
  | 60 => RABBITIZER_INSTR_ID_cpu_neg_s
  | 61 => RABBITIZER_INSTR_ID_cpu_negu
  | 62 => RABBITIZER_INSTR_ID_cpu_nop
  | 63 => RABBITIZER_INSTR_ID_cpu_nor
  | 64 => RABBITIZER_INSTR_ID_cpu_not
  | 65 => RABBITIZER_INSTR_ID_cpu_or
  | 66 => RABBITIZER_INSTR_ID_cpu_ori
  | 67 => RABBITIZER_INSTR_ID_cpu_sb
  | 68 => RABBITIZER_INSTR_ID_cpu_sd
  | 69 => RABBITIZER_INSTR_ID_cpu_sdc1
  | 70 => RABBITIZER_INSTR_ID_cpu_sh
  | 71 => RABBITIZER_INSTR_ID_cpu_sll
  | 72 => RABBITIZER_INSTR_ID_cpu_sllv
  | 73 => RABBITIZER_INSTR_ID_cpu_slt
  | 74 => RABBITIZER_INSTR_ID_cpu_slti
  | 75 => RABBITIZER_INSTR_ID_cpu_sltiu
  | 76 => RABBITIZER_INSTR_ID_cpu_sltu
  | 77 => RABBITIZER_INSTR_ID_cpu_sra
  | 78 => RABBITIZER_INSTR_ID_cpu_srav
  | 79 => RABBITIZER_INSTR_ID_cpu_srl
  | 80 => RABBITIZER_INSTR_ID_cpu_srlv
  | 81 => RABBITIZER_INSTR_ID_cpu_sub
  | 82 => RABBITIZER_INSTR_ID_cpu_subu
  | 83 => RABBITIZER_INSTR_ID_cpu_sw
  | 84 => RABBITIZER_INSTR_ID_cpu_swc1
  | 85 => RABBITIZER_INSTR_ID_cpu_swc2
  | 86 => RABBITIZER_INSTR_ID_cpu_swl
  | 87 => RABBITIZER_INSTR_ID_cpu_teq
  | 88 => RABBITIZER_INSTR_ID_cpu_tge
  | 89 => RABBITIZER_INSTR_ID_cpu_tgeu
  | 90 => RABBITIZER_INSTR_ID_cpu_tlt
  | 91 => RABBITIZER_INSTR_ID_cpu_tne
  | 92 => RABBITIZER_INSTR_ID_cpu_xor
  | 93 => RABBITIZER_INSTR_ID_cpu_xori
  | _ => RABBITIZER_INSTR_ID_cpu_other (snd t)
  end.

Lemma instr_id_of_tag_tag (id : RabbitizerInstrId) : instr_id_of_tag (instr_id_tag id) = id.
Proof. destruct id; reflexivity. Qed.

#[global] Instance RabbitizerInstrId_eq_dec : EqDecision RabbitizerInstrId.
Proof.
  intros x y. destruct (decide (instr_id_tag x = instr_id_tag y)) as [E|N].
  - left. rewrite <- (instr_id_of_tag_tag x), <- (instr_id_of_tag_tag y). by rewrite E.
  - right. intros ->. by apply N.
Defined.

Record RabbitizerInstruction : Set := mkInstruction {
  word : Z;
  vram : Z;
  uniqueId : RabbitizerInstrId;
  descriptor : RabbitizerInstrId
}.

(** The register fields of the MIPS instruction word ([RAB_INSTR_GET_rs]
    and friends of the decoder's headers). *)
Definition RAB_INSTR_GET_rs (instr : RabbitizerInstruction) : Z :=
  Z.land (Z.shiftr (word instr) 21) 31.
Definition RAB_INSTR_GET_rt (instr : RabbitizerInstruction) : Z :=
  Z.land (Z.shiftr (word instr) 16) 31.
Definition RAB_INSTR_GET_rd (instr : RabbitizerInstruction) : Z :=
  Z.land (Z.shiftr (word instr) 11) 31.
Definition RAB_INSTR_PACK_rs (w value : Z) : Z :=
  Z.lor (Z.land w (Z.lnot (Z.shiftl 31 21))) (Z.shiftl (Z.land value 31) 21).

(** What the passes consume from the decoder: decoding, the descriptor
    predicates (looked up through the instruction's [descriptor]) and the
    immediate accessors. *)
Class Rabbitizer := {
  RabbitizerInstrDescriptor_modifiesRt : RabbitizerInstrId → bool;
  RabbitizerInstrDescriptor_modifiesRd : RabbitizerInstrId → bool;
  RabbitizerInstrDescriptor_isJump : RabbitizerInstrId → bool;
  RabbitizerInstrDescriptor_isIType : RabbitizerInstrId → bool;
  RabbitizerInstrDescriptor_hasOperand_rs : RabbitizerInstrId → bool;
  RabbitizerInstrDescriptor_hasOperand_rt : RabbitizerInstrId → bool;
  RabbitizerInstruction_getProcessedImmediate : RabbitizerInstruction → Z;
  RabbitizerInstruction_getInstrIndexAsVram : RabbitizerInstruction → Z;
  RabbitizerInstruction_getBranchOffset : RabbitizerInstruction → Z;
  (* [RabbitizerInstruction_init] followed by [processUniqueId] *)
  RabbitizerInstruction_init : Z → Z → RabbitizerInstruction
}.

(** [instr.uniqueId = id; instr.descriptor = &Descriptors[d];] *)
Definition set_id (id d : RabbitizerInstrId) (instr : RabbitizerInstruction)
  : RabbitizerInstruction :=
  {| word := word instr; vram := vram instr; uniqueId := id; descriptor := d |}.

Definition set_word (w : Z) (instr : RabbitizerInstruction) : RabbitizerInstruction :=
  {| word := w; vram := vram instr; uniqueId := uniqueId instr;
     descriptor := descriptor instr |}.

(** ** Edges and instruction records *)

Record Edge : Set := mkEdge {
  edge_i : Z;
  function_entry : bool;
  function_exit : bool;
  extern_function : bool;
  function_pointer : bool
}.

#[global] Instance Edge_eq_dec : EqDecision Edge.
Proof. solve_decision. Defined.

Record RInsn : Set := mkRInsn {
  instruction : RabbitizerInstruction;
  is_global_got_memop : bool;
  no_following_successor : bool;
  patched : bool;
  patched_addr : Z;
  linked_insn : Z;
  linked_value : Z;   (* shares its storage with [linked_float] *)
  jtbl_addr : Z;
  num_cases : Z;
  index_reg : Z;
  successors : list Edge;
  predecessors : list Edge;
  b_liveout : Z;
  b_livein : Z;
  f_livein : Z;
  f_liveout : Z
}.

Definition set_instruction (f : RabbitizerInstruction → RabbitizerInstruction) (r : RInsn) : RInsn :=
  mkRInsn (f (instruction r)) (is_global_got_memop r) (no_following_successor r)
    (patched r) (patched_addr r) (linked_insn r) (linked_value r) (jtbl_addr r)
    (num_cases r) (index_reg r) (successors r) (predecessors r)
    (b_liveout r) (b_livein r) (f_livein r) (f_liveout r).
Definition set_is_global_got_memop (b : bool) (r : RInsn) : RInsn :=
  mkRInsn (instruction r) b (no_following_successor r)
    (patched r) (patched_addr r) (linked_insn r) (linked_value r) (jtbl_addr r)
    (num_cases r) (index_reg r) (successors r) (predecessors r)
    (b_liveout r) (b_livein r) (f_livein r) (f_liveout r).
Definition set_no_following_successor (b : bool) (r : RInsn) : RInsn :=
  mkRInsn (instruction r) (is_global_got_memop r) b
    (patched r) (patched_addr r) (linked_insn r) (linked_value r) (jtbl_addr r)
    (num_cases r) (index_reg r) (successors r) (predecessors r)
    (b_liveout r) (b_livein r) (f_livein r) (f_liveout r).
Definition set_patched (b : bool) (r : RInsn) : RInsn :=
  mkRInsn (instruction r) (is_global_got_memop r) (no_following_successor r)
    b (patched_addr r) (linked_insn r) (linked_value r) (jtbl_addr r)
    (num_cases r) (index_reg r) (successors r) (predecessors r)
    (b_liveout r) (b_livein r) (f_livein r) (f_liveout r).
Definition set_patched_addr (a : Z) (r : RInsn) : RInsn :=
  mkRInsn (instruction r) (is_global_got_memop r) (no_following_successor r)
    (patched r) a (linked_insn r) (linked_value r) (jtbl_addr r)
    (num_cases r) (index_reg r) (successors r) (predecessors r)
    (b_liveout r) (b_livein r) (f_livein r) (f_liveout r).
Definition set_linked_insn (k : Z) (r : RInsn) : RInsn :=
  mkRInsn (instruction r) (is_global_got_memop r) (no_following_successor r)
    (patched r) (patched_addr r) k (linked_value r) (jtbl_addr r)
    (num_cases r) (index_reg r) (successors r) (predecessors r)
    (b_liveout r) (b_livein r) (f_livein r) (f_liveout r).
Definition set_linked_value (v : Z) (r : RInsn) : RInsn :=
  mkRInsn (instruction r) (is_global_got_memop r) (no_following_successor r)
    (patched r) (patched_addr r) (linked_insn r) v (jtbl_addr r)
    (num_cases r) (index_reg r) (successors r) (predecessors r)
    (b_liveout r) (b_livein r) (f_livein r) (f_liveout r).
Definition set_jtbl (addr cases reg : Z) (r : RInsn) : RInsn :=
  mkRInsn (instruction r) (is_global_got_memop r) (no_following_successor r)
    (patched r) (patched_addr r) (linked_insn r) (linked_value r) addr
    cases reg (successors r) (predecessors r)
    (b_liveout r) (b_livein r) (f_livein r) (f_liveout r).
Definition set_successors (l : list Edge) (r : RInsn) : RInsn :=
  mkRInsn (instruction r) (is_global_got_memop r) (no_following_successor r)
    (patched r) (patched_addr r) (linked_insn r) (linked_value r) (jtbl_addr r)
    (num_cases r) (index_reg r) l (predecessors r)
    (b_liveout r) (b_livein r) (f_livein r) (f_liveout r).
Definition set_predecessors (l : list Edge) (r : RInsn) : RInsn :=
  mkRInsn (instruction r) (is_global_got_memop r) (no_following_successor r)
    (patched r) (patched_addr r) (linked_insn r) (linked_value r) (jtbl_addr r)
    (num_cases r) (index_reg r) (successors r) l
    (b_liveout r) (b_livein r) (f_livein r) (f_liveout r).
Definition set_b_liveout (m : Z) (r : RInsn) : RInsn :=
  mkRInsn (instruction r) (is_global_got_memop r) (no_following_successor r)
    (patched r) (patched_addr r) (linked_insn r) (linked_value r) (jtbl_addr r)
    (num_cases r) (index_reg r) (successors r) (predecessors r)
    m (b_livein r) (f_livein r) (f_liveout r).
Definition set_b_livein (m : Z) (r : RInsn) : RInsn :=
  mkRInsn (instruction r) (is_global_got_memop r) (no_following_successor r)
    (patched r) (patched_addr r) (linked_insn r) (linked_value r) (jtbl_addr r)
    (num_cases r) (index_reg r) (successors r) (predecessors r)
    (b_liveout r) m (f_livein r) (f_liveout r).
Definition set_f_livein (m : Z) (r : RInsn) : RInsn :=
  mkRInsn (instruction r) (is_global_got_memop r) (no_following_successor r)
    (patched r) (patched_addr r) (linked_insn r) (linked_value r) (jtbl_addr r)
    (num_cases r) (index_reg r) (successors r) (predecessors r)
    (b_liveout r) (b_livein r) m (f_liveout r).
Definition set_f_liveout (m : Z) (r : RInsn) : RInsn :=
  mkRInsn (instruction r) (is_global_got_memop r) (no_following_successor r)
    (patched r) (patched_addr r) (linked_insn r) (linked_value r) (jtbl_addr r)
    (num_cases r) (index_reg r) (successors r) (predecessors r)
    (b_liveout r) (b_livein r) (f_livein r) m.

(** [insn.patched = true; insn.instruction.uniqueId = id;
     insn.instruction.descriptor = &Descriptors[d];] *)
Definition patch_to (id d : RabbitizerInstrId) (r : RInsn) : RInsn :=
  set_instruction (set_id id d) (set_patched true r).

(** ** Function records and the global tables *)

Record Function : Set := mkFunction {
  returns : list Z;   (* addresses of the delay slots of the returns *)
  end_addr : Z;
  nargs : Z;
  nret : Z;
  v0_in : bool;
  referenced_by_function_pointer : bool
}.

(** [Function()], what [functions[addr]] creates for a new key. *)
Definition Function_new : Function := mkFunction [] 0 0 0 false false.

(** The tables the ELF parser fills in; the passes only read them. *)
Record Elf : Type := mkElf {
  text_section : list Z;   (* the bytes of .text *)
  text_section_len : Z;
  text_vaddr : Z;
  rodata_section : option (list Z);   (* [None] is the NULL pointer *)
  rodata_section_len : Z;
  rodata_vaddr : Z;
  got_globals : list Z;
  got_locals : list Z;
  gp_value : Z;
  gp_value_adj : Z;
  symbol_names : gmap Z string;
  data_function_pointers : list (Z * Z);
  main_addr : Z;
  mcount_addr : Z
}.

(** The tables the passes update. *)
Record State : Type := mkState {
  rinsns : list RInsn;
  label_addresses : gset Z;
  functions : gmap Z Function;
  li_function_pointers : list Z   (* the elements of the set, ascending *)
}.

Definition set_rinsns (v : list RInsn) (st : State) : State :=
  mkState v (label_addresses st) (functions st) (li_function_pointers st).
Definition set_label_addresses (s : gset Z) (st : State) : State :=
  mkState (rinsns st) s (functions st) (li_function_pointers st).
Definition set_functions (m : gmap Z Function) (st : State) : State :=
  mkState (rinsns st) (label_addresses st) m (li_function_pointers st).

(** [rinsns[k] = f (rinsns[k])] *)
Definition upd_insn (k : Z) (f : RInsn → RInsn) (st : State) : Outcome State :=
  v ← vec_upd (rinsns st) k f; Ok (set_rinsns v st).

Definition get_insn (st : State) (k : Z) : Outcome RInsn := vec_get (rinsns st) k.

Definition label_insert (a : Z) (st : State) : State :=
  set_label_addresses ({[a]} ∪ label_addresses st) st.

(** ** The extern function catalogue *)

Definition FLAG_NO_MEM : Z := 1.
Definition FLAG_VARARG : Z := 2.

(** [params]: the first character is the return type, the others are the
    argument types ([v i u p f d l j t]). *)
Record ExternFunction : Set := mkExtern {
  ef_name : string;
  ef_params : string;
  ef_flags : Z
}.

Definition extern_functions : list ExternFunction := [
  mkExtern "exit" "vi" 0;
  mkExtern "abort" "v" 0;
  mkExtern "sbrk" "pi" 0;
  mkExtern "malloc" "pu" 0;
  mkExtern "calloc" "puu" 0;
  mkExtern "realloc" "ppu" 0;
  mkExtern "free" "vp" 0;
  mkExtern "fscanf" "ipp" FLAG_VARARG;
  mkExtern "printf" "ip" FLAG_VARARG;
  mkExtern "sprintf" "ipp" FLAG_VARARG;
  mkExtern "fprintf" "ipp" FLAG_VARARG;
  mkExtern "_doprnt" "ippp" 0;
  mkExtern "strlen" "up" 0;
  mkExtern "open" "ipii" 0;
  mkExtern "creat" "ipi" 0;
  mkExtern "access" "ipi" 0;
  mkExtern "rename" "ipp" 0;
  mkExtern "utime" "ipp" 0;
  mkExtern "flock" "iii" 0;
  mkExtern "chmod" "ipu" 0;
  mkExtern "umask" "ii" FLAG_NO_MEM;
  mkExtern "ecvt" "pdipp" 0;
  mkExtern "fcvt" "pdipp" 0;
  mkExtern "sqrt" "dd" FLAG_NO_MEM;
  mkExtern "sqrtf" "ff" FLAG_NO_MEM;
  mkExtern "atoi" "ip" 0;
  mkExtern "atol" "ip" 0;
  mkExtern "atof" "dp" 0;
  mkExtern "strtol" "ippi" 0;
  mkExtern "strtoul" "uppi" 0;
  mkExtern "strtoll" "lppi" 0;
  mkExtern "strtoull" "jppi" 0;
  mkExtern "strtod" "dpp" 0;
  mkExtern "strchr" "ppi" 0;
  mkExtern "strrchr" "ppi" 0;
  mkExtern "strcspn" "upp" 0;
  mkExtern "strpbrk" "ppp" 0;
  mkExtern "fstat" "iip" 0;
  mkExtern "stat" "ipp" 0;
  mkExtern "ftruncate" "iii" 0;
  mkExtern "bcopy" "vppu" 0;
  mkExtern "memcpy" "pppu" 0;
  mkExtern "memccpy" "pppiu" 0;
  mkExtern "read" "iipu" 0;
  mkExtern "write" "iipu" 0;
  mkExtern "fopen" "ppp" 0;
  mkExtern "freopen" "pppp" 0;
  mkExtern "fclose" "ip" 0;
  mkExtern "ftell" "ip" 0;
  mkExtern "rewind" "vp" 0;
  mkExtern "fseek" "ipii" 0;
  mkExtern "lseek" "iiii" 0;
  mkExtern "fflush" "ip" 0;
  mkExtern "dup" "ii" 0;
  mkExtern "dup2" "iii" 0;
  mkExtern "pipe" "ip" 0;
  mkExtern "perror" "vp" 0;
  mkExtern "fdopen" "iip" 0;
  mkExtern "memset" "ppiu" 0;
  mkExtern "bcmp" "ippu" 0;
  mkExtern "memcmp" "ippu" 0;
  mkExtern "getpid" "i" FLAG_NO_MEM;
  mkExtern "getpgrp" "i" 0;
  mkExtern "remove" "ip" 0;
  mkExtern "unlink" "ip" 0;
  mkExtern "close" "ii" 0;
  mkExtern "strcmp" "ipp" 0;
  mkExtern "strncmp" "ippu" 0;
  mkExtern "strcpy" "ppp" 0;
  mkExtern "strncpy" "pppu" 0;
  mkExtern "strcat" "ppp" 0;
  mkExtern "strncat" "pppu" 0;
  mkExtern "strtok" "ppp" 0;
  mkExtern "strstr" "ppp" 0;
  mkExtern "strdup" "pp" 0;
  mkExtern "toupper" "ii" FLAG_NO_MEM;
  mkExtern "tolower" "ii" FLAG_NO_MEM;
  mkExtern "gethostname" "ipu" 0;
  mkExtern "isatty" "ii" 0;
  mkExtern "strftime" "upupp" 0;
  mkExtern "times" "ip" 0;
  mkExtern "clock" "i" FLAG_NO_MEM;
  mkExtern "ctime" "pp" 0;
  mkExtern "localtime" "pp" 0;
  mkExtern "setvbuf" "ippiu" 0;
  mkExtern "__semgetc" "ip" 0;
  mkExtern "__semputc" "iip" 0;
  mkExtern "fgetc" "ip" 0;
  mkExtern "fgets" "ipip" 0;
  mkExtern "__filbuf" "ip" 0;
  mkExtern "__flsbuf" "iip" 0;
  mkExtern "ungetc" "iip" 0;
  mkExtern "gets" "pp" 0;
  mkExtern "fread" "upuup" 0;
  mkExtern "fwrite" "upuup" 0;
  mkExtern "fputs" "ipp" 0;
  mkExtern "puts" "ip" 0;
  mkExtern "getcwd" "ppu" 0;
  mkExtern "time" "ip" 0;
  mkExtern "bzero" "vpu" 0;
  mkExtern "fp_class_d" "id" FLAG_NO_MEM;
  mkExtern "ldexp" "ddi" FLAG_NO_MEM;
  mkExtern "__ll_mul" "lll" FLAG_NO_MEM;
  mkExtern "__ll_div" "lll" FLAG_NO_MEM;
  mkExtern "__ll_rem" "ljl" FLAG_NO_MEM;
  mkExtern "__ll_lshift" "llj" FLAG_NO_MEM;
  mkExtern "__ll_rshift" "llj" FLAG_NO_MEM;
  mkExtern "__ull_div" "jjj" FLAG_NO_MEM;
  mkExtern "__ull_rem" "jjj" FLAG_NO_MEM;
  mkExtern "__ull_rshift" "jjj" FLAG_NO_MEM;
  mkExtern "__d_to_ull" "jd" FLAG_NO_MEM;
  mkExtern "__d_to_ll" "ld" FLAG_NO_MEM;
  mkExtern "__f_to_ull" "jf" FLAG_NO_MEM;
  mkExtern "__f_to_ll" "lf" FLAG_NO_MEM;
  mkExtern "__ull_to_f" "fj" FLAG_NO_MEM;
  mkExtern "__ll_to_f" "fl" FLAG_NO_MEM;
  mkExtern "__ull_to_d" "dj" FLAG_NO_MEM;
  mkExtern "__ll_to_d" "dl" FLAG_NO_MEM;
  mkExtern "_exit" "vi" 0;
  mkExtern "_cleanup" "v" 0;
  mkExtern "_rld_new_interface" "pu" FLAG_VARARG;
  mkExtern "_exithandle" "v" 0;
  mkExtern "_prctl" "ii" FLAG_VARARG;
  mkExtern "_atod" "dpii" 0;
  mkExtern "pathconf" "ipi" 0;
  mkExtern "getenv" "pp" 0;
  mkExtern "gettxt" "ppp" 0;
  mkExtern "setlocale" "pip" 0;
  mkExtern "mmap" "ppuiiii" 0;
  mkExtern "munmap" "ipu" 0;
  mkExtern "mprotect" "ipui" 0;
  mkExtern "sysconf" "ii" 0;
  mkExtern "getpagesize" "i" 0;
  mkExtern "strerror" "pi" 0;
  mkExtern "ioctl" "iiu" FLAG_VARARG;
  mkExtern "fcntl" "iii" FLAG_VARARG;
  mkExtern "signal" "pit" 0;
  mkExtern "sigset" "pit" 0;
  mkExtern "get_fpc_csr" "i" 0;
  mkExtern "set_fpc_csr" "ii" 0;
  mkExtern "setjmp" "ip" 0;
  mkExtern "longjmp" "vpi" 0;
  mkExtern "tempnam" "ppp" 0;
  mkExtern "tmpnam" "pp" 0;
  mkExtern "mktemp" "pp" 0;
  mkExtern "mkstemp" "ip" 0;
  mkExtern "tmpfile" "p" 0;
  mkExtern "wait" "ip" 0;
  mkExtern "kill" "iii" 0;
  mkExtern "execlp" "ip" FLAG_VARARG;
  mkExtern "execv" "ipp" 0;
  mkExtern "execvp" "ipp" 0;
  mkExtern "fork" "i" 0;
  mkExtern "system" "ip" 0;
  mkExtern "tsearch" "pppp" 0;
  mkExtern "tfind" "pppp" 0;
  mkExtern "qsort" "vpuut" 0;
  mkExtern "regcmp" "pp" FLAG_VARARG;
  mkExtern "regex" "ppp" FLAG_VARARG;
  mkExtern "__assert" "vppi" 0
].

(** ** Register masks *)

Definition r_map_reg (reg : Z) : Z :=
  Z.shiftl 1 (reg - RABBITIZER_REG_GPR_O32_zero + 1).

Definition r_temporary_regs : Z :=
  Z.lor (r_map_reg RABBITIZER_REG_GPR_O32_t0)
  (Z.lor (r_map_reg RABBITIZER_REG_GPR_O32_t1)
  (Z.lor (r_map_reg RABBITIZER_REG_GPR_O32_t2)
  (Z.lor (r_map_reg RABBITIZER_REG_GPR_O32_t3)
  (Z.lor (r_map_reg RABBITIZER_REG_GPR_O32_t4)
  (Z.lor (r_map_reg RABBITIZER_REG_GPR_O32_t5)
  (Z.lor (r_map_reg RABBITIZER_REG_GPR_O32_t6)
  (Z.lor (r_map_reg RABBITIZER_REG_GPR_O32_t7)
  (Z.lor (r_map_reg RABBITIZER_REG_GPR_O32_t8)
         (r_map_reg RABBITIZER_REG_GPR_O32_t9))))))))).

(** The registers a call clobbers: [v0 | a0 | a1 | a2 | a3 | v1 | temporaries]. *)
Definition caller_saved : Z :=
  Z.lor (r_map_reg RABBITIZER_REG_GPR_O32_v0)
  (Z.lor (r_map_reg RABBITIZER_REG_GPR_O32_a0)
  (Z.lor (r_map_reg RABBITIZER_REG_GPR_O32_a1)
  (Z.lor (r_map_reg RABBITIZER_REG_GPR_O32_a2)
  (Z.lor (r_map_reg RABBITIZER_REG_GPR_O32_a3)
  (Z.lor (r_map_reg RABBITIZER_REG_GPR_O32_v1) r_temporary_regs))))).

(** [x & ~m] on [uint64_t]. *)
Definition clear_bits (x m : Z) : Z := Z.land x (Z.lnot m).

(** [(x | y) != x]: [y] brings new bits. *)
Definition new_bits (x y : Z) : bool := bool_decide (Z.lor x y ≠ x).

(** ** Transfer types *)

Inductive TYPE : Set :=
| TYPE_NOP          (* no arguments *)
| TYPE_1S           (* 1 in *)
| TYPE_2S           (* 2 in *)
| TYPE_1D           (* 1 out *)
| TYPE_1D_1S        (* 1 out, 1 in *)
| TYPE_1D_2S        (* 1 out, 2 in *)
| TYPE_D_LO_HI_2S   (* HI/LO out, 2 in *)
| TYPE_1S_POS1.     (* ?, 1 in *)

(** [r_insn_to_type]: the type, and the instruction as the call leaves it (a
    jump-table [JR] gets its index register packed into the [rs] field). *)
Definition r_insn_to_type (insn : RInsn) : TYPE * RInsn :=
  match uniqueId (instruction insn) with
  | RABBITIZER_INSTR_ID_cpu_add_s | RABBITIZER_INSTR_ID_cpu_add_d => (TYPE_NOP, insn)
  | RABBITIZER_INSTR_ID_cpu_add | RABBITIZER_INSTR_ID_cpu_addu
  | RABBITIZER_INSTR_ID_cpu_addi | RABBITIZER_INSTR_ID_cpu_addiu
  | RABBITIZER_INSTR_ID_cpu_andi | RABBITIZER_INSTR_ID_cpu_ori
  | RABBITIZER_INSTR_ID_cpu_lb | RABBITIZER_INSTR_ID_cpu_lbu
  | RABBITIZER_INSTR_ID_cpu_lh | RABBITIZER_INSTR_ID_cpu_lhu
  | RABBITIZER_INSTR_ID_cpu_lw | RABBITIZER_INSTR_ID_cpu_lwl
  | RABBITIZER_INSTR_ID_cpu_move | RABBITIZER_INSTR_ID_cpu_negu
  | RABBITIZER_INSTR_ID_cpu_not | RABBITIZER_INSTR_ID_cpu_sll
  | RABBITIZER_INSTR_ID_cpu_slti | RABBITIZER_INSTR_ID_cpu_sltiu
  | RABBITIZER_INSTR_ID_cpu_sra | RABBITIZER_INSTR_ID_cpu_srl
  | RABBITIZER_INSTR_ID_cpu_xori => (TYPE_1D_1S, insn)
  | RABBITIZER_INSTR_ID_cpu_mfhi => (TYPE_1D_1S, insn)
  | RABBITIZER_INSTR_ID_cpu_mflo => (TYPE_1D_1S, insn)
  | RABBITIZER_INSTR_ID_cpu_and | RABBITIZER_INSTR_ID_cpu_or
  | RABBITIZER_INSTR_ID_cpu_nor | RABBITIZER_INSTR_ID_cpu_sllv
  | RABBITIZER_INSTR_ID_cpu_slt | RABBITIZER_INSTR_ID_cpu_sltu
  | RABBITIZER_INSTR_ID_cpu_srav | RABBITIZER_INSTR_ID_cpu_srlv
  | RABBITIZER_INSTR_ID_cpu_subu | RABBITIZER_INSTR_ID_cpu_xor => (TYPE_1D_2S, insn)
  | RABBITIZER_INSTR_ID_cpu_cfc1 | RABBITIZER_INSTR_ID_cpu_mfc1
  | RABBITIZER_INSTR_ID_cpu_lui => (TYPE_1D, insn)
  | RABBITIZER_INSTR_ID_cpu_ctc1 | RABBITIZER_INSTR_ID_cpu_bgez
  | RABBITIZER_INSTR_ID_cpu_bgezl | RABBITIZER_INSTR_ID_cpu_bgtz
  | RABBITIZER_INSTR_ID_cpu_bgtzl | RABBITIZER_INSTR_ID_cpu_blez
  | RABBITIZER_INSTR_ID_cpu_blezl | RABBITIZER_INSTR_ID_cpu_bltz
  | RABBITIZER_INSTR_ID_cpu_bltzl | RABBITIZER_INSTR_ID_cpu_beqz
  | RABBITIZER_INSTR_ID_cpu_bnez | RABBITIZER_INSTR_ID_cpu_mtc1 => (TYPE_1S, insn)
  | RABBITIZER_INSTR_ID_cpu_beq | RABBITIZER_INSTR_ID_cpu_beql
  | RABBITIZER_INSTR_ID_cpu_bne | RABBITIZER_INSTR_ID_cpu_bnel
  | RABBITIZER_INSTR_ID_cpu_sb | RABBITIZER_INSTR_ID_cpu_sh
  | RABBITIZER_INSTR_ID_cpu_sw | RABBITIZER_INSTR_ID_cpu_swl
  | RABBITIZER_INSTR_ID_cpu_tne | RABBITIZER_INSTR_ID_cpu_teq
  | RABBITIZER_INSTR_ID_cpu_tge | RABBITIZER_INSTR_ID_cpu_tgeu
  | RABBITIZER_INSTR_ID_cpu_tlt => (TYPE_2S, insn)
  | RABBITIZER_INSTR_ID_cpu_div => (TYPE_D_LO_HI_2S, insn)
  | RABBITIZER_INSTR_ID_cpu_div_s | RABBITIZER_INSTR_ID_cpu_div_d => (TYPE_NOP, insn)
  | RABBITIZER_INSTR_ID_cpu_divu | RABBITIZER_INSTR_ID_cpu_mult
  | RABBITIZER_INSTR_ID_cpu_multu => (TYPE_D_LO_HI_2S, insn)
  | RABBITIZER_INSTR_ID_cpu_neg_s | RABBITIZER_INSTR_ID_cpu_neg_d => (TYPE_NOP, insn)
  | RABBITIZER_INSTR_ID_cpu_jalr => (TYPE_1S, insn)
  | RABBITIZER_INSTR_ID_cpu_jr =>
      let insn :=
        if bool_decide (jtbl_addr insn ≠ 0) then
          set_instruction
            (λ instr, set_word (RAB_INSTR_PACK_rs (word instr) (index_reg insn)) instr) insn
        else insn in
      if bool_decide (RAB_INSTR_GET_rt (instruction insn) = RABBITIZER_REG_GPR_O32_ra)
      then (TYPE_NOP, insn)
      else (TYPE_1S, insn)
  | RABBITIZER_INSTR_ID_cpu_lwc1 | RABBITIZER_INSTR_ID_cpu_ldc1
  | RABBITIZER_INSTR_ID_cpu_swc1 | RABBITIZER_INSTR_ID_cpu_sdc1 => (TYPE_1S_POS1, insn)
  | _ => (TYPE_NOP, insn)
  end.

(** ** The O32 argument walk of [r_pass5]

    The state of the walk over the parameter characters of an extern. *)
Record ArgWalk : Set := mkArgWalk {
  aw_args : Z;
  aw_pos : Z;
  aw_pos_float : Z;
  aw_only_floats_so_far : bool
}.

Definition a_reg (pos : Z) : Z := r_map_reg (RABBITIZER_REG_GPR_O32_a0 + pos).

(** One turn of [for (const char* p = found_fn->params + 1; *p != 0; ++p)]. *)
Definition arg_walk_step (c : ascii) (w : ArgWalk) : ArgWalk :=
  let '(mkArgWalk args pos pos_float only_floats_so_far) := w in
  if bool_decide (c = "i" ∨ c = "u" ∨ c = "p" ∨ c = "t")%char then
    mkArgWalk (if bool_decide (pos < 4) then Z.lor args (a_reg pos) else args)
      (pos + 1) pos_float false
  else if bool_decide (c = "f")%char then
    if only_floats_so_far && bool_decide (pos_float < 4) then
      mkArgWalk args (pos + 1) (pos_float + 2) only_floats_so_far
    else
      mkArgWalk (if bool_decide (pos < 4) then Z.lor args (a_reg pos) else args)
        (pos + 1) pos_float only_floats_so_far
  else if bool_decide (c = "d")%char then
    let pos := if bool_decide (Z.rem pos 1 ≠ 0) then pos + 1 else pos in
    if only_floats_so_far && bool_decide (pos_float < 4) then
      mkArgWalk args (pos + 2) (pos_float + 2) only_floats_so_far
    else
      mkArgWalk
        (if bool_decide (pos < 4) then Z.lor args (Z.lor (a_reg pos) (a_reg (pos + 1)))
         else args)
        (pos + 2) pos_float only_floats_so_far
  else if bool_decide (c = "l" ∨ c = "j")%char then
    let pos := if bool_decide (Z.rem pos 1 ≠ 0) then pos + 1 else pos in
    mkArgWalk
      (if bool_decide (pos < 4) then Z.lor args (Z.lor (a_reg pos) (a_reg (pos + 1)))
       else args)
      (pos + 2) pos_float false
  else w.

Fixpoint arg_walk (params : string) (w : ArgWalk) : ArgWalk :=
  match params with
  | EmptyString => w
  | String c rest => arg_walk rest (arg_walk_step c w)
  end.

(** [found_fn->params + 1] *)
Definition params_tail (params : string) : string :=
  match params with
  | EmptyString => EmptyString
  | String _ rest => rest
  end.

(** [found_fn->params[0]] *)
Definition ret_type (params : string) : ascii :=
  match params with
  | EmptyString => "000"%char
  | String c _ => c
  end.

(** The argument registers of a call to the extern [fn], as [r_pass5]
    computes them. *)
Definition extern_args_walk (fn : ExternFunction) : ArgWalk :=
  let args := 1 in
  let args :=
    if bool_decide (Z.land (ef_flags fn) FLAG_VARARG ≠ 0) then
      (* assume the worst, that all four registers are used *)
      Z.lor (Z.lor (Z.lor (Z.lor args (a_reg 0)) (a_reg 1)) (a_reg 2)) (a_reg 3)
    else args in
  arg_walk (params_tail (ef_params fn)) (mkArgWalk args 0 0 true).

Definition extern_args (fn : ExternFunction) : Z :=
  Z.lor (aw_args (extern_args_walk fn)) (r_map_reg RABBITIZER_REG_GPR_O32_sp).

(** The return registers of a call to an extern, as [r_pass4] adds them. *)
Definition extern_rets (c : ascii) : Z :=
  if bool_decide (c = "i" ∨ c = "u" ∨ c = "p")%char then r_map_reg RABBITIZER_REG_GPR_O32_v0
  else if bool_decide (c = "l" ∨ c = "j")%char then
    Z.lor (r_map_reg RABBITIZER_REG_GPR_O32_v0) (r_map_reg RABBITIZER_REG_GPR_O32_v1)
  else 0.

(** ** Text output ([printf]) *)

Definition hex_digit (d : Z) : ascii :=
  match d with
  | 0 => "0" | 1 => "1" | 2 => "2" | 3 => "3" | 4 => "4" | 5 => "5" | 6 => "6"
  | 7 => "7" | 8 => "8" | 9 => "9" | 10 => "a" | 11 => "b" | 12 => "c"
  | 13 => "d" | 14 => "e" | _ => "f"
  end%char.

Fixpoint hex_digits (fuel : nat) (n : Z) (acc : string) : string :=
  match fuel with
  | O => acc
  | S fuel' =>
      let acc := String (hex_digit (n `mod` 16)) acc in
      if bool_decide (n `div` 16 = 0) then acc else hex_digits fuel' (n `div` 16) acc
  end.

(** [%x] and [%llx]: at most 16 digits, lower case, no prefix. *)
Definition hex (n : Z) : string := hex_digits 16 n "".

Definition newline : ascii := "010"%char.

(** The text a C compiler sees: a [//] comment runs to the end of its line.
    (The lowered text has no string literal with [//] in it and no block
    comment, so this is all of the comment syntax that matters.) *)
Fixpoint skip_line (s : string) : string :=
  match s with
  | EmptyString => EmptyString
  | String c rest => if bool_decide (c = newline) then s else skip_line rest
  end.

Definition slash : ascii := "/"%char.

Fixpoint strip_comments (fuel : nat) (s : string) : string :=
  match fuel with
  | O => EmptyString
  | S fuel' =>
      match s with
      | EmptyString => EmptyString
      | String c rest =>
          match rest with
          | String c' rest' =>
              if bool_decide (c = slash) && bool_decide (c' = slash)
              then strip_comments fuel' (skip_line rest')
              else String c (strip_comments fuel' rest)
          | EmptyString => String c EmptyString
          end
      end
  end.

(** No newline in [s]. *)
Fixpoint one_line (s : string) : bool :=
  match s with
  | EmptyString => true
  | String c rest => negb (bool_decide (c = newline)) && one_line rest
  end.

Definition compiled_text (s : string) : string := strip_comments (String.length s) s.

(** [r_r]: the name of a general register in the lowered code. *)
Definition r_r (reg : Z) : Outcome string :=
  vec_get
    ["zero"; "at"; "v0"; "v1"; "a0"; "a1"; "a2"; "a3";
     "t0"; "t1"; "t2"; "t3"; "t4"; "t5"; "t6"; "t7";
     "s0"; "s1"; "s2"; "s3"; "s4"; "s5"; "s6"; "s7";
     "t8"; "t9"; "k0"; "k1"; "gp"; "sp"; "fp"; "ra"] reg.

(** ** Shared helpers *)

Section Passes.
Context `{Rabbitizer}.
Variable elf : Elf.

(** [addr_to_i]: the index of the instruction at [addr]. *)
Definition addr_to_i (addr : Z) : Z := u32 (addr - text_vaddr elf) / 4.

(** [text_vaddr <= a && a < text_vaddr + text_section_len] in [uint32_t]. *)
Definition in_text (a : Z) : bool :=
  bool_decide (text_vaddr elf ≤ a)
  && bool_decide (a < u32 (text_vaddr elf + text_section_len elf)).

(** [add_function]: [functions[addr]] creates the record when it is new. *)
Definition add_function (addr : Z) (st : State) : State :=
  if in_text addr then
    match functions st !! addr with
    | Some _ => st
    | None => set_functions (<[addr := Function_new]> (functions st)) st
    end
  else st.

(** [read_u32_be(buf + off)] *)
Definition read_u32_be (buf : list Z) (off : Z) : Outcome Z :=
  b0 ← vec_get buf off;
  b1 ← vec_get buf (off + 1);
  b2 ← vec_get buf (off + 2);
  b3 ← vec_get buf (off + 3);
  Ok (u32 (Z.shiftl b0 24 + Z.shiftl b1 16 + Z.shiftl b2 8 + b3)).

(** [get_dest_reg] *)
Definition get_dest_reg (instr : RabbitizerInstruction) : Z :=
  if RabbitizerInstrDescriptor_modifiesRt (descriptor instr) then RAB_INSTR_GET_rt instr
  else if RabbitizerInstrDescriptor_modifiesRd (descriptor instr) then RAB_INSTR_GET_rd instr
  else RABBITIZER_REG_GPR_O32_zero.

(** The target of a [JAL] or [J]: the patched address, or the one in the word. *)
Definition jal_dest (insn : RInsn) : Z :=
  if patched insn then patched_addr insn
  else RabbitizerInstruction_getInstrIndexAsVram (instruction insn).

(** ** Linear disassembly: [r_disassemble] *)

(** [RInsn()]: every field zero. *)
Definition RInsn_new (instr : RabbitizerInstruction) : RInsn :=
  mkRInsn instr false false false 0 0 0 0 0 0 [] [] 0 0 0 0.

Fixpoint r_disassemble_loop (n : nat) (i : Z) : Outcome (list RInsn) :=
  match n with
  | O =>
      (* the dummy NOP that closes the vector *)
      Ok [set_no_following_successor true
            (RInsn_new (RabbitizerInstruction_init 0 (u32 (text_vaddr elf + i))))]
  | S n' =>
      w ← read_u32_be (text_section elf) i;
      rest ← r_disassemble_loop n' (i + 4);
      Ok (set_linked_insn (-1)
            (RInsn_new (RabbitizerInstruction_init w (u32 (text_vaddr elf + i)))) :: rest)
  end.

Definition r_disassemble : Outcome (list RInsn) :=
  r_disassemble_loop (Z.to_nat ((text_section_len elf + 3) / 4)) 0.

(** ** Symbol resolution: [r_link_with_lui] *)

Definition MAX_LOOKBACK : Z := 128.

(** One turn of the backward search, at index [search]; [continue] is the
    rest of the search. *)
Definition r_link_with_lui_body (continue : Outcome State)
    (search offset reg mem_imm : Z) (st : State) : Outcome State :=
      s ← get_insn st search;
      match uniqueId (instruction s) with
      | RABBITIZER_INSTR_ID_cpu_lui =>
          if bool_decide (reg = RAB_INSTR_GET_rt (instruction s)) then Ok st else continue
      | RABBITIZER_INSTR_ID_cpu_lw | RABBITIZER_INSTR_ID_cpu_ld
      | RABBITIZER_INSTR_ID_cpu_addiu | RABBITIZER_INSTR_ID_cpu_add
      | RABBITIZER_INSTR_ID_cpu_sub | RABBITIZER_INSTR_ID_cpu_subu =>
          if bool_decide (reg = get_dest_reg (instruction s)) then
            if bool_decide (uniqueId (instruction s) = RABBITIZER_INSTR_ID_cpu_lw)
               && bool_decide (RAB_INSTR_GET_rs (instruction s) = RABBITIZER_REG_GPR_O32_gp)
            then
              let mem_imm0 := RabbitizerInstruction_getProcessedImmediate (instruction s) in
              let got_entry := u32 (mem_imm0 + gp_value_adj elf) / 4 in
              if bool_decide (got_entry < vec_size (got_locals elf)) then
                (* used for static functions *)
                g ← vec_get (got_locals elf) got_entry;
                let addr := u32 (g + mem_imm) in
                st ← upd_insn search (λ r, set_linked_value addr (set_linked_insn offset r)) st;
                st ← upd_insn offset (λ r, set_linked_value addr (set_linked_insn search r)) st;
                (* patch the load to contain the full address *)
                st ← upd_insn search
                       (λ r, set_patched_addr addr
                               (patch_to RABBITIZER_INSTR_ID_cpu_ori RABBITIZER_INSTR_ID_cpu_ori r)) st;
                (* patch the user to have offset 0 *)
                o ← get_insn st offset;
                match uniqueId (instruction o) with
                | RABBITIZER_INSTR_ID_cpu_addiu =>
                    s' ← get_insn st search;
                    st ← upd_insn offset
                           (patch_to RABBITIZER_INSTR_ID_cpu_move (uniqueId (instruction s'))) st;
                    Ok (if in_text addr then add_function addr st else st)
                | RABBITIZER_INSTR_ID_cpu_lb | RABBITIZER_INSTR_ID_cpu_lbu
                | RABBITIZER_INSTR_ID_cpu_sb | RABBITIZER_INSTR_ID_cpu_lh
                | RABBITIZER_INSTR_ID_cpu_lhu | RABBITIZER_INSTR_ID_cpu_sh
                | RABBITIZER_INSTR_ID_cpu_lw | RABBITIZER_INSTR_ID_cpu_sw
                | RABBITIZER_INSTR_ID_cpu_ldc1 | RABBITIZER_INSTR_ID_cpu_lwc1
                | RABBITIZER_INSTR_ID_cpu_swc1 =>
                    upd_insn offset (λ r, set_patched_addr 0 (set_patched true r)) st
                | _ => Abort "Unsupported instruction type"
                end
              else Ok st
            else
              (* reg is a pointer, offset is probably a struct data member *)
              Ok st
          else continue
      | RABBITIZER_INSTR_ID_cpu_jr =>
          if bool_decide (RAB_INSTR_GET_rd (instruction s) = RABBITIZER_REG_GPR_O32_ra)
             && bool_decide (2 ≤ offset - search)
          then Ok st else continue
      | _ => continue
      end.

Fixpoint r_link_with_lui_loop (n : nat) (search offset reg mem_imm : Z)
    (st : State) : Outcome State :=
  match n with
  | O => Ok st
  | S n' =>
      r_link_with_lui_body (r_link_with_lui_loop n' (search - 1) offset reg mem_imm st)
        search offset reg mem_imm st
  end.

(** [search] runs from [offset - 1] down to [max(0, offset - MAX_LOOKBACK)]. *)
Definition r_link_with_lui (offset reg mem_imm : Z) (st : State) : Outcome State :=
  let end_search := Z.max 0 (offset - MAX_LOOKBACK) in
  r_link_with_lui_loop (Z.to_nat (offset - end_search)) (offset - 1) offset reg mem_imm st.

(** ** Symbol resolution: [r_link_with_jalr] *)

Definition r_link_with_jalr_body (continue : Outcome State) (search offset : Z)
    (st : State) : Outcome State :=
      s ← get_insn st search;
      if bool_decide (get_dest_reg (instruction s) = RABBITIZER_REG_GPR_O32_t9) then
        match uniqueId (instruction s) with
        | RABBITIZER_INSTR_ID_cpu_lw | RABBITIZER_INSTR_ID_cpu_ori =>
            if is_global_got_memop s
               || bool_decide (uniqueId (instruction s) = RABBITIZER_INSTR_ID_cpu_ori)
            then
              st ← upd_insn search (set_linked_insn offset) st;
              st ← upd_insn offset (set_linked_insn search) st;
              s1 ← get_insn st search;
              st ← upd_insn offset (set_linked_value (linked_value s1)) st;
              st ← upd_insn offset
                     (λ r, set_patched_addr
                             (u32 (RabbitizerInstruction_getProcessedImmediate (instruction r)))
                             (set_patched true r)) st;
              s2 ← get_insn st search;
              st ← upd_insn offset
                     (set_instruction
                        (set_id RABBITIZER_INSTR_ID_cpu_jal (uniqueId (instruction s2)))) st;
              st ← upd_insn search
                     (λ r, set_is_global_got_memop false
                             (patch_to RABBITIZER_INSTR_ID_cpu_nop RABBITIZER_INSTR_ID_cpu_nop r)) st;
              s3 ← get_insn st search;
              Ok (add_function (linked_value s3) st)
            else Ok st
        | RABBITIZER_INSTR_ID_cpu_addiu =>
            if bool_decide (linked_insn s ≠ -1) then
              let first := linked_insn s in
              (* not describing as patched since instruction not edited *)
              st ← upd_insn search (set_linked_insn offset) st;
              st ← upd_insn offset (set_linked_insn first) st;
              s1 ← get_insn st search;
              upd_insn offset (set_linked_value (linked_value s1)) st
            else Ok st
        | RABBITIZER_INSTR_ID_cpu_ld | RABBITIZER_INSTR_ID_cpu_addu
        | RABBITIZER_INSTR_ID_cpu_add | RABBITIZER_INSTR_ID_cpu_sub
        | RABBITIZER_INSTR_ID_cpu_subu => Ok st
        | _ => continue
        end
      else if bool_decide (uniqueId (instruction s) = RABBITIZER_INSTR_ID_cpu_jr)
              && bool_decide (RAB_INSTR_GET_rs (instruction s) = RABBITIZER_REG_GPR_O32_ra)
      then Ok st   (* stop looking when the previous [jr ra] is hit *)
      else continue.

Fixpoint r_link_with_jalr_loop (n : nat) (search offset : Z) (st : State)
    : Outcome State :=
  match n with
  | O => Ok st
  | S n' =>
      r_link_with_jalr_body (r_link_with_jalr_loop n' (search - 1) offset st)
        search offset st
  end.

Definition r_link_with_jalr (offset : Z) (st : State) : Outcome State :=
  let end_search := Z.max 0 (offset - MAX_LOOKBACK) in
  r_link_with_jalr_loop (Z.to_nat (offset - end_search)) (offset - 1) offset st.

(** ** Symbol resolution: jump tables *)

(** What the pattern match in front of a [JR] finds. *)
Record JumpTable : Set := mkJumpTable {
  jt_lw : Z;
  jt_addu_index : Z;
  jt_is_pic : bool;
  jt_and_variant : bool;
  jt_num_cases : Z;
  jt_index_reg : Z
}.

Definition has_id (id : RabbitizerInstrId) (r : RInsn) : bool :=
  bool_decide (uniqueId (instruction r) = id).

(** [for (j = 5; j <= end; j++)]: the position of the [sltiu $at], or -1. *)
Fixpoint sltiu_scan (n : nat) (j base : Z) (st : State) : Outcome Z :=
  match n with
  | O => Ok (-1)
  | S n' =>
      r ← get_insn st (base - j);
      if has_id RABBITIZER_INSTR_ID_cpu_sltiu r
         && bool_decide (RAB_INSTR_GET_rt (instruction r) = RABBITIZER_REG_GPR_O32_at)
      then Ok j
      else if has_id RABBITIZER_INSTR_ID_cpu_jr r then Ok (-1)   (* a previous switch *)
      else sltiu_scan n' (j + 1) base st
  end.

(** The recognition of the jump table that feeds the [JR] at index [i]
    ([7 <= i], [.rodata] present): [None] when the pattern is not there. *)
Definition jtbl_recognize (i : Z) (st : State) : Outcome (option JumpTable) :=
  insn ← get_insn st i;
  p ← get_insn st (i - 1);
  let is_pic := has_id RABBITIZER_INSTR_ID_cpu_addu p
                && bool_decide (RAB_INSTR_GET_rt (instruction p) = RABBITIZER_REG_GPR_O32_gp) in
  n ← get_insn st (i - Z.b2z is_pic - 1);
  let has_nop := has_id RABBITIZER_INSTR_ID_cpu_nop n in
  b ← get_insn st (i - Z.b2z is_pic - Z.b2z has_nop - 5);
  let has_extra := negb (has_id RABBITIZER_INSTR_ID_cpu_beqz b) in
  let lw := i - Z.b2z is_pic - Z.b2z has_nop - 1 in
  l ← get_insn st lw;
  let lw := if has_id RABBITIZER_INSTR_ID_cpu_lw l then lw else lw - 1 in
  l ← get_insn st lw;
  if has_id RABBITIZER_INSTR_ID_cpu_lw l && bool_decide (linked_insn l ≠ -1) then
    let addu_index := lw - 1 in
    a ← get_insn st addu_index;
    let addu_index := if has_id RABBITIZER_INSTR_ID_cpu_addu a then addu_index
                      else addu_index - 1 in
    sl ← get_insn st (addu_index - 1);
    let index_reg := RAB_INSTR_GET_rs (instruction sl) in
    a ← get_insn st addu_index;
    if negb (has_id RABBITIZER_INSTR_ID_cpu_addu a) then Ok None
    else if negb (has_id RABBITIZER_INSTR_ID_cpu_sll sl) then Ok None
    else if bool_decide (get_dest_reg (instruction sl) ≠ RAB_INSTR_GET_rs (instruction insn))
    then Ok None
    else
      a3 ← get_insn st (lw - 3);
      andi_index ←
        (if has_id RABBITIZER_INSTR_ID_cpu_andi a3 then Ok (lw - 3)
         else a4 ← get_insn st (lw - 4);
              Ok (if has_id RABBITIZER_INSTR_ID_cpu_andi a4 then lw - 4 else -1));
      let end_ := if bool_decide (i = 368393) then 18 else 14 in
      sltiu_index ← sltiu_scan (Z.to_nat (end_ - 4)) 5 (lw - Z.b2z has_extra) st;
      let andi_index := if bool_decide (sltiu_index ≠ -1) then -1 else andi_index in
      s ← (if bool_decide (sltiu_index ≠ -1) then
             s ← get_insn st (lw - Z.b2z has_extra - sltiu_index);
             Ok (if has_id RABBITIZER_INSTR_ID_cpu_sltiu s then Some s else None)
           else Ok None);
      match s with
      | Some s =>
          Ok (Some (mkJumpTable lw addu_index is_pic false
                      (u32 (RabbitizerInstruction_getProcessedImmediate (instruction s)))
                      index_reg))
      | None =>
          if bool_decide (andi_index ≠ -1) then
            an ← get_insn st andi_index;
            Ok (Some (mkJumpTable lw addu_index is_pic true
                        (u32 (RabbitizerInstruction_getProcessedImmediate (instruction an) + 1))
                        index_reg))
          else if bool_decide (i = 219382) then
            (* special hard case in copt: the sltiu is in another basic block *)
            Ok (Some (mkJumpTable lw addu_index is_pic false 13 index_reg))
          else if bool_decide (i = 370995) then
            Ok (Some (mkJumpTable lw addu_index is_pic false 12 index_reg))
          else Ok None
      end
  else Ok None.

(** The test in front of the table reads:
    [jtbl_addr < rodata_vaddr ||
     jtbl_addr + num_cases * sizeof(uint32_t) > rodata_vaddr + rodata_section_len].
    The left sum is computed in [size_t] (64 bits) and cannot wrap; the right
    one in [uint32_t]. *)
Definition jtbl_outside_rodata (jtbl_addr num_cases : Z) : bool :=
  bool_decide (jtbl_addr < rodata_vaddr elf)
  || bool_decide (u32 (rodata_vaddr elf + rodata_section_len elf) < jtbl_addr + num_cases * 4).

Fixpoint jtbl_labels (rodata : list Z) (pos : Z) (n : nat) (k : Z) (st : State)
    : Outcome State :=
  match n with
  | O => Ok st
  | S n' =>
      w ← read_u32_be rodata (pos + k * 4);
      jtbl_labels rodata pos n' (k + 1) (label_insert (u32 (w + gp_value elf)) st)
  end.

Definition nop_out (r : RInsn) : RInsn :=
  patch_to RABBITIZER_INSTR_ID_cpu_nop RABBITIZER_INSTR_ID_cpu_nop r.

(** What [r_pass1] does once the table is found ([if (found) { ... }]). *)
Definition jtbl_commit (rodata : list Z) (i : Z) (jt : JumpTable) (st : State)
    : Outcome State :=
  l ← get_insn st (jt_lw jt);
  let jtbl_addr := linked_value l in
  st ← (if jt_is_pic jt then upd_insn (i - 1) nop_out st else Ok st);
  st ← upd_insn i (set_jtbl jtbl_addr (jt_num_cases jt) (jt_index_reg jt)) st;
  st ← upd_insn (jt_lw jt) nop_out st;
  st ← upd_insn (jt_addu_index jt) nop_out st;
  st ← upd_insn (jt_addu_index jt - 1) nop_out st;
  st ← (if negb (jt_and_variant jt) then
          sl ← get_insn st (jt_addu_index jt - 1);
          upd_insn (jt_addu_index jt - 2)
            (patch_to RABBITIZER_INSTR_ID_cpu_nop (uniqueId (instruction sl))) st
        else Ok st);
  if jtbl_outside_rodata jtbl_addr (jt_num_cases jt) then
    Exit EXIT_FAILURE "jump table outside rodata
"
  else
    jtbl_labels rodata (u32 (jtbl_addr - rodata_vaddr elf))
      (Z.to_nat (jt_num_cases jt)) 0 st.

(** The [JR] case of [r_pass1]. *)
Definition r_pass1_jr (i : Z) (st : State) : Outcome State :=
  match rodata_section elf with
  | Some rodata =>
      if bool_decide (7 ≤ i) then
        found ← jtbl_recognize i st;
        match found with
        | Some jt => jtbl_commit rodata i jt st
        | None => Ok st
        end
      else Ok st
  | None => Ok st
  end.

(** ** Symbol resolution: [r_pass1] *)

(** The backward search for the [LUI] that feeds an [MTC1] (floating point
    [LI]); [s] runs from [i - 1] down to 0. *)
Definition mtc1_scan_body (continue : Outcome State) (s i rt : Z) (st : State)
    : Outcome State :=
      r ← get_insn st s;
      match uniqueId (instruction r) with
      | RABBITIZER_INSTR_ID_cpu_lui =>
          if bool_decide (RAB_INSTR_GET_rt (instruction r) = rt) then
            let lui_imm :=
              u32 (Z.shiftl (RabbitizerInstruction_getProcessedImmediate (instruction r)) 16) in
            (* [linked_float] shares its storage with [linked_value] *)
            upd_insn s
              (λ r, set_patched_addr lui_imm
                      (patch_to RABBITIZER_INSTR_ID_cpu_ori RABBITIZER_INSTR_ID_cpu_ori
                         (set_linked_value lui_imm (set_linked_insn i r)))) st
          else Ok st
      | RABBITIZER_INSTR_ID_cpu_lw | RABBITIZER_INSTR_ID_cpu_ld
      | RABBITIZER_INSTR_ID_cpu_lh | RABBITIZER_INSTR_ID_cpu_lhu
      | RABBITIZER_INSTR_ID_cpu_lb | RABBITIZER_INSTR_ID_cpu_lbu
      | RABBITIZER_INSTR_ID_cpu_addiu | RABBITIZER_INSTR_ID_cpu_add
      | RABBITIZER_INSTR_ID_cpu_sub | RABBITIZER_INSTR_ID_cpu_subu =>
          if bool_decide (rt = RAB_INSTR_GET_rd (instruction r)) then Ok st else continue
      | RABBITIZER_INSTR_ID_cpu_jr =>
          if bool_decide (RAB_INSTR_GET_rs (instruction r) = RABBITIZER_REG_GPR_O32_ra)
          then Ok st else continue
      | _ => continue
      end.

Fixpoint mtc1_scan (n : nat) (s i rt : Z) (st : State) : Outcome State :=
  match n with
  | O => Ok st
  | S n' => mtc1_scan_body (mtc1_scan n' (s - 1) i rt st) s i rt st
  end.

(** A load or store: a GOT-global load through [$gp] becomes an [LI]; any
    other base register is looked up with [r_link_with_lui]. *)
Definition r_pass1_memop (i : Z) (st : State) : Outcome State :=
  insn ← get_insn st i;
  let mem_rs := RAB_INSTR_GET_rs (instruction insn) in
  let mem_imm := RabbitizerInstruction_getProcessedImmediate (instruction insn) in
  if bool_decide (mem_rs = RABBITIZER_REG_GPR_O32_gp) then
    let got_entry := u32 (mem_imm + gp_value_adj elf) / 4 in
    if bool_decide (vec_size (got_locals elf) ≤ got_entry) then
      let got_entry := got_entry - vec_size (got_locals elf) in
      if bool_decide (got_entry < vec_size (got_globals elf)) then
        if has_id RABBITIZER_INSTR_ID_cpu_lw insn then
          dest_vaddr ← vec_get (got_globals elf) got_entry;
          upd_insn i
            (λ r, set_patched_addr dest_vaddr
                    (patch_to RABBITIZER_INSTR_ID_cpu_ori RABBITIZER_INSTR_ID_cpu_ori
                       (set_linked_value dest_vaddr (set_is_global_got_memop true r)))) st
        else Abort "insn.instruction.uniqueId == RABBITIZER_INSTR_ID_cpu_lw"
      else Ok st
    else Ok st
  else r_link_with_lui i mem_rs mem_imm st.

(** [for (size_t j = i - 2; j <= i; j++)]: NOP out the [$gp] set-up. *)
Definition gp_restore_elision (i : Z) (st : State) : Outcome State :=
  st ← upd_insn (i - 2) nop_out st;
  st ← upd_insn (i - 1) nop_out st;
  upd_insn i nop_out st.

(** The body of the loop of [r_pass1] for index [i]. *)
Definition r_pass1_step (i : Z) (st : State) : Outcome State :=
  insn ← get_insn st i;
  (* BAL *)
  st ← (if has_id RABBITIZER_INSTR_ID_cpu_bgezal insn
           && bool_decide (RAB_INSTR_GET_rs (instruction insn) = RABBITIZER_REG_GPR_O32_zero)
        then
          upd_insn i
            (λ r, patch_to RABBITIZER_INSTR_ID_cpu_jal RABBITIZER_INSTR_ID_cpu_jal
                    (set_patched_addr
                       (u32 (RabbitizerInstruction_getProcessedImmediate (instruction r))) r)) st
        else Ok st);
  insn ← get_insn st i;
  st ← (if RabbitizerInstrDescriptor_isJump (descriptor (instruction insn)) then
          match uniqueId (instruction insn) with
          | RABBITIZER_INSTR_ID_cpu_jal | RABBITIZER_INSTR_ID_cpu_j =>
              let target := jal_dest insn in
              Ok (add_function target (label_insert target st))
          | RABBITIZER_INSTR_ID_cpu_jr => r_pass1_jr i st
          | _ =>
              if RabbitizerInstrDescriptor_isIType (descriptor (instruction insn)) then
                Ok (label_insert
                      (u32 (RabbitizerInstruction_getProcessedImmediate (instruction insn))) st)
              else Ok st
          end
        else Ok st);
  insn ← get_insn st i;
  st ← match uniqueId (instruction insn) with
       | RABBITIZER_INSTR_ID_cpu_mtc1 =>
           mtc1_scan (Z.to_nat i) (i - 1) i (RAB_INSTR_GET_rt (instruction insn)) st
       | RABBITIZER_INSTR_ID_cpu_sd | RABBITIZER_INSTR_ID_cpu_sw
       | RABBITIZER_INSTR_ID_cpu_sh | RABBITIZER_INSTR_ID_cpu_sb
       | RABBITIZER_INSTR_ID_cpu_lb | RABBITIZER_INSTR_ID_cpu_lbu
       | RABBITIZER_INSTR_ID_cpu_ld | RABBITIZER_INSTR_ID_cpu_ldl
       | RABBITIZER_INSTR_ID_cpu_ldr | RABBITIZER_INSTR_ID_cpu_lh
       | RABBITIZER_INSTR_ID_cpu_lhu | RABBITIZER_INSTR_ID_cpu_lw
       | RABBITIZER_INSTR_ID_cpu_lwu | RABBITIZER_INSTR_ID_cpu_ldc1
       | RABBITIZER_INSTR_ID_cpu_lwc1 | RABBITIZER_INSTR_ID_cpu_lwc2
       | RABBITIZER_INSTR_ID_cpu_swc1 | RABBITIZER_INSTR_ID_cpu_swc2 =>
           r_pass1_memop i st
       | RABBITIZER_INSTR_ID_cpu_addiu | RABBITIZER_INSTR_ID_cpu_ori =>
           let rd := RAB_INSTR_GET_rd (instruction insn) in
           let rs := RAB_INSTR_GET_rs (instruction insn) in
           let imm := RabbitizerInstruction_getProcessedImmediate (instruction insn) in
           if bool_decide (rs = RABBITIZER_REG_GPR_O32_zero) then Ok st   (* becomes LI *)
           else if bool_decide (rd ≠ RABBITIZER_REG_GPR_O32_gp) then r_link_with_lui i rs imm st
           else Ok st
       | RABBITIZER_INSTR_ID_cpu_jalr =>
           if bool_decide (RAB_INSTR_GET_rs (instruction insn) = RABBITIZER_REG_GPR_O32_t9) then
             st ← r_link_with_jalr i st;
             insn ← get_insn st i;
             if bool_decide (linked_insn insn ≠ -1) then
               st ← upd_insn i
                      (λ r, patch_to RABBITIZER_INSTR_ID_cpu_jal RABBITIZER_INSTR_ID_cpu_jal
                              (set_patched_addr (linked_value r) r)) st;
               Ok (add_function (linked_value insn) (label_insert (linked_value insn) st))
             else Ok st
           else Ok st
       | _ => Ok st
       end;
  insn ← get_insn st i;
  if has_id RABBITIZER_INSTR_ID_cpu_addu insn
     && bool_decide (RAB_INSTR_GET_rd (instruction insn) = RABBITIZER_REG_GPR_O32_gp)
     && bool_decide (RAB_INSTR_GET_rs (instruction insn) = RABBITIZER_REG_GPR_O32_gp)
     && bool_decide (RAB_INSTR_GET_rt (instruction insn) = RABBITIZER_REG_GPR_O32_t9)
     && bool_decide (2 ≤ i)
  then gp_restore_elision i st
  else Ok st.

Fixpoint r_pass1_loop (n : nat) (i : Z) (st : State) : Outcome State :=
  match n with
  | O => Ok st
  | S n' => st ← r_pass1_step i st; r_pass1_loop n' (i + 1) st
  end.

Definition r_pass1 (st : State) : Outcome State :=
  r_pass1_loop (length (rinsns st)) 0 st.

(** ** CFG construction: [r_add_edge] and [r_pass3] *)

Definition r_add_edge (from to : Z)
    (function_entry function_exit extern_function function_pointer : bool)
    (st : State) : Outcome State :=
  let fe := mkEdge to function_entry function_exit extern_function function_pointer in
  let be := mkEdge from function_entry function_exit extern_function function_pointer in
  st ← upd_insn from (λ r, set_successors (successors r ++ [fe]) r) st;
  upd_insn to (λ r, set_predecessors (predecessors r ++ [be]) r) st.

(** The target index of a branch or jump: the patched address, or the
    instruction's address plus its branch offset. *)
Definition branch_target (insn : RInsn) : Z :=
  addr_to_i (if patched insn then patched_addr insn
             else u32 (vram (instruction insn)
                       + RabbitizerInstruction_getBranchOffset (instruction insn))).

(** The edges of a jump table: one from the delay slot to each case. *)
Fixpoint jtbl_edges (rodata : list Z) (jtbl_pos : Z) (n : nat) (j : Z) (i : Z)
    (st : State) : Outcome State :=
  match n with
  | O => Ok st
  | S n' =>
      w ← read_u32_be rodata (jtbl_pos + j * 4);
      st ← r_add_edge (i + 1) (addr_to_i (u32 (w + gp_value elf))) false false false false st;
      jtbl_edges rodata jtbl_pos n' (j + 1) i st
  end.

(** The return edges of a call: from each return of the callee to [i + 2]. *)
Fixpoint return_edges (rets : list Z) (i : Z) (st : State) : Outcome State :=
  match rets with
  | [] => Ok st
  | ret_instr :: rets' =>
      st ← r_add_edge (addr_to_i ret_instr) (i + 2) false true false false st;
      return_edges rets' i st
  end.

Definition mark_delay_slot (i : Z) (st : State) : Outcome State :=
  upd_insn (i + 1) (set_no_following_successor true) st.

(** The body of the loop of [r_pass3] for index [i]. The fields of
    [rinsns[i]] it reads are not written by the edges it adds, so they are
    read once. Indices are at most [rinsns.size() + 1 <= 2^30 + 2], so
    their conversion to [uint32_t] changes nothing. *)
Definition r_pass3_step (i : Z) (st : State) : Outcome State :=
  insn ← get_insn st i;
  if no_following_successor insn then Ok st else
  match uniqueId (instruction insn) with
  | RABBITIZER_INSTR_ID_cpu_beq | RABBITIZER_INSTR_ID_cpu_bgez
  | RABBITIZER_INSTR_ID_cpu_bgtz | RABBITIZER_INSTR_ID_cpu_blez
  | RABBITIZER_INSTR_ID_cpu_bltz | RABBITIZER_INSTR_ID_cpu_bne
  | RABBITIZER_INSTR_ID_cpu_beqz | RABBITIZER_INSTR_ID_cpu_bnez
  | RABBITIZER_INSTR_ID_cpu_bc1f | RABBITIZER_INSTR_ID_cpu_bc1t =>
      st ← r_add_edge i (i + 1) false false false false st;
      r_add_edge (i + 1) (branch_target insn) false false false false st
  | RABBITIZER_INSTR_ID_cpu_beql | RABBITIZER_INSTR_ID_cpu_bgezl
  | RABBITIZER_INSTR_ID_cpu_bgtzl | RABBITIZER_INSTR_ID_cpu_blezl
  | RABBITIZER_INSTR_ID_cpu_bltzl | RABBITIZER_INSTR_ID_cpu_bnel
  | RABBITIZER_INSTR_ID_cpu_bc1fl | RABBITIZER_INSTR_ID_cpu_bc1tl =>
      st ← r_add_edge i (i + 1) false false false false st;
      st ← r_add_edge i (i + 2) false false false false st;
      st ← r_add_edge (i + 1) (branch_target insn) false false false false st;
      mark_delay_slot i st
  | RABBITIZER_INSTR_ID_cpu_b | RABBITIZER_INSTR_ID_cpu_j =>
      st ← r_add_edge i (i + 1) false false false false st;
      st ← r_add_edge (i + 1) (branch_target insn) false false false false st;
      mark_delay_slot i st
  | RABBITIZER_INSTR_ID_cpu_jr =>
      st ← r_add_edge i (i + 1) false false false false st;
      st ← (if bool_decide (jtbl_addr insn ≠ 0) then
              let jtbl_pos := u32 (jtbl_addr insn - rodata_vaddr elf) in
              if bool_decide (jtbl_pos < rodata_section_len elf)
                 && bool_decide (jtbl_pos + num_cases insn * 4 ≤ rodata_section_len elf)
              then
                match rodata_section elf with
                | Some rodata => jtbl_edges rodata jtbl_pos (Z.to_nat (num_cases insn)) 0 i st
                | None => if bool_decide (num_cases insn = 0) then Ok st else Undefined
                end
              else Abort "jtbl_pos < rodata_section_len && jtbl_pos + insn.num_cases * sizeof(uint32_t) <= rodata_section_len"
            else if bool_decide (RAB_INSTR_GET_rs (instruction insn) = RABBITIZER_REG_GPR_O32_ra)
            then Ok st
            else Abort "jump to address in register not supported");
      mark_delay_slot i st
  | RABBITIZER_INSTR_ID_cpu_jal =>
      st ← r_add_edge i (i + 1) false false false false st;
      let dest := jal_dest insn in
      st ← (if bool_decide (mcount_addr elf < dest) && in_text dest then
              st ← r_add_edge (i + 1) (addr_to_i dest) true false false false st;
              match functions st !! dest with
              | Some f => return_edges (returns f) i st
              | None => Abort "it != functions.end()"
              end
            else r_add_edge (i + 1) (i + 2) false false true false st);
      mark_delay_slot i st
  | RABBITIZER_INSTR_ID_cpu_jalr =>
      st ← r_add_edge i (i + 1) false false false false st;
      st ← r_add_edge (i + 1) (i + 2) false false false true st;
      mark_delay_slot i st
  | _ => r_add_edge i (i + 1) false false false false st
  end.

Fixpoint r_pass3_loop (n : nat) (i : Z) (st : State) : Outcome State :=
  match n with
  | O => Ok st
  | S n' => st ← r_pass3_step i st; r_pass3_loop n' (i + 1) st
  end.

Definition r_pass3 (st : State) : Outcome State :=
  r_pass3_loop (length (rinsns st)) 0 st.

(** ** Liveness: masks of an instruction *)

Definition get_dest_reg_mask (instr : RabbitizerInstruction) : Z :=
  if RabbitizerInstrDescriptor_modifiesRt (descriptor instr) then
    r_map_reg (RAB_INSTR_GET_rt instr)
  else if RabbitizerInstrDescriptor_modifiesRd (descriptor instr) then
    r_map_reg (RAB_INSTR_GET_rd instr)
  else 0.

Definition get_single_source_reg_mask (instr : RabbitizerInstruction) : Z :=
  if RabbitizerInstrDescriptor_hasOperand_rs (descriptor instr) then
    r_map_reg (RAB_INSTR_GET_rs instr)
  else if RabbitizerInstrDescriptor_hasOperand_rt (descriptor instr) then
    r_map_reg (RAB_INSTR_GET_rt instr)
  else 0.

Definition get_all_source_reg_mask (instr : RabbitizerInstruction) : Z :=
  let ret := 0 in
  let ret :=
    if RabbitizerInstrDescriptor_hasOperand_rs (descriptor instr) then
      Z.lor ret (r_map_reg (RAB_INSTR_GET_rs instr))
    else ret in
  if RabbitizerInstrDescriptor_hasOperand_rt (descriptor instr)
     && negb (RabbitizerInstrDescriptor_modifiesRt (descriptor instr))
  then Z.lor ret (r_map_reg (RAB_INSTR_GET_rt instr))
  else ret.

(** The catalogue entry of the extern at [address]: the first entry that
    carries the name of the symbol there. *)
Definition find_extern (address : Z) : option ExternFunction :=
  name ← symbol_names elf !! address;
  List.find (λ fn, bool_decide (name = ef_name fn)) extern_functions.

(** The address the worklists hold for index [i]:
    [text_vaddr + i * sizeof(uint32_t)], stored as [uint32_t]. *)
Definition i_to_addr (i : Z) : Z := u32 (text_vaddr elf + i * 4).

(** ** Forward liveness: [r_pass4] *)

Definition livein_func_start : Z :=
  Z.lor 1
  (Z.lor (r_map_reg RABBITIZER_REG_GPR_O32_a0)
  (Z.lor (r_map_reg RABBITIZER_REG_GPR_O32_a1)
  (Z.lor (r_map_reg RABBITIZER_REG_GPR_O32_sp)
         (r_map_reg RABBITIZER_REG_GPR_O32_zero)))).

Definition livein_pointer_start : Z :=
  Z.lor livein_func_start
    (Z.lor (r_map_reg RABBITIZER_REG_GPR_O32_a2) (r_map_reg RABBITIZER_REG_GPR_O32_a3)).

Definition f_exit_mask : Z :=
  Z.lor 1
  (Z.lor (r_map_reg RABBITIZER_REG_GPR_O32_v0)
  (Z.lor (r_map_reg RABBITIZER_REG_GPR_O32_v1) (r_map_reg RABBITIZER_REG_GPR_O32_zero))).

Definition f_entry_mask : Z :=
  Z.lor 1
  (Z.lor (r_map_reg RABBITIZER_REG_GPR_O32_v0)
  (Z.lor (r_map_reg RABBITIZER_REG_GPR_O32_a0)
  (Z.lor (r_map_reg RABBITIZER_REG_GPR_O32_a1)
  (Z.lor (r_map_reg RABBITIZER_REG_GPR_O32_a2)
  (Z.lor (r_map_reg RABBITIZER_REG_GPR_O32_a3)
  (Z.lor (r_map_reg RABBITIZER_REG_GPR_O32_sp) (r_map_reg RABBITIZER_REG_GPR_O32_zero))))))).

Definition v0_v1 : Z :=
  Z.lor (r_map_reg RABBITIZER_REG_GPR_O32_v0) (r_map_reg RABBITIZER_REG_GPR_O32_v1).

(** The worklist [q] is a stack: its head is [q.back()]. *)
Fixpoint r_pass4_seed (addrs : list Z) (st : State) (q : list Z)
    : Outcome (State * list Z) :=
  match addrs with
  | [] => Ok (st, q)
  | addr :: addrs' =>
      st ← upd_insn (addr_to_i addr) (set_f_livein livein_pointer_start) st;
      r_pass4_seed addrs' st (addr :: q)
  end.

Definition r_pass4_init (st : State) : Outcome (State * list Z) :=
  st ← upd_insn (addr_to_i (main_addr elf)) (set_f_livein livein_func_start) st;
  '(st, q) ← r_pass4_seed (snd <$> data_function_pointers elf) st [main_addr elf];
  r_pass4_seed (li_function_pointers st) st q.

(** The propagation step of both passes, on the mask [get] / [set] of
    the pass ([f_livein] forward, [b_liveout] backward):
    [if ((rinsns[k].mask | new_live) != rinsns[k].mask) {
       rinsns[k].mask |= new_live; q.push_back(...); }] *)
Definition propagate (get : RInsn → Z) (set : Z → RInsn → RInsn)
    (k new_live : Z) (st : State) (q : list Z) : Outcome (State * list Z) :=
  t ← get_insn st k;
  if new_bits (get t) new_live then
    st ← upd_insn k (λ r, set (Z.lor (get r) new_live) r) st;
    Ok (st, i_to_addr k :: q)
  else Ok (st, q).

Definition f_propagate : Z → Z → State → list Z → Outcome (State * list Z) :=
  propagate f_livein set_f_livein.

(** What crosses the successor edge [e] of instruction [i]. *)
Definition f_edge_live (i live : Z) (e : Edge) (st : State) : Outcome Z :=
  if function_exit e then Ok (Z.land live f_exit_mask)
  else if function_entry e then Ok (Z.land live f_entry_mask)
  else if extern_function e then
    p ← get_insn st (i - 1);
    match find_extern (jal_dest p) with
    | Some found_fn =>
        Ok (Z.lor (clear_bits live caller_saved) (extern_rets (ret_type (ef_params found_fn))))
    | None => Abort "found_fn"
    end
  else if function_pointer e then Ok (Z.lor (clear_bits live caller_saved) v0_v1)
  else Ok live.

Fixpoint r_pass4_edges (es : list Edge) (i live : Z) (st : State) (q : list Z)
    (entry : bool) : Outcome (State * list Z * bool) :=
  match es with
  | [] => Ok (st, q, entry)
  | e :: es' =>
      new_live ← f_edge_live i live e st;
      let entry := entry || (negb (function_exit e) && function_entry e) in
      '(st, q) ← f_propagate (edge_i e) new_live st q;
      r_pass4_edges es' i live st q entry
  end.

(** The forward transfer of one instruction. *)
Definition f_transfer (ty : TYPE) (instr : RabbitizerInstruction) (live : Z) : Z :=
  match ty with
  | TYPE_1D => Z.lor live (get_dest_reg_mask instr)
  | TYPE_1D_1S =>
      let src_regs_map := get_single_source_reg_mask instr in
      if bool_decide (Z.land live src_regs_map ≠ 0)
      then Z.lor live (get_dest_reg_mask instr) else live
  | TYPE_1D_2S =>
      let src_regs_map := get_all_source_reg_mask instr in
      if bool_decide (Z.land live src_regs_map = src_regs_map)
      then Z.lor live (get_dest_reg_mask instr) else live
  | TYPE_D_LO_HI_2S =>
      let src_regs_map := get_all_source_reg_mask instr in
      if bool_decide (Z.land live src_regs_map = src_regs_map)
      then Z.lor (Z.lor live (r_map_reg RABBITIZER_REG_GPR_O32_lo))
                 (r_map_reg RABBITIZER_REG_GPR_O32_hi)
      else live
  | _ => live
  end.

(** One turn of [while (!q.empty())] in [r_pass4]: pop [addr], transfer,
    and propagate over the successors when [f_liveout] gains bits. *)
Definition r_pass4_step (addr : Z) (st : State) (q : list Z) : Outcome (State * list Z) :=
  let i := addr_to_i addr in
  insn0 ← get_insn st i;
  let '(ty, insn) := r_insn_to_type insn0 in
  st ← upd_insn i (λ _, insn) st;
  let live := f_transfer ty (instruction insn) (Z.lor (f_livein insn) 1) in
  if bool_decide (Z.lor (f_liveout insn) live = f_liveout insn) then
    Ok (st, q)   (* no new bits *)
  else
    let live := Z.lor live (f_liveout insn) in
    st ← upd_insn i (set_f_liveout live) st;
    '(st, q, entry) ← r_pass4_edges (successors insn) i live st q false;
    if entry : bool then
      (* one edge that skips the function call, for callee-saved registers *)
      f_propagate (i + 1) (clear_bits live caller_saved) st q
    else Ok (st, q).

(** The loop, with a bound on the number of pops: [None] when the bound is
    reached before the worklist is empty. *)
Fixpoint r_pass4_loop (fuel : nat) (st : State) (q : list Z) : option (Outcome State) :=
  match q with
  | [] => Some (Ok st)
  | addr :: q' =>
      match fuel with
      | O => None
      | S fuel' =>
          match r_pass4_step addr st q' with
          | Ok (st', q'') => r_pass4_loop fuel' st' q''
          | Exit s d => Some (Exit s d)
          | Abort w => Some (Abort w)
          | Undefined => Some Undefined
          end
      end
  end.

(** ** Backward liveness: [r_pass5] *)

Definition b_exit_mask : Z :=
  Z.lor 1 (Z.lor (r_map_reg RABBITIZER_REG_GPR_O32_v0) (r_map_reg RABBITIZER_REG_GPR_O32_v1)).

Definition b_entry_mask : Z :=
  Z.lor 1
  (Z.lor (r_map_reg RABBITIZER_REG_GPR_O32_v0)
  (Z.lor (r_map_reg RABBITIZER_REG_GPR_O32_a0)
  (Z.lor (r_map_reg RABBITIZER_REG_GPR_O32_a1)
  (Z.lor (r_map_reg RABBITIZER_REG_GPR_O32_a2)
  (Z.lor (r_map_reg RABBITIZER_REG_GPR_O32_a3) (r_map_reg RABBITIZER_REG_GPR_O32_sp)))))).

Definition a0_a3 : Z :=
  Z.lor (r_map_reg RABBITIZER_REG_GPR_O32_a0)
  (Z.lor (r_map_reg RABBITIZER_REG_GPR_O32_a1)
  (Z.lor (r_map_reg RABBITIZER_REG_GPR_O32_a2) (r_map_reg RABBITIZER_REG_GPR_O32_a3))).

(** [rinsns[addr_to_i(addr)].b_liveout = m] over a list of return addresses;
    [push] tells whether the address also goes on the worklist. *)
Fixpoint r_pass5_seed_returns (rets : list Z) (m : Z) (push : bool) (st : State)
    (q : list Z) : Outcome (State * list Z) :=
  match rets with
  | [] => Ok (st, q)
  | addr :: rets' =>
      st ← upd_insn (addr_to_i addr) (set_b_liveout m) st;
      r_pass5_seed_returns rets' m push st (if push then addr :: q else q)
  end.

(** [functions[a].returns]; the lookup creates the record when it is new. *)
Definition returns_of (a : Z) (st : State) : State * list Z :=
  match functions st !! a with
  | Some f => (st, returns f)
  | None => (set_functions (<[a := Function_new]> (functions st)) st, [])
  end.

Fixpoint r_pass5_seed_pointers (addrs : list Z) (st : State) (q : list Z)
    : Outcome (State * list Z) :=
  match addrs with
  | [] => Ok (st, q)
  | a :: addrs' =>
      let '(st, rets) := returns_of a st in
      '(st, q) ← r_pass5_seed_returns rets (Z.lor 1 v0_v1) true st q;
      r_pass5_seed_pointers addrs' st q
  end.

(** [for (i = 0; i < rinsns.size(); i++) if (rinsns[i].f_livein != 0) push]. *)
Fixpoint r_pass5_seed_reachable (v : list RInsn) (i : Z) (q : list Z) : list Z :=
  match v with
  | [] => q
  | r :: v' =>
      r_pass5_seed_reachable v' (i + 1)
        (if bool_decide (f_livein r ≠ 0) then i_to_addr i :: q else q)
  end.

Definition r_pass5_init (st : State) : Outcome (State * list Z) :=
  match functions st !! main_addr elf with
  | None => Abort "functions.count(main_addr)"
  | Some f =>
      '(st, _) ← r_pass5_seed_returns (returns f)
                   (Z.lor 1 (r_map_reg RABBITIZER_REG_GPR_O32_v0)) false st [];
      '(st, q) ← r_pass5_seed_pointers (snd <$> data_function_pointers elf) st
                   (rev (returns f));
      '(st, q) ← r_pass5_seed_pointers (li_function_pointers st) st q;
      Ok (st, r_pass5_seed_reachable (rinsns st) 0 q)
  end.

Definition b_propagate : Z → Z → State → list Z → Outcome (State * list Z) :=
  propagate b_liveout set_b_liveout.

(** What crosses the predecessor edge [e] of instruction [i]. *)
Definition b_edge_live (i live : Z) (insn : RInsn) (e : Edge) (st : State) : Outcome Z :=
  if function_exit e then Ok (Z.land live b_exit_mask)
  else if function_entry e then Ok (Z.land live b_entry_mask)
  else if extern_function e then
    address ← (if patched insn then Ok (patched_addr insn)
               else c ← get_insn st (i - 2);
                    Ok (RabbitizerInstruction_getInstrIndexAsVram (instruction c)));
    match find_extern address with
    | Some found_fn => Ok (Z.lor (clear_bits live caller_saved) (extern_args found_fn))
    | None => Abort "found_fn"
    end
  else if function_pointer e then Ok (Z.lor (clear_bits live caller_saved) a0_a3)
  else Ok live.

Fixpoint r_pass5_edges (es : list Edge) (i live : Z) (insn : RInsn) (st : State)
    (q : list Z) (exit : bool) : Outcome (State * list Z * bool) :=
  match es with
  | [] => Ok (st, q, exit)
  | e :: es' =>
      new_live ← b_edge_live i live insn e st;
      let exit := exit || function_exit e in
      '(st, q) ← b_propagate (edge_i e) new_live st q;
      r_pass5_edges es' i live insn st q exit
  end.

(** The backward transfer of one instruction. *)
Definition b_transfer (ty : TYPE) (instr : RabbitizerInstruction) (live : Z) : Z :=
  match ty with
  | TYPE_1S | TYPE_1S_POS1 => Z.lor live (get_single_source_reg_mask instr)
  | TYPE_2S => Z.lor live (get_all_source_reg_mask instr)
  | TYPE_1D => clear_bits live (get_dest_reg_mask instr)
  | TYPE_1D_1S =>
      if bool_decide (Z.land live (get_dest_reg_mask instr) ≠ 0) then
        Z.lor (clear_bits live (get_dest_reg_mask instr)) (get_single_source_reg_mask instr)
      else live
  | TYPE_1D_2S =>
      if bool_decide (Z.land live (get_dest_reg_mask instr) ≠ 0) then
        Z.lor (clear_bits live (get_dest_reg_mask instr)) (get_all_source_reg_mask instr)
      else live
  | TYPE_D_LO_HI_2S =>
      let lo_hi := Z.lor (r_map_reg RABBITIZER_REG_GPR_O32_lo)
                         (r_map_reg RABBITIZER_REG_GPR_O32_hi) in
      let used := bool_decide (Z.land live lo_hi ≠ 0) in
      let live := clear_bits live lo_hi in
      if used then Z.lor live (get_all_source_reg_mask instr) else live
  | TYPE_NOP => live
  end.

(** One turn of [while (!q.empty())] in [r_pass5]. *)
Definition r_pass5_step (addr : Z) (st : State) (q : list Z) : Outcome (State * list Z) :=
  let i := addr_to_i addr in
  insn0 ← get_insn st i;
  let '(ty, insn) := r_insn_to_type insn0 in
  st ← upd_insn i (λ _, insn) st;
  let live := b_transfer ty (instruction insn) (Z.lor (b_liveout insn) 1) in
  if bool_decide (Z.lor (b_livein insn) live = b_livein insn) then
    Ok (st, q)   (* no new bits *)
  else
    let live := Z.lor live (b_livein insn) in
    st ← upd_insn i (set_b_livein live) st;
    '(st, q, exit) ← r_pass5_edges (predecessors insn) i live insn st q false;
    if exit : bool then
      (* one edge that skips the function call, for callee-saved registers *)
      b_propagate (i - 1) (clear_bits live caller_saved) st q
    else Ok (st, q).

Fixpoint r_pass5_loop (fuel : nat) (st : State) (q : list Z) : option (Outcome State) :=
  match q with
  | [] => Some (Ok st)
  | addr :: q' =>
      match fuel with
      | O => None
      | S fuel' =>
          match r_pass5_step addr st q' with
          | Ok (st', q'') => r_pass5_loop fuel' st' q''
          | Exit s d => Some (Exit s d)
          | Abort w => Some (Abort w)
          | Undefined => Some Undefined
          end
      end
  end.

(** A bound on the pops of either loop: the entries already queued, and
    one more for each of the 64 bits of each instruction's mask. *)
Definition worklist_bound (st : State) (q : list Z) : nat :=
  (length q + 64 * length (rinsns st))%nat.

Definition lift_loop (r : option (Outcome State)) : Outcome State :=
  match r with
  | Some o => o
  | None => Undefined
  end.

Definition r_pass4 (st : State) : Outcome State :=
  '(st, q) ← r_pass4_init st; lift_loop (r_pass4_loop (worklist_bound st q) st q).

Definition r_pass5 (st : State) : Outcome State :=
  '(st, q) ← r_pass5_init st; lift_loop (r_pass5_loop (worklist_bound st q) st q).

(** ** Signature inference: [r_pass6] *)

(** [a & b & r_map_reg(reg)] is not zero. *)
Definition live_both (a b reg : Z) : bool :=
  bool_decide (Z.land (Z.land a b) (r_map_reg reg) ≠ 0).

(** [for (uint32_t ret : f.returns)] *)
Fixpoint r_pass6_returns (rets : list Z) (st : State) (nret : Z) : Outcome Z :=
  match rets with
  | [] => Ok nret
  | ret :: rets' =>
      i ← get_insn st (addr_to_i ret);
      let nret :=
        if live_both (f_liveout i) (b_liveout i) RABBITIZER_REG_GPR_O32_v1 then 2
        else if live_both (f_liveout i) (b_liveout i) RABBITIZER_REG_GPR_O32_v0
                && bool_decide (nret = 0) then 1
        else nret in
      r_pass6_returns rets' st nret
  end.

(** [for (int i = 0; i < 4; i++)] *)
Fixpoint r_pass6_nargs (n : nat) (i : Z) (insn : RInsn) (nargs : Z) : Z :=
  match n with
  | O => nargs
  | S n' =>
      r_pass6_nargs n' (i + 1) insn
        (if live_both (f_livein insn) (b_livein insn) (RABBITIZER_REG_GPR_O32_a0 + i)
         then 1 + i else nargs)
  end.

(** The body of the loop of [r_pass6] for the function at [addr].
    [rinsns.at] throws outside the vector. *)
Definition r_pass6_function (st : State) (addr : Z) (f : Function) : Outcome Function :=
  nret' ← r_pass6_returns (returns f) st (nret f);
  insn ← match vec_get (rinsns st) (addr_to_i addr) with
         | Ok insn => Ok insn
         | _ => Abort "std::out_of_range"
         end;
  Ok (mkFunction (returns f) (end_addr f)
        (r_pass6_nargs 4 0 insn (nargs f))
        nret'
        (live_both (f_livein insn) (b_livein insn) RABBITIZER_REG_GPR_O32_v0
         && negb (referenced_by_function_pointer f))
        (referenced_by_function_pointer f)).

Fixpoint r_pass6_loop (fs : list (Z * Function)) (st : State)
    : Outcome (list (Z * Function)) :=
  match fs with
  | [] => Ok []
  | (addr, f) :: fs' =>
      f' ← r_pass6_function st addr f;
      rest ← r_pass6_loop fs' st;
      Ok ((addr, f') :: rest)
  end.

(** Every record is rewritten from the liveness masks, which the pass does
    not change; the order of the walk over the map does not matter. *)
Definition r_pass6 (st : State) : Outcome State :=
  fs ← r_pass6_loop (map_to_list (functions st)) st;
  Ok (set_functions (list_to_map fs) st).

(** ** Lowering: the liveness annotation of [r_dump_instr] *)

(** Whether the lowerer was started with [--conservative]. *)
Variable conservative : bool.

(** The cases of the [switch] of [r_dump_instr] that are not spelled out
    below: what they print for the instruction at index [i]. *)
Variable r_dump_instr_other : Z → State → Outcome string.

Definition fdead (insn : RInsn) : string := "// fdead " +:+ hex (f_livein insn) +:+ " ".
Definition bdead (insn : RInsn) : string := "// bdead " +:+ hex (b_liveout insn) +:+ " ".

(** The first [switch] of [r_dump_instr]: what it prints in front of the
    statement, given the type of the instruction. *)
Definition dead_comment (ty : TYPE) (insn : RInsn) : string :=
  let instr := instruction insn in
  let case_1D :=
    if bool_decide (Z.land (b_liveout insn) (get_dest_reg_mask instr) = 0)
    then bdead insn else "" in
  let case_1D_1S :=
    if bool_decide (Z.land (f_livein insn) (get_single_source_reg_mask instr) = 0)
    then fdead insn else case_1D in
  match ty with
  | TYPE_1S | TYPE_1S_POS1 =>
      if bool_decide (Z.land (f_livein insn) (get_single_source_reg_mask instr) = 0)
      then fdead insn else ""
  | TYPE_2S =>
      let src_regs_map := get_all_source_reg_mask instr in
      if bool_decide (Z.land (f_livein insn) src_regs_map ≠ src_regs_map)
      then fdead insn else ""
  | TYPE_1D_2S =>
      if bool_decide (Z.land (f_livein insn) (r_map_reg (RAB_INSTR_GET_rt instr)) = 0)
      then fdead insn else case_1D_1S
  | TYPE_1D_1S => case_1D_1S
  | TYPE_1D => case_1D
  | TYPE_D_LO_HI_2S =>
      let src_regs_map := get_all_source_reg_mask instr in
      if bool_decide (Z.land (f_livein insn) src_regs_map ≠ src_regs_map)
      then fdead insn
      else if bool_decide
                (Z.land (b_liveout insn)
                   (Z.lor (r_map_reg RABBITIZER_REG_GPR_O32_lo)
                          (r_map_reg RABBITIZER_REG_GPR_O32_hi)) = 0)
      then bdead insn else ""
  | TYPE_NOP => ""
  end.

(** [insn.patched ? insn.patched_addr : getProcessedImmediate(...)] as [uint32_t] *)
Definition dump_imm (insn : RInsn) : Z :=
  if patched insn then patched_addr insn
  else u32 (RabbitizerInstruction_getProcessedImmediate (instruction insn)).

(** The second [switch] of [r_dump_instr]: the statement. *)
Definition r_dump_statement (i : Z) (insn : RInsn) (st : State) : Outcome string :=
  let instr := instruction insn in
  match uniqueId instr with
  | RABBITIZER_INSTR_ID_cpu_add | RABBITIZER_INSTR_ID_cpu_addu =>
      rd ← r_r (RAB_INSTR_GET_rd instr);
      rs ← r_r (RAB_INSTR_GET_rs instr);
      rt ← r_r (RAB_INSTR_GET_rt instr);
      Ok (rd +:+ " = " +:+ rs +:+ " + " +:+ rt +:+ ";
")
  | RABBITIZER_INSTR_ID_cpu_addi | RABBITIZER_INSTR_ID_cpu_addiu =>
      rt ← r_r (RAB_INSTR_GET_rt instr);
      rs ← r_r (RAB_INSTR_GET_rs instr);
      Ok (rt +:+ " = " +:+ rs +:+ " + 0x" +:+ hex (dump_imm insn) +:+ ";
")
  | RABBITIZER_INSTR_ID_cpu_and =>
      rd ← r_r (RAB_INSTR_GET_rd instr);
      rs ← r_r (RAB_INSTR_GET_rs instr);
      rt ← r_r (RAB_INSTR_GET_rt instr);
      Ok (rd +:+ " = " +:+ rs +:+ " & " +:+ rt +:+ ";
")
  | RABBITIZER_INSTR_ID_cpu_andi =>
      rt ← r_r (RAB_INSTR_GET_rt instr);
      rs ← r_r (RAB_INSTR_GET_rs instr);
      Ok (rt +:+ " = " +:+ rs +:+ " & 0x" +:+ hex (dump_imm insn) +:+ ";
")
  | RABBITIZER_INSTR_ID_cpu_nop => Ok "//nop;
"
  | _ => r_dump_instr_other i st
  end.

(** [r_dump_instr(i)]: the text it appends to the output, and the state it
    leaves ([r_insn_to_type] may rewrite the word). [TRACE] is 0. *)
Definition r_dump_instr (i : Z) (st : State) : Outcome (string * State) :=
  insn ← get_insn st i;
  let symbol_line :=
    match symbol_names elf !! i_to_addr i with
    | Some symbol_name => "//" +:+ symbol_name +:+ ":
"
    | None => ""
    end in
  '(comment, st) ←
    (if negb (RabbitizerInstrDescriptor_isJump (descriptor (instruction insn)))
        && negb conservative
     then
       let '(ty, insn') := r_insn_to_type insn in
       st ← upd_insn i (λ _, insn') st;
       Ok (dead_comment ty insn', st)
     else Ok ("", st));
  insn ← get_insn st i;
  statement ← r_dump_statement i insn st;
  Ok (symbol_line +:+ comment +:+ statement, st).

(** ** The driver: [main] after parsing and disassembly

    [r_pass2] (function boundaries) and [r_dump_c] (the lowering) are taken
    as given; [r_dump_c] is the only function that writes to standard
    output, and it yields the text written and the way it ended. *)

Variable r_pass2 : State → Outcome State.
Variable r_dump_c : State → string * Outcome unit.

Definition analysis_passes (st : State) : Outcome State :=
  st ← r_pass1 st;
  st ← r_pass2 st;
  st ← r_pass3 st;
  st ← r_pass4 st;
  st ← r_pass5 st;
  r_pass6 st.

(** What the process has written to standard output when it ends, and how
    it ends. *)
Definition main (st : State) : string * Outcome unit :=
  match analysis_passes st with
  | Ok st => r_dump_c st
  | Exit status diagnostic => ("", Exit status diagnostic)
  | Abort what => ("", Abort what)
  | Undefined => ("", Undefined)
  end.

End Passes.

(** ** A decoder for the examples

    The part of the decoder's behaviour that the worked examples below rely
    on: the usual MIPS encodings of a handful of instructions, with the
    pseudo-instructions [nop], [b], [beqz] and [move]. Every other word
    decodes to an opcode the passes treat as "other". *)

Definition sign_extend_16 (x : Z) : Z := if bool_decide (x < 32768) then x else x - 65536.

Definition mips_id (w : Z) : RabbitizerInstrId :=
  let op := Z.shiftr w 26 in
  let rs := Z.land (Z.shiftr w 21) 31 in
  let rt := Z.land (Z.shiftr w 16) 31 in
  let funct := Z.land w 63 in
  if bool_decide (w = 0) then RABBITIZER_INSTR_ID_cpu_nop
  else match op with
  | 0 =>
      match funct with
      | 0 => RABBITIZER_INSTR_ID_cpu_sll
      | 8 => RABBITIZER_INSTR_ID_cpu_jr
      | 9 => RABBITIZER_INSTR_ID_cpu_jalr
      | 33 => if bool_decide (rt = 0) then RABBITIZER_INSTR_ID_cpu_move
              else RABBITIZER_INSTR_ID_cpu_addu
      | _ => RABBITIZER_INSTR_ID_cpu_other w
      end
  | 2 => RABBITIZER_INSTR_ID_cpu_j
  | 3 => RABBITIZER_INSTR_ID_cpu_jal
  | 4 => if bool_decide (rs = 0 ∧ rt = 0) then RABBITIZER_INSTR_ID_cpu_b
         else if bool_decide (rt = 0) then RABBITIZER_INSTR_ID_cpu_beqz
         else RABBITIZER_INSTR_ID_cpu_beq
  | 9 => RABBITIZER_INSTR_ID_cpu_addiu
  | 11 => RABBITIZER_INSTR_ID_cpu_sltiu
  | 12 => RABBITIZER_INSTR_ID_cpu_andi
  | 13 => RABBITIZER_INSTR_ID_cpu_ori
  | 15 => RABBITIZER_INSTR_ID_cpu_lui
  | 35 => RABBITIZER_INSTR_ID_cpu_lw
  | 43 => RABBITIZER_INSTR_ID_cpu_sw
  | _ => RABBITIZER_INSTR_ID_cpu_other w
  end.

Definition mips_modifiesRt (d : RabbitizerInstrId) : bool :=
  match d with
  | RABBITIZER_INSTR_ID_cpu_addiu | RABBITIZER_INSTR_ID_cpu_sltiu
  | RABBITIZER_INSTR_ID_cpu_andi | RABBITIZER_INSTR_ID_cpu_ori
  | RABBITIZER_INSTR_ID_cpu_lui | RABBITIZER_INSTR_ID_cpu_lw => true
  | _ => false
  end.

Definition mips_modifiesRd (d : RabbitizerInstrId) : bool :=
  match d with
  | RABBITIZER_INSTR_ID_cpu_sll | RABBITIZER_INSTR_ID_cpu_jalr
  | RABBITIZER_INSTR_ID_cpu_addu | RABBITIZER_INSTR_ID_cpu_move => true
  | _ => false
  end.

Definition mips_isJump (d : RabbitizerInstrId) : bool :=
  match d with
  | RABBITIZER_INSTR_ID_cpu_j | RABBITIZER_INSTR_ID_cpu_jal
  | RABBITIZER_INSTR_ID_cpu_jr | RABBITIZER_INSTR_ID_cpu_jalr
  | RABBITIZER_INSTR_ID_cpu_b | RABBITIZER_INSTR_ID_cpu_beqz
  | RABBITIZER_INSTR_ID_cpu_beq => true
  | _ => false
  end.

Definition mips_isIType (d : RabbitizerInstrId) : bool :=
  match d with
  | RABBITIZER_INSTR_ID_cpu_b | RABBITIZER_INSTR_ID_cpu_beqz
  | RABBITIZER_INSTR_ID_cpu_beq | RABBITIZER_INSTR_ID_cpu_addiu
  | RABBITIZER_INSTR_ID_cpu_sltiu | RABBITIZER_INSTR_ID_cpu_andi
  | RABBITIZER_INSTR_ID_cpu_ori | RABBITIZER_INSTR_ID_cpu_lui
  | RABBITIZER_INSTR_ID_cpu_lw | RABBITIZER_INSTR_ID_cpu_sw => true
  | _ => false
  end.

Definition mips_hasOperand_rs (d : RabbitizerInstrId) : bool :=
  match d with
  | RABBITIZER_INSTR_ID_cpu_jr | RABBITIZER_INSTR_ID_cpu_jalr
  | RABBITIZER_INSTR_ID_cpu_addu | RABBITIZER_INSTR_ID_cpu_move
  | RABBITIZER_INSTR_ID_cpu_beqz | RABBITIZER_INSTR_ID_cpu_beq
  | RABBITIZER_INSTR_ID_cpu_addiu | RABBITIZER_INSTR_ID_cpu_sltiu
  | RABBITIZER_INSTR_ID_cpu_andi | RABBITIZER_INSTR_ID_cpu_ori
  | RABBITIZER_INSTR_ID_cpu_lw | RABBITIZER_INSTR_ID_cpu_sw => true
  | _ => false
  end.

Definition mips_hasOperand_rt (d : RabbitizerInstrId) : bool :=
  match d with
  | RABBITIZER_INSTR_ID_cpu_sll | RABBITIZER_INSTR_ID_cpu_addu
  | RABBITIZER_INSTR_ID_cpu_beq | RABBITIZER_INSTR_ID_cpu_addiu
  | RABBITIZER_INSTR_ID_cpu_sltiu | RABBITIZER_INSTR_ID_cpu_andi
  | RABBITIZER_INSTR_ID_cpu_ori | RABBITIZER_INSTR_ID_cpu_lui
  | RABBITIZER_INSTR_ID_cpu_lw | RABBITIZER_INSTR_ID_cpu_sw => true
  | _ => false
  end.

Definition mips_isUnsigned (d : RabbitizerInstrId) : bool :=
  match d with
  | RABBITIZER_INSTR_ID_cpu_andi | RABBITIZER_INSTR_ID_cpu_ori
  | RABBITIZER_INSTR_ID_cpu_lui => true
  | _ => false
  end.

#[global] Instance mips_decoder : Rabbitizer := {|
  RabbitizerInstrDescriptor_modifiesRt := mips_modifiesRt;
  RabbitizerInstrDescriptor_modifiesRd := mips_modifiesRd;
  RabbitizerInstrDescriptor_isJump := mips_isJump;
  RabbitizerInstrDescriptor_isIType := mips_isIType;
  RabbitizerInstrDescriptor_hasOperand_rs := mips_hasOperand_rs;
  RabbitizerInstrDescriptor_hasOperand_rt := mips_hasOperand_rt;
  RabbitizerInstruction_getProcessedImmediate instr :=
    if mips_isUnsigned (descriptor instr) then Z.land (word instr) 65535
    else sign_extend_16 (Z.land (word instr) 65535);
  RabbitizerInstruction_getInstrIndexAsVram instr :=
    Z.lor (Z.shiftl (Z.land (word instr) 67108863) 2)
          (Z.land (vram instr + 4) 4026531840);
  RabbitizerInstruction_getBranchOffset instr :=
    sign_extend_16 (Z.land (word instr) 65535) * 4 + 4;
  RabbitizerInstruction_init w a := mkInstruction w a (mips_id w) (mips_id w)
|}.

(** The bytes of a list of instruction words, big endian. *)
Definition be_bytes (ws : list Z) : list Z :=
  ws ≫= λ w, [Z.land (Z.shiftr w 24) 255; Z.land (Z.shiftr w 16) 255;
              Z.land (Z.shiftr w 8) 255; Z.land w 255].

(** A program image with [.text] at 0x400000 and nothing else. *)
Definition image (ws : list Z) : Elf :=
  mkElf (be_bytes ws) (4 * vec_size ws) 4194304 None 0 0 [] [] 0 0 ∅ [] 4194304 0.

(** The state after [r_disassemble], with the given function table. *)
Definition disassembled (elf : Elf) (fs : gmap Z Function) : Outcome State :=
  v ← r_disassemble elf; Ok (mkState v ∅ fs []).

(** [j 0x40000c; jal 0x400010; nop; nop; jr ra; nop]: a [JAL] in the
    delay slot of a [J]. *)
Definition jal_in_delay_slot : Elf :=
  image [0x08100003; 0x0C100004; 0; 0; 0x03E00008; 0].

(** [jal 0x40000c; nop; nop; jr ra; nop]: a call of the function at
    0x40000c, whose return is the delay slot at 0x400010. *)
Definition call_and_return : Elf :=
  image [0x0C100003; 0; 0; 0x03E00008; 0].

Definition call_and_return_functions : gmap Z Function :=
  {[ 0x400000 := mkFunction [] 0x40000c 0 0 false false;
     0x40000c := mkFunction [0x400010] 0x400014 0 0 false false ]}.

(** The state of a computation that went well (an empty one otherwise). *)
Definition from_ok (o : Outcome State) : State :=
  match o with
  | Ok st => st
  | _ => mkState [] ∅ ∅ []
  end.

Definition call_and_return_state : State :=
  from_ok (disassembled call_and_return call_and_return_functions).

Definition jal_in_delay_slot_state : State :=
  from_ok (disassembled jal_in_delay_slot ∅).

(** The PIC call of a static function, with the local GOT entry 0 holding
    0x400000 and [$gp] 0x7ff0 above the GOT:
    [lw t9, -0x7ff0(gp); addiu t9, t9, 0x10; jalr t9; nop; jr ra; nop]. *)
Definition pic_static_call : Elf :=
  mkElf (be_bytes [0x8F998010; 0x27390010; 0x0320F809; 0; 0x03E00008; 0]) 24 0x400000
    None 0 0 [] [0x400000] 0 0x7ff0 ∅ [] 0x400000 0.

Definition pic_static_call_state : State :=
  from_ok (disassembled pic_static_call ∅).

(** A switch over five cases whose table, at 0x10000000, has room for two
    entries only in [.rodata]:
    [sltiu at, v0, 5; beqz at, +8; nop; lw at, -0x7ff0(gp); sll t0, v0, 2;
     addu at, at, t0; lw t0, 0(at); addu t0, t0, gp; jr t0; nop]. *)
Definition switch_outside_rodata : Elf :=
  mkElf
    (be_bytes [0x2C410005; 0x10200008; 0; 0x8F818010; 0x00024080; 0x00280821;
               0x8C280000; 0x011C4021; 0x01000008; 0])
    40 0x400000
    (Some [0; 0; 0; 0; 0; 0; 0; 0]) 8 0x10000000
    [] [0x10000000] 0 0x7ff0 ∅ [] 0x400000 0.

Definition switch_outside_rodata_state : State :=
  from_ok (disassembled switch_outside_rodata ∅).

(** The state when the loop of [r_pass1] reaches the [JR] of the switch. *)
Definition switch_outside_rodata_at_jr : State :=
  from_ok (r_pass1_loop switch_outside_rodata 8 0 switch_outside_rodata_state).

(** The call example after CFG construction, with the worklist seeded. *)
Definition call_and_return_cfg : State :=
  from_ok (r_pass3 call_and_return call_and_return_state).

Definition call_and_return_seeded : State * list Z :=
  match r_pass4_init call_and_return call_and_return_cfg with
  | Ok p => p
  | _ => (call_and_return_cfg, [])
  end.

(** A function with two returns, one of which sets [$v0], and a caller
    that stores the result:
    [main: jal f; nop; sw v0, 0(sp); jr ra; nop; nop]
    [f: beqz a0, L; nop; jr ra; nop; L: jr ra; addiu v0, zero, 1]. *)
Definition two_returns : Elf :=
  image [0x0C100006; 0; 0xAFA20000; 0x03E00008; 0; 0;
         0x10800003; 0; 0x03E00008; 0; 0x03E00008; 0x24020001].

Definition two_returns_functions : gmap Z Function :=
  {[ 0x400000 := mkFunction [0x400010] 0x400018 0 0 false false;
     0x400018 := mkFunction [0x400024; 0x40002c] 0x400030 0 0 false false ]}.

(** The passes of the driver up to liveness, with the function table that
    [r_pass2] finds given by hand. *)
Definition analysed (elf : Elf) (fs : gmap Z Function) : Outcome State :=
  st ← disassembled elf ∅;
  st ← r_pass1 elf st;
  st ← r_pass3 elf (set_functions fs st);
  st ← r_pass4 elf st;
  r_pass5 elf st.

Definition two_returns_analysed : State :=
  from_ok (analysed two_returns two_returns_functions).

(** The record of [f] in [two_returns] before signature inference. *)
Definition two_returns_f : Function :=
  mkFunction [0x400024; 0x40002c] 0x400030 0 0 false false.

(** A result nobody reads: [main: addu t0, a0, a1; jr ra; nop]. *)
Definition dead_store : Elf := image [0x00854021; 0x03E00008; 0].

Definition dead_store_functions : gmap Z Function :=
  {[ 0x400000 := mkFunction [0x400008] 0x40000c 0 0 false false ]}.

(** The state the lowerer starts from. *)
Definition lowerable (elf : Elf) (fs : gmap Z Function) : Outcome State :=
  st ← analysed elf fs;
  r_pass6 elf st.

Definition dead_store_lowerable : State :=
  from_ok (lowerable dead_store dead_store_functions).

(** For the examples below: no case of the second [switch] of
    [r_dump_instr] besides the ones spelled out. *)
Definition no_other_cases : Z → State → Outcome string :=
  λ _ _, Abort "not lowered here".

(** An extern [void f(int, long long)]. *)
Definition int_then_long_long : ExternFunction := mkExtern "f" "vil" 0.

Definition extern_sqrt : ExternFunction := mkExtern "sqrt" "dd" FLAG_NO_MEM.

(** The function table of [two_returns] before [r_pass2]: the two records,
    as [Function()] leaves them. *)
Definition two_returns_keys : gmap Z Function :=
  {[ 0x400000 := Function_new; 0x400018 := Function_new ]}.

(** [two_returns] after disassembly and symbol resolution. *)
Definition two_returns_resolved : State :=
  from_ok (st ← disassembled two_returns two_returns_keys; r_pass1 two_returns st).

(** [two_returns] after disassembly. *)
Definition two_returns_state : State :=
  from_ok (disassembled two_returns two_returns_keys).

(** [two_returns] with its graph, before the liveness passes. *)
Definition two_returns_cfg : State :=
  from_ok (st ← disassembled two_returns ∅;
           st ← r_pass1 two_returns st;
           r_pass3 two_returns (set_functions two_returns_functions st)).

(** A data section of three words: the address of [f] in [two_returns], a
    constant the scan knows, and a small integer. *)
Definition pointer_section : list Z :=
  be_bytes [0x400018; 0x430b00; 5].

(** [two_returns] after the forward pass. *)
Definition two_returns_forward : State :=
  from_ok (r_pass4 two_returns two_returns_cfg).

(** [n] turns of a worklist loop, from a state and its worklist. *)
Fixpoint pops (step : Z → State → list Z → Outcome (State * list Z)) (n : nat)
    (p : State * list Z) : State * list Z :=
  match n, p.2 with
  | S n', addr :: q =>
      match step addr p.1 q with
      | Ok p' => pops step n' p'
      | _ => p
      end
  | _, _ => p
  end.

(** The forward pass on the call example, about to take the delay slot of
    the call, at index 1. *)
Definition call_and_return_forward_turn : State * list Z :=
  pops (r_pass4_step call_and_return) 1 call_and_return_seeded.

(** The call example after the forward pass, with the worklist of the
    backward pass seeded. *)
Definition call_and_return_backward_seeded : State * list Z :=
  match (st ← r_pass4 call_and_return call_and_return_cfg;
         r_pass5_init call_and_return st) with
  | Ok p => p
  | _ => (call_and_return_cfg, [])
  end.

(** The backward pass on the call example, about to take the instruction
    after the call, at index 2. *)
Definition call_and_return_backward_turn : State * list Z :=
  pops (r_pass5_step call_and_return) 2 call_and_return_backward_seeded.

(** * Specification vocabulary *)

(** ** CFG construction *)

(** What [r_add_edge] leaves at index [j]: the old record, with the edge
    appended to the successors of [from] and its mirror to the predecessors
    of [to]. *)
Definition with_edge (from to : Z) (a b c d : bool) (j : nat) (r : RInsn) : RInsn :=
  let r := if decide (Z.of_nat j = from)
           then set_successors (successors r ++ [mkEdge to a b c d]) r else r in
  if decide (Z.of_nat j = to)
  then set_predecessors (predecessors r ++ [mkEdge from a b c d]) r else r.

(** The successor and predecessor lists mirror each other: the edge
    [i → j] with given tags is as often among the successors of [i] as the
    edge [j ← i] with the same tags is among the predecessors of [j]; and every
    edge points inside the vector. *)
Definition edge_count (e : Edge) (l : list Edge) : nat := count_occ Edge_eq_dec l e.

Definition edges_mirror (v : list RInsn) : Prop :=
  ∀ (i j : nat) ri rj a b c d,
    v !! i = Some ri → v !! j = Some rj →
    edge_count (mkEdge (Z.of_nat j) a b c d) (successors ri)
    = edge_count (mkEdge (Z.of_nat i) a b c d) (predecessors rj).

Definition edges_in_range (v : list RInsn) : Prop :=
  ∀ (i : nat) ri e,
    v !! i = Some ri → e ∈ successors ri ∨ e ∈ predecessors ri →
    0 ≤ edge_i e < vec_size v.

(** The loop body as a sequence of edits.

    Whatever the opcode, the body of the loop for index [i] is a sequence
    of [r_add_edge] calls and markings of the delay slot [i + 1]. *)

Inductive cfg_edits (i : Z) : State → State → Prop :=
| cfg_edits_done s : cfg_edits i s s
| cfg_edits_edge s s1 s' from to a b c d :
    r_add_edge from to a b c d s = Ok s1 → cfg_edits i s1 s' → cfg_edits i s s'
| cfg_edits_mark s s1 s' :
    mark_delay_slot i s = Ok s1 → cfg_edits i s1 s' → cfg_edits i s s'.

Definition cfg_grows (i : Z) (st st' : State) : Prop :=
  length (rinsns st') = length (rinsns st) ∧
  ∀ (j : nat) rj, rinsns st !! j = Some rj →
    ∃ rj', rinsns st' !! j = Some rj'
      ∧ (∃ ext, successors rj' = successors rj ++ ext)
      ∧ (Z.of_nat j ≠ i + 1 → no_following_successor rj' = no_following_successor rj)
      ∧ (no_following_successor rj = true → no_following_successor rj' = true)
      ∧ instruction rj' = instruction rj.

Definition fallthrough (j : nat) : Edge := mkEdge (Z.of_nat j + 1) false false false false.

(** Every index below [k] that is not marked has its fallthrough edge. *)
Definition fallthrough_below (k : Z) (st : State) : Prop :=
  ∀ (j : nat) rj, Z.of_nat j < k → rinsns st !! j = Some rj →
    no_following_successor rj = false → fallthrough j ∈ successors rj.

(** An edge to add: its two ends and its four tags. *)
Record NewEdge : Set := mkNewEdge {
  ne_from : Z;
  ne_to : Z;
  ne_entry : bool;
  ne_exit : bool;
  ne_extern : bool;
  ne_pointer : bool
}.

(** What a list of new edges appends to the successors and to the
    predecessors of index [j], in order. *)
Definition succs_added (es : list NewEdge) (j : Z) : list Edge :=
  (λ e, mkEdge (ne_to e) (ne_entry e) (ne_exit e) (ne_extern e) (ne_pointer e))
    <$> filter (λ e, ne_from e = j) es.

Definition preds_added (es : list NewEdge) (j : Z) : list Edge :=
  (λ e, mkEdge (ne_from e) (ne_entry e) (ne_exit e) (ne_extern e) (ne_pointer e))
    <$> filter (λ e, ne_to e = j) es.

Fixpoint add_edges (es : list NewEdge) (st : State) : Outcome State :=
  match es with
  | [] => Ok st
  | e :: es' =>
      st ← r_add_edge (ne_from e) (ne_to e) (ne_entry e) (ne_exit e) (ne_extern e)
             (ne_pointer e) st;
      add_edges es' st
  end.

(** The returns of the function at [dest], if there is one. *)
Definition callee_returns (st : State) (dest : Z) : list Z :=
  match functions st !! dest with
  | Some f => returns f
  | None => []
  end.

(** The edges of a [JAL] at index [i] with target [dest]: the edge to the
    delay slot; then, for a target above [mcount_addr] inside [.text], the
    entry edge from the delay slot and an exit edge from each return of the
    callee to [i + 2]; for any other target, one extern edge from the delay
    slot to [i + 2]. *)
Definition jal_edges (elf : Elf) (i dest : Z) (rets : list Z) : list NewEdge :=
  mkNewEdge i (i + 1) false false false false ::
  (if bool_decide (mcount_addr elf < dest) && in_text elf dest then
     mkNewEdge (i + 1) (addr_to_i elf dest) true false false false ::
     ((λ ret, mkNewEdge (addr_to_i elf ret) (i + 2) false true false false) <$> rets)
   else [mkNewEdge (i + 1) (i + 2) false false true false]).

(** ** Symbol resolution *)

(** [rinsns[j].linked_insn], when [j] is inside the vector. *)
Definition linked_at (st : State) (j : nat) : option Z :=
  linked_insn <$> rinsns st !! j.

(** No [linked_insn] changes from [st] to [st']. *)
Definition links_kept (st st' : State) : Prop :=
  ∀ j, linked_at st' j = linked_at st j.

(** From [st] to [st'], [rinsns[s].linked_insn] becomes [vs],
    [rinsns[o].linked_insn] becomes [vo], and no other changes. *)
Definition link_made (st st' : State) (s o vs vo : Z) : Prop :=
  0 ≤ s < o ∧ o < vec_size (rinsns st) ∧
  ∀ j : nat,
    linked_at st' j =
      if decide (Z.of_nat j = s) then Some vs
      else if decide (Z.of_nat j = o) then Some vo
      else linked_at st j.

(** ** Liveness *)

(** A mask fits in 64 bits. *)
Definition mask64 (x : Z) : Prop := ∀ k, 64 ≤ k → Z.testbit x k = false.

(** Every bit of [a] is a bit of [b]. *)
Definition mask_subset (a b : Z) : Prop := Z.lor a b = b.

(** The number of bits below 64 that are not set in [x]. *)
Definition free64 (x : Z) : nat :=
  length (filter (λ k : nat, Z.testbit x (Z.of_nat k) = false) (seq 0 64)).

(** The number of unset bits over the whole vector, for one of the masks. *)
Definition free_bits (get : RInsn → Z) (st : State) : nat :=
  sum_list_with (λ r, free64 (get r)) (rinsns st).

Definition insn_masks64 (r : RInsn) : Prop :=
  mask64 (f_livein r) ∧ mask64 (f_liveout r) ∧ mask64 (b_livein r) ∧ mask64 (b_liveout r).

Definition masks64 (st : State) : Prop :=
  ∀ (j : nat) r, rinsns st !! j = Some r → insn_masks64 r.

Definition insn_masks_grow (r r' : RInsn) : Prop :=
  mask_subset (f_livein r) (f_livein r') ∧ mask_subset (f_liveout r) (f_liveout r') ∧
  mask_subset (b_livein r) (b_livein r') ∧ mask_subset (b_liveout r) (b_liveout r').

(** From [st] to [st'] every liveness mask of every instruction keeps its
    bits. *)
Definition masks_grow (st st' : State) : Prop :=
  length (rinsns st') = length (rinsns st) ∧
  ∀ (j : nat) r, rinsns st !! j = Some r →
    ∃ r', rinsns st' !! j = Some r' ∧ insn_masks_grow r r'.

(** A part of a turn of the worklist loop of the pass whose mask is [get]:
    masks only grow, they stay within 64 bits, and every entry pushed on the
    worklist is paid for by a bit that was not set before. *)
Definition progress (get : RInsn → Z) (st : State) (q : list Z)
    (st' : State) (q' : list Z) : Prop :=
  masks_grow st st' ∧ masks64 st' ∧
  (length q' + free_bits get st' ≤ length q + free_bits get st)%nat.

(** The same as [masks64], as a test that can be run. *)
Definition in_uint64 (x : Z) : bool := bool_decide (0 ≤ x < 2 ^ 64).

Definition masks64b (st : State) : bool :=
  forallb (λ r, in_uint64 (f_livein r) && in_uint64 (f_liveout r)
                && in_uint64 (b_livein r) && in_uint64 (b_liveout r)) (rinsns st).

(** ** Signature inference *)

(** Register [reg] is live both ways out of the instruction at address [a]. *)
Definition live_out_both (elf : Elf) (st : State) (reg a : Z) : bool :=
  match get_insn st (addr_to_i elf a) with
  | Ok i => live_both (f_liveout i) (b_liveout i) reg
  | _ => false
  end.

(** Register [reg] is live both ways into the instruction at address [a]. *)
Definition live_in_both (elf : Elf) (st : State) (reg a : Z) : bool :=
  match get_insn st (addr_to_i elf a) with
  | Ok i => live_both (f_livein i) (b_livein i) reg
  | _ => false
  end.

(** Some return of the list has [reg] live both ways. *)
Definition some_return_live (elf : Elf) (st : State) (reg : Z) (rets : list Z) : bool :=
  existsb (live_out_both elf st reg) rets.

(** ** The O32 argument walk, as the calling convention has it *)

Definition align_even (pos : Z) : Z := if Z.odd pos then pos + 1 else pos.

(** One turn of the walk in which [d], [l] and [j] first align [pos] to
    even, then mark two registers (or take a double float slot) and advance
    [pos] by 2; the other letters are as in [arg_walk_step]. *)
Definition aligned_arg_walk_step (c : ascii) (w : ArgWalk) : ArgWalk :=
  let '(mkArgWalk args pos pos_float only_floats_so_far) := w in
  if bool_decide (c = "d")%char then
    let pos := align_even pos in
    if only_floats_so_far && bool_decide (pos_float < 4) then
      mkArgWalk args (pos + 2) (pos_float + 2) only_floats_so_far
    else
      mkArgWalk
        (if bool_decide (pos < 4) then Z.lor args (Z.lor (a_reg pos) (a_reg (pos + 1)))
         else args)
        (pos + 2) pos_float only_floats_so_far
  else if bool_decide (c = "l" ∨ c = "j")%char then
    let pos := align_even pos in
    mkArgWalk
      (if bool_decide (pos < 4) then Z.lor args (Z.lor (a_reg pos) (a_reg (pos + 1)))
       else args)
      (pos + 2) pos_float false
  else arg_walk_step c w.

Fixpoint aligned_arg_walk (params : string) (w : ArgWalk) : ArgWalk :=
  match params with
  | EmptyString => w
  | String c rest => aligned_arg_walk rest (aligned_arg_walk_step c w)
  end.

(** The start of the walk in [r_pass5], before the first parameter. *)
Definition arg_walk_start (fn : ExternFunction) : ArgWalk :=
  mkArgWalk
    (if bool_decide (Z.land (ef_flags fn) FLAG_VARARG ≠ 0) then
       Z.lor (Z.lor (Z.lor (Z.lor 1 (a_reg 0)) (a_reg 1)) (a_reg 2)) (a_reg 3)
     else 1)
    0 0 true.

Definition aligned_extern_args_walk (fn : ExternFunction) : ArgWalk :=
  aligned_arg_walk (params_tail (ef_params fn)) (arg_walk_start fn).

(** The walk of [r_pass5] and the walk that aligns mark the same registers
    and end at the same position for [fn]. *)
Definition walks_agree (fn : ExternFunction) : bool :=
  (aw_args (extern_args_walk fn) =? aw_args (aligned_extern_args_walk fn))
  && (aw_pos (extern_args_walk fn) =? aw_pos (aligned_extern_args_walk fn)).

(** The setters of the two worklist masks. *)
Definition mask_setter (get : RInsn → Z) (set : Z → RInsn → RInsn) : Prop :=
  (∀ m r, get (set m r) = m) ∧
  (∀ m r, mask_subset (get r) m → insn_masks_grow r (set m r)) ∧
  (∀ m r, insn_masks64 r → mask64 m → insn_masks64 (set m r)).

(** * The rest of the tool: byte order, the function table, pointer scans *)

From stdpp Require Import sorting.
Local Open Scope Z_scope.

(** ** Byte-order macros *)

(** [u32be(x)], for [x] of type [uint32_t]. *)
Definition u32be (x : Z) : Z :=
  u32 (Z.shiftl (Z.land x 0xff) 24 + Z.shiftl (Z.land x 0xff00) 8
       + Z.shiftr (Z.land x 0xff0000) 8 + Z.shiftr (u32 x) 24).

(** [u16be(x)], for [x] of type [uint16_t]. *)
Definition u16be (x : Z) : Z :=
  (Z.shiftl (Z.land x 0xff) 8 + Z.shiftr (Z.land x 0xff00) 8) `mod` 2 ^ 16.

(** The four bytes of a 32-bit word, most significant first. *)
Definition word_bytes (w : Z) : list Z :=
  [Z.land (Z.shiftr w 24) 255; Z.land (Z.shiftr w 16) 255;
   Z.land (Z.shiftr w 8) 255; Z.land w 255].

Definition is_byte (b : Z) : Prop := 0 ≤ b < 256.
Definition is_u32 (x : Z) : Prop := 0 ≤ x < 2 ^ 32.

Section Records.
Context `{Rabbitizer}.
Variable elf : Elf.

(** The record [r_disassemble] makes of the word [w] at byte offset [off]
    of [.text]. *)
Definition disassembled_at (off w : Z) : RInsn :=
  set_linked_insn (-1)
    (RInsn_new (RabbitizerInstruction_init w (u32 (text_vaddr elf + off)))).

(** The dummy [NOP] that [r_disassemble] puts after the last word. *)
Definition closing_nop (off : Z) : RInsn :=
  set_no_following_successor true
    (RInsn_new (RabbitizerInstruction_init 0 (u32 (text_vaddr elf + off)))).

(** The number of turns of the loop of [r_disassemble]. *)
Definition text_words : nat := Z.to_nat ((text_section_len elf + 3) / 4).

End Records.

(** ** The function table in key order ([std::map]) *)

Definition key_le (p q : Z * Function) : Prop := p.1 ≤ q.1.

#[global] Instance key_le_dec : RelDecision key_le.
Proof. intros p q. unfold key_le. apply _. Defined.

(** The records as an iterator over [functions] meets them. *)
Definition functions_in_order (fs : gmap Z Function) : list (Z * Function) :=
  merge_sort key_le (map_to_list fs).

(** [functions.upper_bound(addr)] and one step back: the walk stops at the
    first key above [addr]; [prev] is the record before it, if any. *)
Fixpoint before_upper_bound (addr : Z) (l : list (Z * Function))
    (prev : option (Z * Function)) : option (Z * Function) :=
  match l with
  | [] => prev
  | p :: l' =>
      if bool_decide (addr < p.1) then prev
      else before_upper_bound addr l' (Some p)
  end.

(** [find_function]; [None] is [functions.end()]. *)
Definition find_function (addr : Z) (fs : gmap Z Function) : option (Z * Function) :=
  if bool_decide (size fs = 0%nat) then None
  else before_upper_bound addr (functions_in_order fs) None.

(** ** Transfer types *)

(** What [r_insn_to_type] makes of a [JR]: with a jump table, the word gets
    [index_reg] in its [rs] field. *)
Definition jr_packed (insn : RInsn) : RInsn :=
  if bool_decide (jtbl_addr insn ≠ 0) then
    set_instruction
      (λ instr, set_word (RAB_INSTR_PACK_rs (word instr) (index_reg insn)) instr) insn
  else insn.


(** ** What CFG construction leaves alone *)

(** [r'] is [r] with edges appended and, possibly, the
    [no_following_successor] flag raised. *)
Definition same_but_edges (r r' : RInsn) : Prop :=
  instruction r' = instruction r ∧
  is_global_got_memop r' = is_global_got_memop r ∧
  patched r' = patched r ∧ patched_addr r' = patched_addr r ∧
  linked_insn r' = linked_insn r ∧ linked_value r' = linked_value r ∧
  jtbl_addr r' = jtbl_addr r ∧ num_cases r' = num_cases r ∧
  index_reg r' = index_reg r ∧
  b_liveout r' = b_liveout r ∧ b_livein r' = b_livein r ∧
  f_livein r' = f_livein r ∧ f_liveout r' = f_liveout r ∧
  (∃ ss, successors r' = successors r ++ ss) ∧
  (∃ ps, predecessors r' = predecessors r ++ ps) ∧
  (no_following_successor r = true → no_following_successor r' = true).

Definition cfg_frame (st st' : State) : Prop :=
  length (rinsns st') = length (rinsns st) ∧
  functions st' = functions st ∧
  label_addresses st' = label_addresses st ∧
  li_function_pointers st' = li_function_pointers st ∧
  ∀ (j : nat) r, rinsns st !! j = Some r →
    ∃ r', rinsns st' !! j = Some r' ∧ same_but_edges r r'.

(** ** Function pointers in data: [inspect_data_function_pointers] *)

Section Pointers.
Variable elf : Elf.
(** [procedure_table_start] and [procedure_table_len], set by the ELF
    parser. *)
Variable procedure_table_start procedure_table_len : Z.

(** [functions[addr].referenced_by_function_pointer = true]; [operator[]]
    creates the record when it is new. *)
Definition mark_referenced (addr : Z) (st : State) : State :=
  let f := default Function_new (functions st !! addr) in
  set_functions
    (<[addr := mkFunction (returns f) (end_addr f) (nargs f) (nret f) (v0_in f) true]>
       (functions st)) st.

(** The words the scan passes over: two constants of [as1], one of [copt],
    and everything inside the procedure table. *)
Definition not_a_pointer (section_vaddr i addr : Z) : bool :=
  bool_decide (addr = 0x430b00 ∨ addr = 0x433b00)
  || bool_decide (addr = 0x4a0000)
  || (bool_decide (procedure_table_start ≤ u32 (section_vaddr + i))
      && bool_decide (u32 (section_vaddr + i)
                      < u32 (procedure_table_start + procedure_table_len))).

(** The word is taken for a function pointer. *)
Definition assumed_pointer (section_vaddr i addr : Z) : bool :=
  negb (not_a_pointer section_vaddr i addr)
  && in_text elf addr && bool_decide (Z.rem addr 4 = 0).

(** What the word at offset [4 * k] adds to the vector, if anything. *)
Definition word_taken (section : list Z) (section_vaddr : Z) (k : nat)
    : option (Z * Z) :=
  let i := 4 * Z.of_nat k in
  match read_u32_be section i with
  | Ok addr =>
      if assumed_pointer section_vaddr i addr
      then Some (u32 (section_vaddr + i), addr) else None
  | _ => None
  end.

(** [for (uint32_t i = 0; i < len; i += 4)], [n] turns from offset [i]. *)
Fixpoint inspect_loop (n : nat) (i : Z) (section : list Z) (section_vaddr : Z)
    (ret : list (Z * Z)) (st : State) : Outcome (list (Z * Z) * State) :=
  match n with
  | O => Ok (ret, st)
  | S n' =>
      addr ← read_u32_be section i;
      if not_a_pointer section_vaddr i addr then
        inspect_loop n' (i + 4) section section_vaddr ret st
      else if in_text elf addr && bool_decide (Z.rem addr 4 = 0) then
        inspect_loop n' (i + 4) section section_vaddr
          (ret ++ [(u32 (section_vaddr + i), addr)])
          (mark_referenced addr (label_insert addr st))
      else inspect_loop n' (i + 4) section section_vaddr ret st
  end.

Definition inspect_data_function_pointers (ret : list (Z * Z)) (section : list Z)
    (section_vaddr len : Z) (st : State) : Outcome (list (Z * Z) * State) :=
  inspect_loop (Z.to_nat ((len + 3) / 4)) 0 section section_vaddr ret st.

(** The records of [st] are in [st'], with at most the
    [referenced_by_function_pointer] flag raised. *)
Definition records_kept (st st' : State) : Prop :=
  ∀ a f, functions st !! a = Some f →
    ∃ f', functions st' !! a = Some f' ∧
      returns f' = returns f ∧ end_addr f' = end_addr f ∧
      nargs f' = nargs f ∧ nret f' = nret f ∧ v0_in f' = v0_in f ∧
      (referenced_by_function_pointer f = true →
       referenced_by_function_pointer f' = true).

End Pointers.

(** ** Function boundaries: [r_pass2] *)

(** [std::set::insert]: the set stays sorted and without duplicates. *)
Fixpoint set_insert (a : Z) (l : list Z) : list Z :=
  match l with
  | [] => [a]
  | b :: l' =>
      if bool_decide (a < b) then a :: l
      else if bool_decide (a = b) then l
      else b :: set_insert a l'
  end.

Definition li_insert (a : Z) (st : State) : State :=
  mkState (rinsns st) (label_addresses st) (functions st)
    (set_insert a (li_function_pointers st)).

(** [it->second.returns.push_back(ret)] for the record with key [k]. *)
Definition push_return (k ret : Z) (st : State) : State :=
  match functions st !! k with
  | Some f =>
      set_functions
        (<[k := mkFunction (returns f ++ [ret]) (end_addr f) (nargs f) (nret f)
                  (v0_in f) (referenced_by_function_pointer f)]> (functions st)) st
  | None => st
  end.

(** [it->second.end_addr = e] for the record with key [k]. *)
Definition set_end_addr (k e : Z) (st : State) : State :=
  match functions st !! k with
  | Some f =>
      set_functions
        (<[k := mkFunction (returns f) e (nargs f) (nret f)
                  (v0_in f) (referenced_by_function_pointer f)]> (functions st)) st
  | None => st
  end.

Section Pass2.
Context `{Rabbitizer}.
Variable elf : Elf.

(** [jr $ra]: the test of the first loop. *)
Definition is_jr_ra (insn : RInsn) : bool :=
  bool_decide (uniqueId (instruction insn) = RABBITIZER_INSTR_ID_cpu_jr)
  && bool_decide (RAB_INSTR_GET_rs (instruction insn) = RABBITIZER_REG_GPR_O32_ra).

(** The body of the first loop of [r_pass2], for index [i]. *)
Definition r_pass2_scan_step (i : Z) (st : State) : Outcome State :=
  insn ← get_insn st i;
  let addr := i_to_addr elf i in
  st ← (if is_jr_ra insn then
          match find_function addr (functions st) with
          | Some (k, _) => Ok (push_return k (u32 (addr + 4)) st)
          | None => Abort "it != functions.end()"
          end
        else Ok st);
  let imm := u32 (RabbitizerInstruction_getProcessedImmediate (instruction insn)) in
  if is_global_got_memop insn && in_text elf imm then
    Ok (mark_referenced imm (li_insert imm st))
  else Ok st.

Fixpoint r_pass2_scan (n : nat) (i : Z) (st : State) : Outcome State :=
  match n with
  | O => Ok st
  | S n' => st ← r_pass2_scan_step i st; r_pass2_scan n' (i + 1) st
  end.

(** [rinsns[i].patched = true; RabbitizerInstruction_init(&rinsns[i].instruction, w, vram)] *)
Definition reinit (w : Z) (r : RInsn) : RInsn :=
  set_instruction (λ instr, RabbitizerInstruction_init w (vram instr)) (set_patched true r).

(** [for (uint32_t j = 0; j < 4; j++)]: [n] [NOP]s from index [i]. *)
Fixpoint nop_fill (n : nat) (i : Z) (st : State) : Outcome State :=
  match n with
  | O => Ok st
  | S n' => st ← upd_insn i (reinit 0) st; nop_fill n' (i + 1) st
  end.

(** The rewrite of [xmalloc] into a call of [alloc_new]. *)
Definition xmalloc_fix (k i : Z) (st : State) : Outcome State :=
  let alloc_new_addr := u32 (text_vaddr elf + (i + 7) * 4) in
  st ← upd_insn i
         (λ r, set_patched_addr alloc_new_addr
                 (patch_to RABBITIZER_INSTR_ID_cpu_jal RABBITIZER_INSTR_ID_cpu_jal r)) st;
  if bool_decide (symbol_names elf !! alloc_new_addr = Some "alloc_new") then
    let i := i + 1 in
    r5 ← get_insn st (i + 5);
    st ← (if bool_decide (uniqueId (instruction r5) = RABBITIZER_INSTR_ID_cpu_ori)
             || bool_decide (uniqueId (instruction r5) = RABBITIZER_INSTR_ID_cpu_addiu)
          then upd_insn i (λ _, r5) st
          else r3 ← get_insn st (i + 3); upd_insn i (λ _, r3) st);
    let i := i + 1 in
    st ← upd_insn i (reinit 0x03E00008) st;
    let st := push_return k (u32 (text_vaddr elf + i * 4 + 4)) st in
    nop_fill 4 (i + 1) st
  else Abort "symbol_names.count(alloc_new_addr) && symbol_names[alloc_new_addr] == alloc_new".

(** The rewrite of [xfree] into a call of [alloc_dispose]. *)
Definition xfree_fix (k i : Z) (st : State) : Outcome State :=
  let alloc_dispose_addr := u32 (text_vaddr elf + (i + 4) * 4) in
  let alloc_dispose_addr :=
    if bool_decide (symbol_names elf !! u32 (alloc_dispose_addr + 4) = Some "alloc_dispose")
    then u32 (alloc_dispose_addr + 4) else alloc_dispose_addr in
  st ← upd_insn i
         (λ r, set_patched_addr alloc_dispose_addr
                 (patch_to RABBITIZER_INSTR_ID_cpu_jal RABBITIZER_INSTR_ID_cpu_jal r)) st;
  if bool_decide (symbol_names elf !! alloc_dispose_addr = Some "alloc_dispose") then
    let i := i + 1 in
    r2 ← get_insn st (i + 2);
    st ← upd_insn i (λ _, r2) st;
    let i := i + 1 in
    st ← upd_insn i (reinit 0x03E00008) st;
    let st := push_return k (u32 (text_vaddr elf + i * 4 + 4)) st in
    upd_insn (i + 1) (reinit 0) st
  else Abort "symbol_names.count(alloc_dispose_addr) && symbol_names[alloc_dispose_addr] == alloc_dispose".

(** The last two branches for a function without a return: the
    [lw; move; jalr] stub is let through, anything else above
    [mcount_addr] ends the run. *)
Definition no_return_other (k i : Z) (st : State) : Outcome State :=
  let no_ret := if bool_decide (mcount_addr elf < k) then Abort "no ret" else Ok st in
  a ← get_insn st i;
  if bool_decide (uniqueId (instruction a) = RABBITIZER_INSTR_ID_cpu_lw) then
    b ← get_insn st (i + 1);
    if bool_decide (uniqueId (instruction b) = RABBITIZER_INSTR_ID_cpu_move) then
      c ← get_insn st (i + 2);
      if bool_decide (uniqueId (instruction c) = RABBITIZER_INSTR_ID_cpu_jalr) then Ok st
      else no_ret
    else no_ret
  else no_ret.

(** [if (it->second.returns.size() == 0)] *)
Definition no_return_fixup (k : Z) (st : State) : Outcome State :=
  let i := addr_to_i elf k in
  match symbol_names elf !! k with
  | Some name =>
      if bool_decide (name = "__start") then Ok st
      else if bool_decide (name = "xmalloc") then xmalloc_fix k i st
      else if bool_decide (name = "xfree") then xfree_fix k i st
      else no_return_other k i st
  | None => no_return_other k i st
  end.

(** The second loop of [r_pass2], over the keys in order. *)
Fixpoint r_pass2_functions (keys : list Z) (st : State) : Outcome State :=
  match keys with
  | [] => Ok st
  | k :: rest =>
      st ← match functions st !! k with
           | Some f =>
               if bool_decide (returns f = []) then no_return_fixup k st else Ok st
           | None => Ok st
           end;
      let e := match rest with
               | next :: _ => next
               | [] => u32 (text_vaddr elf + text_section_len elf)
               end in
      r_pass2_functions rest (set_end_addr k e st)
  end.

Definition r_pass2 (st : State) : Outcome State :=
  st ← r_pass2_scan (length (rinsns st)) 0 st;
  r_pass2_functions ((functions_in_order (functions st)).*1) st.

End Pass2.

(** What [r_pass2] leaves of a state: the vector keeps its length, the
    labels stay, and every function record stays, with returns appended,
    possibly the pointer flag raised, and another [end_addr]. *)
Definition pass2_frame (st st' : State) : Prop :=
  length (rinsns st') = length (rinsns st) ∧
  label_addresses st' = label_addresses st ∧
  ∀ a f, functions st !! a = Some f →
    ∃ f', functions st' !! a = Some f' ∧
      (∃ ext, returns f' = returns f ++ ext) ∧
      nargs f' = nargs f ∧ nret f' = nret f ∧ v0_in f' = v0_in f ∧
      (referenced_by_function_pointer f = true →
       referenced_by_function_pointer f' = true).

(** Only the record with key [k] differs, and the keys are the same. *)
Definition only_record (k : Z) (st st' : State) : Prop :=
  (∀ a, a ≠ k → functions st' !! a = functions st !! a) ∧
  (is_Some (functions st' !! k) ↔ is_Some (functions st !! k)) ∧
  (∀ f f', functions st !! k = Some f → functions st' !! k = Some f' →
           end_addr f' = end_addr f).

(** The two relations together, for the second loop. *)
Definition fixes (k : Z) (st st' : State) : Prop :=
  pass2_frame st st' ∧ only_record k st st'.


Section Pass2Vocabulary.
Variable elf : Elf.

(** The return after index [j] is in a record that starts at or before it. *)
Definition return_recorded (j : Z) (st : State) : Prop :=
  ∃ k f, functions st !! k = Some f ∧ k ≤ i_to_addr elf j
         ∧ u32 (i_to_addr elf j + 4) ∈ returns f.

End Pass2Vocabulary.

(** ** What symbol resolution leaves alone *)

(** [r'] has the word, the address, the edges, the flag and the liveness
    masks of [r]. *)
Definition keeps_word (r r' : RInsn) : Prop :=
  word (instruction r') = word (instruction r) ∧
  vram (instruction r') = vram (instruction r) ∧
  no_following_successor r' = no_following_successor r ∧
  successors r' = successors r ∧ predecessors r' = predecessors r ∧
  b_liveout r' = b_liveout r ∧ b_livein r' = b_livein r ∧
  f_livein r' = f_livein r ∧ f_liveout r' = f_liveout r.

Definition pass1_frame (st st' : State) : Prop :=
  length (rinsns st') = length (rinsns st) ∧
  li_function_pointers st' = li_function_pointers st ∧
  label_addresses st ⊆ label_addresses st' ∧
  (∀ a f, functions st !! a = Some f → functions st' !! a = Some f) ∧
  ∀ (j : nat) r, rinsns st !! j = Some r →
    ∃ r', rinsns st' !! j = Some r' ∧ keeps_word r r'.

(** ** The fixed point of the forward pass *)

Section LivenessVocabulary.
Context `{Rabbitizer}.
Variable elf : Elf.

(** The outgoing mask of [r] holds what the transfer of [r] makes of its
    incoming mask and the always-set bit. *)
Definition f_settled (r : RInsn) : Prop :=
  mask_subset
    (f_transfer (r_insn_to_type r).1 (instruction (r_insn_to_type r).2)
       (Z.lor (f_livein r) 1))
    (f_liveout r).

(** Every record is untouched by the pass, or waits on the worklist, or
    is settled. *)
Definition f_pending (st : State) (q : list Z) : Prop :=
  vec_size (rinsns st) ≤ 2 ^ 30 ∧
  ∀ (j : nat) r, rinsns st !! j = Some r →
    f_livein r = 0 ∨ (∃ a, a ∈ q ∧ addr_to_i elf a = Z.of_nat j) ∨ f_settled r.

(** The incoming mask of the backward pass holds what the backward transfer
    of [r] makes of its outgoing mask and the always-set bit. *)
Definition b_settled (r : RInsn) : Prop :=
  mask_subset
    (b_transfer (r_insn_to_type r).1 (instruction (r_insn_to_type r).2)
       (Z.lor (b_liveout r) 1))
    (b_livein r).

(** Every record is [idle], or waits on the worklist, or is settled. *)
Definition b_pending (idle : RInsn → Prop) (st : State) (q : list Z) : Prop :=
  vec_size (rinsns st) ≤ 2 ^ 30 ∧
  ∀ (j : nat) r, rinsns st !! j = Some r →
    idle r ∨ (∃ a, a ∈ q ∧ addr_to_i elf a = Z.of_nat j) ∨ b_settled r.

(** No bit of the backward pass has reached [r]. *)
Definition b_unseeded (r : RInsn) : Prop := b_liveout r = 0.

(** Neither pass has reached [r]. *)
Definition b_unreached (r : RInsn) : Prop := f_livein r = 0 ∧ b_liveout r = 0.

(** [r'] has the successors of [r] and at least its [f_livein]. *)
Definition f_keeps (r r' : RInsn) : Prop :=
  successors r' = successors r ∧ mask_subset (f_livein r) (f_livein r').

(** From [st] to [st'] every record keeps its successors, its [f_livein]
    grows, and outside the indices [X] its [f_liveout] is the same. *)
Definition f_grows (X : Z → Prop) (st st' : State) : Prop :=
  length (rinsns st') = length (rinsns st) ∧
  ∀ (j : nat) r, rinsns st !! j = Some r →
    ∃ r', rinsns st' !! j = Some r' ∧ f_keeps r r' ∧
          (¬ X (Z.of_nat j) → f_liveout r' = f_liveout r).

(** What the record [r] at index [j] sends over its successor edge [e]
    is in the [f_livein] of the target; [e] is not an extern call. *)
Definition f_edge_ok (st : State) (j : Z) (r : RInsn) (e : Edge) : Prop :=
  extern_function e = false →
  ∀ nl t, f_edge_live elf j (f_liveout r) e st = Ok nl →
    get_insn st (edge_i e) = Ok t → mask_subset nl (f_livein t).

(** No index is set apart. *)
Definition nowhere : Z → Prop := λ _, False.

Definition f_edges_ok (X : Z → Prop) (st : State) : Prop :=
  ∀ (j : nat) r, ¬ X (Z.of_nat j) → rinsns st !! j = Some r → f_liveout r ≠ 0 →
    ∀ e, e ∈ successors r → f_edge_ok st (Z.of_nat j) r e.

(** The same for the backward pass, over the predecessors. *)
Definition b_keeps (r r' : RInsn) : Prop :=
  predecessors r' = predecessors r ∧ mask_subset (b_liveout r) (b_liveout r').

Definition b_grows (X : Z → Prop) (st st' : State) : Prop :=
  length (rinsns st') = length (rinsns st) ∧
  ∀ (j : nat) r, rinsns st !! j = Some r →
    ∃ r', rinsns st' !! j = Some r' ∧ b_keeps r r' ∧
          (¬ X (Z.of_nat j) → b_livein r' = b_livein r).

(** What the record [r] at index [j] sends back over its predecessor edge
    [e] is in the [b_liveout] of the source; [e] is not an extern call. *)
Definition b_edge_ok (st : State) (j : Z) (r : RInsn) (e : Edge) : Prop :=
  extern_function e = false →
  ∀ nl t, b_edge_live elf j (b_livein r) r e st = Ok nl →
    get_insn st (edge_i e) = Ok t → mask_subset nl (b_liveout t).

Definition b_edges_ok (X : Z → Prop) (st : State) : Prop :=
  ∀ (j : nat) r, ¬ X (Z.of_nat j) → rinsns st !! j = Some r → b_livein r ≠ 0 →
    ∀ e, e ∈ predecessors r → b_edge_ok st (Z.of_nat j) r e.

End LivenessVocabulary.

(** ** The reach of the backward searches *)

(** Outside the indices [P], the vector of [st'] is the vector of [st]. *)
Definition touches_only (P : Z → Prop) (st st' : State) : Prop :=
  length (rinsns st') = length (rinsns st) ∧
  ∀ j : nat, ¬ P (Z.of_nat j) → rinsns st' !! j = rinsns st !! j.

(** The window of [r_link_with_lui] and [r_link_with_jalr] at [offset]. *)
Definition lookback_window (offset j : Z) : Prop :=
  offset - MAX_LOOKBACK ≤ j ≤ offset.

(** ** What the liveness passes leave alone *)

(** [r'] is [r] up to its liveness masks and the packing of a [JR]. *)
Definition same_but_masks (r r' : RInsn) : Prop :=
  is_global_got_memop r' = is_global_got_memop r ∧
  no_following_successor r' = no_following_successor r ∧
  patched r' = patched r ∧ patched_addr r' = patched_addr r ∧
  linked_insn r' = linked_insn r ∧ linked_value r' = linked_value r ∧
  jtbl_addr r' = jtbl_addr r ∧ num_cases r' = num_cases r ∧
  index_reg r' = index_reg r ∧
  successors r' = successors r ∧ predecessors r' = predecessors r ∧
  (instruction r' = instruction r ∨
   uniqueId (instruction r) = RABBITIZER_INSTR_ID_cpu_jr ∧
   instruction r' = instruction (jr_packed r)).

(** ... and the backward masks are those of [r]. *)
Definition forward_only (r r' : RInsn) : Prop :=
  same_but_masks r r' ∧ b_livein r' = b_livein r ∧ b_liveout r' = b_liveout r.

(** ... and the forward masks are those of [r]. *)
Definition backward_only (r r' : RInsn) : Prop :=
  same_but_masks r r' ∧ f_livein r' = f_livein r ∧ f_liveout r' = f_liveout r.

Definition masks_frame (rel : RInsn → RInsn → Prop) (st st' : State) : Prop :=
  length (rinsns st') = length (rinsns st) ∧
  label_addresses st' = label_addresses st ∧
  li_function_pointers st' = li_function_pointers st ∧
  (∀ a f, functions st !! a = Some f → functions st' !! a = Some f) ∧
  ∀ (j : nat) r, rinsns st !! j = Some r →
    ∃ r', rinsns st' !! j = Some r' ∧ rel r r'.

(** ** Where the backward searches stop *)

Section LinkVocabulary.
Context `{Rabbitizer}.
Variable elf : Elf.

(** The search of [r_link_with_lui] for [reg], started at [offset], goes on
    past the record [r] at index [search] ([continue]). *)
Definition lui_search_skips (reg offset search : Z) (r : RInsn) : bool :=
  match uniqueId (instruction r) with
  | RABBITIZER_INSTR_ID_cpu_lui =>
      negb (bool_decide (reg = RAB_INSTR_GET_rt (instruction r)))
  | RABBITIZER_INSTR_ID_cpu_lw | RABBITIZER_INSTR_ID_cpu_ld
  | RABBITIZER_INSTR_ID_cpu_addiu | RABBITIZER_INSTR_ID_cpu_add
  | RABBITIZER_INSTR_ID_cpu_sub | RABBITIZER_INSTR_ID_cpu_subu =>
      negb (bool_decide (reg = get_dest_reg (instruction r)))
  | RABBITIZER_INSTR_ID_cpu_jr =>
      negb (bool_decide (RAB_INSTR_GET_rd (instruction r) = RABBITIZER_REG_GPR_O32_ra)
            && bool_decide (2 ≤ offset - search))
  | _ => true
  end.

(** [r] is a load of [reg] from a local entry of the GOT: the record that
    [r_link_with_lui] pairs with its user. *)
Definition lui_pair_source (reg : Z) (r : RInsn) : bool :=
  bool_decide (uniqueId (instruction r) = RABBITIZER_INSTR_ID_cpu_lw)
  && bool_decide (reg = get_dest_reg (instruction r))
  && bool_decide (RAB_INSTR_GET_rs (instruction r) = RABBITIZER_REG_GPR_O32_gp)
  && bool_decide
       (u32 (RabbitizerInstruction_getProcessedImmediate (instruction r)
             + gp_value_adj elf) / 4 < vec_size (got_locals elf)).

(** The search of [r_link_with_jalr] goes on past [r]. *)
Definition jalr_search_skips (r : RInsn) : bool :=
  if bool_decide (get_dest_reg (instruction r) = RABBITIZER_REG_GPR_O32_t9) then
    match uniqueId (instruction r) with
    | RABBITIZER_INSTR_ID_cpu_lw | RABBITIZER_INSTR_ID_cpu_ori
    | RABBITIZER_INSTR_ID_cpu_addiu
    | RABBITIZER_INSTR_ID_cpu_ld | RABBITIZER_INSTR_ID_cpu_addu
    | RABBITIZER_INSTR_ID_cpu_add | RABBITIZER_INSTR_ID_cpu_sub
    | RABBITIZER_INSTR_ID_cpu_subu => false
    | _ => true
    end
  else negb (bool_decide (uniqueId (instruction r) = RABBITIZER_INSTR_ID_cpu_jr)
             && bool_decide (RAB_INSTR_GET_rs (instruction r) = RABBITIZER_REG_GPR_O32_ra)).

(** [r] loads [$t9] by a global GOT [LW] or by an [ORI]: the record that
    [r_link_with_jalr] pairs with the [JALR]. *)
Definition jalr_pair_source (r : RInsn) : bool :=
  bool_decide (get_dest_reg (instruction r) = RABBITIZER_REG_GPR_O32_t9)
  && (bool_decide (uniqueId (instruction r) = RABBITIZER_INSTR_ID_cpu_lw)
      && is_global_got_memop r
      || bool_decide (uniqueId (instruction r) = RABBITIZER_INSTR_ID_cpu_ori)).

(** [r] is an [ADDIU] into [$t9] that is linked already: the record
    through which [r_link_with_jalr] chains. *)
Definition jalr_chain_source (r : RInsn) : bool :=
  bool_decide (get_dest_reg (instruction r) = RABBITIZER_REG_GPR_O32_t9)
  && bool_decide (uniqueId (instruction r) = RABBITIZER_INSTR_ID_cpu_addiu)
  && bool_decide (linked_insn r ≠ -1).

(** The search went on past every index strictly between [lo] and [hi]. *)
Definition search_passed (skips : Z → RInsn → bool) (st : State) (lo hi : Z) : Prop :=
  ∀ k, lo < k < hi → ∃ r, get_insn st k = Ok r ∧ skips k r = true.

End LinkVocabulary.

(** ** What a turn of a liveness pass crosses *)

(** Some successor edge of [ri] goes to [j]. *)
Definition over_successors (ri : RInsn) (j : Z) : Prop :=
  ∃ e, e ∈ successors ri ∧ edge_i e = j.

(** Some predecessor edge of [ri] comes from [j]. *)
Definition over_predecessors (ri : RInsn) (j : Z) : Prop :=
  ∃ e, e ∈ predecessors ri ∧ edge_i e = j.

(** [ri] has a successor edge into a function: the forward pass then also
    propagates to the next instruction, skipping the call. *)
Definition skips_call_forward (ri : RInsn) : Prop :=
  ∃ e, e ∈ successors ri ∧ function_exit e = false ∧ function_entry e = true.

(** [ri] has a predecessor edge out of a function: the backward pass then
    also propagates to the previous instruction, skipping the call. *)
Definition skips_call_backward (ri : RInsn) : Prop :=
  ∃ e, e ∈ predecessors ri ∧ function_exit e = true.

(** Every record of [st] is in [st'], with its edge lists. *)
Definition edges_kept (st st' : State) : Prop :=
  length (rinsns st') = length (rinsns st) ∧
  ∀ (j : nat) r, rinsns st !! j = Some r →
    ∃ r', rinsns st' !! j = Some r' ∧
      successors r' = successors r ∧ predecessors r' = predecessors r.

(** From [st] to [st'] only [f_livein] masks change, and they grow. *)
Definition livein_only (st st' : State) : Prop :=
  length (rinsns st') = length (rinsns st) ∧
  ∀ (j : nat) r, rinsns st !! j = Some r →
    ∃ m, rinsns st' !! j = Some (set_f_livein m r) ∧ mask_subset (f_livein r) m.

(** From [st] to [st'] only [b_liveout] masks change, and they grow. *)
Definition liveout_only (st st' : State) : Prop :=
  length (rinsns st') = length (rinsns st) ∧
  ∀ (j : nat) r, rinsns st !! j = Some r →
    ∃ m, rinsns st' !! j = Some (set_b_liveout m r) ∧ mask_subset (b_liveout r) m.

(** * Properties *)

(** ** Outcomes and vector accesses *)

Lemma bind_Ok {A B} (m : Outcome A) (f : A → Outcome B) (b : B) :
  m ≫= f = Ok b → ∃ a, m = Ok a ∧ f a = Ok b.
Proof. destruct m; simpl; intros E; try discriminate. eauto. Qed.

Lemma vec_get_Ok {A} (v : list A) (k : Z) (a : A) :
  vec_get v k = Ok a ↔ 0 ≤ k ∧ v !! Z.to_nat k = Some a.
Proof.
  unfold vec_get. destruct (decide (0 ≤ k)) as [Hk|Hk].
  - destruct (v !! Z.to_nat k) eqn:E; split.
    + intros [= ->]. auto.
    + intros [_ [= ->]]. reflexivity.
    + discriminate.
    + intros [_ ?]. discriminate.
  - split; [discriminate | intros [? _]; contradiction].
Qed.

Lemma vec_get_nat {A} (v : list A) (n : nat) (a : A) :
  v !! n = Some a → vec_get v (Z.of_nat n) = Ok a.
Proof. intros E. apply vec_get_Ok. rewrite Nat2Z.id. split; [lia | done]. Qed.

Lemma vec_upd_Ok {A} (v v' : list A) (k : Z) (f : A → A) :
  vec_upd v k f = Ok v' →
  ∃ a, 0 ≤ k ∧ v !! Z.to_nat k = Some a ∧ v' = <[Z.to_nat k := f a]> v.
Proof.
  unfold vec_upd. intros E. apply bind_Ok in E as (a & Ha & E).
  apply vec_get_Ok in Ha as [Hk Ha]. injection E as <-. eauto.
Qed.

Lemma upd_insn_Ok (k : Z) (f : RInsn → RInsn) (st st' : State) :
  upd_insn k f st = Ok st' →
  ∃ a, 0 ≤ k ∧ rinsns st !! Z.to_nat k = Some a
       ∧ st' = set_rinsns (<[Z.to_nat k := f a]> (rinsns st)) st.
Proof.
  unfold upd_insn. intros E. apply bind_Ok in E as (v & Hv & E).
  apply vec_upd_Ok in Hv as (a & Hk & Ha & ->). injection E as <-. eauto.
Qed.

(** After [rinsns[k] = f (rinsns[k])], index [j] holds [f] of the old
    record when [j = k] and the old record otherwise. *)
Lemma upd_insn_lookup (k : Z) (f : RInsn → RInsn) (st st' : State) (j : nat) :
  upd_insn k f st = Ok st' →
  rinsns st' !! j =
    (λ r, if decide (Z.of_nat j = k) then f r else r) <$> rinsns st !! j.
Proof.
  intros E. apply upd_insn_Ok in E as (a & Hk & Ha & ->). simpl.
  destruct (decide (Z.of_nat j = k)) as [<-|Hne].
  - rewrite Nat2Z.id in *. rewrite list_lookup_insert_eq by (by eapply lookup_lt_Some).
    by rewrite Ha.
  - rewrite list_lookup_insert_ne by lia. by destruct (rinsns st !! j).
Qed.

Lemma upd_insn_length (k : Z) (f : RInsn → RInsn) (st st' : State) :
  upd_insn k f st = Ok st' → length (rinsns st') = length (rinsns st).
Proof.
  intros E. apply upd_insn_Ok in E as (a & Hk & Ha & ->). simpl. apply length_insert.
Qed.

Lemma upd_insn_functions (k : Z) (f : RInsn → RInsn) (st st' : State) :
  upd_insn k f st = Ok st' → functions st' = functions st.
Proof. intros E. apply upd_insn_Ok in E as (a & Hk & Ha & ->). reflexivity. Qed.

Lemma upd_insn_in_range (k : Z) (f : RInsn → RInsn) (st st' : State) :
  upd_insn k f st = Ok st' → 0 ≤ k < vec_size (rinsns st).
Proof.
  intros E. apply upd_insn_Ok in E as (a & Hk & Ha & ->).
  apply lookup_lt_Some in Ha. unfold vec_size. lia.
Qed.

(** Peel the binds of a computation that is known to have ended well. *)
Ltac ok_inv H :=
  repeat match type of H with
  | (_ ≫= _) = Ok _ =>
      let x := fresh "x" in let Hx := fresh "Hx" in
      apply bind_Ok in H as (x & Hx & H)
  | Ok _ = Ok _ => injection H as H; subst
  | Exit _ _ = Ok _ => discriminate H
  | Abort _ = Ok _ => discriminate H
  | Undefined = Ok _ => discriminate H
  end.

(** Peel one bind, naming the intermediate result. *)
Ltac ok_step H x Hx :=
  lazymatch type of H with
  | (_ ≫= _) = Ok _ => apply bind_Ok in H as (x & Hx & H)
  end.

Create HintDb cfg.
Create HintDb mask.

Lemma bind_Ok_l {A B} (a : A) (f : A → Outcome B) : Ok a ≫= f = f a.
Proof. reflexivity. Qed.

Lemma get_insn_total (st : State) (k : Z) :
  0 ≤ k < vec_size (rinsns st) → ∃ r, get_insn st k = Ok r.
Proof.
  intros Hk. unfold vec_size in Hk.
  destruct (lookup_lt_is_Some_2 (rinsns st) (Z.to_nat k)) as [r Hr]; [lia|].
  exists r. apply vec_get_Ok. split; [lia|done].
Qed.

Lemma get_insn_in_range (st : State) (k : Z) (r : RInsn) :
  get_insn st k = Ok r → 0 ≤ k < vec_size (rinsns st).
Proof.
  intros E. apply vec_get_Ok in E as [Hk E]. apply lookup_lt_Some in E.
  unfold vec_size. lia.
Qed.

Lemma upd_insn_total (k : Z) (f : RInsn → RInsn) (st : State) :
  0 ≤ k < vec_size (rinsns st) →
  ∃ st', upd_insn k f st = Ok st' ∧ vec_size (rinsns st') = vec_size (rinsns st).
Proof.
  intros Hk. destruct (get_insn_total st k Hk) as [r Hr].
  unfold upd_insn, vec_upd. unfold get_insn in Hr. rewrite Hr. simpl.
  eexists. split; [reflexivity|]. unfold vec_size. simpl. by rewrite length_insert.
Qed.

(** Peel the binds and the [let]s of a computation that ended well. *)
Ltac ok_steps E :=
  repeat (cbv zeta in E;
          let x := fresh "x" in let Hx := fresh "Hx" in ok_step E x Hx).

(** * The argument walk of the backward pass *)

(** [pos % 1] is 0 whatever [pos] is: the test in front of [++pos] never
    holds. *)
Lemma rem_1_test (pos : Z) : bool_decide (Z.rem pos 1 ≠ 0) = false.
Proof. rewrite Z.rem_1_r. apply bool_decide_eq_false_2. intros Hne. by apply Hne. Qed.

Lemma align_even_even (pos : Z) : Z.even pos = true → align_even pos = pos.
Proof.
  intros He. unfold align_even. rewrite <- Z.negb_even, He. done.
Qed.

Lemma arg_walk_step_d (w : ArgWalk) :
  arg_walk_step "d" w =
    if aw_only_floats_so_far w && bool_decide (aw_pos_float w < 4) then
      mkArgWalk (aw_args w) (aw_pos w + 2) (aw_pos_float w + 2) (aw_only_floats_so_far w)
    else
      mkArgWalk
        (if bool_decide (aw_pos w < 4)
         then Z.lor (aw_args w) (Z.lor (a_reg (aw_pos w)) (a_reg (aw_pos w + 1)))
         else aw_args w)
        (aw_pos w + 2) (aw_pos_float w) (aw_only_floats_so_far w).
Proof.
  destruct w as [args pos pf only]. unfold arg_walk_step.
  rewrite bool_decide_eq_false_2 by (intros [?|[?|[?|?]]]; discriminate).
  rewrite bool_decide_eq_false_2 by discriminate.
  rewrite bool_decide_eq_true_2 by done.
  cbv zeta. rewrite rem_1_test. done.
Qed.

Lemma arg_walk_step_l_j (c : ascii) (w : ArgWalk) :
  c = "l"%char ∨ c = "j"%char →
  arg_walk_step c w =
    mkArgWalk
      (if bool_decide (aw_pos w < 4)
       then Z.lor (aw_args w) (Z.lor (a_reg (aw_pos w)) (a_reg (aw_pos w + 1)))
       else aw_args w)
      (aw_pos w + 2) (aw_pos_float w) false.
Proof.
  intros Hc. destruct w as [args pos pf only]. unfold arg_walk_step.
  rewrite bool_decide_eq_false_2
    by (intros [?|[?|[?|?]]]; destruct Hc; subst; discriminate).
  rewrite bool_decide_eq_false_2 by (intros ?; destruct Hc; subst; discriminate).
  rewrite bool_decide_eq_false_2 by (intros ?; destruct Hc; subst; discriminate).
  rewrite bool_decide_eq_true_2 by done.
  cbv zeta. rewrite rem_1_test. done.
Qed.

(** C2, as the code has it. At an even position, a [d] parameter that
    comes while only floats were seen and a float slot is free takes a
    double float slot and marks no [$a] register; any other [d] and every
    [l] or [j] marks [$a(pos)] and [$a(pos + 1)] when [pos < 4], and [l]
    and [j] clear the floats-only flag; in each case [pos] advances by 2.
    This is what the walk that aligns first does there. *)
Theorem arg_walk_step_wide (c : ascii) (args pos pos_float : Z) (only : bool) :
  Z.even pos = true →
  c = "d"%char ∨ c = "l"%char ∨ c = "j"%char →
  let w' := arg_walk_step c (mkArgWalk args pos pos_float only) in
  let fast := bool_decide (c = "d"%char) && only && bool_decide (pos_float < 4) in
  aw_pos w' = pos + 2 ∧
  aw_args w' =
    (if fast then args
     else if bool_decide (pos < 4)
          then Z.lor args (Z.lor (a_reg pos) (a_reg (pos + 1)))
          else args) ∧
  aw_pos_float w' = (if fast then pos_float + 2 else pos_float) ∧
  aw_only_floats_so_far w' = bool_decide (c = "d"%char) && only ∧
  w' = aligned_arg_walk_step c (mkArgWalk args pos pos_float only).
Proof.
  intros He Hc. cbv zeta. unfold aligned_arg_walk_step.
  rewrite (align_even_even pos He).
  destruct Hc as [->|Hc].
  - rewrite arg_walk_step_d. cbn [aw_args aw_pos aw_pos_float aw_only_floats_so_far].
    rewrite (bool_decide_eq_true_2 ("d"%char = "d"%char)) by done.
    cbn [andb].
    destruct (only && bool_decide (pos_float < 4)) eqn:Hf; cbn; [|done].
    apply andb_true_iff in Hf as [-> _]. done.
  - rewrite (arg_walk_step_l_j c _ Hc).
    cbn [aw_args aw_pos aw_pos_float aw_only_floats_so_far].
    rewrite (bool_decide_eq_false_2 (c = "d"%char))
      by (intros ?; destruct Hc; subst; discriminate).
    rewrite (bool_decide_eq_true_2 (c = "l"%char ∨ c = "j"%char)) by done.
    cbn [andb]. done.
Qed.

(** The letters the two walks treat alike, whatever the position. *)
Lemma aligned_arg_walk_step_narrow (c : ascii) (w : ArgWalk) :
  c ≠ "d"%char → c ≠ "l"%char → c ≠ "j"%char →
  aligned_arg_walk_step c w = arg_walk_step c w.
Proof.
  intros Hd Hl Hj. destruct w as [args pos pf only].
  unfold aligned_arg_walk_step.
  rewrite bool_decide_eq_false_2 by done.
  rewrite bool_decide_eq_false_2 by (intros [?|?]; done).
  done.
Qed.

(** No extern of the catalogue has a [d], [l] or [j] at an odd position:
    on the catalogue the walk of [r_pass5] is the walk that aligns. *)
Lemma extern_catalogue_walk_aligned (fn : ExternFunction) :
  fn ∈ extern_functions →
  aw_args (extern_args_walk fn) = aw_args (aligned_extern_args_walk fn) ∧
  aw_pos (extern_args_walk fn) = aw_pos (aligned_extern_args_walk fn).
Proof.
  intros Hin. apply list_elem_of_In in Hin.
  assert (forallb walks_agree extern_functions = true) as Hall
    by (vm_compute; reflexivity).
  rewrite forallb_forall in Hall. specialize (Hall fn Hin).
  unfold walks_agree in Hall. apply andb_true_iff in Hall as [Ha Hp].
  split; by apply Z.eqb_eq.
Qed.

(** At an odd position the walk of [r_pass5] does not align: for a
    [void f(int, long long)] it marks [$a1] and [$a2] and ends at 3, the
    walk that aligns marks [$a2] and [$a3] and ends at 4. *)
Example arg_walk_odd_position :
  extern_args_walk int_then_long_long
    = mkArgWalk (Z.lor (Z.lor (Z.lor 1 (a_reg 0)) (a_reg 1)) (a_reg 2)) 3 0 false ∧
  aligned_extern_args_walk int_then_long_long
    = mkArgWalk (Z.lor (Z.lor (Z.lor 1 (a_reg 0)) (a_reg 2)) (a_reg 3)) 4 0 false.
Proof. split; vm_compute; reflexivity. Qed.

(** ** Symbol resolution *)

Section Resolver.
Context `{Rabbitizer}.
Variable elf : Elf.

Lemma upd_insn_linked_same k f st st' :
  upd_insn k f st = Ok st' →
  (∀ r, linked_insn (f r) = linked_insn r) →
  links_kept st st'.
Proof.
  intros E Hf j. unfold linked_at. rewrite (upd_insn_lookup _ _ _ _ j E).
  destruct (rinsns st !! j); simpl; [|done]. case_decide; by rewrite ?Hf.
Qed.

Lemma upd_insn_linked_set k f v st st' :
  upd_insn k f st = Ok st' →
  (∀ r, linked_insn (f r) = v) →
  ∀ j, linked_at st' j = if decide (Z.of_nat j = k) then Some v else linked_at st j.
Proof.
  intros E Hf j. unfold linked_at. rewrite (upd_insn_lookup _ _ _ _ j E).
  pose proof (upd_insn_Ok _ _ _ _ E) as (a & Hk & Ha & _).
  case_decide as Hj.
  - subst k. rewrite Nat2Z.id in Ha. rewrite Ha. simpl. by rewrite Hf.
  - by destruct (rinsns st !! j).
Qed.

Lemma links_kept_refl st : links_kept st st.
Proof. by intros j. Qed.

Lemma links_kept_trans s1 s2 s3 :
  links_kept s1 s2 → links_kept s2 s3 → links_kept s1 s3.
Proof. intros H1 H2 j. by rewrite H2, H1. Qed.

Lemma add_function_rinsns a st : rinsns (add_function elf a st) = rinsns st.
Proof. unfold add_function. by repeat case_match. Qed.

Lemma add_function_links a st : links_kept st (add_function elf a st).
Proof. intros j. unfold linked_at. by rewrite add_function_rinsns. Qed.


Lemma upd_insn_size k f st st' :
  upd_insn k f st = Ok st' → vec_size (rinsns st') = vec_size (rinsns st).
Proof. intros E. unfold vec_size. by rewrite (upd_insn_length _ _ _ _ E). Qed.

(** Split the conditionals of a computation that ended well. *)
Ltac split_ifs E :=
  repeat lazymatch type of E with
  | (if ?b then _ else _) = Ok _ => destruct b eqn:?
  end.

Lemma link_made_intro s o vs vo f1 f2 st s1 s2 :
  0 ≤ s < o →
  upd_insn s f1 st = Ok s1 → (∀ r, linked_insn (f1 r) = vs) →
  upd_insn o f2 s1 = Ok s2 → (∀ r, linked_insn (f2 r) = vo) →
  link_made st s2 s o vs vo.
Proof.
  intros Hso U1 F1 U2 F2. split; [lia|]. split.
  - rewrite <- (upd_insn_size _ _ _ _ U1). apply upd_insn_in_range in U2. lia.
  - intros j. rewrite (upd_insn_linked_set _ _ _ _ _ U2 F2 j),
      (upd_insn_linked_set _ _ _ _ _ U1 F1 j).
    repeat case_decide; try reflexivity; lia.
Qed.

Lemma link_made_kept st s1 s2 s o vs vo :
  link_made st s1 s o vs vo → links_kept s1 s2 → link_made st s2 s o vs vo.
Proof.
  intros (L1 & L2 & L3) K. split; [done|]. split; [done|].
  intros j. by rewrite K, L3.
Qed.

(** Decide the comparisons of opcode ids that the case analysis leaves. *)
Ltac decide_ids :=
  repeat match goal with
  | |- context [bool_decide (?a = ?b)] =>
      first [ rewrite (bool_decide_eq_true_2 (a = b)) by reflexivity
            | rewrite (bool_decide_eq_false_2 (a = b)) by discriminate ]
  | E : context [bool_decide (?a = ?b)] |- _ =>
      first [ rewrite (bool_decide_eq_true_2 (a = b)) in E by reflexivity
            | rewrite (bool_decide_eq_false_2 (a = b)) in E by discriminate ]
  end;
  cbn [negb andb orb] in *.

(** Split the conditionals of a computation that ended well, in the
    goal too. *)
Ltac split_conds_all E :=
  repeat lazymatch type of E with
  | (if ?b then _ else _) = Ok _ => destruct b eqn:?; cbn [negb andb orb] in *
  end.

(** One turn of the search of [r_link_with_lui], at the record [r]: the
    search goes on, or it stops there; where it stops, it links [search] and
    [offset] to each other when [r] is a GOT-local load of [reg], and
    changes no link otherwise. *)
Lemma r_link_with_lui_body_links continue search offset reg mem_imm st st' r :
  0 ≤ search < offset →
  get_insn st search = Ok r →
  r_link_with_lui_body elf continue search offset reg mem_imm st = Ok st' →
  (lui_search_skips reg offset search r = true ∧ continue = Ok st')
  ∨ (lui_search_skips reg offset search r = false
     ∧ (lui_pair_source elf reg r = true → link_made st st' search offset offset search)
     ∧ (lui_pair_source elf reg r = false → links_kept st st')).
Proof.
  intros Hso Hr E. unfold r_link_with_lui_body in E. rewrite Hr, bind_Ok_l in E.
  cbv zeta in E. unfold lui_search_skips, lui_pair_source.
  destruct (uniqueId (instruction r)) eqn:Hid;
    try (left; split; [reflexivity|exact E]).
  all: decide_ids; split_conds_all E.
  all: try (left; split; [reflexivity|exact E]).
  all: right; (split; [reflexivity|]).
  all: try (split; [intros [=]|intros _; injection E as <-; apply links_kept_refl]).
  (* the GOT-local load *)
  all: split; [intros _|intros [=]].
  all: ok_step E g Hg; ok_step E s1 U1; ok_step E s2 U2; ok_step E s3 U3; ok_step E o Ho.
  all: pose proof (link_made_intro _ _ _ _ _ _ _ _ _ Hso U1 (λ _, eq_refl) U2 (λ _, eq_refl))
         as L.
  all: apply (link_made_kept _ _ _ _ _ _ _ L).
  all: eapply links_kept_trans; [exact (upd_insn_linked_same _ _ _ _ U3 (λ _, eq_refl))|].
  all: destruct (uniqueId (instruction o)); try discriminate E.
  all: try (exact (upd_insn_linked_same _ _ _ _ E (λ _, eq_refl))).
  all: ok_step E s' Hs'; ok_step E s4 U4; injection E as <-.
  all: eapply links_kept_trans; [exact (upd_insn_linked_same _ _ _ _ U4 (λ _, eq_refl))|].
  all: case_match; [apply add_function_links|apply links_kept_refl].
Qed.

(** A turn that ended well has read its record. *)
Lemma r_link_with_lui_body_read continue search offset reg mem_imm st st' :
  r_link_with_lui_body elf continue search offset reg mem_imm st = Ok st' →
  ∃ r, get_insn st search = Ok r.
Proof.
  unfold r_link_with_lui_body. intros E. ok_step E r Hr. by exists r.
Qed.

Lemma r_link_with_jalr_body_read continue search offset st st' :
  r_link_with_jalr_body elf continue search offset st = Ok st' →
  ∃ r, get_insn st search = Ok r.
Proof.
  unfold r_link_with_jalr_body. intros E. ok_step E r Hr. by exists r.
Qed.

Lemma search_passed_step skips st search offset r :
  search_passed skips st search offset →
  get_insn st search = Ok r → skips search r = true →
  search_passed skips st (search - 1) offset.
Proof.
  intros P Hr Hs k Hk. destruct (decide (k = search)) as [->|Hne]; [eauto|].
  apply P. lia.
Qed.

Lemma r_link_with_lui_loop_links n search offset reg mem_imm st st' :
  search < offset → Z.of_nat n ≤ search + 1 →
  search_passed (lui_search_skips reg offset) st search offset →
  r_link_with_lui_loop elf n search offset reg mem_imm st = Ok st' →
  (search_passed (lui_search_skips reg offset) st (search - Z.of_nat n) offset
   ∧ links_kept st st')
  ∨ ∃ s r,
      search - Z.of_nat n < s ≤ search ∧
      search_passed (lui_search_skips reg offset) st s offset ∧
      get_insn st s = Ok r ∧ lui_search_skips reg offset s r = false ∧
      (lui_pair_source elf reg r = true → link_made st st' s offset offset s) ∧
      (lui_pair_source elf reg r = false → links_kept st st').
Proof.
  revert search. induction n as [|n IH]; intros search Hlt Hn P E.
  - injection E as <-. left. rewrite Z.sub_0_r. split; [done|apply links_kept_refl].
  - cbn [r_link_with_lui_loop] in E.
    destruct (r_link_with_lui_body_read _ _ _ _ _ _ _ E) as [r Hr].
    assert (0 ≤ search < offset) as Hso by lia.
    destruct (r_link_with_lui_body_links _ _ _ _ _ _ _ r Hso Hr E)
      as [[Hs E']|(Hs & Hp & Hk)].
    + destruct (IH (search - 1)) as [[P' K]|(s & r' & Hrange & Q)];
        [lia|lia|by eapply search_passed_step|exact E'| |].
      * left. split; [|done]. by replace (search - Z.of_nat (S n))
                                   with (search - 1 - Z.of_nat n) by lia.
      * right. exists s, r'. split; [lia|done].
    + right. exists search, r. split; [lia|]. done.
Qed.

(** One turn of the search of [r_link_with_jalr], at the record [r]: the
    search goes on, or it stops there; where it stops, it links [search] and
    [offset] to each other when [r] loads [$t9] (a global GOT [LW], or an
    [ORI]); through an [ADDIU] into [$t9] that is linked already it points
    [search] at [offset] and [offset] at the former partner of the [ADDIU];
    and it changes no link otherwise. *)
Lemma r_link_with_jalr_body_links continue search offset st st' r :
  0 ≤ search < offset →
  get_insn st search = Ok r →
  r_link_with_jalr_body elf continue search offset st = Ok st' →
  (jalr_search_skips r = true ∧ continue = Ok st')
  ∨ (jalr_search_skips r = false
     ∧ (jalr_pair_source r = true → link_made st st' search offset offset search)
     ∧ (jalr_chain_source r = true →
        link_made st st' search offset offset (linked_insn r))
     ∧ (jalr_pair_source r = false → jalr_chain_source r = false →
        links_kept st st')).
Proof.
  intros Hso Hr E. unfold r_link_with_jalr_body in E. rewrite Hr, bind_Ok_l in E.
  unfold jalr_search_skips, jalr_pair_source, jalr_chain_source.
  destruct (bool_decide (get_dest_reg (instruction r) = RABBITIZER_REG_GPR_O32_t9)).
  - destruct (uniqueId (instruction r)) eqn:Hid;
      try (left; split; [reflexivity|exact E]).
    all: decide_ids; rewrite ?orb_true_r, ?orb_false_r in *; split_conds_all E.
    all: right; (split; [reflexivity|]).
    all: try (split; [intros [=]|split; [intros [=]|
                intros _ _; injection E as <-; apply links_kept_refl]]).
    + (* addiu, linked *)
      split; [intros [=]|]. split; [intros _|intros _ [=]].
      ok_step E s1 U1. ok_step E s2 U2. ok_step E r1 Hr1.
      eapply link_made_kept;
        [exact (link_made_intro _ _ _ _ _ _ _ _ _ Hso U1 (λ _, eq_refl) U2 (λ _, eq_refl))|].
      exact (upd_insn_linked_same _ _ _ _ E (λ _, eq_refl)).
    + (* lw, global GOT *)
      split; [intros _|split; [intros [=]|intros [=]]].
      ok_step E s1 U1. ok_step E s2 U2. ok_step E r1 Hr1. ok_step E s3 U3.
      ok_step E s4 U4. ok_step E r2 Hr2. ok_step E s5 U5. ok_step E s6 U6.
      ok_step E r3 Hr3. injection E as <-.
      eapply link_made_kept;
        [exact (link_made_intro _ _ _ _ _ _ _ _ _ Hso U1 (λ _, eq_refl) U2 (λ _, eq_refl))|].
      repeat (eapply links_kept_trans;
              [eapply upd_insn_linked_same; [eassumption|intros; reflexivity]|]).
      apply add_function_links.
    + (* ori *)
      split; [intros _|split; [intros [=]|intros [=]]].
      ok_step E s1 U1. ok_step E s2 U2. ok_step E r1 Hr1. ok_step E s3 U3.
      ok_step E s4 U4. ok_step E r2 Hr2. ok_step E s5 U5. ok_step E s6 U6.
      ok_step E r3 Hr3. injection E as <-.
      eapply link_made_kept;
        [exact (link_made_intro _ _ _ _ _ _ _ _ _ Hso U1 (λ _, eq_refl) U2 (λ _, eq_refl))|].
      repeat (eapply links_kept_trans;
              [eapply upd_insn_linked_same; [eassumption|intros; reflexivity]|]).
      apply add_function_links.
  - cbn [andb]. destruct (bool_decide (uniqueId (instruction r) = RABBITIZER_INSTR_ID_cpu_jr)
              && bool_decide (RAB_INSTR_GET_rs (instruction r) = RABBITIZER_REG_GPR_O32_ra)).
    + right. split; [reflexivity|]. split; [intros [=]|]. split; [intros [=]|].
      intros _ _. injection E as <-. apply links_kept_refl.
    + left. by split.
Qed.

Lemma r_link_with_jalr_loop_links n search offset st st' :
  search < offset → Z.of_nat n ≤ search + 1 →
  search_passed (λ _, jalr_search_skips) st search offset →
  r_link_with_jalr_loop elf n search offset st = Ok st' →
  (search_passed (λ _, jalr_search_skips) st (search - Z.of_nat n) offset
   ∧ links_kept st st')
  ∨ ∃ s r,
      search - Z.of_nat n < s ≤ search ∧
      search_passed (λ _, jalr_search_skips) st s offset ∧
      get_insn st s = Ok r ∧ jalr_search_skips r = false ∧
      (jalr_pair_source r = true → link_made st st' s offset offset s) ∧
      (jalr_chain_source r = true → link_made st st' s offset offset (linked_insn r)) ∧
      (jalr_pair_source r = false → jalr_chain_source r = false → links_kept st st').
Proof.
  revert search. induction n as [|n IH]; intros search Hlt Hn P E.
  - injection E as <-. left. rewrite Z.sub_0_r. split; [done|apply links_kept_refl].
  - cbn [r_link_with_jalr_loop] in E.
    destruct (r_link_with_jalr_body_read _ _ _ _ _ E) as [r Hr].
    assert (0 ≤ search < offset) as Hso by lia.
    destruct (r_link_with_jalr_body_links _ _ _ _ _ r Hso Hr E)
      as [[Hs E']|(Hs & Hrest)].
    + destruct (IH (search - 1)) as [[P' K]|(s & r' & Hrange & Q)];
        [lia|lia|by eapply (search_passed_step (λ _, jalr_search_skips))|exact E'| |].
      * left. split; [|done]. by replace (search - Z.of_nat (S n))
                                   with (search - 1 - Z.of_nat n) by lia.
      * right. exists s, r'. split; [lia|done].
    + right. exists search, r. split; [lia|]. done.
Qed.

(** C1, amended. A link is mutual when it is made. Each search runs from
    [offset - 1] down to [max(0, offset - 128)] and stops at the first record
    it does not pass; if it runs out, no [linked_insn] changes. Where
    [r_link_with_lui] stops at [s], it pairs [s] with [offset] when the
    record is a GOT-local [LW] of the register: the call leaves
    [rinsns[s].linked_insn == offset] and [rinsns[offset].linked_insn == s]
    and changes no other [linked_insn]; at any other record it changes none.
    Where [r_link_with_jalr] stops at [s], it makes the same mutual pair when
    the record loads [$t9] by a global GOT [LW] or an [ORI]; through an
    [ADDIU] into [$t9] that is linked already it sets
    [rinsns[s].linked_insn = offset] and points [rinsns[offset].linked_insn]
    at the former partner of the [ADDIU] (a chain, not a pair); at any other
    record it changes none. No call repairs the other end of a link it
    overwrites. *)
Theorem linked_insn_mutual_when_made :
  (∀ offset reg mem_imm st st',
     r_link_with_lui elf offset reg mem_imm st = Ok st' →
     (search_passed (lui_search_skips reg offset) st
        (Z.max 0 (offset - MAX_LOOKBACK) - 1) offset
      ∧ links_kept st st')
     ∨ ∃ s r,
         Z.max 0 (offset - MAX_LOOKBACK) ≤ s < offset ∧
         search_passed (lui_search_skips reg offset) st s offset ∧
         get_insn st s = Ok r ∧ lui_search_skips reg offset s r = false ∧
         (lui_pair_source elf reg r = true → link_made st st' s offset offset s) ∧
         (lui_pair_source elf reg r = false → links_kept st st')) ∧
  (∀ offset st st',
     r_link_with_jalr elf offset st = Ok st' →
     (search_passed (λ _, jalr_search_skips) st
        (Z.max 0 (offset - MAX_LOOKBACK) - 1) offset
      ∧ links_kept st st')
     ∨ ∃ s r,
         Z.max 0 (offset - MAX_LOOKBACK) ≤ s < offset ∧
         search_passed (λ _, jalr_search_skips) st s offset ∧
         get_insn st s = Ok r ∧ jalr_search_skips r = false ∧
         (jalr_pair_source r = true → link_made st st' s offset offset s) ∧
         (jalr_chain_source r = true →
          linked_insn r ≠ -1 ∧ link_made st st' s offset offset (linked_insn r)) ∧
         (jalr_pair_source r = false → jalr_chain_source r = false →
          links_kept st st')).
Proof.
  split.
  - intros offset reg mem_imm st st' E. unfold r_link_with_lui in E. cbv zeta in E.
    destruct (decide (0 ≤ offset)).
    + eapply r_link_with_lui_loop_links in E as [[P K]|(s & r & Hrange & Q)];
        [| |lia|unfold MAX_LOOKBACK; lia|intros k Hk; lia].
      * left. split; [|done]. intros k Hk. apply P. unfold MAX_LOOKBACK in *. lia.
      * right. exists s, r. split; [unfold MAX_LOOKBACK in *; lia|done].
    + replace (Z.to_nat _) with 0%nat in E by (unfold MAX_LOOKBACK; lia).
      injection E as <-. left. split; [|apply links_kept_refl].
      intros k Hk. lia.
  - intros offset st st' E. unfold r_link_with_jalr in E. cbv zeta in E.
    destruct (decide (0 ≤ offset)).
    + eapply r_link_with_jalr_loop_links in E
        as [[P K]|(s & r & Hrange & Pp & Hr & Hs & Hpair & Hchain & Hnone)];
        [| |lia|unfold MAX_LOOKBACK; lia|intros k Hk; lia].
      * left. split; [|done]. intros k Hk. apply P. unfold MAX_LOOKBACK in *. lia.
      * right. exists s, r. split; [unfold MAX_LOOKBACK in *; lia|].
        repeat (split; [done|]). split; [|done].
        intros Hc. split; [|by apply Hchain].
        unfold jalr_chain_source in Hc. apply andb_true_iff in Hc as [_ Hc].
        by apply bool_decide_eq_true_1 in Hc.
    + replace (Z.to_nat _) with 0%nat in E by (unfold MAX_LOOKBACK; lia).
      injection E as <-. left. split; [|apply links_kept_refl].
      intros k Hk. lia.
Qed.

(** *** Jump tables outside [.rodata] *)

Lemma sltiu_scan_first_read n j base st x :
  sltiu_scan (S n) j base st = Ok x → 0 ≤ base - j.
Proof.
  cbn [sltiu_scan]. intros E. ok_step E r Hr. by apply get_insn_in_range in Hr as [? _].
Qed.

(** When the pattern is found, the instructions it names lie inside the
    vector, below the [JR]. *)
Lemma jtbl_recognize_bounds i st jt :
  7 ≤ i →
  jtbl_recognize i st = Ok (Some jt) →
  i < vec_size (rinsns st) ∧
  5 ≤ jt_lw jt < i ∧ jt_lw jt - 2 ≤ jt_addu_index jt < jt_lw jt.
Proof.
  intros Hi E. unfold jtbl_recognize in E.
  ok_step E insn Hinsn. apply get_insn_in_range in Hinsn as [_ Hlt].
  ok_step E p Hp. cbv zeta in E.
  ok_step E n Hn. cbv zeta in E. ok_step E b Hb. cbv zeta in E.
  ok_step E l0 Hl0. cbv zeta in E. ok_step E l Hl.
  set (is_pic := has_id RABBITIZER_INSTR_ID_cpu_addu p
                 && bool_decide (RAB_INSTR_GET_rt (instruction p) = RABBITIZER_REG_GPR_O32_gp)) in *.
  set (has_nop := has_id RABBITIZER_INSTR_ID_cpu_nop n) in *.
  set (lw := if has_id RABBITIZER_INSTR_ID_cpu_lw l0
             then i - Z.b2z is_pic - Z.b2z has_nop - 1
             else i - Z.b2z is_pic - Z.b2z has_nop - 1 - 1) in *.
  assert (i - 4 ≤ lw < i) as Hlw.
  { subst lw. destruct is_pic, has_nop, (has_id RABBITIZER_INSTR_ID_cpu_lw l0);
      simpl; lia. }
  destruct (has_id RABBITIZER_INSTR_ID_cpu_lw l && bool_decide (linked_insn l ≠ -1));
    [|discriminate].
  ok_step E a0 Ha0. cbv zeta in E.
  set (addu_index := if has_id RABBITIZER_INSTR_ID_cpu_addu a0 then lw - 1 else lw - 1 - 1) in *.
  assert (lw - 2 ≤ addu_index < lw) as Haddu.
  { subst addu_index. destruct (has_id RABBITIZER_INSTR_ID_cpu_addu a0); lia. }
  ok_step E sl Hsl. cbv zeta in E. ok_step E a Ha.
  split_ifs E; try discriminate.
  ok_step E a3 Ha3. ok_step E andi_index Handi. cbv zeta in E.
  ok_step E sltiu_index Hscan.
  assert (5 ≤ lw) as Hlw5.
  { destruct (bool_decide (i = 368393));
      [change (Z.to_nat (18 - 4)) with (S 13) in Hscan
      |change (Z.to_nat (14 - 4)) with (S 9) in Hscan];
      apply sltiu_scan_first_read in Hscan;
      destruct (negb (has_id RABBITIZER_INSTR_ID_cpu_beqz b)); simpl in Hscan; lia. }
  cbv zeta in E. ok_step E s Hs.
  assert (jt_lw jt = lw ∧ jt_addu_index jt = addu_index) as [-> ->].
  { destruct s; [by injection E as <-|].
    split_ifs E; try discriminate; [ok_step E an Han| |]; by injection E as <-. }
  lia.
Qed.

(** Run one update of a computation whose index is inside the vector. *)
Ltac run_upd :=
  lazymatch goal with
  | |- (upd_insn ?k ?f ?st ≫= _) = _ =>
      let s := fresh "s" in let Hs := fresh "Hs" in let Hz := fresh "Hz" in
      destruct (upd_insn_total k f st) as (s & Hs & Hz); [lia|];
      rewrite Hs, bind_Ok_l; clear Hs
  | |- (get_insn ?st ?k ≫= _) = _ =>
      let r := fresh "r" in let Hr := fresh "Hr" in
      destruct (get_insn_total st k) as (r & Hr); [lia|];
      rewrite Hr, bind_Ok_l; clear Hr
  end.

Lemma jtbl_commit_outside_rodata rodata i jt st l :
  1 ≤ i < vec_size (rinsns st) →
  0 ≤ jt_lw jt < vec_size (rinsns st) →
  2 ≤ jt_addu_index jt < vec_size (rinsns st) →
  get_insn st (jt_lw jt) = Ok l →
  jtbl_outside_rodata elf (linked_value l) (jt_num_cases jt) = true →
  jtbl_commit elf rodata i jt st = Exit EXIT_FAILURE "jump table outside rodata
".
Proof.
  intros Hi Hlw Haddu Hl Hout. unfold jtbl_commit.
  rewrite Hl, bind_Ok_l. cbv zeta.
  assert (∀ (c : bool) k f (st : State) (g : State → Outcome State) r,
            0 ≤ k < vec_size (rinsns st) →
            (∀ st', vec_size (rinsns st') = vec_size (rinsns st) → g st' = r) →
            ((if c then upd_insn k f st else Ok st) ≫= g) = r) as Hif.
  { intros c k f st0 g r Hk Hg. destruct c.
    - destruct (upd_insn_total k f st0 Hk) as (s & -> & Hz). by apply Hg.
    - by apply Hg. }
  apply Hif; [lia|]. intros s0 Hz0.
  repeat run_upd.
  destruct (negb (jt_and_variant jt)).
  - destruct (get_insn_total s3 (jt_addu_index jt - 1)) as (sl & ->); [lia|].
    rewrite bind_Ok_l. run_upd. by rewrite Hout.
  - rewrite bind_Ok_l. by rewrite Hout.
Qed.

(** *** The loop of [r_pass1], cut at an index *)

Lemma r_pass1_loop_app n1 n2 i st :
  r_pass1_loop elf (n1 + n2) i st =
  (st' ← r_pass1_loop elf n1 i st; r_pass1_loop elf n2 (i + Z.of_nat n1) st').
Proof.
  revert i st. induction n1 as [|n1 IH]; intros i st.
  - simpl. by rewrite Z.add_0_r.
  - cbn [r_pass1_loop Nat.add]. destruct (r_pass1_step elf i st) as [s| | |]; try done.
    rewrite !bind_Ok_l, IH. by replace (i + 1 + Z.of_nat n1) with (i + Z.of_nat (S n1)) by lia.
Qed.

Lemma has_id_false id r :
  uniqueId (instruction r) ≠ id → has_id id r = false.
Proof. intros Hne. unfold has_id. by apply bool_decide_eq_false_2. Qed.

(** The loop body at a [JR] whose jump table was recognised outside
    [.rodata]. *)
Lemma r_pass1_step_outside_rodata i st insn rodata jt l :
  get_insn st i = Ok insn →
  uniqueId (instruction insn) = RABBITIZER_INSTR_ID_cpu_jr →
  RabbitizerInstrDescriptor_isJump (descriptor (instruction insn)) = true →
  rodata_section elf = Some rodata →
  7 ≤ i →
  jtbl_recognize i st = Ok (Some jt) →
  get_insn st (jt_lw jt) = Ok l →
  jtbl_outside_rodata elf (linked_value l) (jt_num_cases jt) = true →
  r_pass1_step elf i st = Exit EXIT_FAILURE "jump table outside rodata
".
Proof.
  intros Hinsn Hid Hjump Hro Hi Hrec Hl Hout.
  pose proof (jtbl_recognize_bounds _ _ _ Hi Hrec) as (B1 & B2 & B3).
  unfold r_pass1_step. rewrite Hinsn, bind_Ok_l.
  rewrite (has_id_false RABBITIZER_INSTR_ID_cpu_bgezal insn) by (rewrite Hid; discriminate).
  rewrite andb_false_l, bind_Ok_l, Hinsn, bind_Ok_l, Hjump, Hid.
  cbv iota. unfold r_pass1_jr. rewrite Hro, (bool_decide_eq_true_2 (7 ≤ i) Hi).
  rewrite Hrec, bind_Ok_l.
  rewrite (jtbl_commit_outside_rodata rodata i jt st l) by (done || lia).
  reflexivity.
Qed.

(** C9. When the loop of [r_pass1] reaches a [JR] at index [i] whose jump
    table is recognised ([jtbl_recognize] finds it, at the address
    [rinsns[lw].linked_value] with [num_cases] entries), and the table
    starts below [.rodata] or its [num_cases] 32-bit entries run past the end
    of [.rodata], the pass exits with the diagnostic
    "jump table outside rodata" and the status [EXIT_FAILURE], which is not
    zero; the process ends there, before the lowering has written anything
    to standard output. *)
Theorem jump_table_outside_rodata_is_fatal
    (r_pass2 : State → Outcome State) (r_dump_c : State → string * Outcome unit)
    (st0 st : State) (i : Z) (insn l : RInsn) (rodata : list Z) (jt : JumpTable) :
  i < vec_size (rinsns st0) →
  r_pass1_loop elf (Z.to_nat i) 0 st0 = Ok st →
  get_insn st i = Ok insn →
  uniqueId (instruction insn) = RABBITIZER_INSTR_ID_cpu_jr →
  RabbitizerInstrDescriptor_isJump (descriptor (instruction insn)) = true →
  rodata_section elf = Some rodata →
  7 ≤ i →
  jtbl_recognize i st = Ok (Some jt) →
  get_insn st (jt_lw jt) = Ok l →
  0 ≤ rodata_vaddr elf + rodata_section_len elf →
  linked_value l < rodata_vaddr elf
  ∨ rodata_vaddr elf + rodata_section_len elf < linked_value l + jt_num_cases jt * 4 →
  r_pass1 elf st0 = Exit EXIT_FAILURE "jump table outside rodata
"
  ∧ EXIT_FAILURE ≠ 0
  ∧ main elf r_pass2 r_dump_c st0 = ("", Exit EXIT_FAILURE "jump table outside rodata
").
Proof.
  intros Hlt Hloop Hinsn Hid Hjump Hro Hi Hrec Hl Hend Hout.
  assert (jtbl_outside_rodata elf (linked_value l) (jt_num_cases jt) = true) as Hb.
  { unfold jtbl_outside_rodata. apply orb_true_iff.
    destruct Hout as [Hout|Hout]; [left|right]; apply bool_decide_eq_true_2; [done|].
    unfold u32. pose proof (Z.mod_le (rodata_vaddr elf + rodata_section_len elf) (2 ^ 32)).
    lia. }
  pose proof (r_pass1_step_outside_rodata _ _ _ _ _ _ Hinsn Hid Hjump Hro Hi Hrec Hl Hb)
    as Hstep.
  assert (r_pass1 elf st0 = Exit EXIT_FAILURE "jump table outside rodata
") as Hpass.
  { unfold r_pass1, vec_size in *.
    replace (length (rinsns st0))
      with (Z.to_nat i + S (length (rinsns st0) - Z.to_nat i - 1))%nat by lia.
    rewrite r_pass1_loop_app, Hloop, bind_Ok_l. cbn [r_pass1_loop].
    rewrite Z.add_0_l, Z2Nat.id by lia. by rewrite Hstep. }
  split; [exact Hpass|]. split; [done|].
  unfold main, analysis_passes. by rewrite Hpass.
Qed.

End Resolver.

(** ** CFG construction *)

Section CFG.
Context `{Rabbitizer}.
Variable elf : Elf.

Lemma r_add_edge_lookup from to a b c d st st' (j : nat) :
  r_add_edge from to a b c d st = Ok st' →
  rinsns st' !! j = with_edge from to a b c d j <$> rinsns st !! j.
Proof.
  unfold r_add_edge. intros E. ok_inv E.
  rewrite (upd_insn_lookup _ _ _ _ j E), (upd_insn_lookup _ _ _ _ j Hx).
  unfold with_edge. destruct (rinsns st !! j); reflexivity.
Qed.

Lemma r_add_edge_in_range from to a b c d st st' :
  r_add_edge from to a b c d st = Ok st' →
  0 ≤ from < vec_size (rinsns st) ∧ 0 ≤ to < vec_size (rinsns st).
Proof.
  unfold r_add_edge. intros E. ok_inv E.
  pose proof (upd_insn_in_range _ _ _ _ Hx).
  pose proof (upd_insn_in_range _ _ _ _ E) as Hto.
  unfold vec_size in *. rewrite (upd_insn_length _ _ _ _ Hx) in Hto. lia.
Qed.

Lemma r_add_edge_length from to a b c d st st' :
  r_add_edge from to a b c d st = Ok st' → length (rinsns st') = length (rinsns st).
Proof.
  unfold r_add_edge. intros E. ok_inv E.
  rewrite (upd_insn_length _ _ _ _ E). by apply upd_insn_length in Hx.
Qed.

Lemma r_add_edge_functions from to a b c d st st' :
  r_add_edge from to a b c d st = Ok st' → functions st' = functions st.
Proof.
  unfold r_add_edge. intros E. ok_inv E.
  rewrite (upd_insn_functions _ _ _ _ E). by apply upd_insn_functions in Hx.
Qed.

(** [r_add_edge] appends exactly one successor entry and one predecessor
    entry, with the same four tags. *)
Lemma r_add_edge_appends from to a b c d st st' :
  r_add_edge from to a b c d st = Ok st' →
  ∃ rf rt rf' rt',
    rinsns st !! Z.to_nat from = Some rf ∧ rinsns st !! Z.to_nat to = Some rt ∧
    rinsns st' !! Z.to_nat from = Some rf' ∧ rinsns st' !! Z.to_nat to = Some rt' ∧
    successors rf' = successors rf ++ [mkEdge to a b c d] ∧
    predecessors rt' = predecessors rt ++ [mkEdge from a b c d].
Proof.
  intros E. pose proof (r_add_edge_in_range _ _ _ _ _ _ _ _ E) as [Hf Ht].
  unfold vec_size in *.
  destruct (lookup_lt_is_Some_2 (rinsns st) (Z.to_nat from)) as [rf Hrf]; [lia|].
  destruct (lookup_lt_is_Some_2 (rinsns st) (Z.to_nat to)) as [rt Hrt]; [lia|].
  exists rf, rt.
  rewrite (r_add_edge_lookup _ _ _ _ _ _ _ _ (Z.to_nat from) E), Hrf.
  rewrite (r_add_edge_lookup _ _ _ _ _ _ _ _ (Z.to_nat to) E), Hrt. simpl.
  eexists _, _. repeat split; try reflexivity.
  - unfold with_edge. rewrite !Z2Nat.id by lia.
    destruct (decide (from = from)); [|done]. by destruct (decide (from = to)).
  - unfold with_edge. rewrite !Z2Nat.id by lia.
    destruct (decide (to = to)); [|done]. by destruct (decide (to = from)).
Qed.

Lemma successors_with_edge from to a b c d j r :
  successors (with_edge from to a b c d j r) =
  successors r ++ (if decide (Z.of_nat j = from) then [mkEdge to a b c d] else []).
Proof.
  unfold with_edge.
  destruct (decide (Z.of_nat j = from)), (decide (Z.of_nat j = to));
    simpl; by rewrite ?app_nil_r.
Qed.

Lemma predecessors_with_edge from to a b c d j r :
  predecessors (with_edge from to a b c d j r) =
  predecessors r ++ (if decide (Z.of_nat j = to) then [mkEdge from a b c d] else []).
Proof.
  unfold with_edge.
  destruct (decide (Z.of_nat j = from)), (decide (Z.of_nat j = to));
    simpl; by rewrite ?app_nil_r.
Qed.

Lemma no_following_successor_with_edge from to a b c d j r :
  no_following_successor (with_edge from to a b c d j r) = no_following_successor r.
Proof.
  unfold with_edge.
  by destruct (decide (Z.of_nat j = from)), (decide (Z.of_nat j = to)).
Qed.

Lemma edge_count_singleton (e e' : Edge) :
  edge_count e [e'] = if decide (e' = e) then 1%nat else 0%nat.
Proof.
  unfold edge_count. cbn [count_occ].
  destruct (Edge_eq_dec e' e), (decide (e' = e)); done.
Qed.

Lemma r_add_edge_mirror from to a b c d st st' :
  r_add_edge from to a b c d st = Ok st' →
  edges_mirror (rinsns st) → edges_mirror (rinsns st').
Proof.
  intros E M i j ri rj a' b' c' d' Hi Hj.
  rewrite (r_add_edge_lookup _ _ _ _ _ _ _ _ i E) in Hi.
  rewrite (r_add_edge_lookup _ _ _ _ _ _ _ _ j E) in Hj.
  destruct (rinsns st !! i) as [ri0|] eqn:Ei; [|discriminate].
  destruct (rinsns st !! j) as [rj0|] eqn:Ej; [|discriminate].
  injection Hi as <-. injection Hj as <-.
  rewrite successors_with_edge, predecessors_with_edge.
  specialize (M i j ri0 rj0 a' b' c' d' Ei Ej).
  unfold edge_count in *. rewrite !count_occ_app, M. f_equal.
  fold (edge_count (mkEdge (Z.of_nat j) a' b' c' d')
          (if decide (Z.of_nat i = from) then [mkEdge to a b c d] else [])).
  fold (edge_count (mkEdge (Z.of_nat i) a' b' c' d')
          (if decide (Z.of_nat j = to) then [mkEdge from a b c d] else [])).
  destruct (decide (Z.of_nat i = from)) as [Hf|Hf],
           (decide (Z.of_nat j = to)) as [Ht|Ht];
    rewrite ?edge_count_singleton; try reflexivity;
    repeat case_decide; try reflexivity; exfalso; congruence.
Qed.

Lemma r_add_edge_edges_in_range from to a b c d st st' :
  r_add_edge from to a b c d st = Ok st' →
  edges_in_range (rinsns st) → edges_in_range (rinsns st').
Proof.
  intros E R i ri e Hi He.
  pose proof (r_add_edge_in_range _ _ _ _ _ _ _ _ E) as [Hf Ht].
  unfold vec_size in *. rewrite (r_add_edge_length _ _ _ _ _ _ _ _ E).
  rewrite (r_add_edge_lookup _ _ _ _ _ _ _ _ _ E) in Hi.
  destruct (rinsns st !! i) as [ri0|] eqn:Ei; [|discriminate]. injection Hi as <-.
  rewrite successors_with_edge, predecessors_with_edge in He.
  rewrite !elem_of_app in He.
  destruct He as [[He|He]|[He|He]].
  - apply (R i ri0 e Ei). by left.
  - destruct (decide (Z.of_nat i = from)); [|by apply elem_of_nil in He].
    apply list_elem_of_singleton in He as ->. simpl. lia.
  - apply (R i ri0 e Ei). by right.
  - destruct (decide (Z.of_nat i = to)); [|by apply elem_of_nil in He].
    apply list_elem_of_singleton in He as ->. simpl. lia.
Qed.

Lemma cfg_edits_trans i s1 s2 s3 :
  cfg_edits i s1 s2 → cfg_edits i s2 s3 → cfg_edits i s1 s3.
Proof.
  induction 1; intros; eauto using cfg_edits.
Qed.

Lemma cfg_edits_one_edge i s s' from to a b c d :
  r_add_edge from to a b c d s = Ok s' → cfg_edits i s s'.
Proof. eauto using cfg_edits. Qed.

Lemma cfg_edits_one_mark i s s' :
  mark_delay_slot i s = Ok s' → cfg_edits i s s'.
Proof. eauto using cfg_edits. Qed.

Lemma jtbl_edges_edits rodata pos n j i st st' :
  jtbl_edges elf rodata pos n j i st = Ok st' → cfg_edits i st st'.
Proof.
  revert j st. induction n as [|n IH]; simpl; intros j st E.
  - ok_inv E. constructor.
  - ok_inv E. eauto using cfg_edits.
Qed.

Lemma return_edges_edits rets i st st' :
  return_edges elf rets i st = Ok st' → cfg_edits i st st'.
Proof.
  revert st. induction rets as [|r rets IH]; simpl; intros st E.
  - ok_inv E. constructor.
  - ok_inv E. eauto using cfg_edits.
Qed.

#[local] Hint Resolve cfg_edits_one_edge cfg_edits_one_mark cfg_edits_done
  jtbl_edges_edits return_edges_edits : cfg.
#[local] Hint Extern 3 (cfg_edits _ _ _) => eapply cfg_edits_trans : cfg.

(** The two ways through the loop body: an instruction with
    [no_following_successor] is skipped; any other gets its fallthrough edge
    first, then the edits of its opcode class. *)
Lemma r_pass3_step_cases i st st' :
  r_pass3_step elf i st = Ok st' →
  ∃ insn, get_insn st i = Ok insn ∧
    ((no_following_successor insn = true ∧ st' = st) ∨
     (no_following_successor insn = false ∧
      ∃ st1, r_add_edge i (i + 1) false false false false st = Ok st1
             ∧ cfg_edits i st1 st')).
Proof.
  unfold r_pass3_step. intros E. apply bind_Ok in E as (insn & Hi & E).
  exists insn. split; [done|].
  destruct (no_following_successor insn); [left; by ok_inv E|right].
  split; [done|].
  destruct (uniqueId (instruction insn));
    (ok_step E st1 H1 || (exists st'; split; [exact E|constructor]));
    exists st1; (split; [exact H1|]);
    try (ok_inv E; eauto 6 using cfg_edits; fail).
  - (* jal *)
    ok_step E st2 H2.
    eapply cfg_edits_trans; [|eapply cfg_edits_one_mark, E].
    destruct (bool_decide (mcount_addr elf < jal_dest insn) && in_text elf (jal_dest insn)).
    + ok_step H2 st3 H3.
      destruct (functions st3 !! jal_dest insn); [|discriminate].
      eapply cfg_edits_edge; [exact H3|]. eapply return_edges_edits, H2.
    + eauto with cfg.
  - (* jr *)
    ok_step E st2 H2.
    eapply cfg_edits_trans; [|eapply cfg_edits_one_mark, E].
    repeat case_match; try discriminate; ok_inv H2; eauto with cfg.
Qed.

Lemma mark_delay_slot_lookup i st st' (j : nat) :
  mark_delay_slot i st = Ok st' →
  rinsns st' !! j =
    (λ r, if decide (Z.of_nat j = i + 1) then set_no_following_successor true r else r)
      <$> rinsns st !! j.
Proof. apply upd_insn_lookup. Qed.

(** *** Edits preserve the mirror invariant *)

Lemma mark_delay_slot_mirror i st st' :
  mark_delay_slot i st = Ok st' →
  edges_mirror (rinsns st) → edges_mirror (rinsns st').
Proof.
  intros E M j k rj rk a b c d Hj Hk.
  rewrite (mark_delay_slot_lookup _ _ _ j E) in Hj.
  rewrite (mark_delay_slot_lookup _ _ _ k E) in Hk.
  destruct (rinsns st !! j) as [rj0|] eqn:Ej; [|discriminate].
  destruct (rinsns st !! k) as [rk0|] eqn:Ek; [|discriminate].
  injection Hj as <-. injection Hk as <-.
  specialize (M j k rj0 rk0 a b c d Ej Ek).
  by destruct (decide (Z.of_nat j = i + 1)), (decide (Z.of_nat k = i + 1)).
Qed.

Lemma mark_delay_slot_edges_in_range i st st' :
  mark_delay_slot i st = Ok st' →
  edges_in_range (rinsns st) → edges_in_range (rinsns st').
Proof.
  intros E R j rj e Hj He. unfold vec_size.
  rewrite (upd_insn_length _ _ _ _ E).
  rewrite (mark_delay_slot_lookup _ _ _ j E) in Hj.
  destruct (rinsns st !! j) as [rj0|] eqn:Ej; [|discriminate]. injection Hj as <-.
  apply (R j rj0 e Ej). by destruct (decide (Z.of_nat j = i + 1)).
Qed.

Lemma cfg_edits_mirror i st st' :
  cfg_edits i st st' →
  edges_mirror (rinsns st) ∧ edges_in_range (rinsns st) →
  edges_mirror (rinsns st') ∧ edges_in_range (rinsns st').
Proof.
  induction 1 as [|s s1 s' from to a b c d E _ IH|s s1 s' E _ IH]; intros [M R].
  - done.
  - apply IH. eauto using r_add_edge_mirror, r_add_edge_edges_in_range.
  - apply IH. eauto using mark_delay_slot_mirror, mark_delay_slot_edges_in_range.
Qed.

Lemma r_pass3_step_mirror i st st' :
  r_pass3_step elf i st = Ok st' →
  edges_mirror (rinsns st) ∧ edges_in_range (rinsns st) →
  edges_mirror (rinsns st') ∧ edges_in_range (rinsns st').
Proof.
  intros E MR. apply r_pass3_step_cases in E as (insn & _ & [[_ ->]|(_ & st1 & E1 & E2)]).
  - done.
  - eapply cfg_edits_mirror; [exact E2|].
    destruct MR. eauto using r_add_edge_mirror, r_add_edge_edges_in_range.
Qed.

Lemma r_pass3_loop_mirror n i st st' :
  r_pass3_loop elf n i st = Ok st' →
  edges_mirror (rinsns st) ∧ edges_in_range (rinsns st) →
  edges_mirror (rinsns st') ∧ edges_in_range (rinsns st').
Proof.
  revert i st. induction n as [|n IH]; simpl; intros i st E MR.
  - by ok_inv E.
  - ok_inv E. eauto using r_pass3_step_mirror.
Qed.

(** *** Edits only append edges and only mark the delay slot *)

Lemma cfg_grows_refl i st : cfg_grows i st st.
Proof.
  split; [done|]. intros j rj Hj. exists rj. repeat split; try done.
  exists []. by rewrite app_nil_r.
Qed.

Lemma cfg_grows_trans i s1 s2 s3 :
  cfg_grows i s1 s2 → cfg_grows i s2 s3 → cfg_grows i s1 s3.
Proof.
  intros [L1 G1] [L2 G2]. split; [congruence|].
  intros j rj Hj.
  destruct (G1 j rj Hj) as (r2 & H2 & [e1 S1] & N1 & T1 & I1).
  destruct (G2 j r2 H2) as (r3 & H3 & [e2 S2] & N2 & T2 & I2).
  exists r3. split; [done|]. repeat split.
  - exists (e1 ++ e2). by rewrite S2, S1, app_assoc.
  - intros Hne. by rewrite N2, N1.
  - auto.
  - congruence.
Qed.

Lemma r_add_edge_grows i from to a b c d st st' :
  r_add_edge from to a b c d st = Ok st' → cfg_grows i st st'.
Proof.
  intros E. split; [by eapply r_add_edge_length|].
  intros j rj Hj. rewrite (r_add_edge_lookup _ _ _ _ _ _ _ _ j E), Hj. simpl.
  eexists. split; [reflexivity|]. rewrite successors_with_edge.
  rewrite no_following_successor_with_edge. repeat split; eauto.
  unfold with_edge. by destruct (decide (Z.of_nat j = from)), (decide (Z.of_nat j = to)).
Qed.

Lemma mark_delay_slot_grows i st st' :
  mark_delay_slot i st = Ok st' → cfg_grows i st st'.
Proof.
  intros E. split; [by eapply upd_insn_length|].
  intros j rj Hj. rewrite (mark_delay_slot_lookup _ _ _ j E), Hj. simpl.
  eexists. split; [reflexivity|].
  destruct (decide (Z.of_nat j = i + 1)); simpl; repeat split; try done;
    exists []; by rewrite app_nil_r.
Qed.

Lemma cfg_edits_grows i st st' : cfg_edits i st st' → cfg_grows i st st'.
Proof.
  induction 1; eauto using cfg_grows_refl, cfg_grows_trans,
    r_add_edge_grows, mark_delay_slot_grows.
Qed.

Lemma r_pass3_step_grows i st st' :
  r_pass3_step elf i st = Ok st' → cfg_grows i st st'.
Proof.
  intros E. apply r_pass3_step_cases in E as (insn & _ & [[_ ->]|(_ & st1 & E1 & E2)]).
  - apply cfg_grows_refl.
  - eauto using cfg_grows_trans, r_add_edge_grows, cfg_edits_grows.
Qed.

Lemma r_pass3_loop_length n i st st' :
  r_pass3_loop elf n i st = Ok st' → length (rinsns st') = length (rinsns st).
Proof.
  revert i st. induction n as [|n IH]; simpl; intros i st E.
  - by ok_inv E.
  - ok_inv E. rewrite (IH _ _ E). by apply r_pass3_step_grows in Hx as [? _].
Qed.

(** *** Fallthrough edges *)

Lemma r_pass3_step_fallthrough i st st' :
  r_pass3_step elf i st = Ok st' →
  fallthrough_below i st → fallthrough_below (i + 1) st'.
Proof.
  intros E F j rj' Hlt Hj' Hn.
  pose proof (r_pass3_step_grows _ _ _ E) as [L G].
  destruct (lookup_lt_is_Some_2 (rinsns st) j) as [rj Hj].
  { rewrite <- L. by eapply lookup_lt_Some. }
  destruct (G j rj Hj) as (rj2 & Hj2 & [ext S] & N & T & _).
  rewrite Hj' in Hj2. injection Hj2 as <-.
  assert (Hn0 : no_following_successor rj = false).
  { destruct (no_following_successor rj); [|done]. rewrite T in Hn; done. }
  destruct (decide (Z.of_nat j < i)) as [Hlt'|Hge].
  - rewrite S. apply elem_of_app. left. eauto.
  - assert (Z.of_nat j = i) as Hji by lia.
    apply r_pass3_step_cases in E as (insn & Hi & [[Ht _]|(_ & st1 & E1 & E2)]).
    + apply vec_get_Ok in Hi as [_ Hi]. rewrite <- Hji, Nat2Z.id, Hj in Hi.
      injection Hi as <-. congruence.
    + apply cfg_edits_grows in E2 as [_ G2].
      pose proof (r_add_edge_lookup _ _ _ _ _ _ _ _ j E1) as H1. rewrite Hj in H1.
      simpl in H1. destruct (G2 j _ H1) as (r2 & Hr2 & [ext2 S2] & _).
      rewrite Hj' in Hr2. injection Hr2 as <-.
      rewrite S2, successors_with_edge.
      destruct (decide (Z.of_nat j = i)); [|done].
      apply elem_of_app. left. apply elem_of_app. right.
      apply list_elem_of_singleton. unfold fallthrough. by rewrite Hji.
Qed.

Lemma r_pass3_loop_fallthrough n i st st' :
  r_pass3_loop elf n i st = Ok st' →
  fallthrough_below i st → fallthrough_below (i + Z.of_nat n) st'.
Proof.
  revert i st. induction n as [|n IH]; simpl; intros i st E F.
  - ok_inv E. by rewrite Z.add_0_r.
  - ok_inv E. replace (i + Z.of_nat (S n)) with (i + 1 + Z.of_nat n) by lia.
    eapply IH; [exact E|]. eapply r_pass3_step_fallthrough; [exact Hx|exact F].
Qed.

(** *** The edges of a call *)

Lemma succs_added_cons e es j :
  succs_added (e :: es) j =
  (if decide (ne_from e = j)
   then [mkEdge (ne_to e) (ne_entry e) (ne_exit e) (ne_extern e) (ne_pointer e)] else [])
  ++ succs_added es j.
Proof. unfold succs_added. rewrite filter_cons. by case_decide. Qed.

Lemma preds_added_cons e es j :
  preds_added (e :: es) j =
  (if decide (ne_to e = j)
   then [mkEdge (ne_from e) (ne_entry e) (ne_exit e) (ne_extern e) (ne_pointer e)] else [])
  ++ preds_added es j.
Proof. unfold preds_added. rewrite filter_cons. by case_decide. Qed.

Lemma add_edges_lookup es st st' (j : nat) rj :
  add_edges es st = Ok st' →
  rinsns st !! j = Some rj →
  ∃ rj', rinsns st' !! j = Some rj'
    ∧ successors rj' = successors rj ++ succs_added es (Z.of_nat j)
    ∧ predecessors rj' = predecessors rj ++ preds_added es (Z.of_nat j)
    ∧ no_following_successor rj' = no_following_successor rj.
Proof.
  revert st rj. induction es as [|e es IH]; simpl; intros st rj E Hj.
  - ok_inv E. exists rj. by rewrite !app_nil_r.
  - ok_inv E.
    pose proof (r_add_edge_lookup _ _ _ _ _ _ _ _ j Hx) as H1. rewrite Hj in H1.
    destruct (IH _ _ E H1) as (rj' & Hj' & S & P & N).
    exists rj'. split; [done|].
    rewrite S, P, N, successors_with_edge, predecessors_with_edge,
      no_following_successor_with_edge, succs_added_cons, preds_added_cons.
    rewrite <- !app_assoc. repeat split; repeat case_decide; congruence.
Qed.

Lemma return_edges_add_edges rets i st :
  return_edges elf rets i st =
  add_edges ((λ ret, mkNewEdge (addr_to_i elf ret) (i + 2) false true false false) <$> rets) st.
Proof.
  revert st. induction rets as [|r rets IH]; simpl; intros st; [done|].
  destruct (r_add_edge _ _ _ _ _ _ st); simpl; auto.
Qed.

Lemma add_edges_functions es st st' :
  add_edges es st = Ok st' → functions st' = functions st.
Proof.
  revert st. induction es as [|e es IH]; simpl; intros st E; ok_inv E; [done|].
  rewrite (IH _ E). by eapply r_add_edge_functions.
Qed.

(** The [JAL] case of the loop body adds the edges of [jal_edges], in
    order, and marks the delay slot. *)
Lemma r_pass3_step_jal i st st' insn :
  get_insn st i = Ok insn →
  uniqueId (instruction insn) = RABBITIZER_INSTR_ID_cpu_jal →
  no_following_successor insn = false →
  r_pass3_step elf i st = Ok st' →
  ∃ st2, add_edges (jal_edges elf i (jal_dest insn) (callee_returns st (jal_dest insn))) st
           = Ok st2
         ∧ mark_delay_slot i st2 = Ok st'.
Proof.
  intros Hi Hid Hn E. unfold r_pass3_step in E.
  apply bind_Ok in E as (insn' & Hi' & E). rewrite Hi in Hi'. injection Hi' as <-.
  rewrite Hn, Hid in E. cbv beta iota in E. ok_step E st1 H1. ok_step E st2 H2.
  exists st2. split; [|exact E].
  unfold jal_edges. cbn [add_edges ne_from ne_to ne_entry ne_exit ne_extern ne_pointer].
  rewrite H1. simpl.
  destruct (bool_decide (mcount_addr elf < jal_dest insn) && in_text elf (jal_dest insn)).
  - ok_step H2 st3 H3. cbn [add_edges ne_from ne_to ne_entry ne_exit ne_extern ne_pointer].
    rewrite H3. simpl. unfold callee_returns.
    rewrite <- (r_add_edge_functions _ _ _ _ _ _ _ _ H1),
            <- (r_add_edge_functions _ _ _ _ _ _ _ _ H3).
    destruct (functions st3 !! jal_dest insn); [|discriminate].
    by rewrite <- return_edges_add_edges.
  - cbn [add_edges ne_from ne_to ne_entry ne_exit ne_extern ne_pointer].
    rewrite H2. done.
Qed.

(** *** The claims about the CFG *)

(** C7, amended. For a [JAL] at index [i] that the loop does not skip (its
    own [no_following_successor] flag is false when the loop reaches it), the
    loop body adds these edges and no other: [i → i + 1]; then, when the
    target is above [mcount_addr] and inside [.text], [i + 1 → target]
    tagged [function_entry] and, for each return of the target function,
    [return → i + 2] tagged [function_exit]; otherwise the single edge
    [i + 1 → i + 2] tagged [extern_function]. Each edge is mirrored in the
    predecessors, and the delay slot [i + 1] is marked
    [no_following_successor]; no other flag changes. *)
Theorem r_pass3_jal_edges (i : Z) (st st' : State) (insn : RInsn) :
  get_insn st i = Ok insn →
  uniqueId (instruction insn) = RABBITIZER_INSTR_ID_cpu_jal →
  no_following_successor insn = false →
  r_pass3_step elf i st = Ok st' →
  let es := jal_edges elf i (jal_dest insn) (callee_returns st (jal_dest insn)) in
  ∀ (j : nat) (rj : RInsn),
    rinsns st !! j = Some rj →
    ∃ rj', rinsns st' !! j = Some rj'
      ∧ successors rj' = successors rj ++ succs_added es (Z.of_nat j)
      ∧ predecessors rj' = predecessors rj ++ preds_added es (Z.of_nat j)
      ∧ no_following_successor rj' =
          (no_following_successor rj || bool_decide (Z.of_nat j = i + 1)).
Proof.
  intros Hi Hid Hn E es j rj Hj.
  destruct (r_pass3_step_jal _ _ _ _ Hi Hid Hn E) as (st2 & E2 & Em).
  destruct (add_edges_lookup _ _ _ _ _ E2 Hj) as (r2 & H2 & S & P & N).
  rewrite (mark_delay_slot_lookup _ _ _ j Em), H2. simpl.
  eexists. split; [reflexivity|].
  case_decide; rewrite ?bool_decide_eq_true_2, ?bool_decide_eq_false_2 by done; simpl;
    rewrite ?orb_true_r, ?orb_false_r; auto.
Qed.

(** Over the whole loop every record stays in its place, with its
    instruction, and its successor list is only extended. *)
Lemma r_pass3_loop_keeps n i st st' :
  r_pass3_loop elf n i st = Ok st' →
  ∀ (j : nat) rj, rinsns st !! j = Some rj →
    ∃ rj', rinsns st' !! j = Some rj' ∧ instruction rj' = instruction rj ∧
      ∃ ext, successors rj' = successors rj ++ ext.
Proof.
  revert i st. induction n as [|n IH]; simpl; intros i st E j rj Hj.
  - ok_inv E. exists rj. split; [done|]. split; [done|]. exists []. by rewrite app_nil_r.
  - ok_inv E. apply r_pass3_step_grows in Hx as [_ G].
    destruct (G j rj Hj) as (r1 & Hj1 & [e1 S1] & _ & _ & I1).
    destruct (IH _ _ E j r1 Hj1) as (r2 & Hj2 & I2 & [e2 S2]).
    exists r2. split; [done|]. split; [congruence|].
    exists (e1 ++ e2). by rewrite S2, S1, app_assoc.
Qed.

(** C8. [r_pass3] keeps the instruction vector in place (the same number
    of records, each with its instruction, its successor list only
    extended), and after it every instruction index [i] whose
    [no_following_successor] flag is false has the fallthrough edge to
    [i + 1] among its successors, whatever its opcode. *)
Theorem r_pass3_fallthrough_edges (st st' : State) :
  r_pass3 elf st = Ok st' →
  length (rinsns st') = length (rinsns st) ∧
  (∀ (i : nat) (r : RInsn),
     rinsns st !! i = Some r →
     ∃ ri, rinsns st' !! i = Some ri ∧ instruction ri = instruction r ∧
       ∃ ext, successors ri = successors r ++ ext) ∧
  ∀ (i : nat) (ri : RInsn),
    rinsns st' !! i = Some ri →
    no_following_successor ri = false →
    mkEdge (Z.of_nat i + 1) false false false false ∈ successors ri.
Proof.
  unfold r_pass3. intros E.
  pose proof (r_pass3_loop_length _ _ _ _ E) as L.
  split; [exact L|]. split; [exact (r_pass3_loop_keeps _ _ _ _ E)|].
  intros i ri Hi Hn.
  eapply (r_pass3_loop_fallthrough _ _ _ _ E); [| |exact Hi|exact Hn].
  - intros j rj Hj. lia.
  - apply lookup_lt_Some in Hi. lia.
Qed.

(** [r_add_edge] appends one successor entry and one predecessor entry
    with the same tags, and after [r_pass3], run on a vector without edges,
    the two lists are exact mirrors, with every edge inside the vector. *)
Lemma r_pass3_mirror_lists (st st' : State) :
  (∀ r, r ∈ rinsns st → successors r = [] ∧ predecessors r = []) →
  r_pass3 elf st = Ok st' →
  (∀ from to a b c d s s',
     r_add_edge from to a b c d s = Ok s' →
     ∃ rf rt rf' rt',
       rinsns s !! Z.to_nat from = Some rf ∧ rinsns s !! Z.to_nat to = Some rt ∧
       rinsns s' !! Z.to_nat from = Some rf' ∧ rinsns s' !! Z.to_nat to = Some rt' ∧
       successors rf' = successors rf ++ [mkEdge to a b c d] ∧
       predecessors rt' = predecessors rt ++ [mkEdge from a b c d]) ∧
  (∀ (i j : nat) ri rj a b c d,
     rinsns st' !! i = Some ri → rinsns st' !! j = Some rj →
     edge_count (mkEdge (Z.of_nat j) a b c d) (successors ri)
       = edge_count (mkEdge (Z.of_nat i) a b c d) (predecessors rj)
     ∧ (mkEdge (Z.of_nat j) a b c d ∈ successors ri
        ↔ mkEdge (Z.of_nat i) a b c d ∈ predecessors rj)) ∧
  (∀ (i : nat) ri e,
     rinsns st' !! i = Some ri → e ∈ successors ri ∨ e ∈ predecessors ri →
     0 ≤ edge_i e < vec_size (rinsns st')).
Proof.
  intros Hempty E. split; [|].
  { intros. by eapply r_add_edge_appends. }
  assert (edges_mirror (rinsns st) ∧ edges_in_range (rinsns st)) as MR.
  { split.
    - intros i j ri rj a b c d Hi Hj.
      destruct (Hempty ri) as [-> _]; [by eapply list_elem_of_lookup_2|].
      destruct (Hempty rj) as [_ ->]; [by eapply list_elem_of_lookup_2|]. done.
    - intros i ri e Hi He.
      destruct (Hempty ri) as [Hs Hp]; [by eapply list_elem_of_lookup_2|].
      rewrite Hs, Hp in He. destruct He as [He|He]; by apply elem_of_nil in He. }
  apply (r_pass3_loop_mirror _ _ _ _ E) in MR as [M R].
  split; [|exact R].
  intros i j ri rj a b c d Hi Hj.
  pose proof (M i j ri rj a b c d Hi Hj) as Hc. split; [exact Hc|].
  unfold edge_count in Hc.
  rewrite !list_elem_of_In, !(count_occ_In Edge_eq_dec), Hc. done.
Qed.

End CFG.

(** ** Liveness: bits and weights *)

Lemma mask64_lor a b : mask64 a → mask64 b → mask64 (Z.lor a b).
Proof. intros Ha Hb k Hk. by rewrite Z.lor_spec, Ha, Hb. Qed.

Lemma mask64_land_l a b : mask64 a → mask64 (Z.land a b).
Proof. intros Ha k Hk. by rewrite Z.land_spec, Ha. Qed.

Lemma mask64_clear_bits a m : mask64 a → mask64 (clear_bits a m).
Proof. apply mask64_land_l. Qed.

Lemma mask64_0 : mask64 0.
Proof. intros k _. apply Z.bits_0. Qed.

Lemma mask64_of_range x : 0 ≤ x < 2 ^ 64 → mask64 x.
Proof.
  intros [H0 H1] k Hk. destruct (decide (x = 0)) as [->|Hne]; [apply Z.bits_0|].
  apply Z.bits_above_log2; [done|].
  assert (Z.log2 x < 64) by (apply Z.log2_lt_pow2; lia). lia.
Qed.

Lemma mask64_r_map_reg reg : 0 ≤ reg ≤ 33 → mask64 (r_map_reg reg).
Proof.
  intros Hr k Hk. unfold r_map_reg, RABBITIZER_REG_GPR_O32_zero.
  rewrite Z.shiftl_1_l. apply Z.pow2_bits_false. lia.
Qed.

Lemma reg_field_range w s : 0 ≤ Z.land (Z.shiftr w s) 31 ≤ 33.
Proof.
  change 31 with (Z.ones 5). rewrite Z.land_ones by lia.
  pose proof (Z.mod_pos_bound (Z.shiftr w s) (2 ^ 5)). lia.
Qed.

Lemma mask_subset_lor a b : mask_subset a (Z.lor a b).
Proof. unfold mask_subset. by rewrite Z.lor_assoc, Z.lor_diag. Qed.

Lemma mask_subset_lor_r a b : mask_subset a (Z.lor b a).
Proof. rewrite Z.lor_comm. apply mask_subset_lor. Qed.

Lemma mask_subset_refl a : mask_subset a a.
Proof. apply Z.lor_diag. Qed.

Lemma mask_subset_trans a b c : mask_subset a b → mask_subset b c → mask_subset a c.
Proof. unfold mask_subset. intros H1 H2. by rewrite <- H2, Z.lor_assoc, H1. Qed.

Lemma mask_subset_bits a b k : mask_subset a b → Z.testbit a k = true → Z.testbit b k = true.
Proof.
  unfold mask_subset. intros <- Ha. rewrite Z.lor_spec, Ha. done.
Qed.

(** Filtering with a stronger test keeps fewer elements, and strictly
    fewer when some element passes the weaker test only. *)
Lemma filter_length_le {A} (P Q : A → Prop) `{∀ x, Decision (P x)} `{∀ x, Decision (Q x)}
    (l : list A) :
  (∀ x, x ∈ l → Q x → P x) → (length (filter Q l) ≤ length (filter P l))%nat.
Proof.
  induction l as [|x l IH]; intros HQP; [done|].
  rewrite !filter_cons.
  assert (length (filter Q l) ≤ length (filter P l))%nat as IH'.
  { apply IH. intros y Hy. apply HQP. by right. }
  destruct (decide (Q x)) as [Hq|Hq].
  - rewrite decide_True by (apply HQP; [left|done]). simpl. lia.
  - destruct (decide (P x)); simpl; lia.
Qed.

Lemma filter_length_lt {A} (P Q : A → Prop) `{∀ x, Decision (P x)} `{∀ x, Decision (Q x)}
    (l : list A) (a : A) :
  (∀ x, x ∈ l → Q x → P x) → a ∈ l → P a → ¬ Q a →
  (length (filter Q l) < length (filter P l))%nat.
Proof.
  induction l as [|x l IH]; intros HQP Ha HPa HQa; [by apply elem_of_nil in Ha|].
  rewrite !filter_cons.
  assert (∀ y, y ∈ l → Q y → P y) as HQP' by (intros y Hy; apply HQP; by right).
  apply elem_of_cons in Ha as [<-|Ha].
  - destruct (decide (P a)); [|done]. destruct (decide (Q a)); [done|]. simpl.
    pose proof (filter_length_le P Q l HQP'). lia.
  - specialize (IH HQP' Ha HPa HQa).
    destruct (decide (Q x)) as [Hq|Hq].
    + rewrite decide_True by (apply HQP; [left|done]). simpl. lia.
    + destruct (decide (P x)); simpl; lia.
Qed.

Lemma free64_le a b : mask_subset a b → (free64 b ≤ free64 a)%nat.
Proof.
  intros Hab. unfold free64. apply filter_length_le.
  intros k _ Hb. destruct (Z.testbit a (Z.of_nat k)) eqn:Ha; [|done].
  by rewrite (mask_subset_bits _ _ _ Hab Ha) in Hb.
Qed.

Lemma free64_bound a : (free64 a ≤ 64)%nat.
Proof.
  unfold free64. etrans; [apply length_filter|]. by rewrite length_seq.
Qed.

(** A mask that really grows, within 64 bits, has fewer unset bits. *)
Lemma free64_lt a b :
  mask64 a → mask64 b → Z.lor a b ≠ a → (free64 (Z.lor a b) < free64 a)%nat.
Proof.
  intros Ha Hb Hne.
  assert (∃ k : nat, (k < 64)%nat ∧ Z.testbit a (Z.of_nat k) = false
                     ∧ Z.testbit (Z.lor a b) (Z.of_nat k) = true) as (k & Hk & Hak & Hbk).
  { destruct (decide (Exists (λ k : nat, Z.testbit a (Z.of_nat k) = false
                                 ∧ Z.testbit (Z.lor a b) (Z.of_nat k) = true) (seq 0 64)))
      as [Hex|Hnex].
    - apply Exists_exists in Hex as (k & Hin & Hk). exists k.
      apply elem_of_seq in Hin. split; [lia|done].
    - exfalso. apply Hne. apply Z.bits_inj'. intros n Hn.
      destruct (decide (n < 64)) as [Hlt|Hge].
      + rewrite Z.lor_spec. destruct (Z.testbit a n) eqn:Han; [done|]. simpl.
        destruct (Z.testbit b n) eqn:Hbn; [|done].
        exfalso. apply Hnex. apply Exists_exists. exists (Z.to_nat n).
        split; [apply elem_of_seq; lia|]. rewrite Z2Nat.id by lia.
        by rewrite Z.lor_spec, Han, Hbn.
      + rewrite (mask64_lor a b Ha Hb n), (Ha n) by lia. done. }
  unfold free64.
  apply (filter_length_lt _ _ _ k).
  - intros j _ Hj. rewrite Z.lor_spec in Hj. by apply orb_false_iff in Hj as [? _].
  - apply elem_of_seq. lia.
  - done.
  - by rewrite Hbk.
Qed.

Lemma sum_list_with_insert {A} (f : A → nat) (l : list A) (k : nat) (x y : A) :
  l !! k = Some x →
  (sum_list_with f (<[k := y]> l) + f x = sum_list_with f l + f y)%nat.
Proof.
  revert k. induction l as [|z l IH]; intros k Hk; [done|].
  destruct k as [|k]; simpl in *.
  - injection Hk as ->. lia.
  - specialize (IH k Hk). lia.
Qed.

(** ** Liveness: the worklist loops *)

Section Liveness.
Context `{Rabbitizer}.
Variable elf : Elf.

Lemma insn_masks_grow_refl r : insn_masks_grow r r.
Proof. repeat split; apply mask_subset_refl. Qed.

Lemma insn_masks_grow_trans r1 r2 r3 :
  insn_masks_grow r1 r2 → insn_masks_grow r2 r3 → insn_masks_grow r1 r3.
Proof.
  intros (A1 & A2 & A3 & A4) (B1 & B2 & B3 & B4).
  repeat split; eapply mask_subset_trans; eassumption.
Qed.

Lemma masks_grow_refl st : masks_grow st st.
Proof. split; [done|]. intros j r Hj. exists r. split; [done|apply insn_masks_grow_refl]. Qed.

Lemma masks_grow_trans s1 s2 s3 : masks_grow s1 s2 → masks_grow s2 s3 → masks_grow s1 s3.
Proof.
  intros [L1 G1] [L2 G2]. split; [congruence|]. intros j r Hj.
  destruct (G1 j r Hj) as (r2 & H2 & A). destruct (G2 j r2 H2) as (r3 & H3 & B).
  exists r3. split; [done|]. by eapply insn_masks_grow_trans.
Qed.

Lemma progress_refl get st q : masks64 st → progress get st q st q.
Proof. intros M. split; [apply masks_grow_refl|]. split; [done|lia]. Qed.

Lemma progress_trans get s1 q1 s2 q2 s3 q3 :
  progress get s1 q1 s2 q2 → progress get s2 q2 s3 q3 → progress get s1 q1 s3 q3.
Proof.
  intros (G1 & M1 & L1) (G2 & M2 & L2).
  split; [by eapply masks_grow_trans|]. split; [done|lia].
Qed.

(** One record is rewritten: its masks keep their bits and stay within 64
    bits, and the entries pushed are paid for by the bits the rewrite sets
    in the mask of the pass. *)
Lemma upd_insn_progress get k f st st' q (pushed : list Z) :
  masks64 st →
  upd_insn k f st = Ok st' →
  (∀ r, rinsns st !! Z.to_nat k = Some r →
        insn_masks64 r →
        insn_masks_grow r (f r) ∧ insn_masks64 (f r)
        ∧ (length pushed + free64 (get (f r)) ≤ free64 (get r))%nat) →
  progress get st q st' (pushed ++ q).
Proof.
  intros M E Hf. pose proof (upd_insn_Ok _ _ _ _ E) as (a & Hk & Ha & Est).
  destruct (Hf a Ha (M _ _ Ha)) as (Hg & H64 & Hfree).
  split; [|split].
  - split; [by eapply upd_insn_length|]. intros j r Hj.
    rewrite (upd_insn_lookup _ _ _ _ j E), Hj. simpl. eexists. split; [reflexivity|].
    case_decide as Hjk; [|apply insn_masks_grow_refl].
    subst k. rewrite Nat2Z.id in Ha. rewrite Ha in Hj. by injection Hj as <-.
  - intros j r Hj. rewrite (upd_insn_lookup _ _ _ _ j E) in Hj.
    destruct (rinsns st !! j) as [r0|] eqn:Hj0; [|discriminate]. injection Hj as <-.
    case_decide as Hjk; [|by eapply M].
    subst k. rewrite Nat2Z.id in Ha. rewrite Ha in Hj0. by injection Hj0 as <-.
  - subst st'. unfold free_bits. simpl.
    pose proof (sum_list_with_insert (λ r, free64 (get r)) _ _ _ (f a) Ha) as Hs.
    simpl in Hs. rewrite length_app. lia.
Qed.

Lemma f_livein_setter : mask_setter f_livein set_f_livein.
Proof.
  split; [done|]. split.
  - intros m r Hm. repeat split; try apply mask_subset_refl. done.
  - intros m r (A & B & C & D) Hm. by repeat split.
Qed.

Lemma b_liveout_setter : mask_setter b_liveout set_b_liveout.
Proof.
  split; [done|]. split.
  - intros m r Hm. repeat split; try apply mask_subset_refl. done.
  - intros m r (A & B & C & D) Hm. by repeat split.
Qed.

(** The propagation step: an entry is pushed only when the mask of its
    instruction gains a bit. *)
Lemma propagate_progress get set k new_live st q st' q' :
  mask_setter get set →
  (∀ r, insn_masks64 r → mask64 (get r)) →
  masks64 st → mask64 new_live →
  propagate elf get set k new_live st q = Ok (st', q') →
  progress get st q st' q'.
Proof.
  intros (S1 & S2 & S3) Hget M Hnew E. unfold propagate in E.
  ok_step E t Ht. unfold new_bits in E. case_bool_decide as Hnb.
  - ok_step E s1 U. injection E as <- <-.
    apply (upd_insn_progress get k _ st s1 q [i_to_addr elf k] M U).
    intros r Hr Hr64. split; [|split].
    + apply S2, mask_subset_lor.
    + apply S3; [done|]. apply mask64_lor; auto.
    + rewrite S1. simpl.
      assert (r = t) as ->.
      { apply vec_get_Ok in Ht as [_ Ht]. unfold get_insn in *. congruence. }
      pose proof (free64_lt (get t) new_live (Hget _ Hr64) Hnew Hnb). lia.
  - injection E as <- <-. by apply progress_refl.
Qed.

(** The same step, seen from the worklist: nothing changes, or the entry
    of [k] is pushed and the mask at [k] is strictly larger than before. *)
Lemma propagate_pushes get set k new_live st q st' q' :
  mask_setter get set →
  propagate elf get set k new_live st q = Ok (st', q') →
  (st' = st ∧ q' = q) ∨
  (q' = i_to_addr elf k :: q ∧
   ∃ r r', rinsns st !! Z.to_nat k = Some r ∧ rinsns st' !! Z.to_nat k = Some r'
           ∧ mask_subset (get r) (get r') ∧ get r' ≠ get r).
Proof.
  intros (S1 & _ & _) E. unfold propagate in E.
  ok_step E t Ht. unfold new_bits in E. case_bool_decide as Hnb.
  - right. ok_step E s1 U. injection E as <- <-. split; [done|].
    apply vec_get_Ok in Ht as [Hk Ht]. exists t. eexists. split; [done|].
    rewrite (upd_insn_lookup _ _ _ _ _ U), Ht. simpl.
    rewrite decide_True by lia. split; [reflexivity|].
    rewrite S1. split; [apply mask_subset_lor|done].
  - left. by injection E as <- <-.
Qed.

(** *** Masks of instructions and of externs stay within 64 bits *)

Lemma mask64_reg_rs instr : mask64 (r_map_reg (RAB_INSTR_GET_rs instr)).
Proof. apply mask64_r_map_reg, reg_field_range. Qed.
Lemma mask64_reg_rt instr : mask64 (r_map_reg (RAB_INSTR_GET_rt instr)).
Proof. apply mask64_r_map_reg, reg_field_range. Qed.
Lemma mask64_reg_rd instr : mask64 (r_map_reg (RAB_INSTR_GET_rd instr)).
Proof. apply mask64_r_map_reg, reg_field_range. Qed.

Lemma mask64_get_dest_reg_mask instr : mask64 (get_dest_reg_mask instr).
Proof.
  unfold get_dest_reg_mask.
  repeat case_match; auto using mask64_reg_rt, mask64_reg_rd, mask64_0.
Qed.

Lemma mask64_get_single_source_reg_mask instr : mask64 (get_single_source_reg_mask instr).
Proof.
  unfold get_single_source_reg_mask.
  repeat case_match; auto using mask64_reg_rs, mask64_reg_rt, mask64_0.
Qed.

Lemma mask64_get_all_source_reg_mask instr : mask64 (get_all_source_reg_mask instr).
Proof.
  unfold get_all_source_reg_mask. cbv zeta.
  repeat case_match; auto using mask64_lor, mask64_reg_rs, mask64_reg_rt, mask64_0.
Qed.

Lemma mask64_const_reg reg : 0 ≤ reg ≤ 33 → mask64 (r_map_reg reg).
Proof. apply mask64_r_map_reg. Qed.

#[local] Hint Resolve mask64_lor mask64_land_l mask64_clear_bits mask64_0
  mask64_get_dest_reg_mask mask64_get_single_source_reg_mask
  mask64_get_all_source_reg_mask : mask.
#[local] Hint Extern 1 (mask64 (r_map_reg _)) =>
  apply mask64_r_map_reg; vm_compute; split; discriminate : mask.
#[local] Hint Extern 1 (mask64 1) => apply mask64_of_range; lia : mask.

Lemma mask64_f_transfer ty instr live : mask64 live → mask64 (f_transfer ty instr live).
Proof. intros Hl. unfold f_transfer. destruct ty; repeat case_match; auto 8 with mask. Qed.

Lemma mask64_b_transfer ty instr live : mask64 live → mask64 (b_transfer ty instr live).
Proof.
  intros Hl. unfold b_transfer. destruct ty; cbv zeta; repeat case_match; auto 8 with mask.
Qed.

Lemma mask64_extern_rets c : mask64 (extern_rets c).
Proof. unfold extern_rets. repeat case_match; auto with mask. Qed.

Lemma mask64_a_reg pos : 0 ≤ pos ≤ 4 → mask64 (a_reg pos).
Proof. intros Hp. apply mask64_r_map_reg. unfold RABBITIZER_REG_GPR_O32_a0. lia. Qed.

Lemma arg_walk_step_mask64 c w :
  mask64 (aw_args w) ∧ 0 ≤ aw_pos w →
  mask64 (aw_args (arg_walk_step c w)) ∧ 0 ≤ aw_pos (arg_walk_step c w).
Proof.
  destruct w as [args pos pos_float only]. simpl. intros [Ha Hp].
  unfold arg_walk_step.
  assert (Z.rem pos 1 = 0) as -> by apply Z.rem_1_r.
  repeat case_bool_decide; repeat case_match; simpl; try case_bool_decide;
    (split; [|lia]); auto using mask64_lor, mask64_a_reg with lia.
Qed.

Lemma arg_walk_mask64 params w :
  mask64 (aw_args w) ∧ 0 ≤ aw_pos w →
  mask64 (aw_args (arg_walk params w)) ∧ 0 ≤ aw_pos (arg_walk params w).
Proof.
  revert w. induction params as [|c params IH]; intros w Hw; [done|].
  simpl. by apply IH, arg_walk_step_mask64.
Qed.

Lemma mask64_extern_args fn : mask64 (extern_args fn).
Proof.
  unfold extern_args. apply mask64_lor; [|auto with mask].
  unfold extern_args_walk. apply arg_walk_mask64. simpl. split; [|lia].
  case_bool_decide; auto 10 using mask64_lor, mask64_a_reg with mask lia.
Qed.

Lemma r_insn_to_type_masks insn :
  let insn' := snd (r_insn_to_type insn) in
  f_livein insn' = f_livein insn ∧ f_liveout insn' = f_liveout insn ∧
  b_livein insn' = b_livein insn ∧ b_liveout insn' = b_liveout insn ∧
  successors insn' = successors insn ∧ predecessors insn' = predecessors insn.
Proof.
  unfold r_insn_to_type. destruct (uniqueId (instruction insn)); try done.
  cbv zeta. repeat case_match; done.
Qed.

(** *** The forward pass *)

Lemma mask64_f_edge_live i live e st new_live :
  mask64 live → f_edge_live elf i live e st = Ok new_live → mask64 new_live.
Proof.
  intros Hl E. unfold f_edge_live in E.
  repeat case_match; ok_inv E; try discriminate; auto with mask.
  - destruct (find_extern elf (jal_dest x)); [|discriminate]. injection E as <-.
    auto using mask64_extern_rets with mask.
  - unfold v0_v1. auto with mask.
Qed.

Lemma r_pass4_edges_progress es i live st q entry st' q' entry' :
  masks64 st → mask64 live →
  r_pass4_edges elf es i live st q entry = Ok (st', q', entry') →
  progress f_livein st q st' q'.
Proof.
  revert st q entry. induction es as [|e es IH]; intros st q entry M Hl E.
  - injection E as <- <- <-. by apply progress_refl.
  - cbn [r_pass4_edges] in E. ok_step E new_live Hn. cbv zeta in E.
    ok_step E p Hp. destruct p as [s1 q1].
    assert (progress f_livein st q s1 q1) as P1.
    { eapply (propagate_progress f_livein set_f_livein); try exact Hp;
        eauto using f_livein_setter, mask64_f_edge_live.
      by intros r (? & _). }
    eapply progress_trans; [exact P1|]. eapply IH; [|done|exact E]. apply P1.
Qed.

Lemma upd_type_progress get i insn0 st st' q :
  get (snd (r_insn_to_type insn0)) = get insn0 →
  masks64 st →
  get_insn st i = Ok insn0 →
  upd_insn i (λ _, snd (r_insn_to_type insn0)) st = Ok st' →
  progress get st q st' q ∧ rinsns st' !! Z.to_nat i = Some (snd (r_insn_to_type insn0)).
Proof.
  intros Hget M Hi U. apply vec_get_Ok in Hi as [Hk Hi]. split.
  - apply (upd_insn_progress get i _ st st' q [] M U).
    intros r Hr Hr64. rewrite Hi in Hr. injection Hr as <-.
    destruct (r_insn_to_type_masks insn0) as (A & B & C & D & _).
    unfold insn_masks_grow, insn_masks64 in *. rewrite A, B, C, D, Hget.
    split; [repeat split; apply mask_subset_refl|]. split; [done|]. simpl. lia.
  - rewrite (upd_insn_lookup _ _ _ _ _ U), Hi. simpl. by rewrite decide_True by lia.
Qed.

(** One turn of the loop of [r_pass4] only adds bits to [f_livein] and
    [f_liveout], and pays every push with a new bit of [f_livein]. *)
Lemma r_pass4_step_progress addr st q st' q' :
  masks64 st →
  r_pass4_step elf addr st q = Ok (st', q') →
  progress f_livein st q st' q'.
Proof.
  intros M E. unfold r_pass4_step in E. cbv zeta in E. ok_step E insn0 Hi.
  rewrite (surjective_pairing (r_insn_to_type insn0)) in E.
  ok_step E s1 U0.
  destruct (upd_type_progress f_livein _ _ _ _ q
              (proj1 (r_insn_to_type_masks insn0)) M Hi U0) as [P0 Hs1].
  eapply progress_trans; [exact P0|].
  set (insn := snd (r_insn_to_type insn0)) in *.
  assert (insn_masks64 insn) as (I1 & I2 & _) by (eapply P0; exact Hs1).
  case_bool_decide as Hnew.
  - injection E as <- <-. apply progress_refl, P0.
  - ok_step E s2 U1.
    set (live := Z.lor (f_transfer _ _ _) (f_liveout insn)) in *.
    assert (mask64 live) as Hlive.
    { subst live. apply mask64_lor; [|done]. apply mask64_f_transfer. auto with mask. }
    assert (progress f_livein s1 q s2 q) as P1.
    { apply (upd_insn_progress f_livein _ _ s1 s2 q [] (proj1 (proj2 P0)) U1).
      intros r Hr Hr64. rewrite Hs1 in Hr. injection Hr as <-.
      destruct Hr64 as (A & B & C & D). split; [|split]; simpl.
      - repeat split; try apply mask_subset_refl. subst live. apply mask_subset_lor_r.
      - by repeat split.
      - lia. }
    eapply progress_trans; [exact P1|].
    ok_step E x Hedges. destruct x as [[s3 q3] entry].
    assert (progress f_livein s2 q s3 q3) as P2.
    { eapply r_pass4_edges_progress; [apply P1|exact Hlive|exact Hedges]. }
    eapply progress_trans; [exact P2|].
    destruct entry.
    + eapply (propagate_progress f_livein set_f_livein); try exact E;
        eauto using f_livein_setter with mask.
      * by intros r (? & _).
      * apply P2.
    + injection E as <- <-. apply progress_refl, P2.
Qed.

Lemma free_bits_bound get st : (free_bits get st ≤ 64 * length (rinsns st))%nat.
Proof.
  unfold free_bits. induction (rinsns st) as [|r l IH]; simpl; [lia|].
  pose proof (free64_bound (get r)). lia.
Qed.

(** The loop of [r_pass4] ends within the bound, and whatever state it
    ends in has all the bits it started with. *)
Lemma r_pass4_loop_terminates fuel st q :
  masks64 st →
  (length q + free_bits f_livein st ≤ fuel)%nat →
  ∃ r, r_pass4_loop elf fuel st q = Some r
       ∧ ∀ st', r = Ok st' → masks_grow st st' ∧ masks64 st'.
Proof.
  revert st q. induction fuel as [|fuel IH]; intros st q M Hf.
  - destruct q; [|simpl in Hf; lia].
    exists (Ok st). split; [done|]. intros st' [= <-]. split; [apply masks_grow_refl|done].
  - destruct q as [|addr q].
    { exists (Ok st). split; [done|]. intros st' [= <-]. split; [apply masks_grow_refl|done]. }
    cbn [r_pass4_loop]. destruct (r_pass4_step elf addr st q) as [[s1 q1]| | |] eqn:Hstep;
      try (eexists; split; [reflexivity|]; intros ? [=]).
    destruct (r_pass4_step_progress _ _ _ _ _ M Hstep) as (G & M1 & L).
    destruct (IH s1 q1 M1) as (r & Hr & Hgrow); [simpl in Hf; lia|].
    exists r. split; [done|]. intros st' Hst'.
    destruct (Hgrow st' Hst') as [G' M']. split; [by eapply masks_grow_trans|done].
Qed.

(** *** The backward pass *)

Lemma mask64_b_edge_live i live insn e st new_live :
  mask64 live → b_edge_live elf i live insn e st = Ok new_live → mask64 new_live.
Proof.
  intros Hl E. unfold b_edge_live in E.
  destruct (function_exit e); [injection E as <-; auto with mask|].
  destruct (function_entry e); [injection E as <-; auto with mask|].
  destruct (extern_function e).
  { ok_step E address Ha. destruct (find_extern elf address); [|discriminate].
    injection E as <-. auto using mask64_extern_args with mask. }
  destruct (function_pointer e); injection E as <-; [|done].
  unfold a0_a3. auto 8 with mask.
Qed.

Lemma r_pass5_edges_progress es i live insn st q exit st' q' exit' :
  masks64 st → mask64 live →
  r_pass5_edges elf es i live insn st q exit = Ok (st', q', exit') →
  progress b_liveout st q st' q'.
Proof.
  revert st q exit. induction es as [|e es IH]; intros st q exit M Hl E.
  - injection E as <- <- <-. by apply progress_refl.
  - cbn [r_pass5_edges] in E. ok_step E new_live Hn. cbv zeta in E.
    ok_step E p Hp. destruct p as [s1 q1].
    assert (progress b_liveout st q s1 q1) as P1.
    { eapply (propagate_progress b_liveout set_b_liveout); try exact Hp;
        eauto using b_liveout_setter, mask64_b_edge_live.
      by intros r (_ & _ & _ & ?). }
    eapply progress_trans; [exact P1|]. eapply IH; [|done|exact E]. apply P1.
Qed.

(** One turn of the loop of [r_pass5] only adds bits to [b_livein] and
    [b_liveout], and pays every push with a new bit of [b_liveout]. *)
Lemma r_pass5_step_progress addr st q st' q' :
  masks64 st →
  r_pass5_step elf addr st q = Ok (st', q') →
  progress b_liveout st q st' q'.
Proof.
  intros M E. unfold r_pass5_step in E. cbv zeta in E. ok_step E insn0 Hi.
  rewrite (surjective_pairing (r_insn_to_type insn0)) in E.
  ok_step E s1 U0.
  destruct (r_insn_to_type_masks insn0) as (_ & _ & _ & Hout & _).
  destruct (upd_type_progress b_liveout _ _ _ _ q Hout M Hi U0) as [P0 Hs1].
  eapply progress_trans; [exact P0|].
  set (insn := snd (r_insn_to_type insn0)) in *.
  assert (insn_masks64 insn) as (_ & _ & I3 & I4) by (eapply P0; exact Hs1).
  case_bool_decide as Hnew.
  - injection E as <- <-. apply progress_refl, P0.
  - ok_step E s2 U1.
    set (live := Z.lor (b_transfer _ _ _) (b_livein insn)) in *.
    assert (mask64 live) as Hlive.
    { subst live. apply mask64_lor; [|done]. apply mask64_b_transfer. auto with mask. }
    assert (progress b_liveout s1 q s2 q) as P1.
    { apply (upd_insn_progress b_liveout _ _ s1 s2 q [] (proj1 (proj2 P0)) U1).
      intros r Hr Hr64. rewrite Hs1 in Hr. injection Hr as <-.
      destruct Hr64 as (A & B & C & D). split; [|split]; simpl.
      - repeat split; try apply mask_subset_refl. subst live. apply mask_subset_lor_r.
      - by repeat split.
      - lia. }
    eapply progress_trans; [exact P1|].
    ok_step E x Hedges. destruct x as [[s3 q3] exit].
    assert (progress b_liveout s2 q s3 q3) as P2.
    { eapply r_pass5_edges_progress; [apply P1|exact Hlive|exact Hedges]. }
    eapply progress_trans; [exact P2|].
    destruct exit.
    + eapply (propagate_progress b_liveout set_b_liveout); try exact E;
        eauto using b_liveout_setter with mask.
      * by intros r (_ & _ & _ & ?).
      * apply P2.
    + injection E as <- <-. apply progress_refl, P2.
Qed.

Lemma r_pass5_loop_terminates fuel st q :
  masks64 st →
  (length q + free_bits b_liveout st ≤ fuel)%nat →
  ∃ r, r_pass5_loop elf fuel st q = Some r
       ∧ ∀ st', r = Ok st' → masks_grow st st' ∧ masks64 st'.
Proof.
  revert st q. induction fuel as [|fuel IH]; intros st q M Hf.
  - destruct q; [|simpl in Hf; lia].
    exists (Ok st). split; [done|]. intros st' [= <-]. split; [apply masks_grow_refl|done].
  - destruct q as [|addr q].
    { exists (Ok st). split; [done|]. intros st' [= <-]. split; [apply masks_grow_refl|done]. }
    cbn [r_pass5_loop]. destruct (r_pass5_step elf addr st q) as [[s1 q1]| | |] eqn:Hstep;
      try (eexists; split; [reflexivity|]; intros ? [=]).
    destruct (r_pass5_step_progress _ _ _ _ _ M Hstep) as (G & M1 & L).
    destruct (IH s1 q1 M1) as (r & Hr & Hgrow); [simpl in Hf; lia|].
    exists r. split; [done|]. intros st' Hst'.
    destruct (Hgrow st' Hst') as [G' M']. split; [by eapply masks_grow_trans|done].
Qed.

(** *** The claim about the liveness passes *)

(** C5. Both worklist loops are monotone and end. With masks of 64 bits:
    one turn of the loop of [r_pass4] leaves every [f_livein] and
    [f_liveout] (and every other mask) with all the bits it had, and so
    does one turn of the loop of [r_pass5] for [b_livein] and [b_liveout];
    an entry is pushed on the worklist only together with a strict growth of
    the mask of its instruction ([f_livein] forward, [b_liveout] backward),
    so the length of the worklist plus the number of unset mask bits never
    goes up across a turn, while the turn has popped one entry; and each
    loop drains within [worklist_bound]: the entries queued at the start
    plus 64 per instruction. *)
Theorem liveness_monotone_and_terminating (st : State) (q : list Z) :
  masks64 st →
  (∀ addr st' q',
     r_pass4_step elf addr st q = Ok (st', q') →
     masks_grow st st' ∧ masks64 st'
     ∧ (length q' + free_bits f_livein st' ≤ length q + free_bits f_livein st)%nat) ∧
  (∀ addr st' q',
     r_pass5_step elf addr st q = Ok (st', q') →
     masks_grow st st' ∧ masks64 st'
     ∧ (length q' + free_bits b_liveout st' ≤ length q + free_bits b_liveout st)%nat) ∧
  (∀ k new_live st' q',
     f_propagate elf k new_live st q = Ok (st', q') ∨
     b_propagate elf k new_live st q = Ok (st', q') →
     (st' = st ∧ q' = q) ∨
     (q' = i_to_addr elf k :: q ∧
      ∃ r r', rinsns st !! Z.to_nat k = Some r ∧ rinsns st' !! Z.to_nat k = Some r'
        ∧ ((mask_subset (f_livein r) (f_livein r') ∧ f_livein r' ≠ f_livein r)
           ∨ (mask_subset (b_liveout r) (b_liveout r') ∧ b_liveout r' ≠ b_liveout r)))) ∧
  (∃ r, r_pass4_loop elf (worklist_bound st q) st q = Some r
        ∧ ∀ st', r = Ok st' → masks_grow st st' ∧ masks64 st') ∧
  (∃ r, r_pass5_loop elf (worklist_bound st q) st q = Some r
        ∧ ∀ st', r = Ok st' → masks_grow st st' ∧ masks64 st').
Proof.
  intros M. split; [|split; [|split; [|split]]].
  - intros addr st' q' E. by apply (r_pass4_step_progress addr st q st' q').
  - intros addr st' q' E. by apply (r_pass5_step_progress addr st q st' q').
  - intros k new_live st' q' [E|E].
    + destruct (propagate_pushes _ _ _ _ _ _ _ _ f_livein_setter E)
        as [?|(? & r & r' & ? & ? & ?)]; [by left|right]. split; [done|]. eauto 6.
    + destruct (propagate_pushes _ _ _ _ _ _ _ _ b_liveout_setter E)
        as [?|(? & r & r' & ? & ? & ?)]; [by left|right]. split; [done|]. eauto 6.
  - apply r_pass4_loop_terminates; [done|].
    unfold worklist_bound. pose proof (free_bits_bound f_livein st). lia.
  - apply r_pass5_loop_terminates; [done|].
    unfold worklist_bound. pose proof (free_bits_bound b_liveout st). lia.
Qed.

Lemma masks64b_sound st : masks64b st = true → masks64 st.
Proof.
  unfold masks64b. rewrite forallb_forall. intros Hall j r Hj.
  specialize (Hall r). rewrite <- list_elem_of_In in Hall.
  specialize (Hall (list_elem_of_lookup_2 _ _ _ Hj)).
  rewrite !andb_true_iff in Hall. destruct Hall as [[[A B] C] D].
  unfold in_uint64 in *.
  repeat split; apply mask64_of_range; by eapply bool_decide_eq_true_1.
Qed.

End Liveness.

(** * What a turn of the forward pass crosses *)

Section ForwardTurn.
Context `{Rabbitizer}.
Variable elf : Elf.

Lemma set_f_livein_same r : set_f_livein (f_livein r) r = r.
Proof. by destruct r. Qed.

Lemma livein_only_refl st : livein_only st st.
Proof.
  split; [done|]. intros j r Hj. exists (f_livein r).
  rewrite set_f_livein_same. split; [done|apply mask_subset_refl].
Qed.

Lemma livein_only_trans s1 s2 s3 :
  livein_only s1 s2 → livein_only s2 s3 → livein_only s1 s3.
Proof.
  intros [L1 G1] [L2 G2]. split; [congruence|]. intros j r Hj.
  destruct (G1 j r Hj) as (m1 & Hj1 & M1).
  destruct (G2 j _ Hj1) as (m2 & Hj2 & M2).
  exists m2. split; [exact Hj2|]. by eapply mask_subset_trans.
Qed.

Lemma livein_only_edges_kept st st' : livein_only st st' → edges_kept st st'.
Proof.
  intros [L G]. split; [done|]. intros j r Hj.
  destruct (G j r Hj) as (m & Hj' & _). eexists. split; [exact Hj'|]. done.
Qed.

Lemma edges_kept_trans s1 s2 s3 :
  edges_kept s1 s2 → edges_kept s2 s3 → edges_kept s1 s3.
Proof.
  intros [L1 G1] [L2 G2]. split; [congruence|]. intros j r Hj.
  destruct (G1 j r Hj) as (r2 & Hj2 & S1 & P1).
  destruct (G2 j r2 Hj2) as (r3 & Hj3 & S2 & P2).
  exists r3. split; [done|]. split; congruence.
Qed.

Lemma upd_insn_edges_kept k g st st' :
  upd_insn k g st = Ok st' →
  (∀ r, rinsns st !! Z.to_nat k = Some r →
     successors (g r) = successors r ∧ predecessors (g r) = predecessors r) →
  edges_kept st st'.
Proof.
  intros U Hg. pose proof (upd_insn_in_range _ _ _ _ U) as Hk.
  split; [by eapply upd_insn_length|]. intros j r Hj.
  rewrite (upd_insn_lookup _ _ _ _ j U), Hj. cbn. case_decide as Hjk.
  - subst k. rewrite Nat2Z.id in Hg. destruct (Hg r Hj). by exists (g r).
  - by exists r.
Qed.

(** A record read after the masks grew is the record read before, with a
    larger [f_livein]. *)
Lemma livein_only_get st st' k t' :
  livein_only st st' → get_insn st' k = Ok t' →
  ∃ t m, get_insn st k = Ok t ∧ t' = set_f_livein m t ∧ mask_subset (f_livein t) m.
Proof.
  intros [L G] Ht'. apply vec_get_Ok in Ht' as [Hk Ht'].
  assert (is_Some (rinsns st !! Z.to_nat k)) as [t Ht].
  { apply lookup_lt_is_Some. rewrite <- L. by eapply lookup_lt_Some. }
  destruct (G _ t Ht) as (m & Hm & M). rewrite Ht' in Hm. injection Hm as ->.
  exists t, m. split; [by apply vec_get_Ok|done].
Qed.

Lemma livein_only_get_eq st st' k :
  livein_only st st' →
  get_insn st' k = (λ o, match o with
                         | Ok t => get_insn st' k
                         | o => o
                         end) (get_insn st k).
Proof.
  intros [L G]. unfold get_insn, vec_get. case_decide; [|done].
  destruct (rinsns st !! Z.to_nat k) as [t|] eqn:Ht; [done|].
  apply lookup_ge_None in Ht. rewrite <- L in Ht. apply lookup_ge_None in Ht.
  by rewrite Ht.
Qed.

(** What an edge lets through does not depend on the [f_livein] masks. *)
Lemma f_edge_live_livein_only i live e st st' :
  livein_only st st' →
  f_edge_live elf i live e st' = f_edge_live elf i live e st.
Proof.
  intros G. unfold f_edge_live.
  destruct (function_exit e); [done|]. destruct (function_entry e); [done|].
  destruct (extern_function e); [|done].
  rewrite (livein_only_get_eq _ _ (i - 1) G).
  destruct (get_insn st (i - 1)) as [p| | |] eqn:Hp; try done.
  destruct (get_insn st' (i - 1)) as [p'| | |] eqn:Hp'.
  - destruct (livein_only_get _ _ _ _ G Hp') as (t & m & Ht & -> & _).
    rewrite Hp in Ht. injection Ht as <-. done.
  - destruct G as [L G]. apply vec_get_Ok in Hp as [Hk Hp].
    destruct (G _ p Hp) as (m & Hm & _).
    unfold get_insn, vec_get in Hp'. rewrite decide_True, Hm in Hp' by done. done.
  - destruct G as [L G]. apply vec_get_Ok in Hp as [Hk Hp].
    destruct (G _ p Hp) as (m & Hm & _).
    unfold get_insn, vec_get in Hp'. rewrite decide_True, Hm in Hp' by done. done.
  - destruct G as [L G]. apply vec_get_Ok in Hp as [Hk Hp].
    destruct (G _ p Hp) as (m & Hm & _).
    unfold get_insn, vec_get in Hp'. rewrite decide_True, Hm in Hp' by done. done.
Qed.

(** One propagation: only the mask at [k] can change, and afterwards it
    holds [nl]. *)
Lemma f_propagate_crosses k nl st q st' q' :
  f_propagate elf k nl st q = Ok (st', q') →
  livein_only st st' ∧
  (∀ t, get_insn st' k = Ok t → mask_subset nl (f_livein t)) ∧
  (∀ (j : nat) r r', rinsns st !! j = Some r → rinsns st' !! j = Some r' →
     f_livein r' ≠ f_livein r → Z.of_nat j = k).
Proof.
  intros E. unfold f_propagate, propagate in E. ok_step E t0 Ht0.
  destruct (new_bits (f_livein t0) nl) eqn:Hnew.
  - ok_step E s1 U. injection E as <- <-.
    pose proof (upd_insn_in_range _ _ _ _ U) as Hk. split; [|split].
    + split; [by eapply upd_insn_length|]. intros j r Hj.
      rewrite (upd_insn_lookup _ _ _ _ j U), Hj. cbn. case_decide.
      * eexists. split; [reflexivity|]. apply mask_subset_lor.
      * exists (f_livein r). rewrite set_f_livein_same.
        split; [done|apply mask_subset_refl].
    + intros t Ht. apply vec_get_Ok in Ht as [_ Ht], Ht0 as [_ Ht0].
      rewrite (upd_insn_lookup _ _ _ _ _ U), Ht0 in Ht. cbn in Ht.
      rewrite decide_True in Ht by lia. injection Ht as <-. cbn.
      apply mask_subset_lor_r.
    + intros j r r' Hj Hj' Hne. rewrite (upd_insn_lookup _ _ _ _ j U), Hj in Hj'.
      cbn in Hj'. case_decide; [done|]. by injection Hj' as <-.
  - injection E as <- <-. split; [apply livein_only_refl|]. split.
    + intros t Ht. rewrite Ht0 in Ht. injection Ht as <-.
      unfold new_bits in Hnew. apply bool_decide_eq_false in Hnew.
      unfold mask_subset. rewrite Z.lor_comm.
      by destruct (decide (Z.lor (f_livein t0) nl = f_livein t0)).
    + intros j r r' Hj Hj' Hne. rewrite Hj in Hj'. by injection Hj' as <-.
Qed.

(** A mask that changed from [s1] to [s3] changed on the way to [s2] or
    after it. *)
Lemma f_livein_changed s1 s2 s3 (j : nat) r r' :
  livein_only s1 s2 →
  rinsns s1 !! j = Some r → rinsns s3 !! j = Some r' → f_livein r' ≠ f_livein r →
  ∃ r2, rinsns s2 !! j = Some r2 ∧ (f_livein r2 ≠ f_livein r ∨ f_livein r' ≠ f_livein r2).
Proof.
  intros [L G] Hj Hj' Hne. destruct (G j r Hj) as (m & Hm & _).
  eexists. split; [exact Hm|]. cbn.
  destruct (decide (m = f_livein r)) as [->|]; [by right|by left].
Qed.

Lemma r_pass4_edges_crosses es i live st q entry st' q' entry' :
  r_pass4_edges elf es i live st q entry = Ok (st', q', entry') →
  livein_only st st' ∧
  (∀ e nl t, e ∈ es → f_edge_live elf i live e st' = Ok nl →
     get_insn st' (edge_i e) = Ok t → mask_subset nl (f_livein t)) ∧
  (∀ (j : nat) r r', rinsns st !! j = Some r → rinsns st' !! j = Some r' →
     f_livein r' ≠ f_livein r → ∃ e, e ∈ es ∧ edge_i e = Z.of_nat j) ∧
  (entry' = true ↔
   entry = true ∨ ∃ e, e ∈ es ∧ function_exit e = false ∧ function_entry e = true).
Proof.
  revert st q entry. induction es as [|e0 es IH]; intros st q entry E;
    cbn [r_pass4_edges] in E.
  - injection E as <- <- <-. split; [apply livein_only_refl|]. split; [|split].
    + intros e nl t He. by apply elem_of_nil in He.
    + intros j r r' Hj Hj' Hne. rewrite Hj in Hj'. by injection Hj' as <-.
    + split; [by left|]. intros [?|(e & He & _)]; [done|by apply elem_of_nil in He].
  - ok_step E nl0 Hnl0. cbv zeta in E. ok_step E p Hp. destruct p as [s1 q1].
    destruct (f_propagate_crosses _ _ _ _ _ _ Hp) as (G1 & T1 & C1).
    destruct (IH _ _ _ E) as (G2 & T2 & C2 & En).
    split; [by eapply livein_only_trans|]. split; [|split].
    + intros e nl t [->|He]%elem_of_cons Hnl Ht; [|by eapply T2].
      rewrite (f_edge_live_livein_only _ _ _ st st') in Hnl
        by (by eapply livein_only_trans).
      rewrite Hnl0 in Hnl. injection Hnl as <-.
      destruct (livein_only_get _ _ _ _ G2 Ht) as (t1 & m & Ht1 & -> & M).
      eapply mask_subset_trans; [by apply T1|exact M].
    + intros j r r' Hj Hj' Hne.
      destruct (f_livein_changed _ _ _ _ _ _ G1 Hj Hj' Hne) as (r2 & Hj2 & [Hc|Hc]).
      * exists e0. split; [left|]. symmetry. by eapply C1.
      * destruct (C2 j r2 r' Hj2 Hj' Hc) as (e & He & Hi). exists e. split; [by right|done].
    + rewrite En, orb_true_iff, andb_true_iff, negb_true_iff. split.
      * intros [[?|[? ?]]|(e & He & Hf)]; [by left|right; exists e0; split; [left|done]|].
        right. exists e. split; [by right|done].
      * intros [?|(e & [->|He]%elem_of_cons & Hx & Hn)]; [by left; left|by left; right|].
        right. by exists e.
Qed.

(** One turn of the forward loop, at the record [ri] of index
    [addr_to_i addr]. *)
Lemma r_pass4_step_crosses addr st q st' q' ri :
  r_pass4_step elf addr st q = Ok (st', q') →
  get_insn st (addr_to_i elf addr) = Ok ri →
  edges_kept st st' ∧
  (∀ (j : nat) r r', rinsns st !! j = Some r → rinsns st' !! j = Some r' →
     f_livein r' ≠ f_livein r →
     over_successors ri (Z.of_nat j)
     ∨ (Z.of_nat j = addr_to_i elf addr + 1 ∧ skips_call_forward ri)) ∧
  (∀ ri', get_insn st' (addr_to_i elf addr) = Ok ri' → f_liveout ri' ≠ f_liveout ri →
     (∀ e nl t, e ∈ successors ri →
        f_edge_live elf (addr_to_i elf addr) (f_liveout ri') e st' = Ok nl →
        get_insn st' (edge_i e) = Ok t → mask_subset nl (f_livein t)) ∧
     (skips_call_forward ri →
      ∀ t, get_insn st' (addr_to_i elf addr + 1) = Ok t →
        mask_subset (clear_bits (f_liveout ri') caller_saved) (f_livein t))).
Proof.
  intros E Hri. unfold r_pass4_step in E. cbv zeta in E.
  rewrite Hri, bind_Ok_l in E.
  rewrite (surjective_pairing (r_insn_to_type ri)) in E.
  ok_step E s1 U0.
  set (i := addr_to_i elf addr) in *.
  set (ty := (r_insn_to_type ri).1) in *.
  set (insn := (r_insn_to_type ri).2) in *.
  destruct (r_insn_to_type_masks ri) as (Min & Mout & _ & _ & Msucc & Mpred).
  fold insn in Min, Mout, Msucc, Mpred.
  pose proof (upd_insn_in_range _ _ _ _ U0) as Hirange.
  apply vec_get_Ok in Hri as [_ Hri].
  assert (edges_kept st s1) as K1.
  { apply (upd_insn_edges_kept _ _ _ _ U0). intros r Hr.
    rewrite Hri in Hr. by injection Hr as <-. }
  assert (∀ (j : nat) r, rinsns st !! j = Some r →
            ∃ r1, rinsns s1 !! j = Some r1 ∧ f_livein r1 = f_livein r) as F1.
  { intros j r Hj. rewrite (upd_insn_lookup _ _ _ _ j U0), Hj. cbn.
    destruct (decide (Z.of_nat j = i)) as [Hji|Hji]; [|by exists r].
    exists insn. split; [done|].
    rewrite <- Hji, Nat2Z.id, Hj in Hri. by injection Hri as <-. }
  assert (rinsns s1 !! Z.to_nat i = Some insn) as Hs1.
  { rewrite (upd_insn_lookup _ _ _ _ _ U0), Hri. cbn. by rewrite decide_True by lia. }
  case_bool_decide as Hnew.
  { injection E as <- <-. split; [exact K1|]. split.
    - intros j r r' Hj Hj' Hne. destruct (F1 j r Hj) as (r1 & Hj1 & Hf).
      rewrite Hj' in Hj1. injection Hj1 as <-. done.
    - intros ri' Hri' Hne. apply vec_get_Ok in Hri' as [_ Hri'].
      rewrite Hs1 in Hri'. injection Hri' as <-. done. }
  ok_step E s2 U1.
  set (live := Z.lor (f_transfer ty (instruction insn) (Z.lor (f_livein insn) 1))
                     (f_liveout insn)) in *.
  assert (edges_kept s1 s2) as K2.
  { apply (upd_insn_edges_kept _ _ _ _ U1). by intros r _. }
  assert (∀ (j : nat) r1, rinsns s1 !! j = Some r1 →
            ∃ r2, rinsns s2 !! j = Some r2 ∧ f_livein r2 = f_livein r1) as F2.
  { intros j r Hj. rewrite (upd_insn_lookup _ _ _ _ j U1), Hj. cbn.
    destruct (decide (Z.of_nat j = i)); eexists; (split; [reflexivity|done]). }
  assert (rinsns s2 !! Z.to_nat i = Some (set_f_liveout live insn)) as Hs2.
  { rewrite (upd_insn_lookup _ _ _ _ _ U1), Hs1. cbn. by rewrite decide_True by lia. }
  ok_step E x Hedges. destruct x as [[s3 q3] entry].
  destruct (r_pass4_edges_crosses _ _ _ _ _ _ _ _ _ Hedges) as (G3 & T3 & C3 & En).
  assert (∃ s4, livein_only s3 s4 ∧ st' = s4 ∧
            (∀ (j : nat) r r', rinsns s3 !! j = Some r → rinsns s4 !! j = Some r' →
               f_livein r' ≠ f_livein r → Z.of_nat j = i + 1 ∧ entry = true) ∧
            (entry = true → ∀ t, get_insn s4 (i + 1) = Ok t →
               mask_subset (clear_bits live caller_saved) (f_livein t)))
    as (s4 & G4 & -> & C4 & T4).
  { destruct entry.
    - destruct (f_propagate_crosses _ _ _ _ _ _ E) as (G4 & T4 & C4).
      exists st'. split; [done|]. split; [done|]. split; [|by intros _].
      intros j r r' Hj Hj' Hne. split; [by eapply C4|done].
    - injection E as <- <-. exists s3. split; [apply livein_only_refl|].
      split; [done|]. split; [|done].
      intros j r r' Hj Hj' Hne. rewrite Hj in Hj'. by injection Hj' as <-. }
  assert (livein_only s2 s4) as G24 by (by eapply livein_only_trans).
  assert (entry = true ↔ skips_call_forward ri) as Hentry.
  { rewrite En. unfold skips_call_forward. rewrite <- Msucc. split; [|by right].
    by intros [?|?]. }
  split; [|split].
  - eapply edges_kept_trans; [exact K1|]. eapply edges_kept_trans; [exact K2|].
    by apply livein_only_edges_kept.
  - intros j r r' Hj Hj' Hne.
    destruct (F1 j r Hj) as (r1 & Hj1 & Hf1).
    destruct (F2 j r1 Hj1) as (r2 & Hj2 & Hf2).
    assert (f_livein r' ≠ f_livein r2) as Hne2 by congruence.
    destruct (f_livein_changed _ _ _ _ _ _ G3 Hj2 Hj' Hne2) as (r3 & Hj3 & [Hc|Hc]).
    + left. destruct (C3 j r2 r3 Hj2 Hj3 Hc) as (e & He & Hi).
      exists e. by rewrite <- Msucc.
    + right. destruct (C4 j r3 r' Hj3 Hj' Hc) as [Hi He]. split; [done|].
      by apply Hentry.
  - intros ri' Hri' _.
    destruct (livein_only_get _ _ _ _ G24 Hri') as (t2 & m & Ht2 & -> & _).
    apply vec_get_Ok in Ht2 as [_ Ht2]. rewrite Hs2 in Ht2. injection Ht2 as <-.
    cbn [f_liveout set_f_livein set_f_liveout]. split.
    + intros e nl t He Hnl Ht. rewrite <- Msucc in He.
      rewrite (f_edge_live_livein_only _ _ _ s3 s4 G4) in Hnl.
      destruct (livein_only_get _ _ _ _ G4 Ht) as (t3 & m3 & Ht3 & -> & M3).
      eapply mask_subset_trans; [by eapply T3|exact M3].
    + intros Hskip t Ht. apply T4; [by apply Hentry|done].
Qed.

End ForwardTurn.

(** * What a turn of the backward pass crosses *)

Section BackwardTurn.
Context `{Rabbitizer}.
Variable elf : Elf.

Lemma set_b_liveout_same r : set_b_liveout (b_liveout r) r = r.
Proof. by destruct r. Qed.

Lemma liveout_only_refl st : liveout_only st st.
Proof.
  split; [done|]. intros j r Hj. exists (b_liveout r).
  rewrite set_b_liveout_same. split; [done|apply mask_subset_refl].
Qed.

Lemma liveout_only_trans s1 s2 s3 :
  liveout_only s1 s2 → liveout_only s2 s3 → liveout_only s1 s3.
Proof.
  intros [L1 G1] [L2 G2]. split; [congruence|]. intros j r Hj.
  destruct (G1 j r Hj) as (m1 & Hj1 & M1).
  destruct (G2 j _ Hj1) as (m2 & Hj2 & M2).
  exists m2. split; [exact Hj2|]. by eapply mask_subset_trans.
Qed.

Lemma liveout_only_edges_kept st st' : liveout_only st st' → edges_kept st st'.
Proof.
  intros [L G]. split; [done|]. intros j r Hj.
  destruct (G j r Hj) as (m & Hj' & _). eexists. split; [exact Hj'|]. done.
Qed.

(** A record read after the masks grew is the record read before, with a
    larger [b_liveout]. *)
Lemma liveout_only_get st st' k t' :
  liveout_only st st' → get_insn st' k = Ok t' →
  ∃ t m, get_insn st k = Ok t ∧ t' = set_b_liveout m t ∧ mask_subset (b_liveout t) m.
Proof.
  intros [L G] Ht'. apply vec_get_Ok in Ht' as [Hk Ht'].
  assert (is_Some (rinsns st !! Z.to_nat k)) as [t Ht].
  { apply lookup_lt_is_Some. rewrite <- L. by eapply lookup_lt_Some. }
  destruct (G _ t Ht) as (m & Hm & M). rewrite Ht' in Hm. injection Hm as ->.
  exists t, m. split; [by apply vec_get_Ok|done].
Qed.

Lemma liveout_only_get_eq st st' k :
  liveout_only st st' →
  get_insn st' k = (λ o, match o with
                         | Ok t => get_insn st' k
                         | o => o
                         end) (get_insn st k).
Proof.
  intros [L G]. unfold get_insn, vec_get. case_decide; [|done].
  destruct (rinsns st !! Z.to_nat k) as [t|] eqn:Ht; [done|].
  apply lookup_ge_None in Ht. rewrite <- L in Ht. apply lookup_ge_None in Ht.
  by rewrite Ht.
Qed.

(** [r_insn_to_type] keeps the patch of a record. *)
Lemma r_insn_to_type_patched insn :
  patched (r_insn_to_type insn).2 = patched insn ∧
  patched_addr (r_insn_to_type insn).2 = patched_addr insn.
Proof.
  unfold r_insn_to_type. destruct (uniqueId (instruction insn)); try done.
  cbv zeta. repeat case_match; done.
Qed.

(** What an edge lets through does not depend on the [b_liveout] masks. *)
Lemma b_edge_live_liveout_only i live insn insn' e st st' :
  liveout_only st st' →
  patched insn' = patched insn → patched_addr insn' = patched_addr insn →
  b_edge_live elf i live insn' e st' = b_edge_live elf i live insn e st.
Proof.
  intros G Hp Ha. unfold b_edge_live. rewrite Hp, Ha.
  destruct (function_exit e); [done|]. destruct (function_entry e); [done|].
  destruct (extern_function e); [|done].
  destruct (patched insn); [done|].
  rewrite (liveout_only_get_eq _ _ (i - 2) G).
  destruct (get_insn st (i - 2)) as [p| | |] eqn:Hc; try done.
  destruct (get_insn st' (i - 2)) as [p'| | |] eqn:Hc'.
  - destruct (liveout_only_get _ _ _ _ G Hc') as (t & m & Ht & -> & _).
    rewrite Hc in Ht. injection Ht as <-. done.
  - destruct G as [L G]. apply vec_get_Ok in Hc as [Hk Hc].
    destruct (G _ p Hc) as (m & Hm & _).
    unfold get_insn, vec_get in Hc'. rewrite decide_True, Hm in Hc' by done. done.
  - destruct G as [L G]. apply vec_get_Ok in Hc as [Hk Hc].
    destruct (G _ p Hc) as (m & Hm & _).
    unfold get_insn, vec_get in Hc'. rewrite decide_True, Hm in Hc' by done. done.
  - destruct G as [L G]. apply vec_get_Ok in Hc as [Hk Hc].
    destruct (G _ p Hc) as (m & Hm & _).
    unfold get_insn, vec_get in Hc'. rewrite decide_True, Hm in Hc' by done. done.
Qed.

(** One propagation: only the mask at [k] can change, and afterwards it
    holds [nl]. *)
Lemma b_propagate_crosses k nl st q st' q' :
  b_propagate elf k nl st q = Ok (st', q') →
  liveout_only st st' ∧
  (∀ t, get_insn st' k = Ok t → mask_subset nl (b_liveout t)) ∧
  (∀ (j : nat) r r', rinsns st !! j = Some r → rinsns st' !! j = Some r' →
     b_liveout r' ≠ b_liveout r → Z.of_nat j = k).
Proof.
  intros E. unfold b_propagate, propagate in E. ok_step E t0 Ht0.
  destruct (new_bits (b_liveout t0) nl) eqn:Hnew.
  - ok_step E s1 U. injection E as <- <-.
    pose proof (upd_insn_in_range _ _ _ _ U) as Hk. split; [|split].
    + split; [by eapply upd_insn_length|]. intros j r Hj.
      rewrite (upd_insn_lookup _ _ _ _ j U), Hj. cbn. case_decide.
      * eexists. split; [reflexivity|]. apply mask_subset_lor.
      * exists (b_liveout r). rewrite set_b_liveout_same.
        split; [done|apply mask_subset_refl].
    + intros t Ht. apply vec_get_Ok in Ht as [_ Ht], Ht0 as [_ Ht0].
      rewrite (upd_insn_lookup _ _ _ _ _ U), Ht0 in Ht. cbn in Ht.
      rewrite decide_True in Ht by lia. injection Ht as <-. cbn.
      apply mask_subset_lor_r.
    + intros j r r' Hj Hj' Hne. rewrite (upd_insn_lookup _ _ _ _ j U), Hj in Hj'.
      cbn in Hj'. case_decide; [done|]. by injection Hj' as <-.
  - injection E as <- <-. split; [apply liveout_only_refl|]. split.
    + intros t Ht. rewrite Ht0 in Ht. injection Ht as <-.
      unfold new_bits in Hnew. apply bool_decide_eq_false in Hnew.
      unfold mask_subset. rewrite Z.lor_comm.
      by destruct (decide (Z.lor (b_liveout t0) nl = b_liveout t0)).
    + intros j r r' Hj Hj' Hne. rewrite Hj in Hj'. by injection Hj' as <-.
Qed.

(** A mask that changed from [s1] to [s3] changed on the way to [s2] or
    after it. *)
Lemma b_liveout_changed s1 s2 s3 (j : nat) r r' :
  liveout_only s1 s2 →
  rinsns s1 !! j = Some r → rinsns s3 !! j = Some r' → b_liveout r' ≠ b_liveout r →
  ∃ r2, rinsns s2 !! j = Some r2 ∧ (b_liveout r2 ≠ b_liveout r ∨ b_liveout r' ≠ b_liveout r2).
Proof.
  intros [L G] Hj Hj' Hne. destruct (G j r Hj) as (m & Hm & _).
  eexists. split; [exact Hm|]. cbn.
  destruct (decide (m = b_liveout r)) as [->|]; [by right|by left].
Qed.

Lemma r_pass5_edges_crosses es i live insn st q exit st' q' exit' :
  r_pass5_edges elf es i live insn st q exit = Ok (st', q', exit') →
  liveout_only st st' ∧
  (∀ e insn' nl t, e ∈ es →
     patched insn' = patched insn → patched_addr insn' = patched_addr insn →
     b_edge_live elf i live insn' e st' = Ok nl →
     get_insn st' (edge_i e) = Ok t → mask_subset nl (b_liveout t)) ∧
  (∀ (j : nat) r r', rinsns st !! j = Some r → rinsns st' !! j = Some r' →
     b_liveout r' ≠ b_liveout r → ∃ e, e ∈ es ∧ edge_i e = Z.of_nat j) ∧
  (exit' = true ↔ exit = true ∨ ∃ e, e ∈ es ∧ function_exit e = true).
Proof.
  revert st q exit. induction es as [|e0 es IH]; intros st q exit E;
    cbn [r_pass5_edges] in E.
  - injection E as <- <- <-. split; [apply liveout_only_refl|]. split; [|split].
    + intros e insn' nl t He. by apply elem_of_nil in He.
    + intros j r r' Hj Hj' Hne. rewrite Hj in Hj'. by injection Hj' as <-.
    + split; [by left|]. intros [?|(e & He & _)]; [done|by apply elem_of_nil in He].
  - ok_step E nl0 Hnl0. cbv zeta in E. ok_step E p Hp. destruct p as [s1 q1].
    destruct (b_propagate_crosses _ _ _ _ _ _ Hp) as (G1 & T1 & C1).
    destruct (IH _ _ _ E) as (G2 & T2 & C2 & En).
    split; [by eapply liveout_only_trans|]. split; [|split].
    + intros e insn' nl t [->|He]%elem_of_cons Hpa Hpd Hnl Ht; [|by eapply T2].
      rewrite (b_edge_live_liveout_only _ _ insn insn' _ st st') in Hnl
        by (done || by eapply liveout_only_trans).
      rewrite Hnl0 in Hnl. injection Hnl as <-.
      destruct (liveout_only_get _ _ _ _ G2 Ht) as (t1 & m & Ht1 & -> & M).
      eapply mask_subset_trans; [by apply T1|exact M].
    + intros j r r' Hj Hj' Hne.
      destruct (b_liveout_changed _ _ _ _ _ _ G1 Hj Hj' Hne) as (r2 & Hj2 & [Hc|Hc]).
      * exists e0. split; [left|]. symmetry. by eapply C1.
      * destruct (C2 j r2 r' Hj2 Hj' Hc) as (e & He & Hi). exists e. split; [by right|done].
    + rewrite En, orb_true_iff. split.
      * intros [[?|?]|(e & He & Hf)]; [by left|right; exists e0; split; [left|done]|].
        right. exists e. split; [by right|done].
      * intros [?|(e & [->|He]%elem_of_cons & Hx)]; [by left; left|by left; right|].
        right. by exists e.
Qed.

(** One turn of the backward loop, at the record [ri] of index
    [addr_to_i addr]. *)
Lemma r_pass5_step_crosses addr st q st' q' ri :
  r_pass5_step elf addr st q = Ok (st', q') →
  get_insn st (addr_to_i elf addr) = Ok ri →
  edges_kept st st' ∧
  (∀ (j : nat) r r', rinsns st !! j = Some r → rinsns st' !! j = Some r' →
     b_liveout r' ≠ b_liveout r →
     over_predecessors ri (Z.of_nat j)
     ∨ (Z.of_nat j = addr_to_i elf addr - 1 ∧ skips_call_backward ri)) ∧
  (∀ ri', get_insn st' (addr_to_i elf addr) = Ok ri' → b_livein ri' ≠ b_livein ri →
     (∀ e nl t, e ∈ predecessors ri →
        b_edge_live elf (addr_to_i elf addr) (b_livein ri') ri' e st' = Ok nl →
        get_insn st' (edge_i e) = Ok t → mask_subset nl (b_liveout t)) ∧
     (skips_call_backward ri →
      ∀ t, get_insn st' (addr_to_i elf addr - 1) = Ok t →
        mask_subset (clear_bits (b_livein ri') caller_saved) (b_liveout t))).
Proof.
  intros E Hri. unfold r_pass5_step in E. cbv zeta in E.
  rewrite Hri, bind_Ok_l in E.
  rewrite (surjective_pairing (r_insn_to_type ri)) in E.
  ok_step E s1 U0.
  set (i := addr_to_i elf addr) in *.
  set (ty := (r_insn_to_type ri).1) in *.
  set (insn := (r_insn_to_type ri).2) in *.
  destruct (r_insn_to_type_masks ri) as (_ & _ & Mout & Min & Msucc & Mpred).
  fold insn in Min, Mout, Msucc, Mpred.
  pose proof (upd_insn_in_range _ _ _ _ U0) as Hirange.
  apply vec_get_Ok in Hri as [_ Hri].
  assert (edges_kept st s1) as K1.
  { apply (upd_insn_edges_kept _ _ _ _ U0). intros r Hr.
    rewrite Hri in Hr. by injection Hr as <-. }
  assert (∀ (j : nat) r, rinsns st !! j = Some r →
            ∃ r1, rinsns s1 !! j = Some r1 ∧ b_liveout r1 = b_liveout r) as F1.
  { intros j r Hj. rewrite (upd_insn_lookup _ _ _ _ j U0), Hj. cbn.
    destruct (decide (Z.of_nat j = i)) as [Hji|Hji]; [|by exists r].
    exists insn. split; [done|].
    rewrite <- Hji, Nat2Z.id, Hj in Hri. by injection Hri as <-. }
  assert (rinsns s1 !! Z.to_nat i = Some insn) as Hs1.
  { rewrite (upd_insn_lookup _ _ _ _ _ U0), Hri. cbn. by rewrite decide_True by lia. }
  case_bool_decide as Hnew.
  { injection E as <- <-. split; [exact K1|]. split.
    - intros j r r' Hj Hj' Hne. destruct (F1 j r Hj) as (r1 & Hj1 & Hf).
      rewrite Hj' in Hj1. injection Hj1 as <-. done.
    - intros ri' Hri' Hne. apply vec_get_Ok in Hri' as [_ Hri'].
      rewrite Hs1 in Hri'. injection Hri' as <-. done. }
  ok_step E s2 U1.
  set (live := Z.lor (b_transfer ty (instruction insn) (Z.lor (b_liveout insn) 1))
                     (b_livein insn)) in *.
  assert (edges_kept s1 s2) as K2.
  { apply (upd_insn_edges_kept _ _ _ _ U1). by intros r _. }
  assert (∀ (j : nat) r1, rinsns s1 !! j = Some r1 →
            ∃ r2, rinsns s2 !! j = Some r2 ∧ b_liveout r2 = b_liveout r1) as F2.
  { intros j r Hj. rewrite (upd_insn_lookup _ _ _ _ j U1), Hj. cbn.
    destruct (decide (Z.of_nat j = i)); eexists; (split; [reflexivity|done]). }
  assert (rinsns s2 !! Z.to_nat i = Some (set_b_livein live insn)) as Hs2.
  { rewrite (upd_insn_lookup _ _ _ _ _ U1), Hs1. cbn. by rewrite decide_True by lia. }
  ok_step E x Hedges. destruct x as [[s3 q3] exit].
  destruct (r_pass5_edges_crosses _ _ _ _ _ _ _ _ _ _ Hedges) as (G3 & T3 & C3 & En).
  assert (∃ s4, liveout_only s3 s4 ∧ st' = s4 ∧
            (∀ (j : nat) r r', rinsns s3 !! j = Some r → rinsns s4 !! j = Some r' →
               b_liveout r' ≠ b_liveout r → Z.of_nat j = i - 1 ∧ exit = true) ∧
            (exit = true → ∀ t, get_insn s4 (i - 1) = Ok t →
               mask_subset (clear_bits live caller_saved) (b_liveout t)))
    as (s4 & G4 & -> & C4 & T4).
  { destruct exit.
    - destruct (b_propagate_crosses _ _ _ _ _ _ E) as (G4 & T4 & C4).
      exists st'. split; [done|]. split; [done|]. split; [|by intros _].
      intros j r r' Hj Hj' Hne. split; [by eapply C4|done].
    - injection E as <- <-. exists s3. split; [apply liveout_only_refl|].
      split; [done|]. split; [|done].
      intros j r r' Hj Hj' Hne. rewrite Hj in Hj'. by injection Hj' as <-. }
  assert (liveout_only s2 s4) as G24 by (by eapply liveout_only_trans).
  assert (exit = true ↔ skips_call_backward ri) as Hexit.
  { rewrite En. unfold skips_call_backward. rewrite <- Mpred. split; [|by right].
    by intros [?|?]. }
  split; [|split].
  - eapply edges_kept_trans; [exact K1|]. eapply edges_kept_trans; [exact K2|].
    by apply liveout_only_edges_kept.
  - intros j r r' Hj Hj' Hne.
    destruct (F1 j r Hj) as (r1 & Hj1 & Hf1).
    destruct (F2 j r1 Hj1) as (r2 & Hj2 & Hf2).
    assert (b_liveout r' ≠ b_liveout r2) as Hne2 by congruence.
    destruct (b_liveout_changed _ _ _ _ _ _ G3 Hj2 Hj' Hne2) as (r3 & Hj3 & [Hc|Hc]).
    + left. destruct (C3 j r2 r3 Hj2 Hj3 Hc) as (e & He & Hi).
      exists e. by rewrite <- Mpred.
    + right. destruct (C4 j r3 r' Hj3 Hj' Hc) as [Hi He]. split; [done|].
      by apply Hexit.
  - intros ri' Hri' _.
    destruct (liveout_only_get _ _ _ _ G24 Hri') as (t2 & m & Ht2 & -> & _).
    apply vec_get_Ok in Ht2 as [_ Ht2]. rewrite Hs2 in Ht2. injection Ht2 as <-.
    cbn [b_livein set_b_liveout set_b_livein]. split.
    + intros e nl t He Hnl Ht. rewrite <- Mpred in He.
      rewrite (b_edge_live_liveout_only _ _ insn _ _ s3 s4 G4) in Hnl by done.
      destruct (liveout_only_get _ _ _ _ G4 Ht) as (t3 & m3 & Ht3 & -> & M3).
      eapply mask_subset_trans; [by eapply (T3 e insn)|exact M3].
    + intros Hskip t Ht. apply T4; [by apply Hexit|done].
Qed.

End BackwardTurn.

(** * The edge lists and the two passes *)

Section EdgesAndPasses.
Context `{Rabbitizer}.
Variable elf : Elf.

(** C10, amended. [r_add_edge] appends exactly one successor entry at
    [from] and one predecessor entry at [to], with the same four tags; so
    after [r_pass3], run on a vector without edges, the two lists are exact
    mirrors: the edge [i → j] with given tags occurs among the successors of
    [i] as often as [j ← i] with the same tags occurs among the predecessors
    of [j] (in particular, the one is there iff the other is), and every
    edge ends inside the vector. A turn of the forward pass at [i] keeps
    the edge lists; when it adds bits to the [f_liveout] of [i] it sends
    what each successor edge of [i] lets through to the edge's target, and,
    when [i] has a successor edge into a function, what a call keeps to
    [i + 1]: a pair that is in no edge list. It changes no [f_livein]
    anywhere else. A turn of the backward pass at [i] keeps the edge lists;
    when it adds bits to the [b_livein] of [i] it sends what each
    predecessor edge of [i] lets through to the edge's source, and, when [i]
    has a predecessor edge out of a function, what a call keeps to [i - 1].
    It changes no [b_liveout] anywhere else. *)
Theorem r_pass3_edges_mirror (st st' : State) :
  (∀ r, r ∈ rinsns st → successors r = [] ∧ predecessors r = []) →
  r_pass3 elf st = Ok st' →
  (∀ from to a b c d s s',
     r_add_edge from to a b c d s = Ok s' →
     ∃ rf rt rf' rt',
       rinsns s !! Z.to_nat from = Some rf ∧ rinsns s !! Z.to_nat to = Some rt ∧
       rinsns s' !! Z.to_nat from = Some rf' ∧ rinsns s' !! Z.to_nat to = Some rt' ∧
       successors rf' = successors rf ++ [mkEdge to a b c d] ∧
       predecessors rt' = predecessors rt ++ [mkEdge from a b c d]) ∧
  (∀ (i j : nat) ri rj a b c d,
     rinsns st' !! i = Some ri → rinsns st' !! j = Some rj →
     edge_count (mkEdge (Z.of_nat j) a b c d) (successors ri)
       = edge_count (mkEdge (Z.of_nat i) a b c d) (predecessors rj)
     ∧ (mkEdge (Z.of_nat j) a b c d ∈ successors ri
        ↔ mkEdge (Z.of_nat i) a b c d ∈ predecessors rj)) ∧
  (∀ (i : nat) ri e,
     rinsns st' !! i = Some ri → e ∈ successors ri ∨ e ∈ predecessors ri →
     0 ≤ edge_i e < vec_size (rinsns st')) ∧
  (∀ addr s q s' q' ri,
     r_pass4_step elf addr s q = Ok (s', q') →
     get_insn s (addr_to_i elf addr) = Ok ri →
     edges_kept s s' ∧
     (∀ (j : nat) r r', rinsns s !! j = Some r → rinsns s' !! j = Some r' →
        f_livein r' ≠ f_livein r →
        over_successors ri (Z.of_nat j)
        ∨ (Z.of_nat j = addr_to_i elf addr + 1 ∧ skips_call_forward ri)) ∧
     (∀ ri', get_insn s' (addr_to_i elf addr) = Ok ri' →
        f_liveout ri' ≠ f_liveout ri →
        (∀ e nl t, e ∈ successors ri →
           f_edge_live elf (addr_to_i elf addr) (f_liveout ri') e s' = Ok nl →
           get_insn s' (edge_i e) = Ok t → mask_subset nl (f_livein t)) ∧
        (skips_call_forward ri →
         ∀ t, get_insn s' (addr_to_i elf addr + 1) = Ok t →
           mask_subset (clear_bits (f_liveout ri') caller_saved) (f_livein t)))) ∧
  (∀ addr s q s' q' ri,
     r_pass5_step elf addr s q = Ok (s', q') →
     get_insn s (addr_to_i elf addr) = Ok ri →
     edges_kept s s' ∧
     (∀ (j : nat) r r', rinsns s !! j = Some r → rinsns s' !! j = Some r' →
        b_liveout r' ≠ b_liveout r →
        over_predecessors ri (Z.of_nat j)
        ∨ (Z.of_nat j = addr_to_i elf addr - 1 ∧ skips_call_backward ri)) ∧
     (∀ ri', get_insn s' (addr_to_i elf addr) = Ok ri' →
        b_livein ri' ≠ b_livein ri →
        (∀ e nl t, e ∈ predecessors ri →
           b_edge_live elf (addr_to_i elf addr) (b_livein ri') ri' e s' = Ok nl →
           get_insn s' (edge_i e) = Ok t → mask_subset nl (b_liveout t)) ∧
        (skips_call_backward ri →
         ∀ t, get_insn s' (addr_to_i elf addr - 1) = Ok t →
           mask_subset (clear_bits (b_livein ri') caller_saved) (b_liveout t)))).
Proof.
  intros Hempty E.
  destruct (r_pass3_mirror_lists elf st st' Hempty E) as (A & M & R).
  split; [exact A|]. split; [exact M|]. split; [exact R|]. split.
  - intros addr s q s' q' ri Hstep Hri.
    exact (r_pass4_step_crosses elf addr s q s' q' ri Hstep Hri).
  - intros addr s q s' q' ri Hstep Hri.
    exact (r_pass5_step_crosses elf addr s q s' q' ri Hstep Hri).
Qed.

End EdgesAndPasses.

(** * Signature inference *)

Section Signature.
Context `{Rabbitizer}.
Variable elf : Elf.

Lemma some_return_live_true st reg rets :
  some_return_live elf st reg rets = true ↔
  ∃ ret, ret ∈ rets ∧ live_out_both elf st reg ret = true.
Proof.
  unfold some_return_live. rewrite existsb_exists. split.
  - intros (ret & Hin & Hl). exists ret. split; [|done].
    by apply list_elem_of_In.
  - intros (ret & Hin & Hl). exists ret. split; [|done].
    by apply list_elem_of_In.
Qed.

Lemma some_return_live_false st reg rets :
  some_return_live elf st reg rets = false ↔
  ∀ ret, ret ∈ rets → live_out_both elf st reg ret = false.
Proof.
  split.
  - intros Hs ret Hin. destruct (live_out_both elf st reg ret) eqn:E; [|done].
    rewrite <- Hs. symmetry. apply some_return_live_true. eauto.
  - intros Hall. destruct (some_return_live elf st reg rets) eqn:E; [|done].
    apply some_return_live_true in E as (ret & Hin & Hl).
    rewrite (Hall ret Hin) in Hl. done.
Qed.

Lemma some_return_live_cons st reg ret rets i :
  get_insn st (addr_to_i elf ret) = Ok i →
  some_return_live elf st reg (ret :: rets) =
  live_both (f_liveout i) (b_liveout i) reg || some_return_live elf st reg rets.
Proof.
  intros Hi. unfold some_return_live. cbn [existsb].
  unfold live_out_both at 1. by rewrite Hi.
Qed.

(** The loop over the returns, for any starting value of [nret]. *)
Lemma r_pass6_returns_spec rets st n0 n :
  r_pass6_returns elf rets st n0 = Ok n →
  n = if some_return_live elf st RABBITIZER_REG_GPR_O32_v1 rets then 2
      else if bool_decide (n0 = 0)
           then (if some_return_live elf st RABBITIZER_REG_GPR_O32_v0 rets then 1 else 0)
           else n0.
Proof.
  revert n0 n. induction rets as [|ret rets IH]; intros n0 n E.
  - cbn [r_pass6_returns] in E. injection E as <-.
    cbn. by case_bool_decide.
  - cbn [r_pass6_returns] in E. ok_step E i Hi.
    apply IH in E. subst n.
    rewrite !(some_return_live_cons _ _ _ _ _ Hi).
    destruct (live_both _ _ RABBITIZER_REG_GPR_O32_v1);
      destruct (live_both _ _ RABBITIZER_REG_GPR_O32_v0);
      destruct (some_return_live elf st RABBITIZER_REG_GPR_O32_v1 rets);
      destruct (some_return_live elf st RABBITIZER_REG_GPR_O32_v0 rets);
      cbn [orb andb]; repeat case_bool_decide; try done; try lia.
Qed.

(** The loop over [$a0..$a3]: the last live one decides. *)
Lemma r_pass6_nargs_spec insn n0 :
  let live i := live_both (f_livein insn) (b_livein insn) (RABBITIZER_REG_GPR_O32_a0 + i) in
  (∀ i, 0 ≤ i < 4 → live i = true →
        (∀ j, i < j < 4 → live j = false) →
        r_pass6_nargs 4 0 insn n0 = 1 + i) ∧
  ((∀ i, 0 ≤ i < 4 → live i = false) → r_pass6_nargs 4 0 insn n0 = n0).
Proof.
  intros live. cbn [r_pass6_nargs]. change (0 + 1) with 1.
  change (1 + 1) with 2. change (2 + 1) with 3.
  fold (live 0). fold (live 1). fold (live 2). fold (live 3).
  split.
  - intros i Hi Hl Hmax.
    assert (i = 0 ∨ i = 1 ∨ i = 2 ∨ i = 3) as [->|[->|[->| ->]]] by lia.
    + rewrite Hl, (Hmax 1), (Hmax 2), (Hmax 3) by lia. done.
    + rewrite Hl, (Hmax 2), (Hmax 3) by lia. done.
    + rewrite Hl, (Hmax 3) by lia. done.
    + rewrite Hl. done.
  - intros Hnone.
    rewrite (Hnone 0), (Hnone 1), (Hnone 2), (Hnone 3) by lia. done.
Qed.

Lemma r_pass6_function_Ok st addr f f' :
  r_pass6_function elf st addr f = Ok f' →
  ∃ n entry,
    r_pass6_returns elf (returns f) st (nret f) = Ok n ∧
    get_insn st (addr_to_i elf addr) = Ok entry ∧
    f' = mkFunction (returns f) (end_addr f)
           (r_pass6_nargs 4 0 entry (nargs f)) n
           (live_both (f_livein entry) (b_livein entry) RABBITIZER_REG_GPR_O32_v0
            && negb (referenced_by_function_pointer f))
           (referenced_by_function_pointer f).
Proof.
  unfold r_pass6_function. intros E.
  ok_step E n Hn. ok_step E entry He.
  injection E as <-. exists n, entry. split; [done|]. split; [|done].
  unfold get_insn. destruct (vec_get _ _); done.
Qed.

Lemma r_pass6_loop_spec fs st fs' :
  r_pass6_loop elf fs st = Ok fs' →
  fs'.*1 = fs.*1 ∧
  ∀ addr f, (addr, f) ∈ fs →
    ∃ f', (addr, f') ∈ fs' ∧ r_pass6_function elf st addr f = Ok f'.
Proof.
  revert fs'. induction fs as [|[a g] fs IH]; intros fs' E.
  - cbn [r_pass6_loop] in E. injection E as <-. split; [done|].
    intros addr f Hin. by apply elem_of_nil in Hin.
  - cbn [r_pass6_loop] in E. ok_step E g' Hg. ok_step E rest Hr.
    injection E as <-. destruct (IH _ Hr) as [Hk Hall].
    split; [cbn; by rewrite Hk|].
    intros addr f Hin. apply elem_of_cons in Hin as [Heq|Hin].
    + injection Heq as -> ->. exists g'. split; [left|done].
    + destruct (Hall _ _ Hin) as (f' & Hin' & Hf). exists f'.
      split; [by right|done].
Qed.

(** The pass rewrites every record of the table, and nothing else. *)
Lemma r_pass6_functions st st' addr f :
  r_pass6 elf st = Ok st' →
  functions st !! addr = Some f →
  rinsns st' = rinsns st ∧
  ∃ f', functions st' !! addr = Some f' ∧ r_pass6_function elf st addr f = Ok f'.
Proof.
  unfold r_pass6. intros E Hf. ok_step E fs Hfs. injection E as <-.
  split; [done|].
  destruct (r_pass6_loop_spec _ _ _ Hfs) as [Hk Hall].
  destruct (Hall addr f) as (f' & Hin & Hf'); [by apply elem_of_map_to_list|].
  exists f'. split; [|done].
  cbn. apply elem_of_list_to_map; [|done].
  rewrite Hk. apply NoDup_fst_map_to_list.
Qed.

Lemma live_out_both_rinsns st st' reg a :
  rinsns st' = rinsns st →
  live_out_both elf st' reg a = live_out_both elf st reg a.
Proof. unfold live_out_both, get_insn. by intros ->. Qed.

Lemma some_return_live_rinsns st st' reg rets :
  rinsns st' = rinsns st →
  some_return_live elf st' reg rets = some_return_live elf st reg rets.
Proof.
  intros Hr. unfold some_return_live.
  induction rets as [|r rs IH]; cbn; [done|].
  by rewrite (live_out_both_rinsns st st' reg r Hr), IH.
Qed.

(** C6. For a function entered with [nret = 0] (every record starts as
    [Function()], and only this pass writes the field), [r_pass6] leaves
    [nret = 2] if some return has [$v1] live in both liveout masks, else
    [1] if some return has [$v0] live in both, else [0]; [nargs = 1 + i]
    for the highest [i] in 0..3 with [$a(i)] live in both livein masks at
    the entry instruction (and the old [nargs] if there is none); and
    [v0_in] is set exactly when [$v0] is live in both masks at entry and
    the function is not referenced by a function pointer. *)
Theorem r_pass6_signature st st' addr f :
  r_pass6 elf st = Ok st' →
  functions st !! addr = Some f →
  nret f = 0 →
  ∃ f' entry,
    functions st' !! addr = Some f' ∧
    get_insn st (addr_to_i elf addr) = Ok entry ∧
    let live_in reg := live_both (f_livein entry) (b_livein entry) reg in
    nret f' =
      (if some_return_live elf st RABBITIZER_REG_GPR_O32_v1 (returns f) then 2
       else if some_return_live elf st RABBITIZER_REG_GPR_O32_v0 (returns f) then 1
       else 0) ∧
    (∀ i, 0 ≤ i < 4 →
          live_in (RABBITIZER_REG_GPR_O32_a0 + i) = true →
          (∀ j, i < j < 4 → live_in (RABBITIZER_REG_GPR_O32_a0 + j) = false) →
          nargs f' = 1 + i) ∧
    ((∀ i, 0 ≤ i < 4 → live_in (RABBITIZER_REG_GPR_O32_a0 + i) = false) →
     nargs f' = nargs f) ∧
    (v0_in f' = true ↔
     live_in RABBITIZER_REG_GPR_O32_v0 = true ∧
     referenced_by_function_pointer f = false).
Proof.
  intros E Hf Hn0.
  destruct (r_pass6_functions _ _ _ _ E Hf) as (_ & f' & Hf' & Hfun).
  apply r_pass6_function_Ok in Hfun as (n & entry & Hret & Hentry & ->).
  eexists _, entry. split; [exact Hf'|]. split; [exact Hentry|].
  cbv zeta. cbn [nret nargs v0_in].
  apply r_pass6_returns_spec in Hret. rewrite Hn0 in Hret.
  rewrite bool_decide_eq_true_2 in Hret by done.
  split; [exact Hret|].
  destruct (r_pass6_nargs_spec entry (nargs f)) as [Hmax Hnone].
  split; [exact Hmax|]. split; [exact Hnone|].
  rewrite andb_true_iff, negb_true_iff. done.
Qed.

(** C3, as the code has it. For a function entered with [nret = 0] and
    left with [nret = 1], some return of the function has [$v0] in the
    intersection of its forward and backward liveout masks, and no return
    has [$v1] there. The other returns need not have [$v0]. *)
Theorem r_pass6_nret_one st st' addr f f' :
  r_pass6 elf st = Ok st' →
  functions st !! addr = Some f →
  nret f = 0 →
  functions st' !! addr = Some f' →
  nret f' = 1 →
  (∃ ret, ret ∈ returns f' ∧
          live_out_both elf st' RABBITIZER_REG_GPR_O32_v0 ret = true) ∧
  (∀ ret, ret ∈ returns f' →
          live_out_both elf st' RABBITIZER_REG_GPR_O32_v1 ret = false).
Proof.
  intros E Hf Hn0 Hf' Hn1.
  destruct (r_pass6_functions _ _ _ _ E Hf) as (Hr & g & Hg & Hfun).
  rewrite Hf' in Hg. injection Hg as <-.
  apply r_pass6_function_Ok in Hfun as (n & entry & Hret & _ & ->).
  cbn [nret returns] in *. subst n.
  apply r_pass6_returns_spec in Hret. rewrite Hn0 in Hret.
  rewrite bool_decide_eq_true_2 in Hret by done.
  rewrite <- (some_return_live_rinsns st st') in Hret by done.
  rewrite <- (some_return_live_rinsns st st' RABBITIZER_REG_GPR_O32_v0) in Hret by done.
  destruct (some_return_live elf st' RABBITIZER_REG_GPR_O32_v1 (returns f)) eqn:E1;
    [discriminate|].
  destruct (some_return_live elf st' RABBITIZER_REG_GPR_O32_v0 (returns f)) eqn:E0;
    [|discriminate].
  split.
  - by apply some_return_live_true.
  - by apply some_return_live_false.
Qed.

End Signature.

(** * The liveness annotation of the lowerer *)

Lemma skip_line_length s : (String.length (skip_line s) ≤ String.length s)%nat.
Proof.
  induction s as [|c s IH]; cbn [skip_line]; [done|].
  case_bool_decide; cbn [String.length]; lia.
Qed.

Lemma skip_line_app s r : one_line s = true → skip_line (s +:+ r) = skip_line r.
Proof.
  induction s as [|c s IH]; intros Hs; [done|].
  cbn [one_line] in Hs. apply andb_true_iff in Hs as [Hc Hs].
  apply negb_true_iff, bool_decide_eq_false in Hc.
  change (String c s +:+ r) with (String c (s +:+ r)). cbn [skip_line].
  rewrite bool_decide_eq_false_2 by done. by apply IH.
Qed.

Lemma one_line_app s r : one_line s = true → one_line r = true → one_line (s +:+ r) = true.
Proof.
  induction s as [|c s IH]; intros Hs Hr; [done|].
  cbn [one_line] in Hs. apply andb_true_iff in Hs as [Hc Hs].
  change (String c s +:+ r) with (String c (s +:+ r)). cbn [one_line].
  rewrite Hc. by apply IH.
Qed.

Lemma hex_digit_not_newline d : hex_digit d ≠ newline.
Proof.
  destruct d as [|p|p]; [done| |done].
  do 4 (destruct p as [p|p|]; try done).
Qed.

Lemma one_line_hex_digits fuel n acc :
  one_line acc = true → one_line (hex_digits fuel n acc) = true.
Proof.
  revert n acc. induction fuel as [|fuel IH]; intros n acc Hacc; [done|].
  cbn [hex_digits].
  assert (one_line (String (hex_digit (n `mod` 16)) acc) = true) as Hd.
  { cbn [one_line]. rewrite Hacc.
    rewrite bool_decide_eq_false_2 by apply hex_digit_not_newline. done. }
  case_bool_decide; [done|]. by apply IH.
Qed.

Lemma one_line_hex n : one_line (hex n) = true.
Proof. by apply one_line_hex_digits. Qed.

(** More fuel than the length of the text changes nothing. *)
Lemma strip_comments_fuel n m s :
  (String.length s ≤ n)%nat → (String.length s ≤ m)%nat →
  strip_comments n s = strip_comments m s.
Proof.
  revert m s. induction n as [|n IH]; intros m s Hn Hm.
  - destruct s; [|cbn in Hn; lia]. by destruct m.
  - destruct m as [|m]; [destruct s; [done|cbn in Hm; lia]|].
    destruct s as [|c [|c' s]]; [done|done|].
    cbn [strip_comments]. cbn [String.length] in Hn, Hm.
    pose proof (skip_line_length s).
    destruct (bool_decide (c = slash) && bool_decide (c' = slash)).
    + apply IH; lia.
    + f_equal. apply IH; cbn [String.length]; lia.
Qed.

Lemma string_length_app_r c s : (String.length s ≤ String.length (c +:+ s))%nat.
Proof.
  induction c as [|a c IH]; [done|].
  change (String a c +:+ s) with (String a (c +:+ s)). cbn [String.length]. lia.
Qed.

Lemma strip_comments_slashes n s :
  strip_comments (S n) (String slash (String slash s)) = strip_comments n (skip_line s).
Proof. reflexivity. Qed.

(** A [//] comment without a newline swallows what follows, up to the end
    of the line. *)
Lemma line_comment_swallows c s :
  one_line c = true →
  compiled_text ("//" +:+ c +:+ s) = compiled_text (skip_line s).
Proof.
  intros Hc. unfold compiled_text.
  change ("//" +:+ c +:+ s) with (String slash (String slash (c +:+ s))).
  cbn [String.length]. rewrite strip_comments_slashes.
  rewrite skip_line_app by done.
  pose proof (skip_line_length s).
  pose proof (string_length_app_r c s).
  apply strip_comments_fuel; [lia|done].
Qed.

Section Lowering.
Context `{Rabbitizer}.
Variable elf : Elf.
Variable conservative : bool.
Variable r_dump_instr_other : Z → State → Outcome string.

Lemma fdead_swallows insn s :
  compiled_text (fdead insn +:+ s) = compiled_text (skip_line s).
Proof.
  unfold fdead.
  change (("// fdead " +:+ hex (f_livein insn) +:+ " ") +:+ s)
    with ("//" +:+ (" fdead " +:+ hex (f_livein insn) +:+ " ") +:+ s).
  apply line_comment_swallows.
  apply (one_line_app " fdead "); [done|].
  apply one_line_app; [apply one_line_hex|done].
Qed.

Lemma bdead_swallows insn s :
  compiled_text (bdead insn +:+ s) = compiled_text (skip_line s).
Proof.
  unfold bdead.
  change (("// bdead " +:+ hex (b_liveout insn) +:+ " ") +:+ s)
    with ("//" +:+ (" bdead " +:+ hex (b_liveout insn) +:+ " ") +:+ s).
  apply line_comment_swallows.
  apply (one_line_app " bdead "); [done|].
  apply one_line_app; [apply one_line_hex|done].
Qed.

(** The first [switch] prints nothing, or one of the two annotations. *)
Lemma dead_comment_cases ty insn :
  dead_comment ty insn = "" ∨
  dead_comment ty insn = fdead insn ∨
  dead_comment ty insn = bdead insn.
Proof.
  unfold dead_comment. cbv zeta.
  destruct ty; repeat case_bool_decide;
    lazymatch goal with
    | |- fdead _ = _ ∨ _ => right; left; exact eq_refl
    | |- bdead _ = _ ∨ _ => right; right; exact eq_refl
    | |- _ => left; exact eq_refl
    end.
Qed.

(** C4, as the code has it. [r_dump_instr] prints the symbol line, then
    the annotation, then the statement. The annotation is printed only for
    an instruction that is not a jump and only without [--conservative];
    it is [// fdead <mask> ] or [// bdead <mask> ] as the tests of the
    first [switch] decide, and it has no newline. So the annotation is not
    diagnostic only: the statement starts on the line of the comment, and
    of annotation and statement together the compiler sees only what
    follows the first line of the statement. *)
Theorem r_dump_instr_annotation i st out st' :
  r_dump_instr elf conservative r_dump_instr_other i st = Ok (out, st') →
  ∃ insn insn' symbol_line comment statement,
    get_insn st i = Ok insn ∧
    get_insn st' i = Ok insn' ∧
    r_dump_statement r_dump_instr_other i insn' st' = Ok statement ∧
    out = symbol_line +:+ comment +:+ statement ∧
    (RabbitizerInstrDescriptor_isJump (descriptor (instruction insn)) = true
     ∨ conservative = true → comment = "") ∧
    (RabbitizerInstrDescriptor_isJump (descriptor (instruction insn)) = false →
     conservative = false →
     insn' = (r_insn_to_type insn).2 ∧
     comment = dead_comment (r_insn_to_type insn).1 insn') ∧
    (comment = "" ∨ comment = fdead insn' ∨ comment = bdead insn') ∧
    (comment ≠ "" →
     compiled_text (comment +:+ statement) = compiled_text (skip_line statement)).
Proof.
  unfold r_dump_instr. intros E.
  ok_step E insn Hi. ok_step E p Hp. destruct p as [comment st1].
  ok_step E insn' Hi'. ok_step E statement Hs. injection E as <- <-.
  exists insn, insn'. eexists _, comment, statement.
  split; [exact Hi|]. split; [exact Hi'|]. split; [exact Hs|].
  split; [reflexivity|].
  destruct (RabbitizerInstrDescriptor_isJump (descriptor (instruction insn))) eqn:Hj;
    [|destruct conservative eqn:Hc]; cbn [negb andb] in Hp.
  - injection Hp as <- <-.
    split; [done|]. split; [done|]. split; [by left|done].
  - injection Hp as <- <-.
    split; [done|]. split; [done|]. split; [by left|done].
  - destruct (r_insn_to_type insn) as [ty insn2] eqn:Ht.
    ok_step Hp st2 Hu. injection Hp as <- <-.
    apply upd_insn_Ok in Hu as (a & Hk & Ha & ->).
    apply vec_get_Ok in Hi' as [_ Hi']. cbn in Hi'.
    rewrite list_lookup_insert_eq in Hi' by (by eapply lookup_lt_Some).
    injection Hi' as <-. cbn [fst snd].
    split; [intros [?|?]; done|]. split; [done|].
    split; [apply dead_comment_cases|].
    intros Hne.
    destruct (dead_comment_cases ty insn2) as [He|[He|He]]; [done| |];
      rewrite He.
    + apply fdead_swallows.
    + apply bdead_swallows.
Qed.

End Lowering.

(** * Byte order *)

Lemma land_byte (x : Z) : Z.land x 255 = x `mod` 256.
Proof. change 255 with (Z.ones 8). by rewrite Z.land_ones. Qed.

Lemma land_shifted_byte (x k : Z) :
  0 ≤ k → Z.land x (Z.shiftl 255 k) = Z.shiftl (Z.land (Z.shiftr x k) 255) k.
Proof.
  intros Hk. apply Z.bits_inj'. intros n Hn.
  rewrite Z.land_spec. destruct (decide (n < k)) as [Hlt|Hge].
  - rewrite !Z.shiftl_spec_low by done. by rewrite andb_false_r.
  - rewrite !Z.shiftl_spec by done. rewrite Z.land_spec, Z.shiftr_spec by lia.
    do 2 f_equal. lia.
Qed.

Lemma byte_of_word (x k : Z) :
  0 ≤ k → Z.land (Z.shiftr x k) 255 = (x / 2 ^ k) `mod` 256.
Proof. intros Hk. by rewrite land_byte, Z.shiftr_div_pow2. Qed.

(** [u32be] as arithmetic on the four bytes. *)
Lemma u32be_bytes (x : Z) :
  is_u32 x →
  u32be x = (x `mod` 256) * 2 ^ 24 + ((x / 2 ^ 8) `mod` 256) * 2 ^ 16
            + ((x / 2 ^ 16) `mod` 256) * 2 ^ 8 + x / 2 ^ 24.
Proof.
  intros Hx. unfold is_u32 in Hx. unfold u32be, u32.
  change 0xff00 with (Z.shiftl 255 8). change 0xff0000 with (Z.shiftl 255 16).
  rewrite !land_shifted_byte by lia. change 0xff with 255.
  rewrite !byte_of_word by lia. rewrite land_byte.
  rewrite !Z.shiftl_mul_pow2, !Z.shiftr_div_pow2 by lia.
  rewrite (Z.mod_small x (2 ^ 32)) by lia.
  assert (0 ≤ x / 2 ^ 24 < 256)
    by (split; [apply Z.div_pos|apply Z.div_lt_upper_bound]; lia).
  pose proof (Z.mod_pos_bound x 256).
  pose proof (Z.mod_pos_bound (x / 2 ^ 8) 256).
  pose proof (Z.mod_pos_bound (x / 2 ^ 16) 256).
  generalize dependent (x / 2 ^ 24). generalize dependent (x `mod` 256).
  generalize dependent ((x / 2 ^ 8) `mod` 256).
  generalize dependent ((x / 2 ^ 16) `mod` 256).
  intros c Hc b Hb a Ha d Hd.
  change (2 ^ 8) with 256. change (2 ^ 16) with 65536.
  change (2 ^ 24) with 16777216. change (2 ^ 32) with 4294967296.
  Z.div_mod_to_equations. lia.
Qed.

Lemma u32be_range (x : Z) : is_u32 x → is_u32 (u32be x).
Proof. intros _. unfold u32be, u32, is_u32. apply Z.mod_pos_bound. lia. Qed.

(** X1. [u32be] swaps the four bytes of a 32-bit value: its result is a
    32-bit value again, applying it twice gives the value back, and it sends
    the value with bytes [b0 b1 b2 b3] (most significant first) to the one
    with bytes [b3 b2 b1 b0]. *)
Theorem u32be_involutive (x : Z) :
  is_u32 x →
  is_u32 (u32be x) ∧
  u32be (u32be x) = x ∧
  word_bytes (u32be x) = reverse (word_bytes x).
Proof.
  intros Hx. split; [by apply u32be_range|].
  pose proof (u32be_range x Hx) as Hy.
  assert (word_bytes (u32be x) = reverse (word_bytes x)) as Hb.
  { unfold word_bytes. cbn [reverse rev_append].
    change (Z.land (u32be x) 255) with (Z.land (Z.shiftr (u32be x) 0) 255).
    change (Z.land x 255) with (Z.land (Z.shiftr x 0) 255).
    rewrite !byte_of_word by lia. rewrite (u32be_bytes x Hx).
    unfold is_u32 in Hx.
    change (2 ^ 0) with 1. change (2 ^ 8) with 256. change (2 ^ 16) with 65536.
    change (2 ^ 24) with 16777216. change (2 ^ 32) with 4294967296 in Hx.
    f_equal; [|f_equal; [|f_equal; [|f_equal]]];
      Z.div_mod_to_equations; lia. }
  split; [|exact Hb].
  rewrite (u32be_bytes (u32be x) Hy).
  unfold word_bytes in Hb. cbn [reverse rev_append] in Hb.
  injection Hb as H24 H16 H8 H0.
  rewrite !byte_of_word in H24, H16, H8 by lia.
  rewrite !land_byte in H0, H24. rewrite H16, H8, H0.
  rewrite Z.mod_small in H24.
  2:{ unfold is_u32 in Hy. split; [apply Z.div_pos|apply Z.div_lt_upper_bound]; lia. }
  rewrite H24. unfold is_u32 in Hx.
  change (2 ^ 8) with 256. change (2 ^ 16) with 65536.
  change (2 ^ 24) with 16777216. change (2 ^ 32) with 4294967296 in Hx.
  rewrite !byte_of_word by lia.
  change (2 ^ 8) with 256. change (2 ^ 16) with 65536.
  change (2 ^ 24) with 16777216.
  Z.div_mod_to_equations. lia.
Qed.

(** X2. [u16be] swaps the two bytes of a 16-bit value: the result is a
    16-bit value, its high byte is the low byte of the argument and its low
    byte the high one, and applying it twice gives the value back. *)
Theorem u16be_involutive (x : Z) :
  0 ≤ x < 2 ^ 16 →
  0 ≤ u16be x < 2 ^ 16 ∧
  u16be x = (x `mod` 256) * 256 + x / 256 ∧
  u16be (u16be x) = x.
Proof.
  intros Hx.
  assert (∀ y, 0 ≤ y < 2 ^ 16 → u16be y = (y `mod` 256) * 256 + y / 256) as Hform.
  { intros y Hy. unfold u16be.
    change 0xff00 with (Z.shiftl 255 8). rewrite land_shifted_byte by lia.
    change 0xff with 255. rewrite byte_of_word by lia. rewrite land_byte.
    rewrite !Z.shiftl_mul_pow2, !Z.shiftr_div_pow2 by lia.
    change (2 ^ 8) with 256. change (2 ^ 16) with 65536 in *.
    Z.div_mod_to_equations. lia. }
  assert (0 ≤ u16be x < 2 ^ 16) as Hy
    by (unfold u16be; apply Z.mod_pos_bound; lia).
  split; [exact Hy|]. split; [by apply Hform|].
  rewrite (Hform (u16be x) Hy), (Hform x Hx).
  change (2 ^ 16) with 65536 in *.
  Z.div_mod_to_equations. lia.
Qed.

Lemma vec_get_app_r {A} (pre v : list A) (k : Z) :
  0 ≤ k → vec_get (pre ++ v) (vec_size pre + k) = vec_get v k.
Proof.
  intros Hk. unfold vec_get, vec_size.
  rewrite !decide_True by lia.
  rewrite lookup_app_r by lia.
  by replace (Z.to_nat (Z.of_nat (length pre) + k) - length pre)%nat
    with (Z.to_nat k) by lia.
Qed.

Lemma word_bytes_sum (w : Z) :
  is_u32 w →
  Z.shiftl (Z.land (Z.shiftr w 24) 255) 24 + Z.shiftl (Z.land (Z.shiftr w 16) 255) 16
  + Z.shiftl (Z.land (Z.shiftr w 8) 255) 8 + Z.land w 255 = w.
Proof.
  intros Hw. unfold is_u32 in Hw.
  rewrite !byte_of_word by lia. rewrite land_byte.
  rewrite !Z.shiftl_mul_pow2 by lia.
  change (2 ^ 8) with 256. change (2 ^ 16) with 65536.
  change (2 ^ 24) with 16777216. change (2 ^ 32) with 4294967296 in Hw.
  Z.div_mod_to_equations. lia.
Qed.

Lemma word_bytes_of_sum (b0 b1 b2 b3 : Z) :
  is_byte b0 → is_byte b1 → is_byte b2 → is_byte b3 →
  let w := Z.shiftl b0 24 + Z.shiftl b1 16 + Z.shiftl b2 8 + b3 in
  is_u32 w ∧ word_bytes w = [b0; b1; b2; b3].
Proof.
  unfold is_byte, is_u32. intros H0 H1 H2 H3. cbv zeta.
  rewrite !Z.shiftl_mul_pow2 by lia. unfold word_bytes.
  rewrite !byte_of_word by lia. rewrite land_byte.
  change (2 ^ 8) with 256. change (2 ^ 16) with 65536.
  change (2 ^ 24) with 16777216. change (2 ^ 32) with 4294967296.
  split; [lia|].
  f_equal; [|f_equal; [|f_equal; [|f_equal]]]; Z.div_mod_to_equations; lia.
Qed.

Lemma vec_get_byte (buf : list Z) (k b : Z) :
  Forall is_byte buf → vec_get buf k = Ok b → is_byte b.
Proof.
  intros Hb Hk. apply vec_get_Ok in Hk as [_ Hk].
  by eapply Forall_lookup_1.
Qed.

(** X3. [read_u32_be] decodes what big-endian encoding produces, and
    nothing else: on a buffer of bytes it yields [w] at offset [off] exactly
    when [w] is a 32-bit value whose four bytes, most significant first, are
    the bytes at [off .. off + 3]; outside the buffer the read is undefined. *)
Theorem read_u32_be_round_trip (buf : list Z) (off w : Z) :
  Forall is_byte buf →
  (read_u32_be buf off = Ok w ↔
   is_u32 w ∧ ∀ j, 0 ≤ j < 4 → vec_get buf (off + j) = vec_get (word_bytes w) j) ∧
  (¬ (0 ≤ off ∧ off + 3 < vec_size buf) → read_u32_be buf off = Undefined).
Proof.
  intros Hbuf. split; [split|].
  - unfold read_u32_be. intros E.
    ok_step E b0 H0. ok_step E b1 H1. ok_step E b2 H2. ok_step E b3 H3.
    injection E as <-.
    destruct (word_bytes_of_sum b0 b1 b2 b3) as [Hw Hb]; eauto using vec_get_byte.
    cbv zeta in Hw, Hb. unfold u32. unfold is_u32 in Hw.
    rewrite Z.mod_small by done. split; [done|].
    intros j Hj. rewrite Hb.
    assert (j = 0 ∨ j = 1 ∨ j = 2 ∨ j = 3) as [->|[->|[->| ->]]] by lia;
      [rewrite Z.add_0_r| | |]; done.
  - intros [Hw Hj]. unfold read_u32_be.
    pose proof (Hj 0) as H0. pose proof (Hj 1) as H1.
    pose proof (Hj 2) as H2. pose proof (Hj 3) as H3.
    rewrite Z.add_0_r in H0.
    rewrite H0, H1, H2, H3 by lia.
    change (vec_get (word_bytes w) 0) with (Ok (Z.land (Z.shiftr w 24) 255)).
    change (vec_get (word_bytes w) 1) with (Ok (Z.land (Z.shiftr w 16) 255)).
    change (vec_get (word_bytes w) 2) with (Ok (Z.land (Z.shiftr w 8) 255)).
    change (vec_get (word_bytes w) 3) with (Ok (Z.land w 255)).
    rewrite !bind_Ok_l.
    f_equal. rewrite word_bytes_sum by done. unfold is_u32 in Hw.
    unfold u32. by apply Z.mod_small.
  - intros Hout. unfold read_u32_be.
    destruct (vec_get buf off) as [b0| | |] eqn:H0; cbn; try done.
    2,3: unfold vec_get in H0; repeat case_match; done.
    destruct (vec_get buf (off + 1)) as [b1| | |] eqn:H1; cbn; try done.
    2,3: unfold vec_get in H1; repeat case_match; done.
    destruct (vec_get buf (off + 2)) as [b2| | |] eqn:H2; cbn; try done.
    2,3: unfold vec_get in H2; repeat case_match; done.
    destruct (vec_get buf (off + 3)) as [b3| | |] eqn:H3; cbn; try done.
    2,3: unfold vec_get in H3; repeat case_match; done.
    exfalso. apply Hout.
    apply vec_get_Ok in H0 as [? _]. apply vec_get_Ok in H3 as [_ H3].
    apply lookup_lt_Some in H3. unfold vec_size. lia.
Qed.

(** * Disassembly and the function table *)

Section Disassembly.
Context `{Rabbitizer}.
Variable elf : Elf.

Lemma read_u32_be_total (buf : list Z) (off : Z) :
  0 ≤ off → off + 3 < vec_size buf → ∃ w, read_u32_be buf off = Ok w.
Proof.
  intros H0 H3. unfold read_u32_be, vec_size in *.
  assert (∀ j, 0 ≤ j < 4 → ∃ b, vec_get buf (off + j) = Ok b) as Hget.
  { intros j Hj. destruct (lookup_lt_is_Some_2 buf (Z.to_nat (off + j))) as [b Hb]; [lia|].
    exists b. apply vec_get_Ok. split; [lia|done]. }
  destruct (Hget 0) as [b0 E0]; [lia|]. rewrite Z.add_0_r in E0.
  destruct (Hget 1) as [b1 E1]; [lia|].
  destruct (Hget 2) as [b2 E2]; [lia|].
  destruct (Hget 3) as [b3 E3]; [lia|].
  rewrite E0, E1, E2, E3. cbn. eauto.
Qed.

Lemma r_disassemble_loop_total (n : nat) (i : Z) :
  0 ≤ i → i + 4 * Z.of_nat n ≤ vec_size (text_section elf) →
  ∃ v, r_disassemble_loop elf n i = Ok v.
Proof.
  revert i. induction n as [|n IH]; intros i Hi Hn; cbn [r_disassemble_loop].
  - eauto.
  - destruct (read_u32_be_total (text_section elf) i) as [w Hw]; [lia|lia|].
    destruct (IH (i + 4)) as [v Hv]; [lia|lia|].
    rewrite Hw, bind_Ok_l, Hv, bind_Ok_l. eauto.
Qed.

Lemma r_disassemble_loop_records (n : nat) (i : Z) (v : list RInsn) :
  r_disassemble_loop elf n i = Ok v →
  length v = S n ∧
  v !! n = Some (closing_nop elf (i + 4 * Z.of_nat n)) ∧
  ∀ k : nat, (k < n)%nat →
    ∃ w, read_u32_be (text_section elf) (i + 4 * Z.of_nat k) = Ok w
         ∧ v !! k = Some (disassembled_at elf (i + 4 * Z.of_nat k) w).
Proof.
  revert i v. induction n as [|n IH]; intros i v E; cbn [r_disassemble_loop] in E.
  - injection E as <-. split; [done|]. split.
    + cbn. unfold closing_nop. by rewrite Z.add_0_r.
    + intros k Hk. lia.
  - ok_step E w Hw. ok_step E rest Hr. injection E as <-.
    destruct (IH _ _ Hr) as (Hlen & Hlast & Hall).
    split; [cbn; by rewrite Hlen|]. split.
    + change ((?x :: rest) !! S n) with (rest !! n). rewrite Hlast.
      do 2 f_equal. lia.
    + intros [|k] Hk.
      * exists w. rewrite Z.add_0_r. done.
      * destruct (Hall k) as (w' & Hw' & Hk'); [lia|].
        exists w'. change ((?x :: rest) !! S k) with (rest !! k).
        replace (i + 4 * Z.of_nat (S k)) with (i + 4 + 4 * Z.of_nat k) by lia. done.
Qed.

(** X4. [r_disassemble] makes one record per 4-byte step of
    [text_section_len] and one closing [NOP]: it succeeds when [.text]
    holds that many whole words, and then the vector has [text_words + 1]
    records; record [k] is decoded from the big-endian word at byte offset
    [4k] with address [text_vaddr + 4k] and [linked_insn = -1], and the last
    record is a [NOP] at [text_vaddr + 4 * text_words] with
    [no_following_successor] set. With [text_section_len = 0] the vector is
    the closing [NOP] alone. *)
Theorem r_disassemble_records :
  (4 * Z.of_nat (text_words elf) ≤ vec_size (text_section elf) →
   ∃ v, r_disassemble elf = Ok v) ∧
  (∀ v, r_disassemble elf = Ok v →
     length v = S (text_words elf) ∧
     v !! text_words elf = Some (closing_nop elf (4 * Z.of_nat (text_words elf))) ∧
     ∀ k : nat, (k < text_words elf)%nat →
       ∃ w, read_u32_be (text_section elf) (4 * Z.of_nat k) = Ok w
            ∧ v !! k = Some (disassembled_at elf (4 * Z.of_nat k) w)) ∧
  (text_section_len elf = 0 → r_disassemble elf = Ok [closing_nop elf 0]).
Proof.
  unfold r_disassemble. fold (text_words elf). split; [|split].
  - intros Hlen. apply r_disassemble_loop_total; lia.
  - intros v E. apply r_disassemble_loop_records in E as (Hlen & Hlast & Hall).
    split; [done|]. split; [by rewrite Z.add_0_l in Hlast|].
    intros k Hk. destruct (Hall k Hk) as (w & Hw & Hv).
    rewrite Z.add_0_l in Hw, Hv. eauto.
  - intros H0. unfold text_words. rewrite H0. cbn.
    unfold closing_nop. done.
Qed.

End Disassembly.

(** ** [add_function] and [find_function] *)

#[local] Instance key_le_total : Total key_le.
Proof. intros p q. unfold key_le. lia. Qed.

#[local] Instance key_le_trans : Transitive key_le.
Proof. intros p q r. unfold key_le. lia. Qed.

Lemma functions_in_order_elem (fs : gmap Z Function) (k : Z) (f : Function) :
  (k, f) ∈ functions_in_order fs ↔ fs !! k = Some f.
Proof.
  unfold functions_in_order. rewrite merge_sort_Permutation.
  apply elem_of_map_to_list.
Qed.

Lemma functions_in_order_sorted (fs : gmap Z Function) :
  StronglySorted key_le (functions_in_order fs).
Proof. apply StronglySorted_merge_sort; apply _. Qed.

Lemma before_upper_bound_spec (addr : Z) (l : list (Z * Function))
    (prev : option (Z * Function)) :
  StronglySorted key_le l →
  match before_upper_bound addr l prev with
  | Some p =>
      (prev = Some p ∧ ∀ q, q ∈ l → addr < q.1)
      ∨ (p ∈ l ∧ p.1 ≤ addr ∧ ∀ q, q ∈ l → q.1 ≤ addr → q.1 ≤ p.1)
  | None => prev = None ∧ ∀ q, q ∈ l → addr < q.1
  end.
Proof.
  revert prev. induction l as [|p l IH]; intros prev Hs; cbn [before_upper_bound].
  - destruct prev as [p|].
    + left. split; [done|]. intros q Hq. by apply elem_of_nil in Hq.
    + split; [done|]. intros q Hq. by apply elem_of_nil in Hq.
  - apply StronglySorted_inv in Hs as [Hs Hall].
    rewrite Forall_forall in Hall.
    case_bool_decide as Hlt.
    + assert (∀ q, q ∈ p :: l → addr < q.1) as Habove.
      { intros q Hq. apply elem_of_cons in Hq as [->|Hq]; [done|].
        specialize (Hall q Hq). unfold key_le in Hall. lia. }
      destruct prev as [r|]; [left|]; done.
    + specialize (IH (Some p) Hs).
      destruct (before_upper_bound addr l (Some p)) as [r|].
      * right. destruct IH as [[Hr Habove]|(Hr & Hle & Hmax)].
        -- injection Hr as <-. split; [left|]. split; [lia|].
           intros q Hq Hqa. apply elem_of_cons in Hq as [->|Hq]; [done|].
           specialize (Habove q Hq). lia.
        -- split; [by right|]. split; [done|].
           intros q Hq Hqa. apply elem_of_cons in Hq as [->|Hq]; [|by apply Hmax].
           specialize (Hall r Hr). done.
      * by destruct IH.
Qed.

(** X6. [find_function(addr)] yields the record with the greatest key that
    is not above [addr]; it yields [functions.end()] exactly when the table
    has no key at or below [addr] (in particular when it is empty). *)
Theorem find_function_greatest_below (addr : Z) (fs : gmap Z Function) :
  match find_function addr fs with
  | Some (k, f) =>
      fs !! k = Some f ∧ k ≤ addr ∧
      ∀ k', is_Some (fs !! k') → k' ≤ addr → k' ≤ k
  | None => ∀ k', is_Some (fs !! k') → addr < k'
  end.
Proof.
  unfold find_function. case_bool_decide as Hsize.
  - apply map_size_empty_iff in Hsize. subst fs.
    intros k' [f Hf]. by rewrite lookup_empty in Hf.
  - pose proof (before_upper_bound_spec addr _ None (functions_in_order_sorted fs)) as Hb.
    destruct (before_upper_bound addr (functions_in_order fs) None) as [[k f]|].
    + destruct Hb as [[? _]|(Hin & Hle & Hmax)]; [done|].
      apply functions_in_order_elem in Hin. split; [done|]. split; [done|].
      intros k' [f' Hf'] Hk'.
      apply (Hmax (k', f')); [by apply functions_in_order_elem|done].
    + destruct Hb as [_ Habove]. intros k' [f' Hf'].
      apply (Habove (k', f')). by apply functions_in_order_elem.
Qed.

Section FunctionTable.
Variable elf : Elf.

(** X5. [add_function(addr)] touches nothing but the function table; it
    never removes or overwrites a record; it creates the record of [addr],
    as [Function()], exactly when [addr] lies in [.text] and has no record
    yet; and a second call changes nothing. *)
Theorem add_function_creates_once (addr : Z) (st : State) :
  let st' := add_function elf addr st in
  rinsns st' = rinsns st ∧
  label_addresses st' = label_addresses st ∧
  li_function_pointers st' = li_function_pointers st ∧
  (∀ a f, functions st !! a = Some f → functions st' !! a = Some f) ∧
  (∀ a, functions st !! a = None →
        functions st' !! a =
          if bool_decide (a = addr) && in_text elf addr then Some Function_new else None) ∧
  add_function elf addr st' = st'.
Proof.
  cbv zeta. unfold add_function.
  destruct (in_text elf addr) eqn:Hin.
  - destruct (functions st !! addr) as [f|] eqn:Hf.
    + rewrite Hf. repeat split; try done.
      intros a Ha. case_bool_decide; [congruence|done].
    + split; [done|]. split; [by destruct st|]. split; [by destruct st|].
      assert (functions (set_functions (<[addr:=Function_new]> (functions st)) st)
              = <[addr:=Function_new]> (functions st)) as Hfs by (by destruct st).
      rewrite Hfs. split; [|split].
      * intros a f Ha. rewrite lookup_insert_ne; [done|congruence].
      * intros a Ha. case_bool_decide as Ha'; cbn [andb].
        -- subst a. by rewrite lookup_insert_eq.
        -- by rewrite lookup_insert_ne.
      * by rewrite lookup_insert_eq.
  - repeat split; try done. intros a Ha. by rewrite andb_false_r.
Qed.

End FunctionTable.

(** * Transfer types *)

Lemma testbit_31 (n : Z) : 0 ≤ n → Z.testbit 31 n = bool_decide (n < 5).
Proof.
  intros Hn. change 31 with (Z.ones 5). case_bool_decide.
  - by rewrite Z.ones_spec_low by lia.
  - by rewrite Z.ones_spec_high by lia.
Qed.

(** [RAB_INSTR_PACK_rs] replaces bits 21..25 of the word and keeps the
    others. *)
Lemma pack_rs_testbit (w v n : Z) :
  0 ≤ n →
  Z.testbit (RAB_INSTR_PACK_rs w v) n =
    if bool_decide (21 ≤ n < 26) then Z.testbit v (n - 21) else Z.testbit w n.
Proof.
  intros Hn. unfold RAB_INSTR_PACK_rs.
  rewrite Z.lor_spec, Z.land_spec, Z.lnot_spec by done.
  destruct (decide (n < 21)) as [Hlt|Hge].
  - rewrite !Z.shiftl_spec_low by done.
    rewrite bool_decide_eq_false_2 by lia.
    by rewrite andb_true_r, orb_false_r.
  - rewrite !Z.shiftl_spec by done. rewrite Z.land_spec, !testbit_31 by lia.
    destruct (decide (n < 26)) as [Hr|Hr].
    + rewrite (bool_decide_eq_true_2 (n - 21 < 5)) by lia.
      rewrite (bool_decide_eq_true_2 (21 ≤ n < 26)) by lia.
      by rewrite andb_false_r, andb_true_r.
    + rewrite (bool_decide_eq_false_2 (n - 21 < 5)) by lia.
      rewrite (bool_decide_eq_false_2 (21 ≤ n < 26)) by lia.
      by rewrite andb_true_r, andb_false_r, orb_false_r.
Qed.

Lemma pack_rs_idempotent (w v : Z) :
  RAB_INSTR_PACK_rs (RAB_INSTR_PACK_rs w v) v = RAB_INSTR_PACK_rs w v.
Proof.
  apply Z.bits_inj'. intros n Hn. rewrite !pack_rs_testbit by done.
  by case_bool_decide.
Qed.

Lemma pack_rs_field (w v k : Z) :
  0 ≤ k → k + 5 ≤ 21 →
  Z.land (Z.shiftr (RAB_INSTR_PACK_rs w v) k) 31 = Z.land (Z.shiftr w k) 31.
Proof.
  intros Hk Hk5. apply Z.bits_inj'. intros n Hn.
  rewrite !Z.land_spec, !Z.shiftr_spec, testbit_31 by done.
  case_bool_decide as Hn5; [|by rewrite !andb_false_r].
  rewrite pack_rs_testbit by lia.
  by rewrite bool_decide_eq_false_2 by lia.
Qed.

Lemma pack_rs_get_rs (w v : Z) :
  Z.land (Z.shiftr (RAB_INSTR_PACK_rs w v) 21) 31 = Z.land v 31.
Proof.
  apply Z.bits_inj'. intros n Hn.
  rewrite !Z.land_spec, !Z.shiftr_spec, testbit_31 by done.
  case_bool_decide as Hn5; [|by rewrite !andb_false_r].
  rewrite pack_rs_testbit by lia.
  rewrite bool_decide_eq_true_2 by lia. do 2 f_equal. lia.
Qed.

Lemma r_insn_to_type_jr (insn : RInsn) :
  uniqueId (instruction insn) = RABBITIZER_INSTR_ID_cpu_jr →
  r_insn_to_type insn =
    (if bool_decide (RAB_INSTR_GET_rt (instruction (jr_packed insn)) = RABBITIZER_REG_GPR_O32_ra)
     then TYPE_NOP else TYPE_1S, jr_packed insn).
Proof.
  intros Hid. unfold r_insn_to_type. rewrite Hid. cbv zeta.
  fold (jr_packed insn). by case_bool_decide.
Qed.

Lemma r_insn_to_type_other (insn : RInsn) :
  uniqueId (instruction insn) ≠ RABBITIZER_INSTR_ID_cpu_jr →
  (r_insn_to_type insn).2 = insn.
Proof.
  intros Hid. unfold r_insn_to_type.
  destruct (uniqueId (instruction insn)); try done.
Qed.

Lemma jr_packed_again (insn : RInsn) : jr_packed (jr_packed insn) = jr_packed insn.
Proof.
  assert (jtbl_addr (jr_packed insn) = jtbl_addr insn) as Hj
    by (unfold jr_packed; by case_bool_decide).
  assert (index_reg (jr_packed insn) = index_reg insn) as Hi
    by (unfold jr_packed; by case_bool_decide).
  unfold jr_packed at 1. rewrite Hj, Hi.
  unfold jr_packed. case_bool_decide; [|done].
  unfold set_instruction, set_word. cbn. by rewrite pack_rs_idempotent.
Qed.

(** X8. [r_insn_to_type] may be called again and again on a record (both
    liveness passes and the lowerer do): the second call returns the type
    of the first and changes nothing more. The only record it ever changes
    is a [JR] with a jump table, whose [rs] field it sets to [index_reg];
    the id, the descriptor and the [rt] and [rd] fields of the word always
    stay. *)
Theorem r_insn_to_type_stable (insn : RInsn) :
  let ty := (r_insn_to_type insn).1 in
  let insn' := (r_insn_to_type insn).2 in
  r_insn_to_type insn' = (ty, insn') ∧
  (insn' = insn ∨
   uniqueId (instruction insn) = RABBITIZER_INSTR_ID_cpu_jr ∧ jtbl_addr insn ≠ 0 ∧
   insn' = set_instruction
             (set_word (RAB_INSTR_PACK_rs (word (instruction insn)) (index_reg insn)))
             insn ∧
   RAB_INSTR_GET_rs (instruction insn') = Z.land (index_reg insn) 31) ∧
  uniqueId (instruction insn') = uniqueId (instruction insn) ∧
  descriptor (instruction insn') = descriptor (instruction insn) ∧
  RAB_INSTR_GET_rt (instruction insn') = RAB_INSTR_GET_rt (instruction insn) ∧
  RAB_INSTR_GET_rd (instruction insn') = RAB_INSTR_GET_rd (instruction insn).
Proof.
  cbv zeta. destruct (decide (uniqueId (instruction insn) = RABBITIZER_INSTR_ID_cpu_jr))
    as [Hid|Hid].
  - rewrite (r_insn_to_type_jr insn Hid). cbn [fst snd].
    assert (uniqueId (instruction (jr_packed insn)) = uniqueId (instruction insn)) as Hu
      by (unfold jr_packed; by case_bool_decide).
    assert (descriptor (instruction (jr_packed insn)) = descriptor (instruction insn)) as Hd
      by (unfold jr_packed; by case_bool_decide).
    assert (RAB_INSTR_GET_rt (instruction (jr_packed insn))
            = RAB_INSTR_GET_rt (instruction insn)) as Hrt.
    { unfold jr_packed. case_bool_decide; [|done].
      unfold RAB_INSTR_GET_rt. cbn. by rewrite pack_rs_field by lia. }
    assert (RAB_INSTR_GET_rd (instruction (jr_packed insn))
            = RAB_INSTR_GET_rd (instruction insn)) as Hrd.
    { unfold jr_packed. case_bool_decide; [|done].
      unfold RAB_INSTR_GET_rd. cbn. by rewrite pack_rs_field by lia. }
    split.
    { rewrite r_insn_to_type_jr by (by rewrite Hu).
      by rewrite jr_packed_again. }
    split; [|done].
    unfold jr_packed. case_bool_decide as Hj; [right|by left].
    split; [done|]. split; [done|]. split; [done|].
    unfold RAB_INSTR_GET_rs. cbn. apply pack_rs_get_rs.
  - rewrite (r_insn_to_type_other insn Hid).
    split; [by destruct (r_insn_to_type insn) eqn:E; rewrite <- (r_insn_to_type_other insn Hid), E|].
    split; [by left|done].
Qed.

(** * What the passes leave alone *)

Section Frames.
Context `{Rabbitizer}.
Variable elf : Elf.

Lemma same_but_edges_refl r : same_but_edges r r.
Proof.
  repeat split; try done; by exists []; rewrite app_nil_r.
Qed.

Lemma same_but_edges_trans r1 r2 r3 :
  same_but_edges r1 r2 → same_but_edges r2 r3 → same_but_edges r1 r3.
Proof.
  intros (A1&A2&A3&A4&A5&A6&A7&A8&A9&A10&A11&A12&A13&(ss&As)&(ps&Ap)&An)
         (B1&B2&B3&B4&B5&B6&B7&B8&B9&B10&B11&B12&B13&(ss'&Bs)&(ps'&Bp)&Bn).
  repeat split; try congruence.
  - exists (ss ++ ss'). by rewrite Bs, As, app_assoc.
  - exists (ps ++ ps'). by rewrite Bp, Ap, app_assoc.
  - auto.
Qed.

Lemma cfg_frame_refl st : cfg_frame st st.
Proof.
  repeat split; try done. intros j r Hj. exists r. split; [done|].
  apply same_but_edges_refl.
Qed.

Lemma cfg_frame_trans st1 st2 st3 :
  cfg_frame st1 st2 → cfg_frame st2 st3 → cfg_frame st1 st3.
Proof.
  intros (L1 & F1 & A1 & P1 & R1) (L2 & F2 & A2 & P2 & R2).
  repeat split; try congruence.
  intros j r Hj. destruct (R1 j r Hj) as (r2 & Hj2 & S12).
  destruct (R2 j r2 Hj2) as (r3 & Hj3 & S23).
  exists r3. split; [done|]. by eapply same_but_edges_trans.
Qed.

Lemma upd_insn_frame k f st st' :
  upd_insn k f st = Ok st' →
  (∀ r, same_but_edges r (f r)) →
  cfg_frame st st'.
Proof.
  intros E Hf. pose proof (upd_insn_length _ _ _ _ E) as Hlen.
  pose proof (λ j, upd_insn_lookup k f st st' j E) as Hlook.
  apply upd_insn_Ok in E as (a & Hk & Ha & ->).
  split; [done|]. split; [by destruct st|]. split; [by destruct st|].
  split; [by destruct st|].
  intros j r Hj. rewrite Hlook, Hj. cbn.
  eexists. split; [done|]. case_decide; [apply Hf|apply same_but_edges_refl].
Qed.

Lemma r_add_edge_frame from to a b c d st st' :
  r_add_edge from to a b c d st = Ok st' → cfg_frame st st'.
Proof.
  unfold r_add_edge. intros E. ok_step E st1 E1.
  eapply cfg_frame_trans; eapply upd_insn_frame; eauto.
  - intros r. repeat split; try done; cbn; eauto. by exists []; rewrite app_nil_r.
  - intros r. repeat split; try done; cbn; eauto. by exists []; rewrite app_nil_r.
Qed.

Lemma mark_delay_slot_frame i st st' :
  mark_delay_slot i st = Ok st' → cfg_frame st st'.
Proof.
  intros E. eapply upd_insn_frame; [exact E|].
  intros r. repeat split; try done; cbn; by exists []; rewrite app_nil_r.
Qed.

Lemma cfg_edits_frame i st st' : cfg_edits i st st' → cfg_frame st st'.
Proof.
  induction 1; eauto using cfg_frame_refl, cfg_frame_trans,
    r_add_edge_frame, mark_delay_slot_frame.
Qed.

Lemma r_pass3_step_frame i st st' :
  r_pass3_step elf i st = Ok st' → cfg_frame st st'.
Proof.
  intros E. apply r_pass3_step_cases in E as (insn & _ & [[_ ->]|(_ & st1 & E1 & E2)]).
  - apply cfg_frame_refl.
  - eauto using cfg_frame_trans, r_add_edge_frame, cfg_edits_frame.
Qed.

(** X9. [r_pass3] only builds the graph: it keeps the number of records,
    the function table, the labels and the pointer set; in every record it
    appends to the successor and predecessor lists (never removing or
    reordering an edge that was there), it may raise
    [no_following_successor] but never clears it, and it leaves every other
    field, the instruction, the links, the jump table and the liveness
    masks, as it was. *)
Theorem r_pass3_only_adds_edges (st st' : State) :
  r_pass3 elf st = Ok st' →
  length (rinsns st') = length (rinsns st) ∧
  functions st' = functions st ∧
  label_addresses st' = label_addresses st ∧
  li_function_pointers st' = li_function_pointers st ∧
  ∀ (j : nat) r, rinsns st !! j = Some r →
    ∃ r', rinsns st' !! j = Some r' ∧ same_but_edges r r'.
Proof.
  enough (∀ n i s, r_pass3_loop elf n i s = Ok st' → cfg_frame s st') as Hloop.
  { intros E. unfold r_pass3 in E. exact (Hloop _ _ _ E). }
  induction n as [|n IH]; cbn [r_pass3_loop]; intros i s E.
  - injection E as <-. apply cfg_frame_refl.
  - ok_step E st1 E1.
    eapply cfg_frame_trans; [by eapply r_pass3_step_frame|by eapply IH].
Qed.

End Frames.

(** * Signature inference: bounds and repetition *)

Section SignatureMore.
Context `{Rabbitizer}.
Variable elf : Elf.

Lemma r_pass6_returns_rinsns rets st st' n :
  rinsns st' = rinsns st →
  r_pass6_returns elf rets st' n = r_pass6_returns elf rets st n.
Proof.
  intros Hr. revert n. induction rets as [|ret rets IH]; intros n; [done|].
  cbn [r_pass6_returns]. unfold get_insn. rewrite Hr.
  destruct (vec_get (rinsns st) (addr_to_i elf ret)); cbn; [apply IH|done..].
Qed.

Lemma r_pass6_function_rinsns st st' addr f :
  rinsns st' = rinsns st →
  r_pass6_function elf st' addr f = r_pass6_function elf st addr f.
Proof.
  intros Hr. unfold r_pass6_function.
  by rewrite (r_pass6_returns_rinsns _ st st'), Hr.
Qed.

Lemma r_pass6_nargs_range insn n0 :
  r_pass6_nargs 4 0 insn n0 = n0 ∨ 1 ≤ r_pass6_nargs 4 0 insn n0 ≤ 4.
Proof.
  cbn [r_pass6_nargs].
  repeat (destruct (live_both _ _ _)); (by left) || (right; lia).
Qed.

Lemma r_pass6_nargs_again insn n0 :
  r_pass6_nargs 4 0 insn (r_pass6_nargs 4 0 insn n0) = r_pass6_nargs 4 0 insn n0.
Proof.
  cbn [r_pass6_nargs]. repeat (destruct (live_both _ _ _)); done.
Qed.

Lemma r_pass6_returns_again rets st n0 n :
  r_pass6_returns elf rets st n0 = Ok n →
  r_pass6_returns elf rets st n = Ok n.
Proof.
  intros E. pose proof (r_pass6_returns_spec elf _ _ _ _ E) as Hn.
  assert (∃ m, r_pass6_returns elf rets st n = Ok m) as [m Hm].
  { clear Hn. revert n0 n E. induction rets as [|ret rets IH]; intros n0 n E; [by eexists|].
    cbn [r_pass6_returns] in *. ok_step E i Hi. rewrite Hi, bind_Ok_l.
    destruct (r_pass6_returns elf rets st
      (if live_both (f_liveout i) (b_liveout i) RABBITIZER_REG_GPR_O32_v1 then 2
       else if live_both (f_liveout i) (b_liveout i) RABBITIZER_REG_GPR_O32_v0
               && bool_decide (n = 0) then 1 else n)) as [m| | |] eqn:Em; [by eexists|..].
    all: exfalso.
    all: assert (∀ a b, (∃ x, r_pass6_returns elf rets st a = Ok x) →
                        ∃ y, r_pass6_returns elf rets st b = Ok y) as Hany.
    all: try (intros a b [x Hx]; clear -Hx; revert a b x Hx;
              induction rets as [|r rs IHr]; intros a b x Hx; [by eexists|];
              cbn [r_pass6_returns] in *; ok_step Hx j Hj; rewrite Hj, bind_Ok_l;
              by eapply IHr).
    all: edestruct Hany as [y Hy]; [eexists; exact E|]; rewrite Em in Hy; discriminate. }
  rewrite Hm. f_equal.
  apply r_pass6_returns_spec in Hm. rewrite Hm, Hn.
  destruct (some_return_live elf st RABBITIZER_REG_GPR_O32_v1 rets); [done|].
  destruct (some_return_live elf st RABBITIZER_REG_GPR_O32_v0 rets);
    repeat case_bool_decide; try done; lia.
Qed.

Lemma r_pass6_function_again st addr f f' :
  r_pass6_function elf st addr f = Ok f' →
  r_pass6_function elf st addr f' = Ok f'.
Proof.
  intros E. pose proof E as E'.
  apply r_pass6_function_Ok in E as (n & entry & Hret & Hentry & ->).
  unfold r_pass6_function. cbn [returns nret nargs end_addr referenced_by_function_pointer].
  rewrite (r_pass6_returns_again _ _ _ _ Hret), bind_Ok_l.
  unfold get_insn in Hentry. rewrite Hentry, bind_Ok_l.
  by rewrite r_pass6_nargs_again.
Qed.

Lemma r_pass6_loop_total fs st :
  (∀ addr f, (addr, f) ∈ fs → ∃ f', r_pass6_function elf st addr f = Ok f') →
  ∃ fs', r_pass6_loop elf fs st = Ok fs'.
Proof.
  induction fs as [|[a g] fs IH]; intros Hall; [by eexists|].
  cbn [r_pass6_loop].
  destruct (Hall a g) as [g' Hg]; [left|].
  destruct IH as [fs' Hfs]; [intros; apply Hall; by right|].
  rewrite Hg, bind_Ok_l, Hfs, bind_Ok_l. by eexists.
Qed.

Lemma r_pass6_functions_back st st' addr f' :
  r_pass6 elf st = Ok st' →
  functions st' !! addr = Some f' →
  ∃ f, functions st !! addr = Some f ∧ r_pass6_function elf st addr f = Ok f'.
Proof.
  intros E Hf'. pose proof E as E0.
  unfold r_pass6 in E. ok_step E fs Hfs. injection E as <-.
  destruct (r_pass6_loop_spec _ _ _ _ Hfs) as [Hk _].
  cbn in Hf'. apply elem_of_list_to_map_2 in Hf'.
  assert (addr ∈ (map_to_list (functions st)).*1) as Hin.
  { rewrite <- Hk. apply list_elem_of_fmap. by exists (addr, f'). }
  apply list_elem_of_fmap in Hin as ([a f] & -> & Hin).
  apply elem_of_map_to_list in Hin. cbn.
  exists f. split; [done|].
  destruct (r_pass6_functions _ _ _ _ _ E0 Hin) as (_ & g & Hg & Hfun).
  apply elem_of_list_to_map_2 in Hg.
  assert (NoDup fs.*1) as Hnd by (rewrite Hk; apply NoDup_fst_map_to_list).
  assert (list_to_map (M := gmap Z Function) fs !! a = Some g) as H1
    by (by apply elem_of_list_to_map_1).
  assert (list_to_map (M := gmap Z Function) fs !! a = Some f') as H2.
  { apply elem_of_list_to_map_1; [done|]. exact Hf'. }
  congruence.
Qed.

(** X10. [r_pass6] rewrites the signature fields only, and within bounds:
    the instruction vector, the labels, the pointer set and the keys of the
    function table stay; in every record [returns], [end_addr] and
    [referenced_by_function_pointer] stay; [nret] never goes down and ends
    at most 2 when it started in 0..2; [nargs] ends in 0..4 when it started
    there; and a function referenced by a function pointer never gets
    [v0_in]. *)
Theorem r_pass6_bounds (st st' : State) (addr : Z) (f' : Function) :
  r_pass6 elf st = Ok st' →
  functions st' !! addr = Some f' →
  rinsns st' = rinsns st ∧
  label_addresses st' = label_addresses st ∧
  li_function_pointers st' = li_function_pointers st ∧
  (∀ a, is_Some (functions st' !! a) ↔ is_Some (functions st !! a)) ∧
  ∃ f, functions st !! addr = Some f ∧
    returns f' = returns f ∧ end_addr f' = end_addr f ∧
    referenced_by_function_pointer f' = referenced_by_function_pointer f ∧
    (0 ≤ nret f ≤ 2 → nret f ≤ nret f' ≤ 2) ∧
    (0 ≤ nargs f ≤ 4 → 0 ≤ nargs f' ≤ 4) ∧
    (referenced_by_function_pointer f = true → v0_in f' = false).
Proof.
  intros E Hf'.
  assert (rinsns st' = rinsns st ∧ label_addresses st' = label_addresses st
          ∧ li_function_pointers st' = li_function_pointers st) as (Hr & Hl & Hp).
  { unfold r_pass6 in E. ok_step E fs Hfs. injection E as <-. by destruct st. }
  split; [done|]. split; [done|]. split; [done|]. split.
  { intros a. split; intros [g Hg].
    - destruct (r_pass6_functions_back _ _ _ _ E Hg) as (f & Hf & _). by exists f.
    - destruct (r_pass6_functions _ _ _ _ _ E Hg) as (_ & g' & Hg' & _). by exists g'. }
  destruct (r_pass6_functions_back _ _ _ _ E Hf') as (f & Hf & Hfun).
  exists f. split; [done|].
  apply r_pass6_function_Ok in Hfun as (n & entry & Hret & Hentry & ->).
  cbn [returns end_addr referenced_by_function_pointer nret nargs v0_in].
  split; [done|]. split; [done|]. split; [done|]. split; [|split].
  - intros Hn. apply r_pass6_returns_spec in Hret. subst n.
    destruct (some_return_live elf st RABBITIZER_REG_GPR_O32_v1 (returns f)); [lia|].
    case_bool_decide; [|lia].
    destruct (some_return_live elf st RABBITIZER_REG_GPR_O32_v0 (returns f)); lia.
  - intros Hn. destruct (r_pass6_nargs_range entry (nargs f)); lia.
  - intros ->. by rewrite andb_false_r.
Qed.

(** X11. [r_pass6] reaches its result in one run: run again on its own
    result it succeeds and changes nothing. *)
Theorem r_pass6_idempotent (st st' : State) :
  r_pass6 elf st = Ok st' → r_pass6 elf st' = Ok st'.
Proof.
  intros E.
  assert (rinsns st' = rinsns st) as Hr.
  { unfold r_pass6 in E. ok_step E fs Hfs. injection E as <-. by destruct st. }
  destruct (r_pass6_loop_total (map_to_list (functions st')) st') as [fs2 Hfs2].
  { intros addr f' Hin. apply elem_of_map_to_list in Hin.
    destruct (r_pass6_functions_back _ _ _ _ E Hin) as (f & Hf & Hfun).
    exists f'. rewrite (r_pass6_function_rinsns st st') by done.
    by eapply r_pass6_function_again. }
  assert (r_pass6 elf st' = Ok (set_functions (list_to_map fs2) st')) as E2
    by (unfold r_pass6; by rewrite Hfs2).
  rewrite E2. f_equal.
  assert (list_to_map (M := gmap Z Function) fs2 = functions st') as Hm.
  { apply map_eq. intros a.
    destruct (functions st' !! a) as [f'|] eqn:Hf'.
    - destruct (r_pass6_functions _ _ _ _ _ E2 Hf') as (_ & g & Hg & Hfun).
      cbn in Hg. rewrite Hg. f_equal.
      destruct (r_pass6_functions_back _ _ _ _ E Hf') as (f & Hf & Hfun0).
      rewrite (r_pass6_function_rinsns st st') in Hfun by done.
      rewrite (r_pass6_function_again _ _ _ _ Hfun0) in Hfun. congruence.
    - destruct (list_to_map (M := gmap Z Function) fs2 !! a) as [g|] eqn:Hg; [|done].
      assert (functions (set_functions (list_to_map fs2) st') !! a = Some g) as Hg' by done.
      destruct (r_pass6_functions_back _ _ _ _ E2 Hg') as (f & Hf & _). congruence. }
  rewrite Hm. by destruct st'.
Qed.

End SignatureMore.

(** * Externs *)

Lemma arg_walk_step_grows (c : ascii) (w : ArgWalk) :
  mask_subset (aw_args w) (aw_args (arg_walk_step c w)).
Proof.
  destruct w as [args pos pf only]. unfold arg_walk_step. cbv zeta.
  repeat case_bool_decide; repeat case_match;
    cbn [aw_args]; auto using mask_subset_refl, mask_subset_lor.
Qed.

Lemma arg_walk_grows (params : string) (w : ArgWalk) :
  mask_subset (aw_args w) (aw_args (arg_walk params w)).
Proof.
  revert w. induction params as [|c params IH]; intros w; [apply mask_subset_refl|].
  cbn [arg_walk]. eapply mask_subset_trans; [apply arg_walk_step_grows|apply IH].
Qed.

(** X12. Whatever the parameter string, the argument mask of an extern
    has the always-set bit 0 and [$sp]; and for an extern flagged
    [FLAG_VARARG] it has all of [$a0..$a3]. *)
Theorem extern_args_always (fn : ExternFunction) :
  mask_subset 1 (extern_args fn) ∧
  mask_subset (r_map_reg RABBITIZER_REG_GPR_O32_sp) (extern_args fn) ∧
  (Z.land (ef_flags fn) FLAG_VARARG ≠ 0 →
   ∀ j, 0 ≤ j < 4 → mask_subset (a_reg j) (extern_args fn)).
Proof.
  unfold extern_args, extern_args_walk. cbv zeta.
  split; [|split].
  - eapply mask_subset_trans; [|apply mask_subset_lor].
    eapply mask_subset_trans; [|apply arg_walk_grows]. cbn [aw_args].
    case_bool_decide; [|apply mask_subset_refl].
    rewrite <- !Z.lor_assoc. apply mask_subset_lor.
  - apply mask_subset_lor_r.
  - intros Hv j Hj.
    eapply mask_subset_trans; [|apply mask_subset_lor].
    eapply mask_subset_trans; [|apply arg_walk_grows]. cbn [aw_args].
    rewrite bool_decide_eq_true_2 by done.
    assert (j = 0 ∨ j = 1 ∨ j = 2 ∨ j = 3) as [->|[->|[->| ->]]] by lia.
    + eapply mask_subset_trans; [|apply mask_subset_lor].
      eapply mask_subset_trans; [|apply mask_subset_lor].
      eapply mask_subset_trans; [|apply mask_subset_lor].
      apply mask_subset_lor_r.
    + eapply mask_subset_trans; [|apply mask_subset_lor].
      eapply mask_subset_trans; [|apply mask_subset_lor].
      apply mask_subset_lor_r.
    + eapply mask_subset_trans; [|apply mask_subset_lor].
      apply mask_subset_lor_r.
    + apply mask_subset_lor_r.
Qed.

Lemma find_first_by_name (l : list ExternFunction) (fn : ExternFunction) :
  NoDup (ef_name <$> l) → fn ∈ l →
  List.find (λ g, bool_decide (ef_name fn = ef_name g)) l = Some fn.
Proof.
  induction l as [|g l IH]; intros Hnd Hin; [by apply elem_of_nil in Hin|].
  cbn in Hnd. apply NoDup_cons in Hnd as [Hg Hnd]. cbn [List.find].
  apply elem_of_cons in Hin as [->|Hin].
  - by rewrite bool_decide_eq_true_2.
  - case_bool_decide as Heq; [|by apply IH].
    exfalso. apply Hg. rewrite <- Heq. apply list_elem_of_fmap. by exists fn.
Qed.

Lemma extern_names_distinct : NoDup (ef_name <$> extern_functions).
Proof.
  apply (bool_decide_unpack _). vm_compute. reflexivity.
Qed.

Section Externs.
Variable elf : Elf.

(** X13. The lookup of an extern is by the name of the symbol at the call
    target, and no entry of the catalogue hides another: [find_extern]
    yields [fn] exactly when [fn] is an entry of the catalogue and the
    symbol at the address carries its name. *)
Theorem find_extern_by_name (address : Z) (fn : ExternFunction) :
  find_extern elf address = Some fn ↔
  fn ∈ extern_functions ∧ symbol_names elf !! address = Some (ef_name fn).
Proof.
  unfold find_extern. split.
  - intros E. destruct (symbol_names elf !! address) as [name|]; [|done].
    change (List.find (λ g, bool_decide (name = ef_name g)) extern_functions = Some fn) in E.
    apply find_some in E as [Hin Hn].
    apply bool_decide_eq_true in Hn as ->. split; [|done].
    by apply list_elem_of_In.
  - intros [Hin ->].
    change (List.find (λ g, bool_decide (ef_name fn = ef_name g)) extern_functions = Some fn).
    by apply find_first_by_name; [apply extern_names_distinct|].
Qed.

End Externs.

(** * Function pointers in data *)

Section PointerScan.
Variable elf : Elf.
Variable procedure_table_start procedure_table_len : Z.

Local Abbreviation scan := (inspect_loop elf procedure_table_start procedure_table_len).
Local Abbreviation taken := (assumed_pointer elf procedure_table_start procedure_table_len).
Local Abbreviation passed := (not_a_pointer procedure_table_start procedure_table_len).

Lemma records_kept_refl st : records_kept st st.
Proof. intros a f Hf. exists f. by repeat split. Qed.

Lemma records_kept_trans st1 st2 st3 :
  records_kept st1 st2 → records_kept st2 st3 → records_kept st1 st3.
Proof.
  intros H12 H23 a f Hf.
  destruct (H12 a f Hf) as (f2 & Hf2 & A1 & A2 & A3 & A4 & A5 & A6).
  destruct (H23 a f2 Hf2) as (f3 & Hf3 & B1 & B2 & B3 & B4 & B5 & B6).
  exists f3. repeat split; try congruence. auto.
Qed.

Lemma mark_referenced_lookup addr st a :
  functions (mark_referenced addr (label_insert addr st)) !! a =
    if decide (a = addr) then
      let f := default Function_new (functions st !! addr) in
      Some (mkFunction (returns f) (end_addr f) (nargs f) (nret f) (v0_in f) true)
    else functions st !! a.
Proof.
  destruct st as [v l fs li]. unfold mark_referenced, label_insert. cbn.
  case_decide as Ha.
  - subst a. by rewrite lookup_insert_eq.
  - by rewrite lookup_insert_ne.
Qed.

Lemma mark_referenced_kept addr st :
  records_kept st (mark_referenced addr (label_insert addr st)).
Proof.
  intros a f Hf. rewrite mark_referenced_lookup. case_decide as Ha.
  - subst a. rewrite Hf. cbn. eexists. split; [done|]. by repeat split.
  - exists f. by repeat split.
Qed.

Lemma mark_referenced_rest addr st :
  rinsns (mark_referenced addr (label_insert addr st)) = rinsns st ∧
  li_function_pointers (mark_referenced addr (label_insert addr st))
    = li_function_pointers st ∧
  label_addresses (mark_referenced addr (label_insert addr st))
    = {[addr]} ∪ label_addresses st.
Proof. by destruct st. Qed.

Lemma inspect_loop_spec (n : nat) (i : Z) section sv ret st ret' st' :
  scan n i section sv ret st = Ok (ret', st') →
  rinsns st' = rinsns st ∧
  li_function_pointers st' = li_function_pointers st ∧
  records_kept st st' ∧
  ∃ found, ret' = ret ++ found ∧
    (∀ loc addr, (loc, addr) ∈ found ↔
       ∃ k : nat, (k < n)%nat ∧ loc = u32 (sv + (i + 4 * Z.of_nat k)) ∧
         read_u32_be section (i + 4 * Z.of_nat k) = Ok addr ∧
         taken sv (i + 4 * Z.of_nat k) addr = true) ∧
    (∀ a, a ∈ label_addresses st' ↔
          a ∈ label_addresses st ∨ ∃ loc, (loc, a) ∈ found) ∧
    (∀ a, is_Some (functions st' !! a) ↔
          is_Some (functions st !! a) ∨ ∃ loc, (loc, a) ∈ found) ∧
    (∀ loc a, (loc, a) ∈ found →
       ∃ f, functions st' !! a = Some f ∧ referenced_by_function_pointer f = true).
Proof.
  revert i ret st ret' st'.
  induction n as [|n IH]; intros i ret st ret' st' E; cbn [inspect_loop] in E.
  - injection E as <- <-. split; [done|]. split; [done|].
    split; [apply records_kept_refl|].
    exists []. split; [by rewrite app_nil_r|]. split; [|split; [|split]].
    + intros loc addr. split; [intros Hin; by apply elem_of_nil in Hin|].
      intros (k & Hk & _). lia.
    + intros a. split; [by left|]. intros [?|[loc Hin]]; [done|].
      by apply elem_of_nil in Hin.
    + intros a. split; [by left|]. intros [?|[loc Hin]]; [done|].
      by apply elem_of_nil in Hin.
    + intros loc a Hin. by apply elem_of_nil in Hin.
  - ok_step E addr Hw.
    assert (∀ (k : nat), i + 4 + 4 * Z.of_nat k = i + 4 * Z.of_nat (S k)) as Hshift
      by (intros; lia).
    destruct (taken sv i addr) eqn:Hp.
    + (* the word is recorded *)
      unfold assumed_pointer in Hp.
      apply andb_true_iff in Hp as [Hp Ha4]. apply andb_true_iff in Hp as [Hnp Hit].
      apply negb_true_iff in Hnp.
      rewrite Hnp, Hit, Ha4 in E. cbn [andb] in E.
      apply IH in E as (Hr & Hl & Hk & found & -> & Hf & Hlab & Hdom & Href).
      destruct (mark_referenced_rest addr st) as (Mr & Ml & Mlab).
      split; [congruence|]. split; [congruence|].
      split; [eapply records_kept_trans; [apply mark_referenced_kept|done]|].
      exists ((u32 (sv + i), addr) :: found).
      split; [by rewrite <- app_assoc|]. split; [|split; [|split]].
      * intros loc a. rewrite elem_of_cons, Hf. split.
        -- intros [Heq|(k & Hk' & -> & Hrd & Hap)].
           ++ injection Heq as -> ->. exists 0%nat.
              rewrite Z.mul_0_r, Z.add_0_r. split; [lia|]. split; [done|].
              split; [done|]. unfold assumed_pointer.
              by rewrite Hnp, Hit, Ha4.
           ++ exists (S k). rewrite <- Hshift. split; [lia|]. done.
        -- intros ([|k] & Hk' & -> & Hrd & Hap).
           ++ left. rewrite Z.mul_0_r, Z.add_0_r in *. congruence.
           ++ right. exists k. rewrite Hshift. split; [lia|]. done.
      * intros a. rewrite Hlab, Mlab, elem_of_union, elem_of_singleton. split.
        -- intros [[->|?]|[loc Hin]]; [right|by left|right].
           ++ exists (u32 (sv + i)). left.
           ++ exists loc. by right.
        -- intros [?|[loc Hin]]; [left; by right|].
           apply elem_of_cons in Hin as [Heq|Hin].
           ++ injection Heq as -> ->. left. by left.
           ++ right. by exists loc.
      * intros a. rewrite Hdom, mark_referenced_lookup. split.
        -- intros [Hs|[loc Hin]].
           ++ destruct (decide (a = addr)) as [Ha|Ha]; [|by left]. subst a. right.
              exists (u32 (sv + i)). left.
           ++ right. exists loc. by right.
        -- intros [Hs|[loc Hin]].
           ++ left. destruct (decide (a = addr)); [cbv zeta; eexists; reflexivity|done].
           ++ apply elem_of_cons in Hin as [Heq|Hin].
              ** injection Heq as -> ->. left. rewrite decide_True by done.
                 cbv zeta. eexists. reflexivity.
              ** right. by exists loc.
      * intros loc a Hin. apply elem_of_cons in Hin as [Heq|Hin]; [|by eapply Href].
        injection Heq as -> ->.
        destruct (Hk addr) with
          (f := let f := default Function_new (functions st !! addr) in
                mkFunction (returns f) (end_addr f) (nargs f) (nret f) (v0_in f) true)
          as (f' & Hf' & _ & _ & _ & _ & _ & Hflag).
        { rewrite mark_referenced_lookup. by rewrite decide_True. }
        exists f'. split; [done|]. by apply Hflag.
    + (* the word is passed over *)
      assert (scan n (i + 4) section sv ret st = Ok (ret', st')) as E'.
      { unfold assumed_pointer in Hp.
        destruct (passed sv i addr); [done|].
        cbn [negb andb] in Hp. by rewrite Hp in E. }
      apply IH in E' as (Hr & Hl & Hk & found & -> & Hf & Hlab & Hdom & Href).
      split; [done|]. split; [done|]. split; [done|].
      exists found. split; [done|]. split; [|done].
      intros loc a. rewrite Hf. split.
      * intros (k & Hk' & -> & Hrd & Hap). exists (S k). rewrite <- Hshift.
        split; [lia|]. done.
      * intros ([|k] & Hk' & -> & Hrd & Hap).
        -- rewrite Z.mul_0_r, Z.add_0_r in *. congruence.
        -- exists k. rewrite Hshift. split; [lia|]. done.
Qed.

(** The pairs are appended one per word taken, in the order of the
    offsets. *)
Lemma inspect_loop_found (n j : nat) section sv ret st ret' st' :
  scan n (4 * Z.of_nat j) section sv ret st = Ok (ret', st') →
  ret' = ret ++ omap (word_taken elf procedure_table_start procedure_table_len section sv)
                     (seq j n).
Proof.
  revert j ret st. induction n as [|n IH]; intros j ret st E; cbn [inspect_loop] in E.
  - injection E as <- <-. cbn. by rewrite app_nil_r.
  - ok_step E addr Hw.
    replace (4 * Z.of_nat j + 4) with (4 * Z.of_nat (S j)) in E by lia.
    cbn [seq omap list_omap]. unfold word_taken at 1. cbv zeta. rewrite Hw.
    unfold assumed_pointer.
    destruct (passed sv (4 * Z.of_nat j) addr); cbn [negb andb];
      [exact (IH _ _ _ E)|].
    destruct (in_text elf addr && bool_decide (Z.rem addr 4 = 0));
      [|exact (IH _ _ _ E)].
    apply IH in E. by rewrite E, <- app_assoc.
Qed.

(** X14. [inspect_data_function_pointers] appends to the vector exactly
    the words of the section, in order of offset and once per word, that it
    takes for function pointers: 4-aligned addresses inside [.text], other
    than the three constants it knows and outside the procedure table. Each address it
    appends gets a label and a function record with
    [referenced_by_function_pointer] set; no other label or record is added,
    no record loses a field or a raised flag, and the instruction vector is
    not touched. *)
Theorem inspect_data_function_pointers_records
    (ret : list (Z * Z)) (section : list Z) (section_vaddr len : Z)
    (st : State) (ret' : list (Z * Z)) (st' : State) :
  inspect_data_function_pointers elf procedure_table_start procedure_table_len
    ret section section_vaddr len st = Ok (ret', st') →
  rinsns st' = rinsns st ∧
  li_function_pointers st' = li_function_pointers st ∧
  records_kept st st' ∧
  ∃ found, ret' = ret ++ found ∧
    found = omap (word_taken elf procedure_table_start procedure_table_len
                    section section_vaddr)
                 (seq 0 (Z.to_nat ((len + 3) / 4))) ∧
    (∀ loc addr, (loc, addr) ∈ found ↔
       ∃ k : nat, (k < Z.to_nat ((len + 3) / 4))%nat ∧
         loc = u32 (section_vaddr + 4 * Z.of_nat k) ∧
         read_u32_be section (4 * Z.of_nat k) = Ok addr ∧
         taken section_vaddr (4 * Z.of_nat k) addr = true) ∧
    (∀ a, a ∈ label_addresses st' ↔
          a ∈ label_addresses st ∨ ∃ loc, (loc, a) ∈ found) ∧
    (∀ a, is_Some (functions st' !! a) ↔
          is_Some (functions st !! a) ∨ ∃ loc, (loc, a) ∈ found) ∧
    (∀ loc a, (loc, a) ∈ found →
       ∃ f, functions st' !! a = Some f ∧ referenced_by_function_pointer f = true).
Proof.
  unfold inspect_data_function_pointers. intros E.
  pose proof (inspect_loop_found _ 0 _ _ _ _ _ _ E) as Hfound.
  apply inspect_loop_spec in E as (Hr & Hl & Hk & found & Hret & Hf & Hrest).
  split; [done|]. split; [done|]. split; [done|].
  exists found. split; [done|].
  split; [rewrite Hret in Hfound; by apply app_inv_head in Hfound|].
  split; [|done].
  intros loc addr. rewrite Hf. by setoid_rewrite Z.add_0_l.
Qed.

End PointerScan.

(** * Function boundaries *)

Lemma pass2_frame_refl st : pass2_frame st st.
Proof.
  split; [done|]. split; [done|]. intros a f Hf. exists f.
  repeat split; try done. exists []. by rewrite app_nil_r.
Qed.

Lemma pass2_frame_trans st1 st2 st3 :
  pass2_frame st1 st2 → pass2_frame st2 st3 → pass2_frame st1 st3.
Proof.
  intros (L1 & A1 & R1) (L2 & A2 & R2).
  split; [congruence|]. split; [congruence|]. intros a f Hf.
  destruct (R1 a f Hf) as (f2 & Hf2 & (e1 & He1) & B1 & B2 & B3 & B4).
  destruct (R2 a f2 Hf2) as (f3 & Hf3 & (e2 & He2) & C1 & C2 & C3 & C4).
  exists f3. split; [done|]. split.
  - exists (e1 ++ e2). by rewrite He2, He1, app_assoc.
  - repeat split; try congruence. auto.
Qed.

Lemma only_record_refl k st : only_record k st st.
Proof. repeat split; try done. congruence. Qed.

Lemma only_record_trans k st1 st2 st3 :
  only_record k st1 st2 → only_record k st2 st3 → only_record k st1 st3.
Proof.
  intros (A1 & B1 & C1) (A2 & B2 & C2). split; [|split].
  - intros a Ha. by rewrite A2, A1.
  - by rewrite B2, B1.
  - intros f f' Hf Hf'.
    assert (is_Some (functions st2 !! k)) as [f2 Hf2] by (apply B1; by eexists).
    rewrite (C2 f2 f' Hf2 Hf'). by apply C1.
Qed.

Lemma upd_insn_pass2_frame k f st st' :
  upd_insn k f st = Ok st' → pass2_frame st st' ∧ ∀ a, only_record a st st'.
Proof.
  intros E. pose proof (upd_insn_length _ _ _ _ E) as Hlen.
  apply upd_insn_Ok in E as (a & Hk & Ha & ->).
  split.
  - split; [done|]. split; [by destruct st|]. intros b g Hg. exists g.
    split; [by destruct st|]. repeat split; try done. exists []. by rewrite app_nil_r.
  - intros b. destruct st. repeat split; try done. cbn. congruence.
Qed.

Lemma push_return_pass2_frame k ret st :
  pass2_frame st (push_return k ret st) ∧ only_record k st (push_return k ret st).
Proof.
  unfold push_return. destruct (functions st !! k) as [f|] eqn:Hf.
  2:{ split; [apply pass2_frame_refl|apply only_record_refl]. }
  destruct st as [v l fs li]. cbn in *.
  split.
  - split; [done|]. split; [done|]. intros a g Hg. cbn in *.
    destruct (decide (a = k)) as [->|Hne].
    + rewrite Hf in Hg. injection Hg as <-. eexists.
      split; [by rewrite lookup_insert_eq|].
      cbn. repeat split; try done. by eexists.
    + exists g. split; [by rewrite lookup_insert_ne|].
      repeat split; try done. exists []. by rewrite app_nil_r.
  - split; [|split]; cbn.
    + intros a Ha. by rewrite lookup_insert_ne.
    + rewrite lookup_insert_eq, Hf. split; by eexists.
    + intros g g' Hg Hg'. rewrite lookup_insert_eq in Hg'.
      injection Hg' as <-. cbn. congruence.
Qed.

Lemma mark_referenced_pass2_frame addr st :
  pass2_frame st (mark_referenced addr (li_insert addr st)).
Proof.
  destruct st as [v l fs li].
  split; [done|]. split; [done|]. intros a f Hf. cbn in *.
  destruct (decide (a = addr)) as [->|Hne].
  - eexists. split; [by rewrite lookup_insert_eq|].
    rewrite Hf. cbn. repeat split; try done.
    exists []. by rewrite app_nil_r.
  - exists f. split; [by rewrite lookup_insert_ne|].
    repeat split; try done. exists []. by rewrite app_nil_r.
Qed.

Section Boundaries.
Context `{Rabbitizer}.
Variable elf : Elf.

Lemma r_pass2_scan_step_frame i st st' :
  r_pass2_scan_step elf i st = Ok st' → pass2_frame st st'.
Proof.
  unfold r_pass2_scan_step. intros E. ok_step E insn Hi. ok_step E st1 E1.
  assert (pass2_frame st st1) as F1.
  { destruct (is_jr_ra insn); [|injection E1 as <-; apply pass2_frame_refl].
    destruct (find_function _ _) as [[k f]|]; [|done].
    injection E1 as <-. apply push_return_pass2_frame. }
  cbv zeta in E.
  destruct (is_global_got_memop insn && in_text elf _); injection E as <-; [|done].
  eapply pass2_frame_trans; [exact F1|apply mark_referenced_pass2_frame].
Qed.

Lemma r_pass2_scan_frame n i st st' :
  r_pass2_scan elf n i st = Ok st' → pass2_frame st st'.
Proof.
  revert i st. induction n as [|n IH]; cbn [r_pass2_scan]; intros i st E.
  - injection E as <-. apply pass2_frame_refl.
  - ok_step E st1 E1. eauto using pass2_frame_trans, r_pass2_scan_step_frame.
Qed.

Lemma fixes_refl k st : fixes k st st.
Proof. split; [apply pass2_frame_refl|apply only_record_refl]. Qed.

Lemma fixes_trans k st1 st2 st3 : fixes k st1 st2 → fixes k st2 st3 → fixes k st1 st3.
Proof.
  intros [A1 B1] [A2 B2].
  split; [by eapply pass2_frame_trans|by eapply only_record_trans].
Qed.

Lemma upd_insn_fixes k j f st st' : upd_insn j f st = Ok st' → fixes k st st'.
Proof. intros E. apply upd_insn_pass2_frame in E as [A B]. by split. Qed.

Lemma nop_fill_fixes k n i st st' : nop_fill n i st = Ok st' → fixes k st st'.
Proof.
  revert i st. induction n as [|n IH]; cbn [nop_fill]; intros i st E.
  - injection E as <-. apply fixes_refl.
  - ok_step E st1 E1. eauto using fixes_trans, upd_insn_fixes.
Qed.

Lemma xmalloc_fix_fixes k i st st' : xmalloc_fix elf k i st = Ok st' → fixes k st st'.
Proof.
  unfold xmalloc_fix. cbv zeta. intros E. ok_step E st1 E1.
  case_bool_decide; [|done]. ok_step E r5 H5. ok_step E st2 E2. ok_step E st3 E3.
  assert (fixes k st1 st2) as F2.
  { destruct (_ || _); [by eapply upd_insn_fixes|].
    ok_step E2 r3 H3. by eapply upd_insn_fixes. }
  eapply fixes_trans; [by eapply upd_insn_fixes|].
  eapply fixes_trans; [exact F2|].
  eapply fixes_trans; [by eapply upd_insn_fixes|].
  eapply fixes_trans; [apply push_return_pass2_frame|].
  by eapply nop_fill_fixes.
Qed.

Lemma xfree_fix_fixes k i st st' : xfree_fix elf k i st = Ok st' → fixes k st st'.
Proof.
  unfold xfree_fix. cbv zeta. intros E. ok_step E st1 E1.
  case_bool_decide; [|done]. ok_step E r2 H2. ok_step E st2 E2. ok_step E st3 E3.
  eapply fixes_trans; [by eapply upd_insn_fixes|].
  eapply fixes_trans; [by eapply upd_insn_fixes|].
  eapply fixes_trans; [by eapply upd_insn_fixes|].
  eapply fixes_trans; [apply push_return_pass2_frame|].
  by eapply upd_insn_fixes.
Qed.

Lemma no_return_other_same k i st st' : no_return_other elf k i st = Ok st' → st' = st.
Proof.
  assert (∀ o : Outcome State,
            o = (if bool_decide (mcount_addr elf < k) then Abort "no ret" else Ok st) →
            o = Ok st' → st' = st) as Hno.
  { intros o -> E. case_bool_decide; [done|]. by injection E. }
  unfold no_return_other. cbv zeta. intros E. ok_step E a Ha.
  case_bool_decide; [|by eapply Hno].
  ok_step E b Hb. case_bool_decide; [|by eapply Hno].
  ok_step E c Hc. case_bool_decide; [by injection E|by eapply Hno].
Qed.

Lemma no_return_fixup_fixes k st st' : no_return_fixup elf k st = Ok st' → fixes k st st'.
Proof.
  unfold no_return_fixup. cbv zeta. intros E.
  destruct (symbol_names elf !! k) as [name|].
  - repeat case_bool_decide.
    + injection E as <-. apply fixes_refl.
    + by eapply xmalloc_fix_fixes.
    + by eapply xfree_fix_fixes.
    + apply no_return_other_same in E as ->. apply fixes_refl.
  - apply no_return_other_same in E as ->. apply fixes_refl.
Qed.

End Boundaries.

Lemma set_end_addr_lookup k e st a :
  functions (set_end_addr k e st) !! a =
    if decide (a = k) then
      (λ f, mkFunction (returns f) e (nargs f) (nret f) (v0_in f)
              (referenced_by_function_pointer f)) <$> functions st !! k
    else functions st !! a.
Proof.
  unfold set_end_addr. destruct (functions st !! k) as [f|] eqn:Hf.
  - destruct st as [v l fs li]. cbn in *. case_decide as Ha.
    + subst a. by rewrite lookup_insert_eq.
    + by rewrite lookup_insert_ne.
  - case_decide as Ha; [by subst a|done].
Qed.

Lemma set_end_addr_frame k e st : pass2_frame st (set_end_addr k e st).
Proof.
  split; [unfold set_end_addr; destruct (functions st !! k); by destruct st|].
  split; [unfold set_end_addr; destruct (functions st !! k); by destruct st|].
  intros a f Hf. rewrite set_end_addr_lookup. case_decide as Ha.
  - subst a. rewrite Hf. cbn. eexists. split; [done|].
    repeat split; try done. exists []. by rewrite app_nil_r.
  - exists f. repeat split; try done. exists []. by rewrite app_nil_r.
Qed.

(** In a sorted list without duplicates, the next element is the least
    one above. *)
Lemma sorted_next (keys : list Z) (j : nat) (a : Z) :
  StronglySorted Z.le keys → NoDup keys → keys !! j = Some a →
  match keys !! S j with
  | Some b => a < b ∧ b ∈ keys ∧ ∀ c, c ∈ keys → a < c → b ≤ c
  | None => ∀ c, c ∈ keys → c ≤ a
  end.
Proof.
  revert j. induction keys as [|x l IH]; intros j Hs Hn Hj; [done|].
  apply StronglySorted_inv in Hs as [Hs Hall]. rewrite Forall_forall in Hall.
  apply NoDup_cons in Hn as [Hx Hn].
  destruct j as [|j].
  - injection Hj as <-. cbn. destruct l as [|b l']; cbn.
    + intros c Hc. apply list_elem_of_singleton in Hc. lia.
    + assert (x ≤ b) by (apply Hall; left).
      assert (x ≠ b) by (intros ->; apply Hx; left).
      split; [lia|]. split; [right; left|].
      intros c Hc Hxc. apply elem_of_cons in Hc as [->|Hc]; [lia|].
      apply elem_of_cons in Hc as [->|Hc]; [lia|].
      apply StronglySorted_inv in Hs as [_ Hb]. rewrite Forall_forall in Hb.
      by apply Hb.
  - cbn in Hj. specialize (IH j Hs Hn Hj). cbn.
    assert (x ≤ a) by (apply Hall; by eapply list_elem_of_lookup_2).
    destruct (l !! S j) as [b|].
    + destruct IH as (Hab & Hb & Hmin). split; [done|]. split; [by right|].
      intros c Hc Hac. apply elem_of_cons in Hc as [->|Hc]; [lia|by apply Hmin].
    + intros c Hc. apply elem_of_cons in Hc as [->|Hc]; [done|by apply IH].
Qed.

Lemma functions_in_order_keys (fs : gmap Z Function) :
  StronglySorted Z.le (functions_in_order fs).*1 ∧
  NoDup (functions_in_order fs).*1 ∧
  ∀ k, k ∈ (functions_in_order fs).*1 ↔ is_Some (fs !! k).
Proof.
  split; [|split].
  - pose proof (functions_in_order_sorted fs) as Hs.
    induction Hs as [|p l Hs IH Hall]; [constructor|].
    cbn. constructor; [done|]. rewrite Forall_fmap.
    eapply Forall_impl; [exact Hall|]. by intros q Hq.
  - unfold functions_in_order. rewrite merge_sort_Permutation.
    apply NoDup_fst_map_to_list.
  - intros k. rewrite list_elem_of_fmap. split.
    + intros ([k' f] & -> & Hin). apply functions_in_order_elem in Hin. by exists f.
    + intros [f Hf]. exists (k, f). split; [done|]. by apply functions_in_order_elem.
Qed.

Section Tiling.
Context `{Rabbitizer}.
Variable elf : Elf.

Lemma r_pass2_functions_spec (keys : list Z) (st st' : State) :
  NoDup keys →
  (∀ k, k ∈ keys → is_Some (functions st !! k)) →
  r_pass2_functions elf keys st = Ok st' →
  pass2_frame st st' ∧
  (∀ a, is_Some (functions st' !! a) ↔ is_Some (functions st !! a)) ∧
  (∀ a, a ∉ keys → functions st' !! a = functions st !! a) ∧
  (∀ (j : nat) k, keys !! j = Some k →
     ∃ f', functions st' !! k = Some f' ∧
       end_addr f' = default (u32 (text_vaddr elf + text_section_len elf)) (keys !! S j)).
Proof.
  revert st. induction keys as [|k rest IH]; intros st Hnd Hdom E;
    cbn [r_pass2_functions] in E.
  - injection E as <-. split; [apply pass2_frame_refl|]. repeat split; done.
  - apply NoDup_cons in Hnd as [Hk Hnd].
    ok_step E st1 E1.
    assert (fixes k st st1) as [F1 (O1 & D1 & _)].
    { destruct (functions st !! k) as [f|]; [|injection E1 as <-; apply fixes_refl].
      case_bool_decide; [by eapply no_return_fixup_fixes|].
      injection E1 as <-. apply fixes_refl. }
    set (e := match rest with
              | next :: _ => next
              | [] => u32 (text_vaddr elf + text_section_len elf)
              end) in E.
    assert (∀ a, is_Some (functions (set_end_addr k e st1) !! a)
                 ↔ is_Some (functions st !! a)) as Hdom2.
    { intros a. rewrite set_end_addr_lookup. case_decide as Ha.
      - subst a. rewrite <- D1. by rewrite fmap_is_Some.
      - by rewrite O1. }
    apply IH in E as (F2 & D2 & O2 & E2); [|done|].
    2:{ intros a Ha. apply Hdom2, Hdom. by right. }
    split; [|split; [|split]].
    + eapply pass2_frame_trans; [exact F1|].
      eapply pass2_frame_trans; [apply set_end_addr_frame|exact F2].
    + intros a. by rewrite D2, Hdom2.
    + intros a Ha. apply not_elem_of_cons in Ha as [Hak Har].
      rewrite O2 by done. rewrite set_end_addr_lookup, decide_False by done.
      by apply O1.
    + intros [|j] a Hj.
      * injection Hj as <-. rewrite O2 by done.
        rewrite set_end_addr_lookup, decide_True by done.
        destruct (Hdom k) as [f Hf]; [left|].
        assert (is_Some (functions st1 !! k)) as [f1 Hf1] by (apply D1; by eexists).
        rewrite Hf1. cbn. eexists. split; [done|]. cbn.
        unfold e. by destruct rest.
      * cbn in Hj. by apply E2.
Qed.

(** X15. After [r_pass2] the functions tile [.text]: the [end_addr] of
    every record is the least key of the table above its own key, and for
    the record with the greatest key it is [text_vaddr + text_section_len]. *)
Theorem r_pass2_end_addr (st st' : State) (k : Z) (f' : Function) :
  r_pass2 elf st = Ok st' →
  functions st' !! k = Some f' →
  (k < end_addr f' ∧ is_Some (functions st' !! end_addr f') ∧
   ∀ k', is_Some (functions st' !! k') → k < k' → end_addr f' ≤ k')
  ∨ (end_addr f' = u32 (text_vaddr elf + text_section_len elf) ∧
     ∀ k', is_Some (functions st' !! k') → k' ≤ k).
Proof.
  unfold r_pass2. intros E Hf'. ok_step E st1 E1.
  destruct (functions_in_order_keys (functions st1)) as (Hs & Hnd & Hkeys).
  apply r_pass2_functions_spec in E as (_ & D & _ & Hend); [|done|by intros a ?%Hkeys].
  assert (k ∈ (functions_in_order (functions st1)).*1) as Hk
    by (apply Hkeys, D; by eexists).
  apply list_elem_of_lookup_1 in Hk as [j Hj].
  destruct (Hend j k Hj) as (g & Hg & He). rewrite Hf' in Hg. injection Hg as <-.
  pose proof (sorted_next _ j k Hs Hnd Hj) as Hnext.
  destruct ((functions_in_order (functions st1)).*1 !! S j) as [b|]; cbn in He.
  - left. destruct Hnext as (Hkb & Hb & Hmin). rewrite He.
    split; [done|]. split; [apply D, Hkeys, Hb|].
    intros k' Hk' Hlt. apply Hmin; [|done]. by apply Hkeys, D.
  - right. split; [done|]. intros k' Hk'. apply Hnext. by apply Hkeys, D.
Qed.

(** X16. [r_pass2] keeps the number of instruction records and the
    labels, and it keeps every function record it finds: [nargs], [nret]
    and [v0_in] stay, returns are only appended, and a raised
    [referenced_by_function_pointer] flag stays raised. *)
Theorem r_pass2_keeps_records (st st' : State) :
  r_pass2 elf st = Ok st' →
  length (rinsns st') = length (rinsns st) ∧
  label_addresses st' = label_addresses st ∧
  ∀ a f, functions st !! a = Some f →
    ∃ f', functions st' !! a = Some f' ∧
      (∃ ext, returns f' = returns f ++ ext) ∧
      nargs f' = nargs f ∧ nret f' = nret f ∧ v0_in f' = v0_in f ∧
      (referenced_by_function_pointer f = true →
       referenced_by_function_pointer f' = true).
Proof.
  unfold r_pass2. intros E. ok_step E st1 E1.
  destruct (functions_in_order_keys (functions st1)) as (Hs & Hnd & Hkeys).
  apply r_pass2_functions_spec in E as (F2 & _); [|done|by intros a ?%Hkeys].
  apply r_pass2_scan_frame in E1.
  exact (pass2_frame_trans _ _ _ E1 F2).
Qed.

End Tiling.

Lemma find_function_found (addr : Z) (fs : gmap Z Function) (k : Z) (f : Function) :
  find_function addr fs = Some (k, f) → fs !! k = Some f ∧ k ≤ addr.
Proof.
  unfold find_function. case_bool_decide; [done|]. intros E.
  pose proof (before_upper_bound_spec addr _ None (functions_in_order_sorted fs)) as Hb.
  rewrite E in Hb. destruct Hb as [[? _]|(Hin & Hle & _)]; [done|].
  by apply functions_in_order_elem in Hin.
Qed.

Section Returns.
Context `{Rabbitizer}.
Variable elf : Elf.

Lemma return_recorded_frame j st st' :
  pass2_frame st st' → return_recorded elf j st → return_recorded elf j st'.
Proof.
  intros (_ & _ & R) (k & f & Hf & Hk & Hin).
  destruct (R k f Hf) as (f' & Hf' & (ext & He) & _).
  exists k, f'. split; [done|]. split; [done|].
  rewrite He. apply elem_of_app. by left.
Qed.

Lemma r_pass2_scan_step_rinsns i st st' :
  r_pass2_scan_step elf i st = Ok st' → rinsns st' = rinsns st.
Proof.
  unfold r_pass2_scan_step. intros E. ok_step E insn Hi. ok_step E st1 E1.
  assert (rinsns st1 = rinsns st) as R1.
  { destruct (is_jr_ra insn); [|by injection E1 as <-].
    destruct (find_function _ _) as [[k f]|]; [|done]. injection E1 as <-.
    unfold push_return. destruct (functions st !! k); by destruct st. }
  cbv zeta in E.
  destruct (is_global_got_memop insn && in_text elf _); injection E as <-; [|done].
  rewrite <- R1. by destruct st1.
Qed.

Lemma r_pass2_scan_step_records i st st' insn :
  r_pass2_scan_step elf i st = Ok st' →
  get_insn st i = Ok insn → is_jr_ra insn = true →
  return_recorded elf i st'.
Proof.
  unfold r_pass2_scan_step. intros E Hi Hjr. rewrite Hi, bind_Ok_l, Hjr in E.
  ok_step E st1 E1.
  destruct (find_function _ _) as [[k f]|] eqn:Hfind; [|done]. injection E1 as <-.
  apply find_function_found in Hfind as [Hf Hk].
  assert (return_recorded elf i (push_return k (u32 (i_to_addr elf i + 4)) st)) as Hrec.
  { unfold push_return. rewrite Hf. eexists k, _. split.
    - destruct st. cbn. by rewrite lookup_insert_eq.
    - split; [done|]. cbn. apply elem_of_app. right. left. }
  cbv zeta in E.
  destruct (is_global_got_memop insn && in_text elf _); injection E as <-; [|done].
  eapply return_recorded_frame; [apply mark_referenced_pass2_frame|exact Hrec].
Qed.

Lemma r_pass2_scan_records n i st st' (j : Z) insn :
  r_pass2_scan elf n i st = Ok st' →
  i ≤ j < i + Z.of_nat n →
  get_insn st j = Ok insn → is_jr_ra insn = true →
  return_recorded elf j st'.
Proof.
  revert i st. induction n as [|n IH]; cbn [r_pass2_scan]; intros i st E Hj Hi Hjr; [lia|].
  ok_step E st1 E1.
  destruct (decide (j = i)) as [->|Hne].
  - eapply return_recorded_frame; [by eapply r_pass2_scan_frame|].
    by eapply r_pass2_scan_step_records.
  - eapply (IH (i + 1) st1); [done|lia| |done].
    unfold get_insn in *. by rewrite (r_pass2_scan_step_rinsns _ _ _ E1).
Qed.

(** X17. [r_pass2] loses no return: for every [jr $ra] of the vector, at
    index [j], the address of its delay slot is among the returns of a
    function whose record starts at or before the [jr]. *)
Theorem r_pass2_records_every_return (st st' : State) (j : nat) (insn : RInsn) :
  r_pass2 elf st = Ok st' →
  rinsns st !! j = Some insn →
  is_jr_ra insn = true →
  ∃ k f, functions st' !! k = Some f ∧ k ≤ i_to_addr elf (Z.of_nat j)
         ∧ u32 (i_to_addr elf (Z.of_nat j) + 4) ∈ returns f.
Proof.
  unfold r_pass2. intros E Hj Hjr. ok_step E st1 E1.
  destruct (functions_in_order_keys (functions st1)) as (Hs & Hnd & Hkeys).
  apply r_pass2_functions_spec in E as (F2 & _); [|done|by intros a ?%Hkeys].
  eapply return_recorded_frame; [exact F2|].
  eapply r_pass2_scan_records; [exact E1| |by apply vec_get_nat|done].
  apply lookup_lt_Some in Hj. lia.
Qed.

End Returns.

(** * What symbol resolution leaves alone *)

Lemma keeps_word_refl r : keeps_word r r.
Proof. by repeat split. Qed.

Lemma keeps_word_trans r1 r2 r3 : keeps_word r1 r2 → keeps_word r2 r3 → keeps_word r1 r3.
Proof.
  intros (A1&A2&A3&A4&A5&A6&A7&A8&A9) (B1&B2&B3&B4&B5&B6&B7&B8&B9).
  repeat split; congruence.
Qed.

Lemma pass1_frame_refl st : pass1_frame st st.
Proof.
  repeat split; try done. intros j r Hj. exists r. split; [done|apply keeps_word_refl].
Qed.

Lemma pass1_frame_trans st1 st2 st3 :
  pass1_frame st1 st2 → pass1_frame st2 st3 → pass1_frame st1 st3.
Proof.
  intros (L1 & P1 & A1 & F1 & R1) (L2 & P2 & A2 & F2 & R2).
  split; [congruence|]. split; [congruence|]. split; [set_solver|]. split; [auto|].
  intros j r Hj. destruct (R1 j r Hj) as (r2 & Hj2 & K12).
  destruct (R2 j r2 Hj2) as (r3 & Hj3 & K23).
  exists r3. split; [done|]. by eapply keeps_word_trans.
Qed.

Lemma upd_insn_pass1 k f st st' :
  upd_insn k f st = Ok st' → (∀ r, keeps_word r (f r)) → pass1_frame st st'.
Proof.
  intros E Hf. pose proof (upd_insn_length _ _ _ _ E) as Hlen.
  pose proof (λ j, upd_insn_lookup k f st st' j E) as Hlook.
  apply upd_insn_Ok in E as (a & Hk & Ha & ->).
  split; [done|]. destruct st as [v l fs li]. cbn in *.
  split; [done|]. split; [done|]. split; [done|].
  intros j r Hj. rewrite Hlook, Hj. cbn. eexists. split; [done|].
  case_decide; [apply Hf|apply keeps_word_refl].
Qed.

Lemma label_insert_pass1 a st st0 :
  pass1_frame st0 st → pass1_frame st0 (label_insert a st).
Proof.
  intros F. eapply pass1_frame_trans; [exact F|].
  destruct st as [v l fs li]. repeat split; try done; cbn.
  - set_solver.
  - intros j r Hj. exists r. split; [done|apply keeps_word_refl].
Qed.

Section ResolverFrame.
Context `{Rabbitizer}.
Variable elf : Elf.

Lemma add_function_pass1 a st st0 :
  pass1_frame st0 st → pass1_frame st0 (add_function elf a st).
Proof.
  intros F. eapply pass1_frame_trans; [exact F|].
  unfold add_function. destruct (in_text elf a); [|apply pass1_frame_refl].
  destruct (functions st !! a) as [f|] eqn:Hf; [apply pass1_frame_refl|].
  destruct st as [v l fs li]. cbn in *. repeat split; try done; cbn.
  - intros b g Hg. rewrite lookup_insert_ne; [done|congruence].
  - intros j r Hj. exists r. split; [done|apply keeps_word_refl].
Qed.

(** Take a computation that ended well apart, one bind or branch at a
    time; every write to the vector becomes a [pass1_frame] fact. *)
Ltac frame_step :=
  match goal with
  | E : Ok _ = Ok _ |- _ => injection E as <-
  | E : (_ ≫= _) = Ok _ |- _ =>
      let x := fresh "x" in let Hx := fresh "Hx" in ok_step E x Hx
  | E : upd_insn _ _ _ = Ok _ |- _ =>
      apply upd_insn_pass1 in E; [|intros; by repeat split]
  | E : (if ?b then _ else _) = Ok _ |- _ => destruct b eqn:?; try discriminate E
  | E : match ?x with _ => _ end = Ok _ |- _ => destruct x eqn:?; try discriminate E
  end.

Ltac frame_chain :=
  repeat (eapply pass1_frame_trans; [eassumption|]);
  repeat first [ apply pass1_frame_refl
               | eassumption
               | apply add_function_pass1
               | apply label_insert_pass1
               | case_match ].

Ltac frame_all := cbv zeta in *; repeat (frame_step; cbv zeta in * ); frame_chain.

Ltac split_conds E :=
  repeat lazymatch type of E with
  | (if ?b then _ else _) = Ok _ => destruct b eqn:?
  end.

Lemma r_link_with_lui_body_frame continue search offset reg mem_imm st st' :
  r_link_with_lui_body elf continue search offset reg mem_imm st = Ok st' →
  continue = Ok st' ∨ pass1_frame st st'.
Proof.
  intros E. unfold r_link_with_lui_body in E. ok_step E s Hs.
  destruct (uniqueId (instruction s)) eqn:Hid; try (left; exact E);
    split_conds E; try (left; exact E); right; frame_all.
Qed.

Lemma r_link_with_lui_frame offset reg mem_imm st st' :
  r_link_with_lui elf offset reg mem_imm st = Ok st' → pass1_frame st st'.
Proof.
  unfold r_link_with_lui. cbv zeta.
  generalize (Z.to_nat (offset - Z.max 0 (offset - MAX_LOOKBACK))) (offset - 1).
  intros n. induction n as [|n IH]; intros search E; cbn [r_link_with_lui_loop] in E.
  - injection E as <-. apply pass1_frame_refl.
  - apply r_link_with_lui_body_frame in E as [E|F]; [by eapply IH|done].
Qed.

Lemma r_link_with_jalr_body_frame continue search offset st st' :
  r_link_with_jalr_body elf continue search offset st = Ok st' →
  continue = Ok st' ∨ pass1_frame st st'.
Proof.
  intros E. unfold r_link_with_jalr_body in E. ok_step E s Hs.
  destruct (bool_decide (get_dest_reg (instruction s) = RABBITIZER_REG_GPR_O32_t9)).
  - destruct (uniqueId (instruction s)) eqn:Hid; try (left; exact E);
      split_conds E; try (left; exact E); right; frame_all.
  - split_conds E; [right; frame_all|left; exact E].
Qed.

Lemma r_link_with_jalr_frame offset st st' :
  r_link_with_jalr elf offset st = Ok st' → pass1_frame st st'.
Proof.
  unfold r_link_with_jalr. cbv zeta.
  generalize (Z.to_nat (offset - Z.max 0 (offset - MAX_LOOKBACK))) (offset - 1).
  intros n. induction n as [|n IH]; intros search E; cbn [r_link_with_jalr_loop] in E.
  - injection E as <-. apply pass1_frame_refl.
  - apply r_link_with_jalr_body_frame in E as [E|F]; [by eapply IH|done].
Qed.

Lemma mtc1_scan_frame n s i rt st st' :
  mtc1_scan n s i rt st = Ok st' → pass1_frame st st'.
Proof.
  revert s. induction n as [|n IH]; intros s E; cbn [mtc1_scan] in E.
  - injection E as <-. apply pass1_frame_refl.
  - unfold mtc1_scan_body in E. ok_step E r Hr.
    destruct (uniqueId (instruction r)) eqn:Hid; try (by eapply IH);
      split_conds E; try (by eapply IH); frame_all.
Qed.

Lemma jtbl_labels_frame rodata pos n k st st' :
  jtbl_labels elf rodata pos n k st = Ok st' → pass1_frame st st'.
Proof.
  revert k st. induction n as [|n IH]; intros k st E; cbn [jtbl_labels] in E.
  - injection E as <-. apply pass1_frame_refl.
  - ok_step E w Hw. apply IH in E.
    eapply pass1_frame_trans; [|exact E]. apply label_insert_pass1, pass1_frame_refl.
Qed.

Lemma jtbl_commit_frame rodata i jt st st' :
  jtbl_commit elf rodata i jt st = Ok st' → pass1_frame st st'.
Proof.
  unfold jtbl_commit. intros E. cbv zeta in E.
  ok_step E l Hl. ok_step E s1 E1. ok_step E s2 E2. ok_step E s3 E3.
  ok_step E s4 E4. ok_step E s5 E5. ok_step E s6 E6.
  destruct (jtbl_outside_rodata _ _ _); [done|].
  apply jtbl_labels_frame in E.
  assert (pass1_frame st s1) by (clear -E1; frame_all).
  assert (pass1_frame s5 s6) by (clear -E6; frame_all).
  clear E1 E6. frame_all.
Qed.

Lemma r_pass1_jr_frame i st st' :
  r_pass1_jr elf i st = Ok st' → pass1_frame st st'.
Proof.
  unfold r_pass1_jr. intros E.
  destruct (rodata_section elf) as [rodata|]; [|injection E as <-; apply pass1_frame_refl].
  case_bool_decide; [|injection E as <-; apply pass1_frame_refl].
  ok_step E found Hf. destruct found as [jt|]; [by eapply jtbl_commit_frame|].
  injection E as <-. apply pass1_frame_refl.
Qed.

Lemma r_pass1_memop_frame i st st' :
  r_pass1_memop elf i st = Ok st' → pass1_frame st st'.
Proof.
  unfold r_pass1_memop. intros E. cbv zeta in E. ok_step E insn Hi.
  case_bool_decide; [|by eapply r_link_with_lui_frame].
  frame_all.
Qed.

Lemma gp_restore_elision_frame i st st' :
  gp_restore_elision i st = Ok st' → pass1_frame st st'.
Proof. unfold gp_restore_elision. intros E. frame_all. Qed.

Lemma r_pass1_step_frame i st st' :
  r_pass1_step elf i st = Ok st' → pass1_frame st st'.
Proof.
  unfold r_pass1_step. intros E.
  ok_step E insn0 Hi0. ok_step E s1 E1. ok_step E insn1 Hi1. ok_step E s2 E2.
  ok_step E insn2 Hi2. ok_step E s3 E3. ok_step E insn3 Hi3.
  assert (pass1_frame st s1) as F1 by (clear -E1; frame_all).
  assert (pass1_frame s1 s2) as F2.
  { clear -E2. destruct (RabbitizerInstrDescriptor_isJump _);
      [|injection E2 as <-; apply pass1_frame_refl].
    destruct (uniqueId (instruction insn1));
      try (by eapply r_pass1_jr_frame); frame_all. }
  assert (pass1_frame s2 s3) as F3.
  { clear -E3. destruct (uniqueId (instruction insn2));
      try (by eapply r_pass1_memop_frame);
      try (by eapply mtc1_scan_frame);
      try (injection E3 as <-; apply pass1_frame_refl).
    - (* addiu *)
      cbv zeta in E3. split_conds E3; try (by eapply r_link_with_lui_frame); frame_all.
    - (* jalr *)
      case_bool_decide; [|injection E3 as <-; apply pass1_frame_refl].
      ok_step E3 s E. apply r_link_with_jalr_frame in E. frame_all.
    - (* ori *)
      cbv zeta in E3. split_conds E3; try (by eapply r_link_with_lui_frame); frame_all. }
  assert (pass1_frame s3 st') as F4.
  { clear -E. destruct (_ && _); [by eapply gp_restore_elision_frame|].
    injection E as <-. apply pass1_frame_refl. }
  eauto using pass1_frame_trans.
Qed.

(** X18. [r_pass1] rewrites opcodes and records links, but it never
    changes the word or the address of an instruction, an edge list, a
    [no_following_successor] flag or a liveness mask; it keeps the number of
    records and the pointer set, and it never removes a label or changes a
    function record that is there. *)
Theorem r_pass1_keeps_words (st st' : State) :
  r_pass1 elf st = Ok st' →
  length (rinsns st') = length (rinsns st) ∧
  li_function_pointers st' = li_function_pointers st ∧
  label_addresses st ⊆ label_addresses st' ∧
  (∀ a f, functions st !! a = Some f → functions st' !! a = Some f) ∧
  ∀ (j : nat) r, rinsns st !! j = Some r →
    ∃ r', rinsns st' !! j = Some r' ∧ keeps_word r r'.
Proof.
  enough (∀ n i s, r_pass1_loop elf n i s = Ok st' → pass1_frame s st') as Hloop.
  { intros E. unfold r_pass1 in E. exact (Hloop _ _ _ E). }
  induction n as [|n IH]; cbn [r_pass1_loop]; intros i s E.
  - injection E as <-. apply pass1_frame_refl.
  - ok_step E s1 E1.
    eapply pass1_frame_trans; [by eapply r_pass1_step_frame|by eapply IH].
Qed.

End ResolverFrame.

(** * Addresses and indices *)

Section Addresses.
Variable elf : Elf.

(** X19. Index and address go back and forth: for an index below 2^30 the
    address [text_vaddr + 4 * i], as the worklists store it in a
    [uint32_t], gives the index back under [addr_to_i], whether or not the
    sum wraps; and [addr_to_i] of a 32-bit address is an index below 2^30
    whose address is the address rounded down to a word of [.text]. *)
Theorem addr_to_i_round_trip (i : Z) :
  0 ≤ i < 2 ^ 30 →
  addr_to_i elf (i_to_addr elf i) = i ∧
  (∀ addr, 0 ≤ addr_to_i elf addr < 2 ^ 30) ∧
  (∀ addr, (addr - text_vaddr elf) `mod` 4 = 0 →
           i_to_addr elf (addr_to_i elf addr) = u32 addr).
Proof.
  intros Hi. unfold addr_to_i, i_to_addr, u32.
  change (2 ^ 30) with 1073741824 in *. change (2 ^ 32) with 4294967296.
  split; [|split].
  - rewrite Zminus_mod_idemp_l.
    replace (text_vaddr elf + i * 4 - text_vaddr elf) with (i * 4) by lia.
    rewrite Z.mod_small by lia. by rewrite Z.div_mul.
  - intros addr. pose proof (Z.mod_pos_bound (addr - text_vaddr elf) 4294967296).
    split; [apply Z.div_pos; lia|apply Z.div_lt_upper_bound; lia].
  - intros addr Hal.
    assert (((addr - text_vaddr elf) `mod` 4294967296) `mod` 4 = 0) as Hal'.
    { revert Hal. generalize (addr - text_vaddr elf). intros x Hx.
      Z.div_mod_to_equations. lia. }
    replace ((addr - text_vaddr elf) `mod` 4294967296 / 4 * 4)
      with ((addr - text_vaddr elf) `mod` 4294967296)
      by (Z.div_mod_to_equations; lia).
    rewrite Zplus_mod_idemp_r. f_equal. lia.
Qed.

End Addresses.

(** * The fixed point of the forward pass *)

Lemma r_insn_to_type_twice (insn : RInsn) :
  r_insn_to_type (r_insn_to_type insn).2 = r_insn_to_type insn.
Proof.
  destruct (decide (uniqueId (instruction insn) = RABBITIZER_INSTR_ID_cpu_jr)) as [Hid|Hid].
  - rewrite (r_insn_to_type_jr insn Hid). cbn [snd].
    assert (uniqueId (instruction (jr_packed insn)) = RABBITIZER_INSTR_ID_cpu_jr) as Hu
      by (unfold jr_packed; by case_bool_decide).
    rewrite (r_insn_to_type_jr _ Hu). by rewrite jr_packed_again.
  - rewrite (r_insn_to_type_other insn Hid).
    by destruct (r_insn_to_type insn) eqn:E.
Qed.

Lemma jr_packed_set_f_liveout m insn :
  jr_packed (set_f_liveout m insn) = set_f_liveout m (jr_packed insn).
Proof. unfold jr_packed. cbn [jtbl_addr set_f_liveout]. by case_bool_decide. Qed.

(** The type of a record does not depend on its liveness masks. *)
Lemma r_insn_to_type_set_f_liveout m insn :
  r_insn_to_type (set_f_liveout m insn)
  = ((r_insn_to_type insn).1, set_f_liveout m (r_insn_to_type insn).2).
Proof.
  destruct (decide (uniqueId (instruction insn) = RABBITIZER_INSTR_ID_cpu_jr)) as [Hid|Hid].
  - rewrite (r_insn_to_type_jr insn Hid), (r_insn_to_type_jr (set_f_liveout m insn) Hid).
    by rewrite jr_packed_set_f_liveout.
  - rewrite (r_insn_to_type_other insn Hid).
    unfold r_insn_to_type. cbn [instruction set_f_liveout].
    destruct (uniqueId (instruction insn)); done.
Qed.

Section ForwardFixedPoint.
Context `{Rabbitizer}.
Variable elf : Elf.

Lemma addr_to_i_of_index (k : Z) :
  0 ≤ k < 2 ^ 30 → addr_to_i elf (i_to_addr elf k) = k.
Proof.
  intros Hk. unfold addr_to_i, i_to_addr, u32.
  change (2 ^ 30) with 1073741824 in *. change (2 ^ 32) with 4294967296.
  rewrite Zminus_mod_idemp_l.
  replace (text_vaddr elf + k * 4 - text_vaddr elf) with (k * 4) by lia.
  rewrite Z.mod_small by lia. by rewrite Z.div_mul.
Qed.

Lemma f_pending_weaken st q q' :
  (∀ a, a ∈ q → a ∈ q') → f_pending elf st q → f_pending elf st q'.
Proof.
  intros Hq [Hsize Hall]. split; [done|]. intros j r Hj.
  destruct (Hall j r Hj) as [?|[(a & Ha & Hi)|?]]; eauto 6.
Qed.

(** Giving the record at [addr_to_i addr] a new [f_livein] and pushing
    [addr] keeps the invariant. *)
Lemma f_pending_push addr m st st' q :
  f_pending elf st q →
  upd_insn (addr_to_i elf addr) (set_f_livein m) st = Ok st' →
  f_pending elf st' (addr :: q).
Proof.
  intros [Hsize Hall] U. split.
  { unfold vec_size in *. by rewrite (upd_insn_length _ _ _ _ U). }
  intros j r' Hj. rewrite (upd_insn_lookup _ _ _ _ j U) in Hj.
  destruct (rinsns st !! j) as [r|] eqn:Hr; [|done]. injection Hj as <-.
  case_decide as Hjk.
  - right. left. exists addr. split; [left|done].
  - destruct (Hall j r Hr) as [?|[(a & Ha & Hi)|?]]; [by left| |by right; right].
    right. left. exists a. split; [by right|done].
Qed.

Lemma f_propagate_pending k new_live st q st' q' :
  f_pending elf st q →
  f_propagate elf k new_live st q = Ok (st', q') →
  f_pending elf st' q'.
Proof.
  intros Inv E. unfold f_propagate, propagate in E. ok_step E t Ht.
  destruct (new_bits (f_livein t) new_live); [|by injection E as <- <-].
  ok_step E s1 U. injection E as <- <-.
  pose proof (upd_insn_in_range _ _ _ _ U) as Hk.
  destruct Inv as [Hsize Hall]. split.
  { unfold vec_size in *. by rewrite (upd_insn_length _ _ _ _ U). }
  intros j r' Hj. rewrite (upd_insn_lookup _ _ _ _ j U) in Hj.
  destruct (rinsns st !! j) as [r|] eqn:Hr; [|done]. injection Hj as <-.
  case_decide as Hjk.
  - right. left. exists (i_to_addr elf k). split; [left|].
    rewrite addr_to_i_of_index by lia. done.
  - destruct (Hall j r Hr) as [?|[(a & Ha & Hi)|?]]; [by left| |by right; right].
    right. left. exists a. split; [by right|done].
Qed.

Lemma r_pass4_edges_pending es i live st q entry st' q' entry' :
  f_pending elf st q →
  r_pass4_edges elf es i live st q entry = Ok (st', q', entry') →
  f_pending elf st' q'.
Proof.
  revert st q entry. induction es as [|e es IH]; intros st q entry Inv E;
    cbn [r_pass4_edges] in E.
  - by injection E as <- <- <-.
  - ok_step E nl Hnl. cbv zeta in E. ok_step E p Hp. destruct p as [s1 q1].
    eapply IH; [|exact E]. by eapply f_propagate_pending.
Qed.

Lemma r_pass4_step_pending addr st q st' q' :
  f_pending elf st (addr :: q) →
  r_pass4_step elf addr st q = Ok (st', q') →
  f_pending elf st' q'.
Proof.
  intros [Hsize Hall] E. unfold r_pass4_step in E. cbv zeta in E.
  ok_step E insn0 Hi.
  rewrite (surjective_pairing (r_insn_to_type insn0)) in E.
  ok_step E s1 U0.
  set (i := addr_to_i elf addr) in *.
  set (ty := (r_insn_to_type insn0).1) in *.
  set (insn := (r_insn_to_type insn0).2) in *.
  assert (r_insn_to_type insn = (ty, insn)) as Htype.
  { subst insn ty. rewrite r_insn_to_type_twice. apply surjective_pairing. }
  assert (f_livein insn = f_livein insn0 ∧ f_liveout insn = f_liveout insn0) as [Hin Hout].
  { destruct (r_insn_to_type_masks insn0) as (A & B & _). by split. }
  (* every record but the one at [i] is as the invariant left it *)
  assert (∀ s (j : nat) r', vec_size (rinsns s) = vec_size (rinsns st) →
            (∀ j' : nat, Z.of_nat j' ≠ i → rinsns s !! j' = rinsns st !! j') →
            (∀ r, rinsns s !! Z.to_nat i = Some r → f_settled r) →
            rinsns s !! j = Some r' →
            f_livein r' = 0 ∨ (∃ a, a ∈ q ∧ addr_to_i elf a = Z.of_nat j) ∨ f_settled r')
    as Hrest.
  { intros s j r' _ Hsame Hset Hj.
    destruct (decide (Z.of_nat j = i)) as [Hji|Hji].
    - right. right. apply Hset. rewrite <- Hji, Nat2Z.id. done.
    - rewrite Hsame in Hj by done.
      destruct (Hall j r' Hj) as [?|[(a & Ha & Hai)|?]]; [by left| |by right; right].
      apply elem_of_cons in Ha as [->|Ha]; [exfalso; apply Hji; symmetry; exact Hai|].
      right. left. by exists a. }
  pose proof (upd_insn_in_range _ _ _ _ U0) as Hirange.
  assert (rinsns s1 !! Z.to_nat i = Some insn) as Hs1.
  { rewrite (upd_insn_lookup _ _ _ _ _ U0).
    apply vec_get_Ok in Hi as [_ ->]. cbn. rewrite decide_True by lia. done. }
  assert (∀ j' : nat, Z.of_nat j' ≠ i → rinsns s1 !! j' = rinsns st !! j') as Hs1'.
  { intros j' Hj'. rewrite (upd_insn_lookup _ _ _ _ _ U0).
    destruct (rinsns st !! j'); cbn; [|done]. by rewrite decide_False. }
  assert (vec_size (rinsns s1) = vec_size (rinsns st)) as Hlen1
    by (unfold vec_size; by rewrite (upd_insn_length _ _ _ _ U0)).
  case_bool_decide as Hnew.
  - injection E as <- <-. split; [lia|].
    intros j r' Hj. apply (Hrest s1 j r' Hlen1 Hs1'); [|done].
    intros r Hr. rewrite Hs1 in Hr. injection Hr as <-.
    unfold f_settled. rewrite Htype. cbn [fst snd].
    unfold mask_subset. by rewrite Z.lor_comm.
  - ok_step E s2 U1.
    set (live := Z.lor (f_transfer ty (instruction insn) (Z.lor (f_livein insn) 1))
                       (f_liveout insn)) in *.
    assert (f_pending elf s2 q) as Inv2.
    { split; [unfold vec_size in *; rewrite (upd_insn_length _ _ _ _ U1); lia|].
      intros j r' Hj. apply (Hrest s2 j r'); [| | |done].
      - unfold vec_size in *. by rewrite (upd_insn_length _ _ _ _ U1).
      - intros j' Hj'. rewrite (upd_insn_lookup _ _ _ _ _ U1), Hs1' by done.
        destruct (rinsns st !! j'); cbn; [|done]. by rewrite decide_False.
      - intros r Hr. rewrite (upd_insn_lookup _ _ _ _ _ U1), Hs1 in Hr. cbn in Hr.
        rewrite decide_True in Hr by lia. injection Hr as <-.
        unfold f_settled. rewrite r_insn_to_type_set_f_liveout, Htype. cbn.
        subst live. apply mask_subset_lor. }
    ok_step E x Hedges. destruct x as [[s3 q3] entry].
    pose proof (r_pass4_edges_pending _ _ _ _ _ _ _ _ _ Inv2 Hedges) as Inv3.
    destruct entry; [by eapply f_propagate_pending|by injection E as <- <-].
Qed.

Lemma r_pass4_loop_pending fuel st q st' :
  f_pending elf st q →
  r_pass4_loop elf fuel st q = Some (Ok st') →
  f_pending elf st' [].
Proof.
  revert st q. induction fuel as [|fuel IH]; intros st q Inv E.
  - destruct q; [|done]. cbn in E. by injection E as <-.
  - destruct q as [|addr q]; [cbn in E; by injection E as <-|].
    cbn [r_pass4_loop] in E.
    destruct (r_pass4_step elf addr st q) as [[s1 q1]| | |] eqn:Hstep; try done.
    eapply IH; [|exact E]. by eapply r_pass4_step_pending.
Qed.

Lemma r_pass4_seed_pending addrs st q st' q' :
  f_pending elf st q →
  r_pass4_seed elf addrs st q = Ok (st', q') →
  f_pending elf st' q'.
Proof.
  revert st q. induction addrs as [|a addrs IH]; intros st q Inv E;
    cbn [r_pass4_seed] in E.
  - by injection E as <- <-.
  - ok_step E s1 U. eapply IH; [|exact E]. by eapply f_pending_push.
Qed.

(** The whole pass: nothing is left pending. *)
Lemma r_pass4_pending (st st' : State) :
  vec_size (rinsns st) ≤ 2 ^ 30 →
  (∀ r, r ∈ rinsns st → f_livein r = 0) →
  r_pass4 elf st = Ok st' →
  f_pending elf st' [].
Proof.
  intros Hsize Hzero E. unfold r_pass4 in E.
  ok_step E p Hinit. destruct p as [s1 q1].
  assert (f_pending elf s1 q1) as Inv1.
  { unfold r_pass4_init in Hinit. ok_step Hinit s0 U0.
    ok_step Hinit p Hseed. destruct p as [s2 q2].
    eapply r_pass4_seed_pending; [|exact Hinit].
    eapply r_pass4_seed_pending; [|exact Hseed].
    eapply (f_pending_push _ _ st s0 []); [|exact U0].
    split; [done|]. intros j r Hj. left. apply Hzero.
    by eapply list_elem_of_lookup_2. }
  destruct (r_pass4_loop elf (worklist_bound s1 q1) s1 q1) as [[s2| | |]|] eqn:Hloop;
    try done.
  cbn in E. injection E as <-.
  by eapply r_pass4_loop_pending.
Qed.

(** The forward transfer only adds bits. *)
Lemma f_transfer_grows ty instr live : mask_subset live (f_transfer ty instr live).
Proof.
  unfold f_transfer. destruct ty; cbv zeta; repeat case_bool_decide;
    first [apply mask_subset_refl | apply mask_subset_lor
          | eapply mask_subset_trans; apply mask_subset_lor].
Qed.

(** X20. The forward pass ends at a fixed point of its transfer: run on
    a vector of at most 2^30 records with empty [f_livein] masks, [r_pass4]
    leaves every record it reached (its [f_livein] is not empty) with an
    [f_liveout] that holds what the transfer of the instruction makes of
    [f_livein | 1]. *)
Theorem r_pass4_fixed_point (st st' : State) :
  vec_size (rinsns st) ≤ 2 ^ 30 →
  (∀ r, r ∈ rinsns st → f_livein r = 0) →
  r_pass4 elf st = Ok st' →
  ∀ r, r ∈ rinsns st' →
    f_livein r = 0 ∨
    mask_subset
      (f_transfer (r_insn_to_type r).1 (instruction (r_insn_to_type r).2)
         (Z.lor (f_livein r) 1))
      (f_liveout r).
Proof.
  intros Hsize Hzero E.
  destruct (r_pass4_pending st st' Hsize Hzero E) as [_ Hall].
  intros r Hr. apply list_elem_of_lookup_1 in Hr as [j Hj].
  destruct (Hall j r Hj) as [?|[(a & Ha & _)|?]]; [by left| |by right].
  by apply elem_of_nil in Ha.
Qed.

(** X24. The forward pass never drops a register: under the same
    conditions, a record that [r_pass4] reached has in its [f_liveout] all
    of its [f_livein], and the always-set bit (bit 0). *)
Theorem r_pass4_liveout_holds_livein (st st' : State) :
  vec_size (rinsns st) ≤ 2 ^ 30 →
  (∀ r, r ∈ rinsns st → f_livein r = 0) →
  r_pass4 elf st = Ok st' →
  ∀ r, r ∈ rinsns st' → f_livein r ≠ 0 →
    mask_subset (f_livein r) (f_liveout r) ∧ Z.testbit (f_liveout r) 0 = true.
Proof.
  intros Hsize Hzero E r Hr Hreached.
  destruct (r_pass4_pending st st' Hsize Hzero E) as [_ Hall].
  apply list_elem_of_lookup_1 in Hr as [j Hj].
  destruct (Hall j r Hj) as [?|[(a & Ha & _)|Hset]]; [done|by apply elem_of_nil in Ha|].
  assert (mask_subset (Z.lor (f_livein r) 1) (f_liveout r)) as Hboth.
  { eapply mask_subset_trans; [apply f_transfer_grows|exact Hset]. }
  split.
  - eapply mask_subset_trans; [apply mask_subset_lor|exact Hboth].
  - unfold mask_subset in Hboth. rewrite <- Hboth, !Z.lor_spec.
    change (Z.testbit 1 0) with true. by rewrite orb_true_r.
Qed.

End ForwardFixedPoint.

(** * The reach of the backward searches *)

Lemma touches_only_refl P st : touches_only P st st.
Proof. by split. Qed.

Lemma touches_only_trans P st1 st2 st3 :
  touches_only P st1 st2 → touches_only P st2 st3 → touches_only P st1 st3.
Proof.
  intros [L1 R1] [L2 R2]. split; [congruence|].
  intros j Hj. by rewrite R2, R1.
Qed.

Lemma upd_insn_touches (P : Z → Prop) k f st st' :
  upd_insn k f st = Ok st' → P k → touches_only P st st'.
Proof.
  intros E Hk. split; [by eapply upd_insn_length|].
  intros j Hj. rewrite (upd_insn_lookup _ _ _ _ j E).
  destruct (rinsns st !! j); cbn; [|done].
  case_decide as Hjk; [|done]. subst k. done.
Qed.

Section Reach.
Context `{Rabbitizer}.
Variable elf : Elf.

Lemma add_function_touches P a st st0 :
  touches_only P st0 st → touches_only P st0 (add_function elf a st).
Proof.
  intros [L R]. unfold touches_only. by rewrite add_function_rinsns.
Qed.

Section Window.
Variable P : Z → Prop.

Ltac touch_step :=
  match goal with
  | E : Ok _ = Ok _ |- _ => injection E as <-
  | E : (_ ≫= _) = Ok _ |- _ =>
      let x := fresh "x" in let Hx := fresh "Hx" in ok_step E x Hx
  | E : upd_insn _ _ _ = Ok _ |- _ =>
      apply (upd_insn_touches P) in E; [|assumption]
  | E : (if ?b then _ else _) = Ok _ |- _ => destruct b eqn:?; try discriminate E
  | E : match ?x with _ => _ end = Ok _ |- _ => destruct x eqn:?; try discriminate E
  end.

Ltac touch_chain :=
  repeat (eapply touches_only_trans; [eassumption|]);
  repeat first [ apply touches_only_refl
               | eassumption
               | apply add_function_touches
               | case_match ].

Ltac touch_all := cbv zeta in *; repeat (touch_step; cbv zeta in * ); touch_chain.

Ltac split_conds E :=
  repeat lazymatch type of E with
  | (if ?b then _ else _) = Ok _ => destruct b eqn:?
  end.

Lemma r_link_with_lui_body_touches continue search offset reg mem_imm st st' :
  P search → P offset →
  r_link_with_lui_body elf continue search offset reg mem_imm st = Ok st' →
  continue = Ok st' ∨ touches_only P st st'.
Proof.
  intros Hs Ho E. unfold r_link_with_lui_body in E. ok_step E s Hsr.
  destruct (uniqueId (instruction s)) eqn:Hid; try (left; exact E);
    split_conds E; try (left; exact E); right; touch_all.
Qed.

Lemma r_link_with_jalr_body_touches continue search offset st st' :
  P search → P offset →
  r_link_with_jalr_body elf continue search offset st = Ok st' →
  continue = Ok st' ∨ touches_only P st st'.
Proof.
  intros Hs Ho E. unfold r_link_with_jalr_body in E. ok_step E s Hsr.
  destruct (bool_decide (get_dest_reg (instruction s) = RABBITIZER_REG_GPR_O32_t9)).
  - destruct (uniqueId (instruction s)) eqn:Hid; try (left; exact E);
      split_conds E; try (left; exact E); right; touch_all.
  - split_conds E; [right; touch_all|left; exact E].
Qed.

End Window.

Lemma r_link_with_lui_loop_touches n search offset reg mem_imm st st' :
  0 ≤ offset → search < offset → Z.of_nat n ≤ search + 1 →
  offset - MAX_LOOKBACK ≤ search + 1 - Z.of_nat n →
  r_link_with_lui_loop elf n search offset reg mem_imm st = Ok st' →
  touches_only (lookback_window offset) st st'.
Proof.
  intros Ho. revert search. induction n as [|n IH]; intros search Hlt Hn Hw E;
    cbn [r_link_with_lui_loop] in E.
  - injection E as <-. apply touches_only_refl.
  - apply (r_link_with_lui_body_touches (lookback_window offset)) in E as [E|F];
      [|done|unfold lookback_window; lia|unfold lookback_window, MAX_LOOKBACK; lia].
    apply (IH (search - 1)); [lia|lia|lia|done].
Qed.

Lemma r_link_with_jalr_loop_touches n search offset st st' :
  0 ≤ offset → search < offset → Z.of_nat n ≤ search + 1 →
  offset - MAX_LOOKBACK ≤ search + 1 - Z.of_nat n →
  r_link_with_jalr_loop elf n search offset st = Ok st' →
  touches_only (lookback_window offset) st st'.
Proof.
  intros Ho. revert search. induction n as [|n IH]; intros search Hlt Hn Hw E;
    cbn [r_link_with_jalr_loop] in E.
  - injection E as <-. apply touches_only_refl.
  - apply (r_link_with_jalr_body_touches (lookback_window offset)) in E as [E|F];
      [|done|unfold lookback_window; lia|unfold lookback_window, MAX_LOOKBACK; lia].
    apply (IH (search - 1)); [lia|lia|lia|done].
Qed.

(** X7. The backward searches have a bounded reach: a call of
    [r_link_with_lui] or [r_link_with_jalr] for the instruction at index
    [offset] keeps the length of the vector and leaves every record outside
    the window [offset - 128 .. offset] exactly as it was. *)
Theorem r_link_bounded_lookback (offset reg mem_imm : Z) (st st' : State) :
  0 ≤ offset →
  r_link_with_lui elf offset reg mem_imm st = Ok st'
  ∨ r_link_with_jalr elf offset st = Ok st' →
  length (rinsns st') = length (rinsns st) ∧
  ∀ j : nat, Z.of_nat j < offset - MAX_LOOKBACK ∨ offset < Z.of_nat j →
    rinsns st' !! j = rinsns st !! j.
Proof.
  intros Ho E.
  assert (touches_only (lookback_window offset) st st') as [Hlen Hsame].
  { destruct E as [E|E].
    - unfold r_link_with_lui in E. cbv zeta in E.
      eapply r_link_with_lui_loop_touches; [done| | | |exact E];
        unfold MAX_LOOKBACK in *; lia.
    - unfold r_link_with_jalr in E. cbv zeta in E.
      eapply r_link_with_jalr_loop_touches; [done| | | |exact E];
        unfold MAX_LOOKBACK in *; lia. }
  split; [done|]. intros j Hj. apply Hsame. unfold lookback_window. lia.
Qed.

End Reach.

(** * The fixed point of the backward pass *)

Lemma jr_packed_set_b_livein m insn :
  jr_packed (set_b_livein m insn) = set_b_livein m (jr_packed insn).
Proof. unfold jr_packed. cbn [jtbl_addr set_b_livein]. by case_bool_decide. Qed.

Lemma r_insn_to_type_set_b_livein m insn :
  r_insn_to_type (set_b_livein m insn)
  = ((r_insn_to_type insn).1, set_b_livein m (r_insn_to_type insn).2).
Proof.
  destruct (decide (uniqueId (instruction insn) = RABBITIZER_INSTR_ID_cpu_jr)) as [Hid|Hid].
  - rewrite (r_insn_to_type_jr insn Hid), (r_insn_to_type_jr (set_b_livein m insn) Hid).
    by rewrite jr_packed_set_b_livein.
  - rewrite (r_insn_to_type_other insn Hid).
    unfold r_insn_to_type. cbn [instruction set_b_livein].
    destruct (uniqueId (instruction insn)); done.
Qed.

Section BackwardFixedPoint.
Context `{Rabbitizer}.
Variable elf : Elf.

Section Idle.
Variable idle : RInsn → Prop.

(** Giving the record at [k] a new [b_liveout] keeps the invariant when an
    address of [k] is on the new worklist. *)
Lemma b_pending_push k m a st st' q :
  b_pending elf idle st q →
  upd_insn k (set_b_liveout m) st = Ok st' →
  addr_to_i elf a = k →
  b_pending elf idle st' (a :: q).
Proof.
  intros [Hsize Hall] U Ha. split.
  { unfold vec_size in *. by rewrite (upd_insn_length _ _ _ _ U). }
  intros j r' Hj. rewrite (upd_insn_lookup _ _ _ _ j U) in Hj.
  destruct (rinsns st !! j) as [r|] eqn:Hr; [|done]. injection Hj as <-.
  case_decide as Hjk.
  - right. left. exists a. split; [left|congruence].
  - destruct (Hall j r Hr) as [?|[(a' & Ha' & Hi)|?]]; [by left| |by right; right].
    right. left. exists a'. split; [by right|done].
Qed.

Lemma b_pending_weaken st q q' :
  (∀ a, a ∈ q → a ∈ q') → b_pending elf idle st q → b_pending elf idle st q'.
Proof.
  intros Hq [Hsize Hall]. split; [done|]. intros j r Hj.
  destruct (Hall j r Hj) as [?|[(a & Ha & Hi)|?]]; eauto 6.
Qed.

Lemma b_propagate_pending k new_live st q st' q' :
  b_pending elf idle st q →
  b_propagate elf k new_live st q = Ok (st', q') →
  b_pending elf idle st' q'.
Proof.
  intros Inv E. unfold b_propagate, propagate in E. ok_step E t Ht.
  destruct (new_bits (b_liveout t) new_live); [|by injection E as <- <-].
  ok_step E s1 U. injection E as <- <-.
  pose proof (upd_insn_in_range _ _ _ _ U) as Hk.
  destruct Inv as [Hsize Hall]. split.
  { unfold vec_size in *. by rewrite (upd_insn_length _ _ _ _ U). }
  intros j r' Hj. rewrite (upd_insn_lookup _ _ _ _ j U) in Hj.
  destruct (rinsns st !! j) as [r|] eqn:Hr; [|done]. injection Hj as <-.
  case_decide as Hjk.
  - right. left. exists (i_to_addr elf k). split; [left|].
    rewrite addr_to_i_of_index by lia. done.
  - destruct (Hall j r Hr) as [?|[(a & Ha & Hi)|?]]; [by left| |by right; right].
    right. left. exists a. split; [by right|done].
Qed.

Lemma r_pass5_edges_pending es i live insn st q exit st' q' exit' :
  b_pending elf idle st q →
  r_pass5_edges elf es i live insn st q exit = Ok (st', q', exit') →
  b_pending elf idle st' q'.
Proof.
  revert st q exit. induction es as [|e es IH]; intros st q exit Inv E;
    cbn [r_pass5_edges] in E.
  - by injection E as <- <- <-.
  - ok_step E nl Hnl. cbv zeta in E. ok_step E p Hp. destruct p as [s1 q1].
    eapply IH; [|exact E]. by eapply b_propagate_pending.
Qed.

Lemma r_pass5_step_pending addr st q st' q' :
  b_pending elf idle st (addr :: q) →
  r_pass5_step elf addr st q = Ok (st', q') →
  b_pending elf idle st' q'.
Proof.
  intros [Hsize Hall] E. unfold r_pass5_step in E. cbv zeta in E.
  ok_step E insn0 Hi.
  rewrite (surjective_pairing (r_insn_to_type insn0)) in E.
  ok_step E s1 U0.
  set (i := addr_to_i elf addr) in *.
  set (ty := (r_insn_to_type insn0).1) in *.
  set (insn := (r_insn_to_type insn0).2) in *.
  assert (r_insn_to_type insn = (ty, insn)) as Htype.
  { subst insn ty. rewrite r_insn_to_type_twice. apply surjective_pairing. }
  assert (∀ s (j : nat) r',
            (∀ j' : nat, Z.of_nat j' ≠ i → rinsns s !! j' = rinsns st !! j') →
            (∀ r, rinsns s !! Z.to_nat i = Some r → b_settled r) →
            rinsns s !! j = Some r' →
            idle r' ∨ (∃ a, a ∈ q ∧ addr_to_i elf a = Z.of_nat j) ∨ b_settled r')
    as Hrest.
  { intros s j r' Hsame Hset Hj.
    destruct (decide (Z.of_nat j = i)) as [Hji|Hji].
    - right. right. apply Hset. rewrite <- Hji, Nat2Z.id. done.
    - rewrite Hsame in Hj by done.
      destruct (Hall j r' Hj) as [?|[(a & Ha & Hai)|?]]; [by left| |by right; right].
      apply elem_of_cons in Ha as [->|Ha]; [exfalso; apply Hji; symmetry; exact Hai|].
      right. left. by exists a. }
  pose proof (upd_insn_in_range _ _ _ _ U0) as Hirange.
  assert (rinsns s1 !! Z.to_nat i = Some insn) as Hs1.
  { rewrite (upd_insn_lookup _ _ _ _ _ U0).
    apply vec_get_Ok in Hi as [_ ->]. cbn. rewrite decide_True by lia. done. }
  assert (∀ j' : nat, Z.of_nat j' ≠ i → rinsns s1 !! j' = rinsns st !! j') as Hs1'.
  { intros j' Hj'. rewrite (upd_insn_lookup _ _ _ _ _ U0).
    destruct (rinsns st !! j'); cbn; [|done]. by rewrite decide_False. }
  assert (vec_size (rinsns s1) = vec_size (rinsns st)) as Hlen1
    by (unfold vec_size; by rewrite (upd_insn_length _ _ _ _ U0)).
  case_bool_decide as Hnew.
  - injection E as <- <-. split; [lia|].
    intros j r' Hj. apply (Hrest s1 j r' Hs1'); [|done].
    intros r Hr. rewrite Hs1 in Hr. injection Hr as <-.
    unfold b_settled. rewrite Htype. cbn [fst snd].
    unfold mask_subset. by rewrite Z.lor_comm.
  - ok_step E s2 U1.
    set (live := Z.lor (b_transfer ty (instruction insn) (Z.lor (b_liveout insn) 1))
                       (b_livein insn)) in *.
    assert (b_pending elf idle s2 q) as Inv2.
    { split; [unfold vec_size in *; rewrite (upd_insn_length _ _ _ _ U1); lia|].
      intros j r' Hj. apply (Hrest s2 j r'); [| |done].
      - intros j' Hj'. rewrite (upd_insn_lookup _ _ _ _ _ U1), Hs1' by done.
        destruct (rinsns st !! j'); cbn; [|done]. by rewrite decide_False.
      - intros r Hr. rewrite (upd_insn_lookup _ _ _ _ _ U1), Hs1 in Hr. cbn in Hr.
        rewrite decide_True in Hr by lia. injection Hr as <-.
        unfold b_settled. rewrite r_insn_to_type_set_b_livein, Htype. cbn.
        subst live. apply mask_subset_lor. }
    ok_step E x Hedges. destruct x as [[s3 q3] exit].
    pose proof (r_pass5_edges_pending _ _ _ _ _ _ _ _ _ _ Inv2 Hedges) as Inv3.
    destruct exit; [by eapply b_propagate_pending|by injection E as <- <-].
Qed.

Lemma r_pass5_loop_pending fuel st q st' :
  b_pending elf idle st q →
  r_pass5_loop elf fuel st q = Some (Ok st') →
  b_pending elf idle st' [].
Proof.
  revert st q. induction fuel as [|fuel IH]; intros st q Inv E.
  - destruct q; [|done]. cbn in E. by injection E as <-.
  - destruct q as [|addr q]; [cbn in E; by injection E as <-|].
    cbn [r_pass5_loop] in E.
    destruct (r_pass5_step elf addr st q) as [[s1 q1]| | |] eqn:Hstep; try done.
    eapply IH; [|exact E]. by eapply r_pass5_step_pending.
Qed.

Lemma r_pass5_seed_returns_pending rets m st q st' q' :
  b_pending elf idle st q →
  r_pass5_seed_returns elf rets m true st q = Ok (st', q') →
  b_pending elf idle st' q'.
Proof.
  revert st q. induction rets as [|a rets IH]; intros st q Inv E;
    cbn [r_pass5_seed_returns] in E.
  - by injection E as <- <-.
  - ok_step E s1 U. eapply IH; [|exact E]. by eapply b_pending_push.
Qed.

(** The seeding of the returns of [main] does not push; its addresses are
    the start of the worklist of the next stage. *)
Lemma r_pass5_seed_main_pending rets m st q q0 st' q' :
  b_pending elf idle st q →
  (∀ a, a ∈ rets → a ∈ q) →
  r_pass5_seed_returns elf rets m false st q0 = Ok (st', q') →
  b_pending elf idle st' q.
Proof.
  revert st q0. induction rets as [|a rets IH]; intros st q0 Inv Hin E;
    cbn [r_pass5_seed_returns] in E.
  - by injection E as <- <-.
  - ok_step E s1 U. eapply IH; [| |exact E].
    + eapply b_pending_weaken; [|eapply (b_pending_push _ m a); [exact Inv|exact U|done]].
      intros a' [->|Ha']%elem_of_cons; [apply Hin; left|done].
    + intros a' Ha'. apply Hin. by right.
Qed.

Lemma r_pass5_seed_pointers_pending addrs st q st' q' :
  b_pending elf idle st q →
  r_pass5_seed_pointers elf addrs st q = Ok (st', q') →
  b_pending elf idle st' q'.
Proof.
  revert st q. induction addrs as [|a addrs IH]; intros st q Inv E;
    cbn [r_pass5_seed_pointers] in E.
  - by injection E as <- <-.
  - destruct (returns_of a st) as [s0 rets] eqn:Hret.
    ok_step E p Hp. destruct p as [s1 q1].
    eapply IH; [|exact E]. eapply r_pass5_seed_returns_pending; [|exact Hp].
    unfold returns_of in Hret. destruct (functions st !! a); injection Hret as <- <-;
      [done|]. by destruct st.
Qed.

End Idle.

Lemma r_pass5_seed_reachable_spec v i q :
  (∀ a, a ∈ q → a ∈ r_pass5_seed_reachable elf v i q) ∧
  ∀ (j : nat) r, v !! j = Some r → f_livein r ≠ 0 →
    i_to_addr elf (i + Z.of_nat j) ∈ r_pass5_seed_reachable elf v i q.
Proof.
  revert i q. induction v as [|r0 v IH]; intros i q; cbn [r_pass5_seed_reachable].
  - split; [done|]. intros j r Hj. done.
  - destruct (IH (i + 1)
        (if bool_decide (f_livein r0 ≠ 0) then i_to_addr elf i :: q else q)) as [Hq Hreach].
    split.
    + intros a Ha. apply Hq. case_bool_decide; [by right|done].
    + intros [|j] r Hj Hr.
      * injection Hj as ->. apply Hq. rewrite bool_decide_true by done.
        replace (i + Z.of_nat 0) with i by lia. left.
      * replace (i + Z.of_nat (S j)) with (i + 1 + Z.of_nat j) by lia.
        by eapply Hreach.
Qed.

(** X21. The backward pass ends at a fixed point of its transfer: run on
    a vector of at most 2^30 records with empty [b_liveout] masks,
    [r_pass5] leaves every record that either pass reached (its [f_livein]
    or its [b_liveout] is not empty) with a [b_livein] that holds what the
    backward transfer of the instruction makes of [b_liveout | 1]. *)
Theorem r_pass5_fixed_point (st st' : State) :
  vec_size (rinsns st) ≤ 2 ^ 30 →
  (∀ r, r ∈ rinsns st → b_liveout r = 0) →
  r_pass5 elf st = Ok st' →
  ∀ r, r ∈ rinsns st' →
    (f_livein r = 0 ∧ b_liveout r = 0) ∨
    mask_subset
      (b_transfer (r_insn_to_type r).1 (instruction (r_insn_to_type r).2)
         (Z.lor (b_liveout r) 1))
      (b_livein r).
Proof.
  intros Hsize Hzero E. unfold r_pass5 in E.
  ok_step E p Hinit. destruct p as [s1 q1].
  assert (b_pending elf b_unreached s1 q1) as Inv1.
  { unfold r_pass5_init in Hinit.
    destruct (functions st !! main_addr elf) as [f|]; [|done].
    ok_step Hinit p0 Hmain. destruct p0 as [s0 q0].
    ok_step Hinit p2 Hdata. destruct p2 as [s2 q2].
    ok_step Hinit p3 Hli. destruct p3 as [s3 q3].
    injection Hinit as <- <-.
    assert (b_pending elf b_unseeded s3 q3) as [Hsize3 Hall3].
    { eapply r_pass5_seed_pointers_pending; [|exact Hli].
      eapply r_pass5_seed_pointers_pending; [|exact Hdata].
      eapply r_pass5_seed_main_pending; [| |exact Hmain].
      - split; [done|]. intros j r Hj. left. apply Hzero.
        by eapply list_elem_of_lookup_2.
      - intros a Ha. rewrite rev_alt. by apply elem_of_reverse. }
    destruct (r_pass5_seed_reachable_spec (rinsns s3) 0 q3) as [Hq Hreach].
    split; [done|]. intros j r Hj.
    destruct (decide (f_livein r = 0)) as [Hf|Hf].
    - destruct (Hall3 j r Hj) as [Hb|[(a & Ha & Hi)|?]];
        [by left|right; left; exists a; auto|by right; right].
    - right. left. exists (i_to_addr elf (0 + Z.of_nat j)). split; [by eapply Hreach|].
      apply lookup_lt_Some in Hj. unfold vec_size in Hsize3.
      rewrite addr_to_i_of_index by lia. lia. }
  destruct (r_pass5_loop elf (worklist_bound s1 q1) s1 q1) as [[s2| | |]|] eqn:Hloop;
    try done.
  cbn in E. injection E as <-.
  destruct (r_pass5_loop_pending _ _ _ _ _ Inv1 Hloop) as [_ Hall].
  intros r Hr. apply list_elem_of_lookup_1 in Hr as [j Hj].
  destruct (Hall j r Hj) as [?|[(a & Ha & _)|?]]; [by left| |by right].
  by apply elem_of_nil in Ha.
Qed.

End BackwardFixedPoint.

(** * The forward masks along the edges *)

Section ForwardEdges.
Context `{Rabbitizer}.
Variable elf : Elf.

Lemma f_edge_live_pure i live e st st' :
  extern_function e = false →
  f_edge_live elf i live e st' = f_edge_live elf i live e st.
Proof. intros He. unfold f_edge_live. rewrite He. done. Qed.

Lemma f_keeps_refl r : f_keeps r r.
Proof. split; [done|apply mask_subset_refl]. Qed.

Lemma f_keeps_trans r1 r2 r3 : f_keeps r1 r2 → f_keeps r2 r3 → f_keeps r1 r3.
Proof.
  intros [S1 M1] [S2 M2]. split; [congruence|by eapply mask_subset_trans].
Qed.

Lemma f_grows_refl X st : f_grows X st st.
Proof. split; [done|]. intros j r Hj. exists r. split; [done|]. split; [apply f_keeps_refl|done]. Qed.

Lemma f_grows_trans X st1 st2 st3 :
  f_grows X st1 st2 → f_grows X st2 st3 → f_grows X st1 st3.
Proof.
  intros [L1 G1] [L2 G2]. split; [congruence|]. intros j r Hj.
  destruct (G1 j r Hj) as (r2 & Hj2 & K1 & O1).
  destruct (G2 j r2 Hj2) as (r3 & Hj3 & K2 & O2).
  exists r3. split; [done|]. split; [by eapply f_keeps_trans|].
  intros HX. rewrite O2, O1; done.
Qed.

Lemma f_grows_mono (X X' : Z → Prop) st st' :
  (∀ j, X j → X' j) → f_grows X st st' → f_grows X' st st'.
Proof.
  intros HX [L G]. split; [done|]. intros j r Hj.
  destruct (G j r Hj) as (r' & Hj' & K & O). exists r'. split; [done|]. split; [done|].
  intros HX'. apply O. intros ?. apply HX'. by apply HX.
Qed.

Lemma upd_insn_f_grows (X : Z → Prop) k g st st' :
  upd_insn k g st = Ok st' →
  (∀ r, rinsns st !! Z.to_nat k = Some r →
     f_keeps r (g r) ∧ (¬ X k → f_liveout (g r) = f_liveout r)) →
  f_grows X st st'.
Proof.
  intros U Hg. pose proof (upd_insn_in_range _ _ _ _ U) as Hk.
  split; [by eapply upd_insn_length|]. intros j r Hj.
  rewrite (upd_insn_lookup _ _ _ _ j U), Hj. cbn. case_decide as Hjk.
  - subst k. rewrite Nat2Z.id in Hg. destruct (Hg r Hj) as [K O]. by exists (g r).
  - exists r. split; [done|]. split; [apply f_keeps_refl|done].
Qed.

(** The edges that were in order stay in order while the masks grow. *)
Lemma f_edges_ok_grows X st st' :
  f_grows X st st' → f_edges_ok elf X st → f_edges_ok elf X st'.
Proof.
  intros [L G] Hok j r' HX Hj' Hout e He Hext nl t' Hnl Ht'.
  assert (is_Some (rinsns st !! j)) as [r Hj].
  { apply lookup_lt_is_Some. rewrite <- L. by eapply lookup_lt_Some. }
  destruct (G j r Hj) as (r2 & Hj2 & [KS KM] & O). rewrite Hj' in Hj2. injection Hj2 as <-.
  rewrite (O HX) in Hout, Hnl. rewrite KS in He.
  rewrite (f_edge_live_pure _ _ _ st st' Hext) in Hnl.
  apply vec_get_Ok in Ht' as [Hpos Ht'].
  assert (is_Some (rinsns st !! Z.to_nat (edge_i e))) as [t Ht].
  { apply lookup_lt_is_Some. rewrite <- L. by eapply lookup_lt_Some. }
  destruct (G _ t Ht) as (t2 & Ht2 & [_ TM] & _). rewrite Ht' in Ht2. injection Ht2 as <-.
  eapply mask_subset_trans; [|exact TM].
  apply (Hok j r HX Hj Hout e He Hext nl t Hnl). by apply vec_get_Ok.
Qed.

Lemma f_edges_ok_mono (X X' : Z → Prop) st :
  (∀ j, X j → X' j) → f_edges_ok elf X st → f_edges_ok elf X' st.
Proof. intros HX Hok j r HX'. apply Hok. intros ?. apply HX'. by apply HX. Qed.

Lemma f_propagate_grows X k nl st q st' q' :
  f_propagate elf k nl st q = Ok (st', q') →
  f_grows X st st' ∧ ∀ t, get_insn st' k = Ok t → mask_subset nl (f_livein t).
Proof.
  intros E. unfold f_propagate, propagate in E. ok_step E t0 Ht0.
  destruct (new_bits (f_livein t0) nl) eqn:Hnew.
  - ok_step E s1 U. injection E as <- <-. split.
    + apply (upd_insn_f_grows X _ _ _ _ U). intros r _. split; [|done].
      split; [done|]. cbn. apply mask_subset_lor.
    + intros t Ht. apply vec_get_Ok in Ht as [Hk Ht], Ht0 as [_ Ht0].
      rewrite (upd_insn_lookup _ _ _ _ _ U), Ht0 in Ht. cbn in Ht.
      rewrite decide_True in Ht by lia. injection Ht as <-. cbn.
      apply mask_subset_lor_r.
  - injection E as <- <-. split; [apply f_grows_refl|].
    intros t Ht. rewrite Ht0 in Ht. injection Ht as <-.
    unfold new_bits in Hnew. apply bool_decide_eq_false in Hnew.
    unfold mask_subset. rewrite Z.lor_comm. by destruct (decide (Z.lor (f_livein t0) nl = f_livein t0)).
Qed.

Lemma r_pass4_edges_grows X es i live st q entry st' q' entry' :
  r_pass4_edges elf es i live st q entry = Ok (st', q', entry') →
  f_grows X st st' ∧
  ∀ e, e ∈ es → extern_function e = false →
    ∀ nl t, f_edge_live elf i live e st' = Ok nl →
      get_insn st' (edge_i e) = Ok t → mask_subset nl (f_livein t).
Proof.
  revert st q entry. induction es as [|e0 es IH]; intros st q entry E;
    cbn [r_pass4_edges] in E.
  - injection E as <- <- <-. split; [apply f_grows_refl|]. intros e He. by apply elem_of_nil in He.
  - ok_step E nl0 Hnl0. cbv zeta in E. ok_step E p Hp. destruct p as [s1 q1].
    destruct (f_propagate_grows X _ _ _ _ _ _ Hp) as [G1 T1].
    destruct (IH _ _ _ E) as [G2 T2].
    split; [by eapply f_grows_trans|].
    intros e [->|He]%elem_of_cons Hext nl t Hnl Ht; [|by eapply T2].
    rewrite (f_edge_live_pure _ _ _ st st' Hext), Hnl0 in Hnl. injection Hnl as <-.
    apply vec_get_Ok in Ht as [Hpos Ht].
    destruct G2 as [L2 G2].
    assert (is_Some (rinsns s1 !! Z.to_nat (edge_i e0))) as [t1 Ht1].
    { apply lookup_lt_is_Some. rewrite <- L2. by eapply lookup_lt_Some. }
    destruct (G2 _ t1 Ht1) as (t2 & Ht2 & [_ TM] & _). rewrite Ht in Ht2. injection Ht2 as <-.
    eapply mask_subset_trans; [|exact TM]. apply T1. by apply vec_get_Ok.
Qed.

Lemma r_pass4_step_edges_ok addr st q st' q' :
  f_edges_ok elf nowhere st →
  r_pass4_step elf addr st q = Ok (st', q') →
  f_edges_ok elf nowhere st'.
Proof.
  intros Hok E. unfold r_pass4_step in E. cbv zeta in E.
  ok_step E insn0 Hi.
  rewrite (surjective_pairing (r_insn_to_type insn0)) in E.
  ok_step E s1 U0.
  set (i := addr_to_i elf addr) in *.
  set (ty := (r_insn_to_type insn0).1) in *.
  set (insn := (r_insn_to_type insn0).2) in *.
  pose proof (upd_insn_in_range _ _ _ _ U0) as Hirange.
  apply vec_get_Ok in Hi as [_ Hi].
  destruct (r_insn_to_type_masks insn0) as (Min & Mout & _ & _ & Msucc & _).
  fold insn in Min, Mout, Msucc.
  assert (f_grows nowhere st s1) as G1.
  { apply (upd_insn_f_grows _ _ _ _ _ U0). intros r Hr.
    rewrite Hi in Hr. injection Hr as <-. split; [|done].
    split; [done|]. rewrite Min. apply mask_subset_refl. }
  pose proof (f_edges_ok_grows _ _ _ G1 Hok) as Hok1.
  assert (rinsns s1 !! Z.to_nat i = Some insn) as Hs1.
  { rewrite (upd_insn_lookup _ _ _ _ _ U0), Hi. cbn. rewrite decide_True by lia. done. }
  case_bool_decide as Hnew; [by injection E as <- <-|].
  ok_step E s2 U1.
  set (live := Z.lor (f_transfer ty (instruction insn) (Z.lor (f_livein insn) 1))
                     (f_liveout insn)) in *.
  assert (f_grows (λ j, j = i) s1 s2) as G2.
  { apply (upd_insn_f_grows _ _ _ _ _ U1). intros r _. split; [|done].
    split; [done|apply mask_subset_refl]. }
  assert (rinsns s2 !! Z.to_nat i = Some (set_f_liveout live insn)) as Hs2.
  { rewrite (upd_insn_lookup _ _ _ _ _ U1), Hs1. cbn. rewrite decide_True by lia. done. }
  ok_step E x Hedges. destruct x as [[s3 q3] entry].
  destruct (r_pass4_edges_grows nowhere _ _ _ _ _ _ _ _ _ Hedges) as [G3 T3].
  assert (f_edges_ok elf nowhere s3) as Hok3.
  { intros j r _ Hj Hout e He.
    destruct (decide (Z.of_nat j = i)) as [Hji|Hji].
    - rewrite <- Hji, Nat2Z.id in Hs2.
      destruct G3 as [_ G3]. destruct (G3 j _ Hs2) as (r3 & Hj3 & [KS _] & O).
      rewrite Hj in Hj3. injection Hj3 as <-.
      assert (f_liveout r = live) as Hlive by (rewrite O by (intros []); done).
      intros Hext nl t Hnl Ht. rewrite Hlive, Hji in Hnl.
      rewrite KS in He. cbn in He. by eapply T3.
    - eapply (f_edges_ok_grows (λ j, j = i)); [| |exact Hji|done..].
      + eapply f_grows_trans; [exact G2|]. eapply f_grows_mono; [|exact G3]. done.
      + eapply f_edges_ok_mono; [|exact Hok1]. done. }
  destruct entry; [|by injection E as <- <-].
  destruct (f_propagate_grows nowhere _ _ _ _ _ _ E) as [G4 _].
  by eapply f_edges_ok_grows.
Qed.

Lemma r_pass4_loop_edges_ok fuel st q st' :
  f_edges_ok elf nowhere st →
  r_pass4_loop elf fuel st q = Some (Ok st') →
  f_edges_ok elf nowhere st'.
Proof.
  revert st q. induction fuel as [|fuel IH]; intros st q Inv E.
  - destruct q; [|done]. cbn in E. by injection E as <-.
  - destruct q as [|addr q]; [cbn in E; by injection E as <-|].
    cbn [r_pass4_loop] in E.
    destruct (r_pass4_step elf addr st q) as [[s1 q1]| | |] eqn:Hstep; try done.
    eapply IH; [|exact E]. by eapply r_pass4_step_edges_ok.
Qed.

(** The seeding writes [f_livein] only. *)
Lemma set_f_livein_liveout k m st st' :
  (∀ r, r ∈ rinsns st → f_liveout r = 0) →
  upd_insn k (set_f_livein m) st = Ok st' →
  ∀ r, r ∈ rinsns st' → f_liveout r = 0.
Proof.
  intros Hz U r [j Hj]%list_elem_of_lookup_1.
  rewrite (upd_insn_lookup _ _ _ _ _ U) in Hj.
  destruct (rinsns st !! j) as [r0|] eqn:Hr0; [|done]. injection Hj as <-.
  apply list_elem_of_lookup_2 in Hr0. case_decide; cbn; by apply Hz.
Qed.

Lemma r_pass4_seed_liveout addrs st q st' q' :
  (∀ r, r ∈ rinsns st → f_liveout r = 0) →
  r_pass4_seed elf addrs st q = Ok (st', q') →
  ∀ r, r ∈ rinsns st' → f_liveout r = 0.
Proof.
  revert st q. induction addrs as [|a addrs IH]; intros st q Hz E;
    cbn [r_pass4_seed] in E.
  - by injection E as <- <-.
  - ok_step E s1 U. eapply IH; [|exact E]. by eapply set_f_livein_liveout.
Qed.

(** X22. The forward masks flow along the edges: run on a vector with
    empty [f_liveout] masks, [r_pass4] ends with, for every record it gave
    an [f_liveout] and every successor edge of it that is not an extern
    call, the mask the edge lets through ([f_edge_live]: all of
    [f_liveout] on a plain edge, its restriction on a function exit, a
    function entry or a call through a pointer) inside the [f_livein] of the
    edge's target. *)
Theorem r_pass4_flows_along_edges (st st' : State) :
  (∀ r, r ∈ rinsns st → f_liveout r = 0) →
  r_pass4 elf st = Ok st' →
  ∀ (j : nat) r e nl t,
    rinsns st' !! j = Some r → f_liveout r ≠ 0 →
    e ∈ successors r → extern_function e = false →
    f_edge_live elf (Z.of_nat j) (f_liveout r) e st' = Ok nl →
    get_insn st' (edge_i e) = Ok t →
    mask_subset nl (f_livein t).
Proof.
  intros Hzero E. unfold r_pass4 in E.
  ok_step E p Hinit. destruct p as [s1 q1].
  assert (f_edges_ok elf nowhere s1) as Inv1.
  { assert (∀ r, r ∈ rinsns s1 → f_liveout r = 0) as Hz1.
    { unfold r_pass4_init in Hinit. ok_step Hinit s0 U0.
      ok_step Hinit p Hseed. destruct p as [s2 q2].
      eapply r_pass4_seed_liveout; [|exact Hinit].
      eapply r_pass4_seed_liveout; [|exact Hseed].
      by eapply set_f_livein_liveout. }
    intros j r _ Hj Hout. exfalso. apply Hout, Hz1. by eapply list_elem_of_lookup_2. }
  destruct (r_pass4_loop elf (worklist_bound s1 q1) s1 q1) as [[s2| | |]|] eqn:Hloop;
    try done.
  cbn in E. injection E as <-.
  pose proof (r_pass4_loop_edges_ok _ _ _ _ Inv1 Hloop) as Hok.
  intros j r e nl t Hj Hout He Hext Hnl Ht.
  by apply (Hok j r (λ F, F) Hj Hout e He Hext nl t).
Qed.

End ForwardEdges.

(** * The backward masks along the edges *)

Section BackwardEdges.
Context `{Rabbitizer}.
Variable elf : Elf.

Lemma b_edge_live_pure i live insn insn' e st st' :
  extern_function e = false →
  b_edge_live elf i live insn' e st' = b_edge_live elf i live insn e st.
Proof. intros He. unfold b_edge_live. rewrite He. done. Qed.

Lemma b_keeps_refl r : b_keeps r r.
Proof. split; [done|apply mask_subset_refl]. Qed.

Lemma b_keeps_trans r1 r2 r3 : b_keeps r1 r2 → b_keeps r2 r3 → b_keeps r1 r3.
Proof.
  intros [S1 M1] [S2 M2]. split; [congruence|by eapply mask_subset_trans].
Qed.

Lemma b_grows_refl X st : b_grows X st st.
Proof. split; [done|]. intros j r Hj. exists r. split; [done|]. split; [apply b_keeps_refl|done]. Qed.

Lemma b_grows_trans X st1 st2 st3 :
  b_grows X st1 st2 → b_grows X st2 st3 → b_grows X st1 st3.
Proof.
  intros [L1 G1] [L2 G2]. split; [congruence|]. intros j r Hj.
  destruct (G1 j r Hj) as (r2 & Hj2 & K1 & O1).
  destruct (G2 j r2 Hj2) as (r3 & Hj3 & K2 & O2).
  exists r3. split; [done|]. split; [by eapply b_keeps_trans|].
  intros HX. rewrite O2, O1; done.
Qed.

Lemma b_grows_mono (X X' : Z → Prop) st st' :
  (∀ j, X j → X' j) → b_grows X st st' → b_grows X' st st'.
Proof.
  intros HX [L G]. split; [done|]. intros j r Hj.
  destruct (G j r Hj) as (r' & Hj' & K & O). exists r'. split; [done|]. split; [done|].
  intros HX'. apply O. intros ?. apply HX'. by apply HX.
Qed.

Lemma upd_insn_b_grows (X : Z → Prop) k g st st' :
  upd_insn k g st = Ok st' →
  (∀ r, rinsns st !! Z.to_nat k = Some r →
     b_keeps r (g r) ∧ (¬ X k → b_livein (g r) = b_livein r)) →
  b_grows X st st'.
Proof.
  intros U Hg. pose proof (upd_insn_in_range _ _ _ _ U) as Hk.
  split; [by eapply upd_insn_length|]. intros j r Hj.
  rewrite (upd_insn_lookup _ _ _ _ j U), Hj. cbn. case_decide as Hjk.
  - subst k. rewrite Nat2Z.id in Hg. destruct (Hg r Hj) as [K O]. by exists (g r).
  - exists r. split; [done|]. split; [apply b_keeps_refl|done].
Qed.

(** The edges that were in order stay in order while the masks grow. *)
Lemma b_edges_ok_grows X st st' :
  b_grows X st st' → b_edges_ok elf X st → b_edges_ok elf X st'.
Proof.
  intros [L G] Hok j r' HX Hj' Hout e He Hext nl t' Hnl Ht'.
  assert (is_Some (rinsns st !! j)) as [r Hj].
  { apply lookup_lt_is_Some. rewrite <- L. by eapply lookup_lt_Some. }
  destruct (G j r Hj) as (r2 & Hj2 & [KS KM] & O). rewrite Hj' in Hj2. injection Hj2 as <-.
  rewrite (O HX) in Hout, Hnl. rewrite KS in He.
  rewrite (b_edge_live_pure _ _ r r' _ st st' Hext) in Hnl.
  apply vec_get_Ok in Ht' as [Hpos Ht'].
  assert (is_Some (rinsns st !! Z.to_nat (edge_i e))) as [t Ht].
  { apply lookup_lt_is_Some. rewrite <- L. by eapply lookup_lt_Some. }
  destruct (G _ t Ht) as (t2 & Ht2 & [_ TM] & _). rewrite Ht' in Ht2. injection Ht2 as <-.
  eapply mask_subset_trans; [|exact TM].
  apply (Hok j r HX Hj Hout e He Hext nl t Hnl). by apply vec_get_Ok.
Qed.

Lemma b_edges_ok_mono (X X' : Z → Prop) st :
  (∀ j, X j → X' j) → b_edges_ok elf X st → b_edges_ok elf X' st.
Proof. intros HX Hok j r HX'. apply Hok. intros ?. apply HX'. by apply HX. Qed.

Lemma b_propagate_grows X k nl st q st' q' :
  b_propagate elf k nl st q = Ok (st', q') →
  b_grows X st st' ∧ ∀ t, get_insn st' k = Ok t → mask_subset nl (b_liveout t).
Proof.
  intros E. unfold b_propagate, propagate in E. ok_step E t0 Ht0.
  destruct (new_bits (b_liveout t0) nl) eqn:Hnew.
  - ok_step E s1 U. injection E as <- <-. split.
    + apply (upd_insn_b_grows X _ _ _ _ U). intros r _. split; [|done].
      split; [done|]. cbn. apply mask_subset_lor.
    + intros t Ht. apply vec_get_Ok in Ht as [Hk Ht], Ht0 as [_ Ht0].
      rewrite (upd_insn_lookup _ _ _ _ _ U), Ht0 in Ht. cbn in Ht.
      rewrite decide_True in Ht by lia. injection Ht as <-. cbn.
      apply mask_subset_lor_r.
  - injection E as <- <-. split; [apply b_grows_refl|].
    intros t Ht. rewrite Ht0 in Ht. injection Ht as <-.
    unfold new_bits in Hnew. apply bool_decide_eq_false in Hnew.
    unfold mask_subset. rewrite Z.lor_comm. by destruct (decide (Z.lor (b_liveout t0) nl = b_liveout t0)).
Qed.

Lemma r_pass5_edges_grows X es i live insn st q exit st' q' exit' :
  r_pass5_edges elf es i live insn st q exit = Ok (st', q', exit') →
  b_grows X st st' ∧
  ∀ e, e ∈ es → extern_function e = false →
    ∀ insn' nl t, b_edge_live elf i live insn' e st' = Ok nl →
      get_insn st' (edge_i e) = Ok t → mask_subset nl (b_liveout t).
Proof.
  revert st q exit. induction es as [|e0 es IH]; intros st q exit E;
    cbn [r_pass5_edges] in E.
  - injection E as <- <- <-. split; [apply b_grows_refl|]. intros e He. by apply elem_of_nil in He.
  - ok_step E nl0 Hnl0. cbv zeta in E. ok_step E p Hp. destruct p as [s1 q1].
    destruct (b_propagate_grows X _ _ _ _ _ _ Hp) as [G1 T1].
    destruct (IH _ _ _ E) as [G2 T2].
    split; [by eapply b_grows_trans|].
    intros e [->|He]%elem_of_cons Hext insn' nl t Hnl Ht; [|by eapply T2].
    rewrite (b_edge_live_pure _ _ insn insn' _ st st' Hext), Hnl0 in Hnl. injection Hnl as <-.
    apply vec_get_Ok in Ht as [Hpos Ht].
    destruct G2 as [L2 G2].
    assert (is_Some (rinsns s1 !! Z.to_nat (edge_i e0))) as [t1 Ht1].
    { apply lookup_lt_is_Some. rewrite <- L2. by eapply lookup_lt_Some. }
    destruct (G2 _ t1 Ht1) as (t2 & Ht2 & [_ TM] & _). rewrite Ht in Ht2. injection Ht2 as <-.
    eapply mask_subset_trans; [|exact TM]. apply T1. by apply vec_get_Ok.
Qed.

Lemma r_pass5_step_edges_ok addr st q st' q' :
  b_edges_ok elf nowhere st →
  r_pass5_step elf addr st q = Ok (st', q') →
  b_edges_ok elf nowhere st'.
Proof.
  intros Hok E. unfold r_pass5_step in E. cbv zeta in E.
  ok_step E insn0 Hi.
  rewrite (surjective_pairing (r_insn_to_type insn0)) in E.
  ok_step E s1 U0.
  set (i := addr_to_i elf addr) in *.
  set (ty := (r_insn_to_type insn0).1) in *.
  set (insn := (r_insn_to_type insn0).2) in *.
  pose proof (upd_insn_in_range _ _ _ _ U0) as Hirange.
  apply vec_get_Ok in Hi as [_ Hi].
  destruct (r_insn_to_type_masks insn0) as (_ & _ & Mout & Min & _ & Msucc).
  fold insn in Min, Mout, Msucc.
  assert (b_grows nowhere st s1) as G1.
  { apply (upd_insn_b_grows _ _ _ _ _ U0). intros r Hr.
    rewrite Hi in Hr. injection Hr as <-. split; [|done].
    split; [done|]. rewrite Min. apply mask_subset_refl. }
  pose proof (b_edges_ok_grows _ _ _ G1 Hok) as Hok1.
  assert (rinsns s1 !! Z.to_nat i = Some insn) as Hs1.
  { rewrite (upd_insn_lookup _ _ _ _ _ U0), Hi. cbn. rewrite decide_True by lia. done. }
  case_bool_decide as Hnew; [by injection E as <- <-|].
  ok_step E s2 U1.
  set (live := Z.lor (b_transfer ty (instruction insn) (Z.lor (b_liveout insn) 1))
                     (b_livein insn)) in *.
  assert (b_grows (λ j, j = i) s1 s2) as G2.
  { apply (upd_insn_b_grows _ _ _ _ _ U1). intros r _. split; [|done].
    split; [done|apply mask_subset_refl]. }
  assert (rinsns s2 !! Z.to_nat i = Some (set_b_livein live insn)) as Hs2.
  { rewrite (upd_insn_lookup _ _ _ _ _ U1), Hs1. cbn. rewrite decide_True by lia. done. }
  ok_step E x Hedges. destruct x as [[s3 q3] exit].
  destruct (r_pass5_edges_grows nowhere _ _ _ _ _ _ _ _ _ _ Hedges) as [G3 T3].
  assert (b_edges_ok elf nowhere s3) as Hok3.
  { intros j r _ Hj Hout e He.
    destruct (decide (Z.of_nat j = i)) as [Hji|Hji].
    - rewrite <- Hji, Nat2Z.id in Hs2.
      destruct G3 as [_ G3]. destruct (G3 j _ Hs2) as (r3 & Hj3 & [KS _] & O).
      rewrite Hj in Hj3. injection Hj3 as <-.
      assert (b_livein r = live) as Hlive by (rewrite O by (intros []); done).
      intros Hext nl t Hnl Ht. rewrite Hlive, Hji in Hnl.
      rewrite KS in He. cbn in He. by eapply T3.
    - eapply (b_edges_ok_grows (λ j, j = i)); [| |exact Hji|done..].
      + eapply b_grows_trans; [exact G2|]. eapply b_grows_mono; [|exact G3]. done.
      + eapply b_edges_ok_mono; [|exact Hok1]. done. }
  destruct exit; [|by injection E as <- <-].
  destruct (b_propagate_grows nowhere _ _ _ _ _ _ E) as [G4 _].
  by eapply b_edges_ok_grows.
Qed.

Lemma r_pass5_loop_edges_ok fuel st q st' :
  b_edges_ok elf nowhere st →
  r_pass5_loop elf fuel st q = Some (Ok st') →
  b_edges_ok elf nowhere st'.
Proof.
  revert st q. induction fuel as [|fuel IH]; intros st q Inv E.
  - destruct q; [|done]. cbn in E. by injection E as <-.
  - destruct q as [|addr q]; [cbn in E; by injection E as <-|].
    cbn [r_pass5_loop] in E.
    destruct (r_pass5_step elf addr st q) as [[s1 q1]| | |] eqn:Hstep; try done.
    eapply IH; [|exact E]. by eapply r_pass5_step_edges_ok.
Qed.

(** The seeding writes [b_liveout] only. *)
Lemma set_b_liveout_livein k m st st' :
  (∀ r, r ∈ rinsns st → b_livein r = 0) →
  upd_insn k (set_b_liveout m) st = Ok st' →
  ∀ r, r ∈ rinsns st' → b_livein r = 0.
Proof.
  intros Hz U r [j Hj]%list_elem_of_lookup_1.
  rewrite (upd_insn_lookup _ _ _ _ _ U) in Hj.
  destruct (rinsns st !! j) as [r0|] eqn:Hr0; [|done]. injection Hj as <-.
  apply list_elem_of_lookup_2 in Hr0. case_decide; cbn; by apply Hz.
Qed.

Lemma r_pass5_seed_returns_livein rets m push st q st' q' :
  (∀ r, r ∈ rinsns st → b_livein r = 0) →
  r_pass5_seed_returns elf rets m push st q = Ok (st', q') →
  ∀ r, r ∈ rinsns st' → b_livein r = 0.
Proof.
  revert st q. induction rets as [|a rets IH]; intros st q Hz E;
    cbn [r_pass5_seed_returns] in E.
  - by injection E as <- <-.
  - ok_step E s1 U. eapply IH; [|exact E]. by eapply set_b_liveout_livein.
Qed.

Lemma r_pass5_seed_pointers_livein addrs st q st' q' :
  (∀ r, r ∈ rinsns st → b_livein r = 0) →
  r_pass5_seed_pointers elf addrs st q = Ok (st', q') →
  ∀ r, r ∈ rinsns st' → b_livein r = 0.
Proof.
  revert st q. induction addrs as [|a addrs IH]; intros st q Hz E;
    cbn [r_pass5_seed_pointers] in E.
  - by injection E as <- <-.
  - destruct (returns_of a st) as [s0 rets] eqn:Hret.
    ok_step E p Hp. destruct p as [s1 q1].
    eapply IH; [|exact E]. eapply r_pass5_seed_returns_livein; [|exact Hp].
    unfold returns_of in Hret. destruct (functions st !! a); injection Hret as <- <-;
      [done|]. by destruct st.
Qed.

(** X23. The backward masks flow along the edges: run on a vector with
    empty [b_livein] masks, [r_pass5] ends with, for every record it gave
    a [b_livein] and every predecessor edge of it that is not an extern
    call, the mask the edge lets through ([b_edge_live]: all of [b_livein]
    on a plain edge, its restriction on a function exit, a function entry
    or a call through a pointer) inside the [b_liveout] of the edge's
    source. *)
Theorem r_pass5_flows_along_edges (st st' : State) :
  (∀ r, r ∈ rinsns st → b_livein r = 0) →
  r_pass5 elf st = Ok st' →
  ∀ (j : nat) r e nl t,
    rinsns st' !! j = Some r → b_livein r ≠ 0 →
    e ∈ predecessors r → extern_function e = false →
    b_edge_live elf (Z.of_nat j) (b_livein r) r e st' = Ok nl →
    get_insn st' (edge_i e) = Ok t →
    mask_subset nl (b_liveout t).
Proof.
  intros Hzero E. unfold r_pass5 in E.
  ok_step E p Hinit. destruct p as [s1 q1].
  assert (b_edges_ok elf nowhere s1) as Inv1.
  { assert (∀ r, r ∈ rinsns s1 → b_livein r = 0) as Hz1.
    { unfold r_pass5_init in Hinit.
      destruct (functions st !! main_addr elf) as [f|]; [|done].
      ok_step Hinit p0 Hmain. destruct p0 as [s0 q0].
      ok_step Hinit p2 Hdata. destruct p2 as [s2 q2].
      ok_step Hinit p3 Hli. destruct p3 as [s3 q3].
      injection Hinit as <- <-.
      eapply r_pass5_seed_pointers_livein; [|exact Hli].
      eapply r_pass5_seed_pointers_livein; [|exact Hdata].
      by eapply r_pass5_seed_returns_livein. }
    intros j r _ Hj Hout. exfalso. apply Hout, Hz1. by eapply list_elem_of_lookup_2. }
  destruct (r_pass5_loop elf (worklist_bound s1 q1) s1 q1) as [[s2| | |]|] eqn:Hloop;
    try done.
  cbn in E. injection E as <-.
  pose proof (r_pass5_loop_edges_ok _ _ _ _ Inv1 Hloop) as Hok.
  intros j r e nl t Hj Hout He Hext Hnl Ht.
  by apply (Hok j r (λ F, F) Hj Hout e He Hext nl t).
Qed.

End BackwardEdges.

(** * What the liveness passes leave alone *)

Lemma jr_packed_instruction_ext a b :
  instruction a = instruction b → jtbl_addr a = jtbl_addr b →
  index_reg a = index_reg b →
  instruction (jr_packed a) = instruction (jr_packed b).
Proof.
  intros Hi Hj Hx. unfold jr_packed. rewrite Hj.
  case_bool_decide; cbn; [by rewrite Hi, Hx|done].
Qed.

Lemma jr_packed_same_but_masks r :
  uniqueId (instruction r) = RABBITIZER_INSTR_ID_cpu_jr →
  same_but_masks r (jr_packed r).
Proof.
  intros Hid. unfold same_but_masks.
  repeat split; try (unfold jr_packed; by case_bool_decide). by right.
Qed.

Lemma same_but_masks_refl r : same_but_masks r r.
Proof. unfold same_but_masks. repeat split; by left. Qed.

Lemma same_but_masks_trans r1 r2 r3 :
  same_but_masks r1 r2 → same_but_masks r2 r3 → same_but_masks r1 r3.
Proof.
  intros (A1 & B1 & C1 & D1 & E1 & F1 & G1 & H1 & I1 & J1 & K1 & L1)
         (A2 & B2 & C2 & D2 & E2 & F2 & G2 & H2 & I2 & J2 & K2 & L2).
  unfold same_but_masks. repeat split; try congruence.
  destruct L2 as [L2|[U2 L2]], L1 as [L1|[U1 L1]].
  - left. congruence.
  - right. split; [done|congruence].
  - right. split; [congruence|]. rewrite L2. by apply jr_packed_instruction_ext.
  - right. split; [done|]. rewrite L2, <- (jr_packed_again r1).
    apply jr_packed_instruction_ext; [done| |].
    + rewrite G1. unfold jr_packed. by case_bool_decide.
    + rewrite I1. unfold jr_packed. by case_bool_decide.
Qed.

Lemma forward_only_refl r : forward_only r r.
Proof. split; [apply same_but_masks_refl|done]. Qed.

Lemma forward_only_trans r1 r2 r3 :
  forward_only r1 r2 → forward_only r2 r3 → forward_only r1 r3.
Proof.
  intros (S1 & A1 & B1) (S2 & A2 & B2).
  split; [by eapply same_but_masks_trans|split; congruence].
Qed.

Lemma backward_only_refl r : backward_only r r.
Proof. split; [apply same_but_masks_refl|done]. Qed.

Lemma backward_only_trans r1 r2 r3 :
  backward_only r1 r2 → backward_only r2 r3 → backward_only r1 r3.
Proof.
  intros (S1 & A1 & B1) (S2 & A2 & B2).
  split; [by eapply same_but_masks_trans|split; congruence].
Qed.

(** [r_insn_to_type] packs a [JR] and touches nothing else. *)
Lemma r_insn_to_type_same_but_masks r :
  forward_only r (r_insn_to_type r).2 ∧ backward_only r (r_insn_to_type r).2.
Proof.
  destruct (r_insn_to_type_masks r) as (A & B & C & D & _).
  assert (same_but_masks r (r_insn_to_type r).2) as Hs.
  { destruct (decide (uniqueId (instruction r) = RABBITIZER_INSTR_ID_cpu_jr)) as [Hid|Hid].
    - rewrite (r_insn_to_type_jr r Hid). by apply jr_packed_same_but_masks.
    - rewrite (r_insn_to_type_other r Hid). apply same_but_masks_refl. }
  cbv zeta in A, B, C, D.
  split; (split; [exact Hs|split; assumption]).
Qed.

Section MasksFrame.
Variable rel : RInsn → RInsn → Prop.
Hypothesis rel_refl : ∀ r, rel r r.
Hypothesis rel_trans : ∀ r1 r2 r3, rel r1 r2 → rel r2 r3 → rel r1 r3.

Lemma masks_frame_refl st : masks_frame rel st st.
Proof. unfold masks_frame. repeat split; eauto. Qed.

Lemma masks_frame_trans st1 st2 st3 :
  masks_frame rel st1 st2 → masks_frame rel st2 st3 → masks_frame rel st1 st3.
Proof.
  intros (L1 & A1 & P1 & F1 & R1) (L2 & A2 & P2 & F2 & R2).
  unfold masks_frame. repeat split; try congruence; [eauto|].
  intros j r Hj. destruct (R1 j r Hj) as (r2 & Hj2 & Q1).
  destruct (R2 j r2 Hj2) as (r3 & Hj3 & Q2). eauto.
Qed.

Lemma upd_insn_masks_frame k g st st' :
  upd_insn k g st = Ok st' →
  (∀ r, rinsns st !! Z.to_nat k = Some r → rel r (g r)) →
  masks_frame rel st st'.
Proof.
  intros U Hg. pose proof (upd_insn_Ok _ _ _ _ U) as (a & Hk & Ha & ->).
  split; [by eapply upd_insn_length|]. repeat split; [done|].
  intros j r Hj. rewrite (upd_insn_lookup _ _ _ _ j U), Hj. cbn.
  case_decide as Hjk; [|eauto]. subst k. rewrite Nat2Z.id in Hg. eauto.
Qed.

End MasksFrame.

Section LivenessFrame.
Context `{Rabbitizer}.
Variable elf : Elf.

Local Abbreviation fframe := (masks_frame forward_only).
Local Abbreviation bframe := (masks_frame backward_only).

Lemma fframe_trans st1 st2 st3 : fframe st1 st2 → fframe st2 st3 → fframe st1 st3.
Proof. apply masks_frame_trans, forward_only_trans. Qed.

Lemma bframe_trans st1 st2 st3 : bframe st1 st2 → bframe st2 st3 → bframe st1 st3.
Proof. apply masks_frame_trans, backward_only_trans. Qed.

Lemma f_propagate_frame k nl st q st' q' :
  f_propagate elf k nl st q = Ok (st', q') → fframe st st'.
Proof.
  intros E. unfold f_propagate, propagate in E. ok_step E t0 Ht0.
  destruct (new_bits (f_livein t0) nl).
  - ok_step E s1 U. injection E as <- <-.
    apply (upd_insn_masks_frame _ forward_only_refl _ _ _ _ U).
    intros r _. unfold forward_only, same_but_masks. repeat split; by left.
  - injection E as <- <-. apply masks_frame_refl, forward_only_refl.
Qed.

Lemma b_propagate_frame k nl st q st' q' :
  b_propagate elf k nl st q = Ok (st', q') → bframe st st'.
Proof.
  intros E. unfold b_propagate, propagate in E. ok_step E t0 Ht0.
  destruct (new_bits (b_liveout t0) nl).
  - ok_step E s1 U. injection E as <- <-.
    apply (upd_insn_masks_frame _ backward_only_refl _ _ _ _ U).
    intros r _. unfold backward_only, same_but_masks. repeat split; by left.
  - injection E as <- <-. apply masks_frame_refl, backward_only_refl.
Qed.

Lemma r_pass4_edges_frame es i live st q entry st' q' entry' :
  r_pass4_edges elf es i live st q entry = Ok (st', q', entry') → fframe st st'.
Proof.
  revert st q entry. induction es as [|e es IH]; intros st q entry E;
    cbn [r_pass4_edges] in E.
  - injection E as <- <- <-. apply masks_frame_refl, forward_only_refl.
  - ok_step E nl Hnl. cbv zeta in E. ok_step E p Hp. destruct p as [s1 q1].
    eapply fframe_trans; [by eapply f_propagate_frame|by eapply IH].
Qed.

Lemma r_pass5_edges_frame es i live insn st q exit st' q' exit' :
  r_pass5_edges elf es i live insn st q exit = Ok (st', q', exit') → bframe st st'.
Proof.
  revert st q exit. induction es as [|e es IH]; intros st q exit E;
    cbn [r_pass5_edges] in E.
  - injection E as <- <- <-. apply masks_frame_refl, backward_only_refl.
  - ok_step E nl Hnl. cbv zeta in E. ok_step E p Hp. destruct p as [s1 q1].
    eapply bframe_trans; [by eapply b_propagate_frame|by eapply IH].
Qed.

Lemma r_pass4_step_masks_frame addr st q st' q' :
  r_pass4_step elf addr st q = Ok (st', q') → fframe st st'.
Proof.
  intros E. unfold r_pass4_step in E. cbv zeta in E.
  ok_step E insn0 Hi. apply vec_get_Ok in Hi as [_ Hi].
  rewrite (surjective_pairing (r_insn_to_type insn0)) in E.
  ok_step E s1 U0.
  assert (fframe st s1) as G1.
  { apply (upd_insn_masks_frame _ forward_only_refl _ _ _ _ U0).
    intros r Hr. rewrite Hi in Hr. injection Hr as <-.
    apply r_insn_to_type_same_but_masks. }
  case_bool_decide; [by injection E as <- <-|].
  ok_step E s2 U1.
  assert (fframe s1 s2) as G2.
  { apply (upd_insn_masks_frame _ forward_only_refl _ _ _ _ U1).
    intros r _. unfold forward_only, same_but_masks. repeat split; by left. }
  ok_step E x Hedges. destruct x as [[s3 q3] entry].
  pose proof (r_pass4_edges_frame _ _ _ _ _ _ _ _ _ Hedges) as G3.
  eapply fframe_trans; [exact G1|]. eapply fframe_trans; [exact G2|].
  destruct entry; [|by injection E as <- <-].
  eapply fframe_trans; [exact G3|by eapply f_propagate_frame].
Qed.

Lemma r_pass5_step_masks_frame addr st q st' q' :
  r_pass5_step elf addr st q = Ok (st', q') → bframe st st'.
Proof.
  intros E. unfold r_pass5_step in E. cbv zeta in E.
  ok_step E insn0 Hi. apply vec_get_Ok in Hi as [_ Hi].
  rewrite (surjective_pairing (r_insn_to_type insn0)) in E.
  ok_step E s1 U0.
  assert (bframe st s1) as G1.
  { apply (upd_insn_masks_frame _ backward_only_refl _ _ _ _ U0).
    intros r Hr. rewrite Hi in Hr. injection Hr as <-.
    apply r_insn_to_type_same_but_masks. }
  case_bool_decide; [by injection E as <- <-|].
  ok_step E s2 U1.
  assert (bframe s1 s2) as G2.
  { apply (upd_insn_masks_frame _ backward_only_refl _ _ _ _ U1).
    intros r _. unfold backward_only, same_but_masks. repeat split; by left. }
  ok_step E x Hedges. destruct x as [[s3 q3] exit].
  pose proof (r_pass5_edges_frame _ _ _ _ _ _ _ _ _ _ Hedges) as G3.
  eapply bframe_trans; [exact G1|]. eapply bframe_trans; [exact G2|].
  destruct exit; [|by injection E as <- <-].
  eapply bframe_trans; [exact G3|by eapply b_propagate_frame].
Qed.

Lemma r_pass4_seed_frame addrs st q st' q' :
  r_pass4_seed elf addrs st q = Ok (st', q') → fframe st st'.
Proof.
  revert st q. induction addrs as [|a addrs IH]; intros st q E;
    cbn [r_pass4_seed] in E.
  - injection E as <- <-. apply masks_frame_refl, forward_only_refl.
  - ok_step E s1 U. eapply fframe_trans; [|by eapply IH].
    apply (upd_insn_masks_frame _ forward_only_refl _ _ _ _ U).
    intros r _. unfold forward_only, same_but_masks. repeat split; by left.
Qed.

Lemma r_pass5_seed_returns_frame rets m push st q st' q' :
  r_pass5_seed_returns elf rets m push st q = Ok (st', q') → bframe st st'.
Proof.
  revert st q. induction rets as [|a rets IH]; intros st q E;
    cbn [r_pass5_seed_returns] in E.
  - injection E as <- <-. apply masks_frame_refl, backward_only_refl.
  - ok_step E s1 U. eapply bframe_trans; [|by eapply IH].
    apply (upd_insn_masks_frame _ backward_only_refl _ _ _ _ U).
    intros r _. unfold backward_only, same_but_masks. repeat split; by left.
Qed.

Lemma r_pass5_seed_pointers_frame addrs st q st' q' :
  r_pass5_seed_pointers elf addrs st q = Ok (st', q') → bframe st st'.
Proof.
  revert st q. induction addrs as [|a addrs IH]; intros st q E;
    cbn [r_pass5_seed_pointers] in E.
  - injection E as <- <-. apply masks_frame_refl, backward_only_refl.
  - destruct (returns_of a st) as [s0 rets] eqn:Hret.
    ok_step E p Hp. destruct p as [s1 q1].
    assert (bframe st s0) as G0.
    { unfold returns_of in Hret. destruct (functions st !! a) eqn:Hf;
        injection Hret as <- <-; [apply masks_frame_refl, backward_only_refl|].
      unfold masks_frame. repeat split; [|intros j r Hj; exists r; split;
        [done|apply backward_only_refl]].
      intros a' f Ha'. cbn. rewrite lookup_insert_ne; [done|congruence]. }
    eapply bframe_trans; [exact G0|].
    eapply bframe_trans; [by eapply r_pass5_seed_returns_frame|by eapply IH].
Qed.

Lemma r_pass4_masks_frame st st' : r_pass4 elf st = Ok st' → fframe st st'.
Proof.
  intros E. unfold r_pass4 in E.
  ok_step E p Hinit. destruct p as [s1 q1].
  assert (fframe st s1) as G1.
  { unfold r_pass4_init in Hinit. ok_step Hinit s0 U0.
    ok_step Hinit p Hseed. destruct p as [s2 q2].
    eapply fframe_trans; [|eapply fframe_trans;
      [exact (r_pass4_seed_frame _ _ _ _ _ Hseed)
      |exact (r_pass4_seed_frame _ _ _ _ _ Hinit)]].
    apply (upd_insn_masks_frame _ forward_only_refl _ _ _ _ U0).
    intros r _. unfold forward_only, same_but_masks. repeat split; by left. }
  eapply fframe_trans; [exact G1|]. clear G1 Hinit.
  generalize dependent s1. generalize dependent q1.
  intros q1 s1. generalize (worklist_bound s1 q1). intros fuel. revert s1 q1.
  induction fuel as [|fuel IH]; intros s1 q1 E.
  + destruct q1; [|done]. cbn in E. injection E as <-.
    apply masks_frame_refl, forward_only_refl.
  + destruct q1 as [|addr q1];
      [cbn in E; injection E as <-; apply masks_frame_refl, forward_only_refl|].
    cbn [r_pass4_loop] in E.
    destruct (r_pass4_step elf addr s1 q1) as [[s2 q2]| | |] eqn:Hstep; try done.
    eapply fframe_trans; [by eapply r_pass4_step_masks_frame|by eapply IH].
Qed.

Lemma r_pass5_masks_frame st st' : r_pass5 elf st = Ok st' → bframe st st'.
Proof.
  intros E. unfold r_pass5 in E.
  ok_step E p Hinit. destruct p as [s1 q1].
  assert (bframe st s1) as G1.
  { unfold r_pass5_init in Hinit.
    destruct (functions st !! main_addr elf) as [f|]; [|done].
    ok_step Hinit p0 Hmain. destruct p0 as [s0 q0].
    ok_step Hinit p2 Hdata. destruct p2 as [s2 q2].
    ok_step Hinit p3 Hli. destruct p3 as [s3 q3].
    injection Hinit as <- <-.
    eapply bframe_trans; [exact (r_pass5_seed_returns_frame _ _ _ _ _ _ _ Hmain)|].
    eapply bframe_trans; [exact (r_pass5_seed_pointers_frame _ _ _ _ _ Hdata)
                         |exact (r_pass5_seed_pointers_frame _ _ _ _ _ Hli)]. }
  eapply bframe_trans; [exact G1|]. clear G1 Hinit.
  generalize dependent s1. generalize dependent q1.
  intros q1 s1. generalize (worklist_bound s1 q1). intros fuel. revert s1 q1.
  induction fuel as [|fuel IH]; intros s1 q1 E.
  + destruct q1; [|done]. cbn in E. injection E as <-.
    apply masks_frame_refl, backward_only_refl.
  + destruct q1 as [|addr q1];
      [cbn in E; injection E as <-; apply masks_frame_refl, backward_only_refl|].
    cbn [r_pass5_loop] in E.
    destruct (r_pass5_step elf addr s1 q1) as [[s2 q2]| | |] eqn:Hstep; try done.
    eapply bframe_trans; [by eapply r_pass5_step_masks_frame|by eapply IH].
Qed.

(** X25. The liveness passes only write liveness masks. [r_pass4] and then
    [r_pass5] keep the number of records, the labels and the pointer set,
    and every function record that is there; in every instruction record
    they leave the edge lists, the flags, the patch, link and jump-table
    fields as they were, and the instruction too, but for a [JR], which
    may get [index_reg] packed into its word. [r_pass4] leaves the
    backward masks alone, and [r_pass5] the forward masks. *)
Theorem liveness_passes_only_write_masks (st st4 st5 : State) :
  r_pass4 elf st = Ok st4 →
  r_pass5 elf st4 = Ok st5 →
  length (rinsns st5) = length (rinsns st) ∧
  label_addresses st5 = label_addresses st ∧
  li_function_pointers st5 = li_function_pointers st ∧
  (∀ a f, functions st !! a = Some f → functions st5 !! a = Some f) ∧
  ∀ (j : nat) r, rinsns st !! j = Some r →
    ∃ r4 r5, rinsns st4 !! j = Some r4 ∧ rinsns st5 !! j = Some r5 ∧
      same_but_masks r r5 ∧
      b_livein r4 = b_livein r ∧ b_liveout r4 = b_liveout r ∧
      f_livein r5 = f_livein r4 ∧ f_liveout r5 = f_liveout r4.
Proof.
  intros E4 E5.
  destruct (r_pass4_masks_frame _ _ E4) as (L4 & A4 & P4 & F4 & R4).
  destruct (r_pass5_masks_frame _ _ E5) as (L5 & A5 & P5 & F5 & R5).
  repeat split; try congruence; [eauto|].
  intros j r Hj.
  destruct (R4 j r Hj) as (r4 & Hj4 & S4 & Bi & Bo).
  destruct (R5 j r4 Hj4) as (r5 & Hj5 & S5 & Fi & Fo).
  exists r4, r5. split; [done|]. split; [done|].
  split; [by eapply same_but_masks_trans|done].
Qed.

End LivenessFrame.

(** ** Worked examples *)

Lemma r_pass3_fallthrough_edges_witness :
  ∃ st',
    r_pass3 call_and_return call_and_return_state = Ok st' ∧
    length (rinsns st') = length (rinsns call_and_return_state) ∧
    (∀ (i : nat) (r : RInsn),
       rinsns call_and_return_state !! i = Some r →
       ∃ ri, rinsns st' !! i = Some ri ∧ instruction ri = instruction r ∧
         ∃ ext, successors ri = successors r ++ ext) ∧
    ∀ (i : nat) (ri : RInsn),
      rinsns st' !! i = Some ri →
      no_following_successor ri = false →
      mkEdge (Z.of_nat i + 1) false false false false ∈ successors ri.
Proof.
  eexists. split; [vm_compute; reflexivity|].
  apply (r_pass3_fallthrough_edges call_and_return call_and_return_state).
  vm_compute. reflexivity.
Defined.

(** C7 as stated fails on a [JAL] the loop skips: in
    [j 0x40000c; jal 0x400010; nop; ...] the [JAL] at index 1 is the delay
    slot of the [J]; after [r_pass3] it has no edge to index 2, and index 2
    is not marked. *)
Lemma r_pass3_jal_in_delay_slot_skipped :
  ∃ st' r1 r2,
    r_pass3 jal_in_delay_slot jal_in_delay_slot_state = Ok st' ∧
    rinsns st' !! 1%nat = Some r1 ∧
    uniqueId (instruction r1) = RABBITIZER_INSTR_ID_cpu_jal ∧
    ¬ (mkEdge 2 false false false false ∈ successors r1) ∧
    rinsns st' !! 2%nat = Some r2 ∧
    no_following_successor r2 = false.
Proof.
  eexists _, _, _. split; [vm_compute; reflexivity|].
  split; [reflexivity|]. split; [reflexivity|].
  split; [|split; reflexivity].
  simpl. intros Hin. apply list_elem_of_singleton in Hin. discriminate.
Defined.

Lemma r_pass3_jal_edges_witness :
  ∃ insn st',
    get_insn call_and_return_state 0 = Ok insn ∧
    uniqueId (instruction insn) = RABBITIZER_INSTR_ID_cpu_jal ∧
    no_following_successor insn = false ∧
    r_pass3_step call_and_return 0 call_and_return_state = Ok st' ∧
    let es := jal_edges call_and_return 0 (jal_dest insn)
                (callee_returns call_and_return_state (jal_dest insn)) in
    ∀ (j : nat) (rj : RInsn),
      rinsns call_and_return_state !! j = Some rj →
      ∃ rj', rinsns st' !! j = Some rj'
        ∧ successors rj' = successors rj ++ succs_added es (Z.of_nat j)
        ∧ predecessors rj' = predecessors rj ++ preds_added es (Z.of_nat j)
        ∧ no_following_successor rj' =
            (no_following_successor rj || bool_decide (Z.of_nat j = 0 + 1)).
Proof.
  eexists _, _. split; [vm_compute; reflexivity|].
  split; [reflexivity|]. split; [reflexivity|].
  split; [vm_compute; reflexivity|].
  apply (r_pass3_jal_edges call_and_return 0 call_and_return_state);
    vm_compute; reflexivity.
Defined.

(** C1 as stated fails on the PIC call of a static function,
    [lw t9, -0x7ff0(gp); addiu t9, t9, 0x10; jalr t9]: [r_link_with_lui] links
    the [ADDIU] at 1 with the [LW] at 0, then [r_link_with_jalr] links the
    [JALR] at 2 with the (rewritten) [LW] at 0. After [r_pass1],
    [rinsns[1].linked_insn == 0] but [rinsns[0].linked_insn == 2]. *)
Lemma r_pass1_links_not_mutual :
  ∃ st',
    r_pass1 pic_static_call pic_static_call_state = Ok st' ∧
    linked_at st' 1 = Some 0 ∧ linked_at st' 0 = Some 2 ∧
    ¬ (∀ s o : nat,
         linked_at st' s = Some (Z.of_nat o) ↔ linked_at st' o = Some (Z.of_nat s)).
Proof.
  eexists. split; [vm_compute; reflexivity|].
  split; [reflexivity|]. split; [reflexivity|].
  intros M. specialize (M 1%nat 0%nat). destruct M as [M _].
  specialize (M eq_refl). discriminate M.
Defined.

Lemma linked_insn_mutual_when_made_witness :
  ∃ st1 st2,
    r_link_with_lui pic_static_call 1 25 16 pic_static_call_state = Ok st1 ∧
    ((search_passed (lui_search_skips 25 1) pic_static_call_state
        (Z.max 0 (1 - MAX_LOOKBACK) - 1) 1
      ∧ links_kept pic_static_call_state st1)
     ∨ ∃ s r,
         Z.max 0 (1 - MAX_LOOKBACK) ≤ s < 1 ∧
         search_passed (lui_search_skips 25 1) pic_static_call_state s 1 ∧
         get_insn pic_static_call_state s = Ok r ∧ lui_search_skips 25 1 s r = false ∧
         (lui_pair_source pic_static_call 25 r = true →
          link_made pic_static_call_state st1 s 1 1 s) ∧
         (lui_pair_source pic_static_call 25 r = false →
          links_kept pic_static_call_state st1)) ∧
    r_link_with_jalr pic_static_call 2 st1 = Ok st2 ∧
    ((search_passed (λ _, jalr_search_skips) st1 (Z.max 0 (2 - MAX_LOOKBACK) - 1) 2
      ∧ links_kept st1 st2)
     ∨ ∃ s r,
         Z.max 0 (2 - MAX_LOOKBACK) ≤ s < 2 ∧
         search_passed (λ _, jalr_search_skips) st1 s 2 ∧
         get_insn st1 s = Ok r ∧ jalr_search_skips r = false ∧
         (jalr_pair_source r = true → link_made st1 st2 s 2 2 s) ∧
         (jalr_chain_source r = true →
          linked_insn r ≠ -1 ∧ link_made st1 st2 s 2 2 (linked_insn r)) ∧
         (jalr_pair_source r = false → jalr_chain_source r = false →
          links_kept st1 st2)).
Proof.
  destruct (linked_insn_mutual_when_made pic_static_call) as [Hlui Hjalr].
  eexists _, _. split; [vm_compute; reflexivity|].
  split; [apply (Hlui 1 25 16); vm_compute; reflexivity|].
  split; [vm_compute; reflexivity|].
  apply (Hjalr 2). vm_compute. reflexivity.
Defined.

Lemma jump_table_outside_rodata_is_fatal_witness :
  ∃ insn l jt,
    get_insn switch_outside_rodata_at_jr 8 = Ok insn ∧
    jtbl_recognize 8 switch_outside_rodata_at_jr = Ok (Some jt) ∧
    get_insn switch_outside_rodata_at_jr (jt_lw jt) = Ok l ∧
    rodata_vaddr switch_outside_rodata + rodata_section_len switch_outside_rodata
      < linked_value l + jt_num_cases jt * 4 ∧
    r_pass1 switch_outside_rodata switch_outside_rodata_state
      = Exit EXIT_FAILURE "jump table outside rodata
" ∧
    EXIT_FAILURE ≠ 0 ∧
    main switch_outside_rodata (λ st, Ok st) (λ _, ("", Ok ())) switch_outside_rodata_state
      = ("", Exit EXIT_FAILURE "jump table outside rodata
").
Proof.
  eexists _, _, _. split; [vm_compute; reflexivity|].
  split; [vm_compute; reflexivity|]. split; [vm_compute; reflexivity|].
  split; [vm_compute; reflexivity|].
  eapply (jump_table_outside_rodata_is_fatal switch_outside_rodata
            (λ st, Ok st) (λ _, ("", Ok ()))
            switch_outside_rodata_state switch_outside_rodata_at_jr 8);
    try (vm_compute; reflexivity); try (vm_compute; discriminate).
  right. vm_compute. reflexivity.
Defined.

Lemma liveness_monotone_and_terminating_witness :
  masks64 call_and_return_seeded.1 ∧
  (∃ r, r_pass4_loop call_and_return
          (worklist_bound call_and_return_seeded.1 call_and_return_seeded.2)
          call_and_return_seeded.1 call_and_return_seeded.2 = Some r
        ∧ ∀ st', r = Ok st' →
            masks_grow call_and_return_seeded.1 st' ∧ masks64 st') ∧
  (∃ r, r_pass5_loop call_and_return
          (worklist_bound call_and_return_seeded.1 call_and_return_seeded.2)
          call_and_return_seeded.1 call_and_return_seeded.2 = Some r
        ∧ ∀ st', r = Ok st' →
            masks_grow call_and_return_seeded.1 st' ∧ masks64 st').
Proof.
  assert (masks64 call_and_return_seeded.1) as M.
  { apply masks64b_sound. vm_compute. reflexivity. }
  split; [exact M|].
  destruct (liveness_monotone_and_terminating call_and_return
              call_and_return_seeded.1 call_and_return_seeded.2 M)
    as (_ & _ & _ & H4 & H5).
  split; assumption.
Defined.

(** C10 as stated fails in its last clause: the passes do not move masks
    over the tagged edges only. In [jal f; nop; nop; f: jr ra; nop] the
    delay slot at index 1 has one successor edge, into [f] at index 3, and
    the instruction at index 2 one predecessor edge, out of [f] from index
    4. The turn of the forward pass at index 1 changes the [f_livein] of
    index 2, and the turn of the backward pass at index 2 changes the
    [b_liveout] of index 1: both cross the pair (1, 2), which is in no
    edge list. *)
Lemma liveness_crosses_pair_outside_edges :
  (∃ st' q' r1 r2 r2',
     call_and_return_forward_turn.2 = [0x400004] ∧
     r_pass4_step call_and_return 0x400004 call_and_return_forward_turn.1 []
       = Ok (st', q') ∧
     rinsns call_and_return_forward_turn.1 !! 1%nat = Some r1 ∧
     rinsns call_and_return_forward_turn.1 !! 2%nat = Some r2 ∧
     rinsns st' !! 2%nat = Some r2' ∧
     successors r1 = [mkEdge 3 true false false false] ∧
     f_livein r2' ≠ f_livein r2 ∧ ¬ over_successors r1 2) ∧
  (∃ st' q' r2 r1 r1',
     head call_and_return_backward_turn.2 = Some 0x400008 ∧
     r_pass5_step call_and_return 0x400008 call_and_return_backward_turn.1
       (tail call_and_return_backward_turn.2) = Ok (st', q') ∧
     rinsns call_and_return_backward_turn.1 !! 2%nat = Some r2 ∧
     rinsns call_and_return_backward_turn.1 !! 1%nat = Some r1 ∧
     rinsns st' !! 1%nat = Some r1' ∧
     predecessors r2 = [mkEdge 4 false true false false] ∧
     b_liveout r1' ≠ b_liveout r1 ∧ ¬ over_predecessors r2 1) ∧
  ¬ (∀ addr s q s' q' ri (j : nat) r r',
       r_pass4_step call_and_return addr s q = Ok (s', q') →
       get_insn s (addr_to_i call_and_return addr) = Ok ri →
       rinsns s !! j = Some r → rinsns s' !! j = Some r' →
       f_livein r' ≠ f_livein r → over_successors ri (Z.of_nat j)) ∧
  ¬ (∀ addr s q s' q' ri (j : nat) r r',
       r_pass5_step call_and_return addr s q = Ok (s', q') →
       get_insn s (addr_to_i call_and_return addr) = Ok ri →
       rinsns s !! j = Some r → rinsns s' !! j = Some r' →
       b_liveout r' ≠ b_liveout r → over_predecessors ri (Z.of_nat j)).
Proof.
  assert (∀ r to e, successors r = [e] → edge_i e ≠ to → ¬ over_successors r to) as NoS.
  { intros r to e Hs Hne (e' & He' & Hi). rewrite Hs in He'.
    apply list_elem_of_singleton in He'. congruence. }
  assert (∀ r from e, predecessors r = [e] → edge_i e ≠ from →
            ¬ over_predecessors r from) as NoP.
  { intros r from e Hs Hne (e' & He' & Hi). rewrite Hs in He'.
    apply list_elem_of_singleton in He'. congruence. }
  split; [|split; [|split]].
  - eexists _, _, _, _, _. split; [vm_compute; reflexivity|].
    split; [vm_compute; reflexivity|]. split; [vm_compute; reflexivity|].
    split; [vm_compute; reflexivity|]. split; [vm_compute; reflexivity|].
    split; [reflexivity|]. split; [vm_compute; discriminate|].
    eapply NoS; [reflexivity|]. vm_compute. discriminate.
  - eexists _, _, _, _, _. split; [vm_compute; reflexivity|].
    split; [vm_compute; reflexivity|]. split; [vm_compute; reflexivity|].
    split; [vm_compute; reflexivity|]. split; [vm_compute; reflexivity|].
    split; [reflexivity|]. split; [vm_compute; discriminate|].
    eapply NoP; [reflexivity|]. vm_compute. discriminate.
  - intros Hall.
    eapply (NoS _ 2); [| |eapply (Hall 0x400004 call_and_return_forward_turn.1 []
                                   _ _ _ 2%nat)];
      [| |vm_compute; reflexivity|vm_compute; reflexivity|vm_compute; reflexivity
       |vm_compute; reflexivity|vm_compute; discriminate];
      [reflexivity|vm_compute; discriminate].
  - intros Hall.
    eapply (NoP _ 1); [| |eapply (Hall 0x400008 call_and_return_backward_turn.1
                                   (tail call_and_return_backward_turn.2)
                                   _ _ _ 1%nat)];
      [| |vm_compute; reflexivity|vm_compute; reflexivity|vm_compute; reflexivity
       |vm_compute; reflexivity|vm_compute; discriminate];
      [reflexivity|vm_compute; discriminate].
Defined.

Lemma r_pass3_edges_mirror_witness :
  ∃ st',
    r_pass3 call_and_return call_and_return_state = Ok st' ∧
    edges_mirror (rinsns st').
Proof.
  eexists. split; [vm_compute; reflexivity|].
  intros i j ri rj a b c d Hi Hj.
  refine (proj1 (proj1 (proj2
    (r_pass3_edges_mirror call_and_return call_and_return_state _ _ _))
    i j ri rj a b c d Hi Hj)).
  - apply Forall_forall. vm_compute. repeat constructor.
  - vm_compute. reflexivity.
Defined.

Lemma r_pass6_signature_witness :
  ∃ st',
    r_pass6 two_returns two_returns_analysed = Ok st' ∧
    ∃ f' entry,
      functions st' !! 0x400018 = Some f' ∧
      get_insn two_returns_analysed (addr_to_i two_returns 0x400018) = Ok entry ∧
      let live_in reg := live_both (f_livein entry) (b_livein entry) reg in
      nret f' =
        (if some_return_live two_returns two_returns_analysed
              RABBITIZER_REG_GPR_O32_v1 (returns two_returns_f) then 2
         else if some_return_live two_returns two_returns_analysed
                   RABBITIZER_REG_GPR_O32_v0 (returns two_returns_f) then 1
         else 0) ∧
      (∀ i, 0 ≤ i < 4 →
            live_in (RABBITIZER_REG_GPR_O32_a0 + i) = true →
            (∀ j, i < j < 4 → live_in (RABBITIZER_REG_GPR_O32_a0 + j) = false) →
            nargs f' = 1 + i) ∧
      ((∀ i, 0 ≤ i < 4 → live_in (RABBITIZER_REG_GPR_O32_a0 + i) = false) →
       nargs f' = nargs two_returns_f) ∧
      (v0_in f' = true ↔
       live_in RABBITIZER_REG_GPR_O32_v0 = true ∧
       referenced_by_function_pointer two_returns_f = false).
Proof.
  eexists. split; [vm_compute; reflexivity|].
  apply (r_pass6_signature two_returns two_returns_analysed _ 0x400018 two_returns_f).
  - vm_compute. reflexivity.
  - vm_compute. reflexivity.
  - reflexivity.
Defined.

(** C3 as stated fails when only one of the returns of a function sets
    [$v0]: in [two_returns] the function at [0x400018] is left with
    [nret = 1], and its return at [0x400024] has [$v0] in the backward
    liveout mask (the caller stores it) but not in the forward one. *)
Lemma r_pass6_nret_one_return_without_v0 :
  ∃ st st' f' r,
    analysed two_returns two_returns_functions = Ok st ∧
    r_pass6 two_returns st = Ok st' ∧
    functions st' !! 0x400018 = Some f' ∧
    nret f' = 1 ∧
    0x400024 ∈ returns f' ∧
    get_insn st' (addr_to_i two_returns 0x400024) = Ok r ∧
    Z.land (Z.land (f_liveout r) (b_liveout r))
           (r_map_reg RABBITIZER_REG_GPR_O32_v0) = 0.
Proof.
  eexists _, _, _, _. split; [vm_compute; reflexivity|].
  split; [vm_compute; reflexivity|].
  split; [vm_compute; reflexivity|].
  split; [reflexivity|].
  split; [left|].
  split; [vm_compute; reflexivity|].
  reflexivity.
Defined.

Lemma r_pass6_nret_one_witness :
  ∃ st' f',
    r_pass6 two_returns two_returns_analysed = Ok st' ∧
    functions st' !! 0x400018 = Some f' ∧
    (∃ ret, ret ∈ returns f' ∧
            live_out_both two_returns st' RABBITIZER_REG_GPR_O32_v0 ret = true) ∧
    (∀ ret, ret ∈ returns f' →
            live_out_both two_returns st' RABBITIZER_REG_GPR_O32_v1 ret = false).
Proof.
  eexists _, _. split; [vm_compute; reflexivity|].
  split; [vm_compute; reflexivity|].
  apply (r_pass6_nret_one two_returns two_returns_analysed _ 0x400018 two_returns_f).
  - vm_compute. reflexivity.
  - vm_compute. reflexivity.
  - reflexivity.
  - vm_compute. reflexivity.
  - reflexivity.
Defined.

(** C4 as stated fails on a result nobody reads: in [dead_store] the
    [addu t0, a0, a1] at index 0 has [$t0] not backward-live; the lowerer
    prints the annotation and the statement on one line, and nothing of
    the statement is left for the compiler. *)
Lemma r_dump_instr_bdead_swallows_statement :
  ∃ st insn out st',
    lowerable dead_store dead_store_functions = Ok st ∧
    get_insn st 0 = Ok insn ∧
    Z.land (b_liveout insn) (get_dest_reg_mask (instruction insn)) = 0 ∧
    r_dump_statement no_other_cases 0 insn st
      = Ok ("t0 = a0 + a1;" +:+ String newline "") ∧
    r_dump_instr dead_store false no_other_cases 0 st = Ok (out, st') ∧
    out = "// bdead 100000009 t0 = a0 + a1;" +:+ String newline "" ∧
    compiled_text out = String newline "".
Proof.
  eexists _, _, _, _. split; [vm_compute; reflexivity|].
  split; [vm_compute; reflexivity|].
  split; [vm_compute; reflexivity|].
  split; [vm_compute; reflexivity|].
  split; [vm_compute; reflexivity|].
  split; vm_compute; reflexivity.
Defined.

Lemma r_dump_instr_annotation_witness :
  ∃ out st',
    r_dump_instr dead_store false no_other_cases 0 dead_store_lowerable
      = Ok (out, st') ∧
    ∃ insn insn' symbol_line comment statement,
      get_insn dead_store_lowerable 0 = Ok insn ∧
      get_insn st' 0 = Ok insn' ∧
      r_dump_statement no_other_cases 0 insn' st' = Ok statement ∧
      out = symbol_line +:+ comment +:+ statement ∧
      (RabbitizerInstrDescriptor_isJump (descriptor (instruction insn)) = true
       ∨ false = true → comment = "") ∧
      (RabbitizerInstrDescriptor_isJump (descriptor (instruction insn)) = false →
       false = false →
       insn' = (r_insn_to_type insn).2 ∧
       comment = dead_comment (r_insn_to_type insn).1 insn') ∧
      (comment = "" ∨ comment = fdead insn' ∨ comment = bdead insn') ∧
      (comment ≠ "" →
       compiled_text (comment +:+ statement) = compiled_text (skip_line statement)).
Proof.
  eexists _, _. split; [vm_compute; reflexivity|].
  apply (r_dump_instr_annotation dead_store false no_other_cases 0 dead_store_lowerable).
  vm_compute. reflexivity.
Defined.

(** C2 as stated fails on [sqrt], [double sqrt(double)]: its [d]
    parameter comes at position 0 while only floats were seen, takes a
    float slot, and marks neither [$a0] nor [$a1]. *)
Lemma extern_sqrt_marks_no_register :
  extern_sqrt ∈ extern_functions ∧
  arg_walk_step "d" (mkArgWalk 1 0 0 true) = mkArgWalk 1 2 2 true ∧
  extern_args_walk extern_sqrt = mkArgWalk 1 2 2 true ∧
  Z.land (extern_args extern_sqrt) (Z.lor (a_reg 0) (a_reg 1)) = 0.
Proof.
  split.
  - apply (list_elem_of_lookup_2 _ 23). reflexivity.
  - split; [|split]; vm_compute; reflexivity.
Defined.

Lemma arg_walk_step_wide_witness :
  Z.even 2 = true ∧
  let w' := arg_walk_step "l" (mkArgWalk 1 2 0 false) in
  let fast := bool_decide ("l"%char = "d"%char) && false && bool_decide (0 < 4) in
  aw_pos w' = 2 + 2 ∧
  aw_args w' =
    (if fast then 1
     else if bool_decide (2 < 4)
          then Z.lor 1 (Z.lor (a_reg 2) (a_reg (2 + 1)))
          else 1) ∧
  aw_pos_float w' = (if fast then 0 + 2 else 0) ∧
  aw_only_floats_so_far w' = bool_decide ("l"%char = "d"%char) && false ∧
  w' = aligned_arg_walk_step "l" (mkArgWalk 1 2 0 false).
Proof.
  split; [reflexivity|].
  apply (arg_walk_step_wide "l" 1 2 0 false); [reflexivity|].
  right. left. reflexivity.
Defined.

(** ** More worked examples *)

Lemma u32be_involutive_witness :
  is_u32 (u32be 0x12345678) ∧
  u32be (u32be 0x12345678) = 0x12345678 ∧
  word_bytes (u32be 0x12345678) = reverse (word_bytes 0x12345678).
Proof. apply (u32be_involutive 0x12345678). unfold is_u32. lia. Defined.

Lemma u16be_involutive_witness :
  0 ≤ u16be 0x1234 < 2 ^ 16 ∧
  u16be 0x1234 = (0x1234 `mod` 256) * 256 + 0x1234 / 256 ∧
  u16be (u16be 0x1234) = 0x1234.
Proof. apply (u16be_involutive 0x1234). lia. Defined.

Lemma read_u32_be_round_trip_witness :
  (read_u32_be [0; 0x12; 0x34; 0x56; 0x78] 1 = Ok 0x12345678 ↔
   is_u32 0x12345678 ∧
   ∀ j, 0 ≤ j < 4 →
     vec_get [0; 0x12; 0x34; 0x56; 0x78] (1 + j) = vec_get (word_bytes 0x12345678) j) ∧
  (¬ (0 ≤ 1 ∧ 1 + 3 < vec_size [0; 0x12; 0x34; 0x56; 0x78]) →
   read_u32_be [0; 0x12; 0x34; 0x56; 0x78] 1 = Undefined).
Proof.
  apply (read_u32_be_round_trip [0; 0x12; 0x34; 0x56; 0x78] 1 0x12345678).
  repeat constructor; unfold is_byte; lia.
Defined.

Lemma r_pass3_only_adds_edges_witness :
  ∃ st',
    r_pass3 call_and_return call_and_return_state = Ok st' ∧
    length (rinsns st') = length (rinsns call_and_return_state) ∧
    functions st' = functions call_and_return_state ∧
    label_addresses st' = label_addresses call_and_return_state ∧
    li_function_pointers st' = li_function_pointers call_and_return_state ∧
    ∀ (j : nat) r, rinsns call_and_return_state !! j = Some r →
      ∃ r', rinsns st' !! j = Some r' ∧ same_but_edges r r'.
Proof.
  eexists. split; [vm_compute; reflexivity|].
  apply (r_pass3_only_adds_edges call_and_return call_and_return_state).
  vm_compute. reflexivity.
Defined.

Lemma r_pass6_bounds_witness :
  ∃ st' f',
    r_pass6 two_returns two_returns_analysed = Ok st' ∧
    functions st' !! 0x400018 = Some f' ∧
    rinsns st' = rinsns two_returns_analysed ∧
    label_addresses st' = label_addresses two_returns_analysed ∧
    li_function_pointers st' = li_function_pointers two_returns_analysed ∧
    (∀ a, is_Some (functions st' !! a) ↔ is_Some (functions two_returns_analysed !! a)) ∧
    ∃ f, functions two_returns_analysed !! 0x400018 = Some f ∧
      returns f' = returns f ∧ end_addr f' = end_addr f ∧
      referenced_by_function_pointer f' = referenced_by_function_pointer f ∧
      (0 ≤ nret f ≤ 2 → nret f ≤ nret f' ≤ 2) ∧
      (0 ≤ nargs f ≤ 4 → 0 ≤ nargs f' ≤ 4) ∧
      (referenced_by_function_pointer f = true → v0_in f' = false).
Proof.
  eexists _, _. split; [vm_compute; reflexivity|].
  split; [vm_compute; reflexivity|].
  apply (r_pass6_bounds two_returns two_returns_analysed _ 0x400018).
  - vm_compute. reflexivity.
  - vm_compute. reflexivity.
Defined.

Lemma r_pass6_idempotent_witness :
  ∃ st',
    r_pass6 two_returns two_returns_analysed = Ok st' ∧
    r_pass6 two_returns st' = Ok st'.
Proof.
  eexists. split; [vm_compute; reflexivity|].
  apply (r_pass6_idempotent two_returns two_returns_analysed).
  vm_compute. reflexivity.
Defined.

Lemma inspect_data_function_pointers_records_witness :
  ∃ ret' st',
    inspect_data_function_pointers two_returns 0 0 [] pointer_section 0x10000000 12
      two_returns_state = Ok (ret', st') ∧
    ret' = [(0x10000000, 0x400018)] ∧
    rinsns st' = rinsns two_returns_state ∧
    li_function_pointers st' = li_function_pointers two_returns_state ∧
    records_kept two_returns_state st' ∧
    ∃ found, ret' = [] ++ found ∧
      found = omap (word_taken two_returns 0 0 pointer_section 0x10000000)
                   (seq 0 (Z.to_nat ((12 + 3) / 4))) ∧
      (∀ loc addr, (loc, addr) ∈ found ↔
         ∃ k : nat, (k < Z.to_nat ((12 + 3) / 4))%nat ∧
           loc = u32 (0x10000000 + 4 * Z.of_nat k) ∧
           read_u32_be pointer_section (4 * Z.of_nat k) = Ok addr ∧
           assumed_pointer two_returns 0 0 0x10000000 (4 * Z.of_nat k) addr = true) ∧
      (∀ a, a ∈ label_addresses st' ↔
            a ∈ label_addresses two_returns_state ∨ ∃ loc, (loc, a) ∈ found) ∧
      (∀ a, is_Some (functions st' !! a) ↔
            is_Some (functions two_returns_state !! a) ∨ ∃ loc, (loc, a) ∈ found) ∧
      (∀ loc a, (loc, a) ∈ found →
         ∃ f, functions st' !! a = Some f ∧ referenced_by_function_pointer f = true).
Proof.
  eexists _, _. split; [vm_compute; reflexivity|].
  split; [reflexivity|].
  apply (inspect_data_function_pointers_records two_returns 0 0 [] pointer_section
           0x10000000 12 two_returns_state).
  vm_compute. reflexivity.
Defined.

Lemma r_pass2_end_addr_witness :
  ∃ st' f',
    r_pass2 two_returns two_returns_resolved = Ok st' ∧
    functions st' !! 0x400000 = Some f' ∧
    end_addr f' = 0x400018 ∧
    ((0x400000 < end_addr f' ∧ is_Some (functions st' !! end_addr f') ∧
      ∀ k', is_Some (functions st' !! k') → 0x400000 < k' → end_addr f' ≤ k')
     ∨ (end_addr f' = u32 (text_vaddr two_returns + text_section_len two_returns) ∧
        ∀ k', is_Some (functions st' !! k') → k' ≤ 0x400000)).
Proof.
  eexists _, _. split; [vm_compute; reflexivity|].
  split; [vm_compute; reflexivity|]. split; [reflexivity|].
  apply (r_pass2_end_addr two_returns two_returns_resolved _ 0x400000).
  - vm_compute. reflexivity.
  - vm_compute. reflexivity.
Defined.

Lemma r_pass2_keeps_records_witness :
  ∃ st',
    r_pass2 two_returns two_returns_resolved = Ok st' ∧
    functions st' = two_returns_functions ∧
    length (rinsns st') = length (rinsns two_returns_resolved) ∧
    label_addresses st' = label_addresses two_returns_resolved ∧
    ∀ a f, functions two_returns_resolved !! a = Some f →
      ∃ f', functions st' !! a = Some f' ∧
        (∃ ext, returns f' = returns f ++ ext) ∧
        nargs f' = nargs f ∧ nret f' = nret f ∧ v0_in f' = v0_in f ∧
        (referenced_by_function_pointer f = true →
         referenced_by_function_pointer f' = true).
Proof.
  eexists. split; [vm_compute; reflexivity|].
  split; [vm_compute; reflexivity|].
  apply (r_pass2_keeps_records two_returns two_returns_resolved).
  vm_compute. reflexivity.
Defined.

Lemma r_pass2_records_every_return_witness :
  ∃ st' insn,
    r_pass2 two_returns two_returns_resolved = Ok st' ∧
    rinsns two_returns_resolved !! 8%nat = Some insn ∧
    is_jr_ra insn = true ∧
    ∃ k f, functions st' !! k = Some f ∧ k ≤ i_to_addr two_returns (Z.of_nat 8)
           ∧ u32 (i_to_addr two_returns (Z.of_nat 8) + 4) ∈ returns f.
Proof.
  eexists _, _. split; [vm_compute; reflexivity|].
  split; [vm_compute; reflexivity|]. split; [vm_compute; reflexivity|].
  eapply (r_pass2_records_every_return two_returns two_returns_resolved _ 8).
  - vm_compute. reflexivity.
  - vm_compute. reflexivity.
  - vm_compute. reflexivity.
Defined.

Lemma r_pass1_keeps_words_witness :
  ∃ st',
    r_pass1 pic_static_call pic_static_call_state = Ok st' ∧
    length (rinsns st') = length (rinsns pic_static_call_state) ∧
    li_function_pointers st' = li_function_pointers pic_static_call_state ∧
    label_addresses pic_static_call_state ⊆ label_addresses st' ∧
    (∀ a f, functions pic_static_call_state !! a = Some f → functions st' !! a = Some f) ∧
    ∀ (j : nat) r, rinsns pic_static_call_state !! j = Some r →
      ∃ r', rinsns st' !! j = Some r' ∧ keeps_word r r'.
Proof.
  eexists. split; [vm_compute; reflexivity|].
  apply (r_pass1_keeps_words pic_static_call pic_static_call_state).
  vm_compute. reflexivity.
Defined.

Lemma addr_to_i_round_trip_witness :
  addr_to_i two_returns (i_to_addr two_returns 6) = 6 ∧
  (∀ addr, 0 ≤ addr_to_i two_returns addr < 2 ^ 30) ∧
  (∀ addr, (addr - text_vaddr two_returns) `mod` 4 = 0 →
           i_to_addr two_returns (addr_to_i two_returns addr) = u32 addr).
Proof. apply (addr_to_i_round_trip two_returns 6). lia. Defined.

Lemma r_pass4_fixed_point_witness :
  ∃ st',
    r_pass4 two_returns two_returns_cfg = Ok st' ∧
    ∀ r, r ∈ rinsns st' →
      f_livein r = 0 ∨
      mask_subset
        (f_transfer (r_insn_to_type r).1 (instruction (r_insn_to_type r).2)
           (Z.lor (f_livein r) 1))
        (f_liveout r).
Proof.
  eexists. split; [vm_compute; reflexivity|].
  apply (r_pass4_fixed_point two_returns two_returns_cfg).
  - vm_compute. discriminate.
  - apply Forall_forall. vm_compute. repeat constructor.
  - vm_compute. reflexivity.
Defined.

Lemma r_link_bounded_lookback_witness :
  ∃ st',
    r_link_with_jalr pic_static_call 2 pic_static_call_state = Ok st' ∧
    length (rinsns st') = length (rinsns pic_static_call_state) ∧
    ∀ j : nat, Z.of_nat j < 2 - MAX_LOOKBACK ∨ 2 < Z.of_nat j →
      rinsns st' !! j = rinsns pic_static_call_state !! j.
Proof.
  eexists. split; [vm_compute; reflexivity|].
  apply (r_link_bounded_lookback pic_static_call 2 0 0 pic_static_call_state);
    [lia|right; vm_compute; reflexivity].
Defined.

Lemma r_pass5_fixed_point_witness :
  ∃ st',
    r_pass5 two_returns two_returns_forward = Ok st' ∧
    ∀ r, r ∈ rinsns st' →
      (f_livein r = 0 ∧ b_liveout r = 0) ∨
      mask_subset
        (b_transfer (r_insn_to_type r).1 (instruction (r_insn_to_type r).2)
           (Z.lor (b_liveout r) 1))
        (b_livein r).
Proof.
  eexists. split; [vm_compute; reflexivity|].
  apply (r_pass5_fixed_point two_returns two_returns_forward).
  - vm_compute. discriminate.
  - apply Forall_forall. vm_compute. repeat constructor.
  - vm_compute. reflexivity.
Defined.

Lemma r_pass4_flows_along_edges_witness :
  ∃ st',
    r_pass4 two_returns two_returns_cfg = Ok st' ∧
    ∀ (j : nat) r e nl t,
      rinsns st' !! j = Some r → f_liveout r ≠ 0 →
      e ∈ successors r → extern_function e = false →
      f_edge_live two_returns (Z.of_nat j) (f_liveout r) e st' = Ok nl →
      get_insn st' (edge_i e) = Ok t →
      mask_subset nl (f_livein t).
Proof.
  eexists. split; [vm_compute; reflexivity|].
  apply (r_pass4_flows_along_edges two_returns two_returns_cfg).
  - apply Forall_forall. vm_compute. repeat constructor.
  - vm_compute. reflexivity.
Defined.

Lemma r_pass5_flows_along_edges_witness :
  ∃ st',
    r_pass5 two_returns two_returns_forward = Ok st' ∧
    ∀ (j : nat) r e nl t,
      rinsns st' !! j = Some r → b_livein r ≠ 0 →
      e ∈ predecessors r → extern_function e = false →
      b_edge_live two_returns (Z.of_nat j) (b_livein r) r e st' = Ok nl →
      get_insn st' (edge_i e) = Ok t →
      mask_subset nl (b_liveout t).
Proof.
  eexists. split; [vm_compute; reflexivity|].
  apply (r_pass5_flows_along_edges two_returns two_returns_forward).
  - apply Forall_forall. vm_compute. repeat constructor.
  - vm_compute. reflexivity.
Defined.

Lemma r_pass4_liveout_holds_livein_witness :
  ∃ st',
    r_pass4 two_returns two_returns_cfg = Ok st' ∧
    ∀ r, r ∈ rinsns st' → f_livein r ≠ 0 →
      mask_subset (f_livein r) (f_liveout r) ∧ Z.testbit (f_liveout r) 0 = true.
Proof.
  eexists. split; [vm_compute; reflexivity|].
  apply (r_pass4_liveout_holds_livein two_returns two_returns_cfg).
  - vm_compute. discriminate.
  - apply Forall_forall. vm_compute. repeat constructor.
  - vm_compute. reflexivity.
Defined.

Lemma liveness_passes_only_write_masks_witness :
  ∃ st4 st5,
    r_pass4 two_returns two_returns_cfg = Ok st4 ∧
    r_pass5 two_returns st4 = Ok st5 ∧
    length (rinsns st5) = length (rinsns two_returns_cfg) ∧
    label_addresses st5 = label_addresses two_returns_cfg ∧
    li_function_pointers st5 = li_function_pointers two_returns_cfg ∧
    (∀ a f, functions two_returns_cfg !! a = Some f → functions st5 !! a = Some f) ∧
    ∀ (j : nat) r, rinsns two_returns_cfg !! j = Some r →
      ∃ r4 r5, rinsns st4 !! j = Some r4 ∧ rinsns st5 !! j = Some r5 ∧
        same_but_masks r r5 ∧
        b_livein r4 = b_livein r ∧ b_liveout r4 = b_liveout r ∧
        f_livein r5 = f_livein r4 ∧ f_liveout r5 = f_liveout r4.
Proof.
  eexists _, _. split; [vm_compute; reflexivity|]. split; [vm_compute; reflexivity|].
  apply (liveness_passes_only_write_masks two_returns two_returns_cfg);
    vm_compute; reflexivity.
Defined.
